(** * Octree builder of O-CNN-AS: header metadata and octree construction

    A shallow embedding of [OctreeInfo] (octree_info.cpp) and of the
    structural stages of [Octree] (octree.cpp): key sorting, run
    compaction, bottom-up structure build, node counting, the ranges of
    covered finest nodes, adaptive trimming, and the feature
    concatenation and layer copy of the serializer.

    Conventions.  C++ [int] and [uint32] values are integers of [Z]; the
    places where the source relies on 32-bit wrap-around spell it out with
    [wrap_int] and [wrap_uint32].  A [std::vector] is a [list]; a store
    [v[i] = x] is stdpp's [<[i:=x]> v] and a load [v[i]] is [v !!! i].
    Loads and stores outside the vector are undefined behaviour in the
    source; the theorems carry the hypotheses that keep every access in
    range.  Loop counters are natural numbers. *)

From Stdlib Require Import ZArith Lia Bool.
From stdpp Require Import base numbers list strings pretty sorting.

Local Open Scope Z_scope.

(** ** Machine integers *)

(** Conversion of a mathematical integer to [int] (two's complement). *)
Definition wrap_int (z : Z) : Z := (z + 2 ^ 31) mod 2 ^ 32 - 2 ^ 31.

(** Conversion of a mathematical integer to [uint32]. *)
Definition wrap_uint32 (z : Z) : Z := z mod 2 ^ 32.

(** ** Single-precision values

    Only comparisons of [float] values are embedded.  A finite binary32
    number is an integer multiple of [2^-149]; [FFin m] stands for
    [m * 2^-149].  Both zeros are [FFin 0]. *)
Inductive float : Type :=
  | FNaN : float
  | FInf (negative : bool) : float
  | FFin (m : Z) : float.

#[global] Instance float_inhabited : Inhabited float := populate (FFin 0).

(** IEEE 754 [a < b]: false as soon as one side is a NaN. *)
Definition flt (a b : float) : bool :=
  match a, b with
  | FNaN, _ | _, FNaN => false
  | FInf true, FInf true => false
  | FInf true, _ => true
  | _, FInf true => false
  | FInf false, _ => false
  | _, FInf false => true
  | FFin x, FFin y => x <? y
  end.

(** IEEE 754 [a > b]. *)
Definition fgt (a b : float) : bool := flt b a.

(** The literal [-1.0f]. *)
Definition f_minus_one : float := FFin (- 2 ^ 149).

(** ** OctreeInfo *)

Definition nl : string := String (Ascii.ascii_of_nat 10) EmptyString.

(** [OctreeInfo::kMagicStr] *)
Definition kMagicStr : string := "_OCTREE_1.0_".

(** Modelled from the spec: [kPTypeNum], declared in octree_info.h which is
    not among the sources.  Section 6 of the specification gives six
    channel slots, and the cap table of [check_format] has six entries. *)
Definition kPTypeNum : nat := 6.

(** Modelled from the spec: [sizeof(OctreeInfo)], the sum of the field
    sizes of the header layout of section 6 (16 bytes of magic string,
    seven [i32] scalars, [channels[6]], [locations[6]], three arrays of 16
    [i32], [ptr_dis[8]], [content_flags], two thresholds and six bounding
    box floats). *)
Definition sizeof_OctreeInfo : Z :=
  16 + 7 * 4 + 6 * 4 + 6 * 4 + 3 * (16 * 4) + 8 * 4 + 4 + 2 * 4 + 6 * 4.

(** Modelled from the spec: the fields of the header (octree_info.h is not
    among the sources), with the names the member functions use.  The
    bounding box is left out: no embedded operation reads it. *)
Record OctreeInfo : Type := mkOctreeInfo {
  magic_str_ : string;
  batch_size_ : Z;
  depth_ : Z;
  full_layer_ : Z;
  is_adaptive_ : bool;
  adp_layer_ : Z;
  has_displace_ : bool;
  key2xyz_ : bool;
  channels_ : list Z;
  locations_ : list Z;
  nnum_ : list Z;
  nnum_cum_ : list Z;
  nnum_nempty_ : list Z;
  ptr_dis_ : list Z;
  content_flags_ : Z;
  threshold_dist_ : float;
  threshold_norm_ : float
}.

Definition with_batch_size (v : Z) (o : OctreeInfo) : OctreeInfo :=
  mkOctreeInfo (magic_str_ o) v (depth_ o) (full_layer_ o) (is_adaptive_ o)
    (adp_layer_ o) (has_displace_ o) (key2xyz_ o) (channels_ o)
    (locations_ o) (nnum_ o) (nnum_cum_ o) (nnum_nempty_ o) (ptr_dis_ o)
    (content_flags_ o) (threshold_dist_ o) (threshold_norm_ o).

Definition with_depth (v : Z) (o : OctreeInfo) : OctreeInfo :=
  mkOctreeInfo (magic_str_ o) (batch_size_ o) v (full_layer_ o)
    (is_adaptive_ o) (adp_layer_ o) (has_displace_ o) (key2xyz_ o)
    (channels_ o) (locations_ o) (nnum_ o) (nnum_cum_ o) (nnum_nempty_ o)
    (ptr_dis_ o) (content_flags_ o) (threshold_dist_ o) (threshold_norm_ o).

Definition with_full_layer (v : Z) (o : OctreeInfo) : OctreeInfo :=
  mkOctreeInfo (magic_str_ o) (batch_size_ o) (depth_ o) v (is_adaptive_ o)
    (adp_layer_ o) (has_displace_ o) (key2xyz_ o) (channels_ o)
    (locations_ o) (nnum_ o) (nnum_cum_ o) (nnum_nempty_ o) (ptr_dis_ o)
    (content_flags_ o) (threshold_dist_ o) (threshold_norm_ o).

Definition with_is_adaptive (v : bool) (o : OctreeInfo) : OctreeInfo :=
  mkOctreeInfo (magic_str_ o) (batch_size_ o) (depth_ o) (full_layer_ o) v
    (adp_layer_ o) (has_displace_ o) (key2xyz_ o) (channels_ o)
    (locations_ o) (nnum_ o) (nnum_cum_ o) (nnum_nempty_ o) (ptr_dis_ o)
    (content_flags_ o) (threshold_dist_ o) (threshold_norm_ o).

Definition with_adp_layer (v : Z) (o : OctreeInfo) : OctreeInfo :=
  mkOctreeInfo (magic_str_ o) (batch_size_ o) (depth_ o) (full_layer_ o)
    (is_adaptive_ o) v (has_displace_ o) (key2xyz_ o) (channels_ o)
    (locations_ o) (nnum_ o) (nnum_cum_ o) (nnum_nempty_ o) (ptr_dis_ o)
    (content_flags_ o) (threshold_dist_ o) (threshold_norm_ o).

Definition with_has_displace (v : bool) (o : OctreeInfo) : OctreeInfo :=
  mkOctreeInfo (magic_str_ o) (batch_size_ o) (depth_ o) (full_layer_ o)
    (is_adaptive_ o) (adp_layer_ o) v (key2xyz_ o) (channels_ o)
    (locations_ o) (nnum_ o) (nnum_cum_ o) (nnum_nempty_ o) (ptr_dis_ o)
    (content_flags_ o) (threshold_dist_ o) (threshold_norm_ o).

Definition with_key2xyz (v : bool) (o : OctreeInfo) : OctreeInfo :=
  mkOctreeInfo (magic_str_ o) (batch_size_ o) (depth_ o) (full_layer_ o)
    (is_adaptive_ o) (adp_layer_ o) (has_displace_ o) v (channels_ o)
    (locations_ o) (nnum_ o) (nnum_cum_ o) (nnum_nempty_ o) (ptr_dis_ o)
    (content_flags_ o) (threshold_dist_ o) (threshold_norm_ o).

Definition with_channels (v : list Z) (o : OctreeInfo) : OctreeInfo :=
  mkOctreeInfo (magic_str_ o) (batch_size_ o) (depth_ o) (full_layer_ o)
    (is_adaptive_ o) (adp_layer_ o) (has_displace_ o) (key2xyz_ o) v
    (locations_ o) (nnum_ o) (nnum_cum_ o) (nnum_nempty_ o) (ptr_dis_ o)
    (content_flags_ o) (threshold_dist_ o) (threshold_norm_ o).

Definition with_locations (v : list Z) (o : OctreeInfo) : OctreeInfo :=
  mkOctreeInfo (magic_str_ o) (batch_size_ o) (depth_ o) (full_layer_ o)
    (is_adaptive_ o) (adp_layer_ o) (has_displace_ o) (key2xyz_ o)
    (channels_ o) v (nnum_ o) (nnum_cum_ o) (nnum_nempty_ o) (ptr_dis_ o)
    (content_flags_ o) (threshold_dist_ o) (threshold_norm_ o).

Definition with_nnum (v : list Z) (o : OctreeInfo) : OctreeInfo :=
  mkOctreeInfo (magic_str_ o) (batch_size_ o) (depth_ o) (full_layer_ o)
    (is_adaptive_ o) (adp_layer_ o) (has_displace_ o) (key2xyz_ o)
    (channels_ o) (locations_ o) v (nnum_cum_ o) (nnum_nempty_ o)
    (ptr_dis_ o) (content_flags_ o) (threshold_dist_ o) (threshold_norm_ o).

Definition with_nnum_cum (v : list Z) (o : OctreeInfo) : OctreeInfo :=
  mkOctreeInfo (magic_str_ o) (batch_size_ o) (depth_ o) (full_layer_ o)
    (is_adaptive_ o) (adp_layer_ o) (has_displace_ o) (key2xyz_ o)
    (channels_ o) (locations_ o) (nnum_ o) v (nnum_nempty_ o) (ptr_dis_ o)
    (content_flags_ o) (threshold_dist_ o) (threshold_norm_ o).

Definition with_nnum_nempty (v : list Z) (o : OctreeInfo) : OctreeInfo :=
  mkOctreeInfo (magic_str_ o) (batch_size_ o) (depth_ o) (full_layer_ o)
    (is_adaptive_ o) (adp_layer_ o) (has_displace_ o) (key2xyz_ o)
    (channels_ o) (locations_ o) (nnum_ o) (nnum_cum_ o) v (ptr_dis_ o)
    (content_flags_ o) (threshold_dist_ o) (threshold_norm_ o).

Definition with_ptr_dis (v : list Z) (o : OctreeInfo) : OctreeInfo :=
  mkOctreeInfo (magic_str_ o) (batch_size_ o) (depth_ o) (full_layer_ o)
    (is_adaptive_ o) (adp_layer_ o) (has_displace_ o) (key2xyz_ o)
    (channels_ o) (locations_ o) (nnum_ o) (nnum_cum_ o) (nnum_nempty_ o) v
    (content_flags_ o) (threshold_dist_ o) (threshold_norm_ o).

Definition with_content_flags (v : Z) (o : OctreeInfo) : OctreeInfo :=
  mkOctreeInfo (magic_str_ o) (batch_size_ o) (depth_ o) (full_layer_ o)
    (is_adaptive_ o) (adp_layer_ o) (has_displace_ o) (key2xyz_ o)
    (channels_ o) (locations_ o) (nnum_ o) (nnum_cum_ o) (nnum_nempty_ o)
    (ptr_dis_ o) v (threshold_dist_ o) (threshold_norm_ o).

Definition with_threshold_dist (v : float) (o : OctreeInfo) : OctreeInfo :=
  mkOctreeInfo (magic_str_ o) (batch_size_ o) (depth_ o) (full_layer_ o)
    (is_adaptive_ o) (adp_layer_ o) (has_displace_ o) (key2xyz_ o)
    (channels_ o) (locations_ o) (nnum_ o) (nnum_cum_ o) (nnum_nempty_ o)
    (ptr_dis_ o) (content_flags_ o) v (threshold_norm_ o).

Definition with_threshold_norm (v : float) (o : OctreeInfo) : OctreeInfo :=
  mkOctreeInfo (magic_str_ o) (batch_size_ o) (depth_ o) (full_layer_ o)
    (is_adaptive_ o) (adp_layer_ o) (has_displace_ o) (key2xyz_ o)
    (channels_ o) (locations_ o) (nnum_ o) (nnum_cum_ o) (nnum_nempty_ o)
    (ptr_dis_ o) (content_flags_ o) (threshold_dist_ o) v.

(** [OctreeInfo::reset]: [memset] to zero, then the magic string. *)
Definition reset : OctreeInfo :=
  mkOctreeInfo kMagicStr 0 0 0 false 0 false false
    (replicate 6 0) (replicate 6 0) (replicate 16 0) (replicate 16 0)
    (replicate 16 0) (replicate 8 0) 0 (FFin 0) (FFin 0).

(** Modelled from the spec: [has_property], an inline member of the absent
    header; it tests the property's bit of [content_flags_], as the
    sibling [PtsInfo::has_property] of points.h does. *)
Definition has_property (o : OctreeInfo) (ptype : Z) : bool :=
  negb (Z.land (content_flags_ o) ptype =? 0).

(** [OctreeInfo::property_index]: the position of the lowest set bit among
    the first [kPTypeNum], and 0 when there is none. *)
Fixpoint property_index_from (p : Z) (i fuel : nat) : nat :=
  match fuel with
  | O => 0%nat
  | S fuel' =>
      if negb (Z.land p (Z.shiftl 1 (Z.of_nat i)) =? 0) then i
      else property_index_from p (S i) fuel'
  end.

Definition property_index (ptype : Z) : nat :=
  property_index_from ptype 0 kPTypeNum.

(** [OctreeInfo::channel] *)
Definition channel (o : OctreeInfo) (ptype : Z) : Z :=
  if negb (has_property o ptype) then 0
  else channels_ o !!! property_index ptype.

(** [OctreeInfo::locations] *)
Definition locations (o : OctreeInfo) (ptype : Z) : Z :=
  if negb (has_property o ptype) then 0
  else locations_ o !!! property_index ptype.

(** Modelled from the spec: the accessors [nnum(d)], [nnum_nempty(d)],
    [total_nnum()] and [total_nnum_capacity()] of the absent header.  The
    last two read the two cells that [set_nnum_cum] writes past the
    per-layer prefix sums. *)
Definition nnum (o : OctreeInfo) (d : Z) : Z := nnum_ o !!! Z.to_nat d.

Definition nnum_nempty (o : OctreeInfo) (d : Z) : Z :=
  nnum_nempty_ o !!! Z.to_nat d.

Definition total_nnum (o : OctreeInfo) : Z :=
  nnum_cum_ o !!! Z.to_nat (depth_ o + 1).

Definition total_nnum_capacity (o : OctreeInfo) : Z :=
  nnum_cum_ o !!! Z.to_nat (depth_ o + 2).

(** [OctreeInfo::set_batch_size] *)
Definition set_batch_size (b : Z) (o : OctreeInfo) : OctreeInfo :=
  with_batch_size (if b <? 1 then 1 else b) o.

(** [OctreeInfo::set_depth] *)
Definition set_depth (d : Z) (o : OctreeInfo) : OctreeInfo :=
  with_depth (if full_layer_ o <? d then d else full_layer_ o) o.

(** [OctreeInfo::set_full_layer] *)
Definition set_full_layer (fd : Z) (o : OctreeInfo) : OctreeInfo :=
  with_full_layer (if fd <? 1 then 1 else fd) o.

(** Modelled from the spec: the remaining setters are inline members of
    the absent header; each stores its argument in the field it names. *)
Definition set_adaptive_layer (d : Z) (o : OctreeInfo) : OctreeInfo :=
  with_adp_layer d o.

Definition set_adaptive (b : bool) (o : OctreeInfo) : OctreeInfo :=
  with_is_adaptive b o.

Definition set_node_dis (b : bool) (o : OctreeInfo) : OctreeInfo :=
  with_has_displace b o.

Definition set_key2xyz (b : bool) (o : OctreeInfo) : OctreeInfo :=
  with_key2xyz b o.

Definition set_threshold_normal (t : float) (o : OctreeInfo) : OctreeInfo :=
  with_threshold_norm t o.

Definition set_threshold_dist (t : float) (o : OctreeInfo) : OctreeInfo :=
  with_threshold_dist t o.

(** [OctreeInfo::set_channel] *)
Definition set_channel (ptype ch : Z) (o : OctreeInfo) : OctreeInfo :=
  let i := property_index ptype in
  if 0 <? ch then
    with_content_flags (Z.lor (content_flags_ o) ptype)
      (with_channels (<[i := ch]> (channels_ o)) o)
  else
    with_content_flags (Z.land (content_flags_ o) (Z.lnot ptype))
      (with_channels (<[i := 0]> (channels_ o)) o).

(** [OctreeInfo::set_location] *)
Definition set_location (ptype lc : Z) (o : OctreeInfo) : OctreeInfo :=
  with_locations (<[property_index ptype := lc]> (locations_ o)) o.

(** [OctreeInfo::set_property] *)
Definition set_property (ptype ch lc : Z) (o : OctreeInfo) : OctreeInfo :=
  set_location ptype lc (set_channel ptype ch o).

(** [OctreeInfo::set_nnum] and [OctreeInfo::set_nempty]: [memcpy] of the
    first [depth_ + 1] entries. *)
Definition copy_prefix (n : nat) (src dst : list Z) : list Z :=
  foldl (fun acc i => <[i := src !!! i]> acc) dst (seq 0 n).

Definition set_nnum (num : list Z) (o : OctreeInfo) : OctreeInfo :=
  with_nnum (copy_prefix (Z.to_nat (depth_ o + 1)) num (nnum_ o)) o.

Definition set_nempty (num : list Z) (o : OctreeInfo) : OctreeInfo :=
  with_nnum_nempty
    (copy_prefix (Z.to_nat (depth_ o + 1)) num (nnum_nempty_ o)) o.

(** [OctreeInfo::set_nnum_cum] *)
Definition set_nnum_cum (capacity : Z) (o : OctreeInfo) : OctreeInfo :=
  let top := Z.to_nat (depth_ o + 1) in
  let cum :=
    foldl (fun acc d =>
             <[d := wrap_int (acc !!! (d - 1)%nat + nnum_ o !!! (d - 1)%nat)]>
               acc)
          (<[0%nat := 0]> (nnum_cum_ o)) (seq 1 top) in
  let last := cum !!! top in
  with_nnum_cum
    (<[S top := if last <? capacity then capacity else last]> cum) o.

(** Modelled from the spec: the default argument of [set_nnum_cum], given
    in the absent header; [calc_node_num] calls it without argument and
    section 8 makes the offsets use the total node count. *)
Definition default_capacity : Z := 0.

(** [OctreeInfo::set_ptr_dis].  The product is formed in [size_t] and the
    sum is stored into an [int]. *)
Definition set_ptr_dis (o : OctreeInfo) : OctreeInfo :=
  let step acc i :=
    let ptype := Z.shiftl 1 (Z.of_nat i - 1) in
    let lc := locations o ptype in
    let num := if lc =? -1 then total_nnum_capacity o else nnum o lc in
    <[i := wrap_int (acc !!! (i - 1)%nat
                     + 4 * num * (channels_ o !!! (i - 1)%nat))]> acc in
  with_ptr_dis
    (foldl step (<[0%nat := sizeof_OctreeInfo]> (ptr_dis_ o))
       (seq 1 kPTypeNum)) o.

(** [OctreeInfo::ptr_dis].  The product of the two [int] values is formed
    first, scaled by [sizeof(int)] in [size_t], and the sum is stored back
    into the [int] [dis]. *)
Definition ptr_dis (o : OctreeInfo) (ptype depth : Z) : Z :=
  if negb (has_property o ptype) then -1
  else
    let i := property_index ptype in
    let dis := ptr_dis_ o !!! i in
    if locations o ptype =? -1 then
      wrap_int
        (dis + wrap_int (nnum_cum_ o !!! Z.to_nat depth * channel o ptype) * 4)
    else dis.

(** ** PtsInfo (points.h) *)

Module PtsInfo.

(** [enum PropType] of points.h *)
Definition kPoint : Z := 1.
Definition kNormal : Z := 2.
Definition kFeature : Z := 4.
Definition KFPFH : Z := 8.
Definition KRoughness : Z := 16.
Definition kLabel : Z := 32.

Record t : Type := mk {
  pt_num_ : Z;
  content_flags_ : Z;
  channels_ : list Z
}.

Definition has_property (p : t) (ptype : Z) : bool :=
  negb (Z.land (content_flags_ p) ptype =? 0).

(** Modelled from the spec: [PtsInfo::channel] is declared in points.h
    and defined in a file that is not among the sources; it is the
    channel count of an attribute, 0 for an attribute that is absent,
    like the sibling [OctreeInfo::channel]. *)
Definition channel (p : t) (ptype : Z) : Z :=
  if negb (has_property p ptype) then 0
  else channels_ p !!! property_index ptype.

End PtsInfo.

Section Initialize.

(** The enumerators of [OctreeInfo::PropType] are declared in the absent
    header: one bit mask per property. *)
Variables kKey kChild kFeature kLabel kSplit : Z.

(** [OctreeInfo::initialize] *)
Definition initialize (depth full_depth : Z)
    (node_displacement node_feature split_label adaptive : bool)
    (adaptive_depth : Z) (threshold_distance threshold_normal : float)
    (key2xyz : bool) (pt_info : PtsInfo.t) (o : OctreeInfo) : OctreeInfo :=
  let o := set_batch_size 1 o in
  let o := set_depth depth o in
  let o := set_full_layer full_depth o in
  let o := set_adaptive_layer adaptive_depth o in
  let o := set_adaptive adaptive o in
  let o := set_node_dis node_displacement o in
  let o := set_key2xyz key2xyz o in
  let o := set_threshold_normal threshold_normal o in
  let o := set_threshold_dist threshold_distance o in
  (* by default, the octree contains Key and Child *)
  let channel := if key2xyz && (8 <? depth) then 2 else 1 in
  let o := set_channel kKey channel o in
  let o := set_location kKey (-1) o in
  let o := set_channel kChild 1 o in
  let o := set_location kChild (-1) o in
  (* set split label *)
  let o :=
    if split_label
    then set_location kSplit (-1) (set_channel kSplit 1 o)
    else o in
  (* set feature *)
  let channel :=
    wrap_int (PtsInfo.channel pt_info PtsInfo.kNormal
              + PtsInfo.channel pt_info PtsInfo.kFeature
              + PtsInfo.channel pt_info PtsInfo.KFPFH
              + PtsInfo.channel pt_info PtsInfo.KRoughness) in
  let channel :=
    if node_displacement then wrap_int (channel + 1) else channel in
  let o := set_channel kFeature channel o in
  let location := if node_feature || adaptive then -1 else depth in
  let o := set_location kFeature location o in
  (* set label *)
  if PtsInfo.channel pt_info PtsInfo.kLabel =? 1 then
    let o := set_channel kLabel 1 o in
    let location := if node_feature || adaptive then -1 else depth in
    set_location kLabel location o
  else o.

End Initialize.

(** The cap table [channel_max] of [check_format]. *)
Definition channel_max : list Z := [2; 1; 8; Z.shiftl 1 30; 1; 1].

(** One round of the property loop of [check_format]. *)
Definition check_property (o : OctreeInfo) (msg : string) (i : nat) : string :=
  let str := pretty (Z.of_nat i) in
  let ch := channels_ o !!! i in
  let msg :=
    if (ch <? 0) && (channel_max !!! i <? ch) then
      msg +:+ "The channel " +:+ str +:+ " should be in range [0, "
          +:+ pretty (channel_max !!! i) +:+ "]." +:+ nl
    else msg in
  let msg :=
    if negb (Bool.eqb (ch =? 0)
               (Z.land (content_flags_ o) (Z.shiftl 1 (Z.of_nat i)) =? 0)) then
      msg +:+ "The content_flags_ should be consistent with channels_["
          +:+ str +:+ "]." +:+ nl
    else msg in
  if negb (ch =? 0) && negb (locations_ o !!! i =? -1)
     && negb (locations_ o !!! i =? depth_ o) then
    msg +:+ "The locations_[" +:+ str +:+ "] should be -1 or "
        +:+ pretty (depth_ o) +:+ "." +:+ nl
  else msg.

(** [OctreeInfo::check_format]: the returned flag is [msg.empty()]. *)
Definition check_format (o : OctreeInfo) : bool * string :=
  let msg := EmptyString in
  let msg :=
    if negb (String.eqb kMagicStr (magic_str_ o)) then
      msg +:+ "The version of octree format is not " +:+ kMagicStr
          +:+ "." +:+ nl
    else msg in
  let msg :=
    if batch_size_ o <? 0 then
      msg +:+ "The batch_size_ should be larger than 0." +:+ nl
    else msg in
  let msg :=
    if (depth_ o <? 1) || (8 <? depth_ o) then
      msg +:+ "The depth_ should be in range [1, 8]." +:+ nl
    else msg in
  let msg :=
    if (full_layer_ o <? 0) || (depth_ o <? full_layer_ o) then
      msg +:+ "The full_layer_ should be in range [1, depth_]." +:+ nl
    else msg in
  let msg :=
    if (adp_layer_ o <? full_layer_ o) || (depth_ o <? adp_layer_ o) then
      msg +:+ "The adp_layer_ should be in range [full_layer_, depth_]." +:+ nl
    else msg in
  let msg := foldl (check_property o) msg (seq 0 kPTypeNum) in
  (String.eqb msg EmptyString, msg).

(** ** Octree *)

(** Modelled from the spec: [node_type] and its result type are declared
    in the absent octree.h; a node is a leaf exactly when its entry of
    [children] is [-1] (invariant 5 of the data model). *)
Inductive NodeType : Type := kLeaf | kInternelNode.

#[global] Instance NodeType_eq_dec : EqDecision NodeType.
Proof. solve_decision. Defined.

Definition node_type (t : Z) : NodeType :=
  if t =? -1 then kLeaf else kInternelNode.

(** The builder state.  Of the per-layer vectors of the class, the ones
    that the embedded stages read or write. *)
Record Octree : Type := mkOctree {
  oct_info_ : OctreeInfo;
  keys_ : list (list Z);
  children_ : list (list Z);
  displacement_ : list (list float);
  avg_normals_ : list (list float);
  avg_features_ : list (list float);
  avg_fpfh_ : list (list float);
  avg_roughness_ : list (list float);
  avg_labels_ : list (list float);
  normal_err_ : list (list float);
  distance_err_ : list (list float)
}.

Definition put_oct_info (v : OctreeInfo) (t : Octree) : Octree :=
  mkOctree v (keys_ t) (children_ t) (displacement_ t) (avg_normals_ t)
    (avg_features_ t) (avg_fpfh_ t) (avg_roughness_ t) (avg_labels_ t)
    (normal_err_ t) (distance_err_ t).

Definition put_keys (v : list (list Z)) (t : Octree) : Octree :=
  mkOctree (oct_info_ t) v (children_ t) (displacement_ t) (avg_normals_ t)
    (avg_features_ t) (avg_fpfh_ t) (avg_roughness_ t) (avg_labels_ t)
    (normal_err_ t) (distance_err_ t).

Definition put_children (v : list (list Z)) (t : Octree) : Octree :=
  mkOctree (oct_info_ t) (keys_ t) v (displacement_ t) (avg_normals_ t)
    (avg_features_ t) (avg_fpfh_ t) (avg_roughness_ t) (avg_labels_ t)
    (normal_err_ t) (distance_err_ t).

Definition put_displacement (v : list (list float)) (t : Octree) : Octree :=
  mkOctree (oct_info_ t) (keys_ t) (children_ t) v (avg_normals_ t)
    (avg_features_ t) (avg_fpfh_ t) (avg_roughness_ t) (avg_labels_ t)
    (normal_err_ t) (distance_err_ t).

Definition put_avg_normals (v : list (list float)) (t : Octree) : Octree :=
  mkOctree (oct_info_ t) (keys_ t) (children_ t) (displacement_ t) v
    (avg_features_ t) (avg_fpfh_ t) (avg_roughness_ t) (avg_labels_ t)
    (normal_err_ t) (distance_err_ t).

Definition put_avg_features (v : list (list float)) (t : Octree) : Octree :=
  mkOctree (oct_info_ t) (keys_ t) (children_ t) (displacement_ t)
    (avg_normals_ t) v (avg_fpfh_ t) (avg_roughness_ t) (avg_labels_ t)
    (normal_err_ t) (distance_err_ t).

Definition put_avg_fpfh (v : list (list float)) (t : Octree) : Octree :=
  mkOctree (oct_info_ t) (keys_ t) (children_ t) (displacement_ t)
    (avg_normals_ t) (avg_features_ t) v (avg_roughness_ t) (avg_labels_ t)
    (normal_err_ t) (distance_err_ t).

Definition put_avg_roughness (v : list (list float)) (t : Octree) : Octree :=
  mkOctree (oct_info_ t) (keys_ t) (children_ t) (displacement_ t)
    (avg_normals_ t) (avg_features_ t) (avg_fpfh_ t) v (avg_labels_ t)
    (normal_err_ t) (distance_err_ t).

Definition put_avg_labels (v : list (list float)) (t : Octree) : Octree :=
  mkOctree (oct_info_ t) (keys_ t) (children_ t) (displacement_ t)
    (avg_normals_ t) (avg_features_ t) (avg_fpfh_ t) (avg_roughness_ t) v
    (normal_err_ t) (distance_err_ t).

(** [Octree::clear] on the embedded fields. *)
Definition clear (depth : Z) (t : Octree) : Octree :=
  let sized := if depth =? 0 then 0%nat else Z.to_nat (depth + 1) in
  let fresh {A} : list (list A) := replicate sized [] in
  mkOctree (oct_info_ t) fresh fresh fresh fresh fresh fresh fresh fresh
    fresh fresh.

(** *** Keys *)

(** [static_cast<uint32>] of a [float]: truncation towards zero.  The
    source only casts scaled coordinates, which lie in [[0, 2^depth]]. *)
Definition float_to_uint32 (f : float) : Z :=
  match f with
  | FFin m => wrap_uint32 (Z.quot m (2 ^ 149))
  | _ => 0
  end.

(** Modelled from the spec: [compute_key] is defined outside the sources;
    it interleaves the low [depth] bits of the three coordinates, three
    key bits per level, the child index of a node in the low three. *)
Definition compute_key (pt : list Z) (depth : nat) : Z :=
  foldl (fun key i =>
           foldl (fun key j =>
                    Z.lor key
                      (wrap_uint32
                         (Z.shiftl (Z.land (pt !!! j) (Z.shiftl 1 (Z.of_nat i)))
                            (Z.of_nat (2 * i + 2 - j)))))
                 key (seq 0 3))
        0 (seq 0 depth).

(** The 64-bit code of point [i]: [ptr[0] = i] is the low word and
    [ptr[1] = key] the high word. *)
Definition pack_code (key : Z) (i : nat) : Z :=
  Z.lor (Z.shiftl (wrap_uint32 key) 32) (wrap_uint32 (Z.of_nat i)).

(** The codes of a sequence of keys; [sort_keys] sorts them with
    [std::sort] and unpacks the two words. *)
Definition sort_codes (keys : list Z) : list Z :=
  merge_sort Z.le (imap (fun i key => pack_code key i) keys).

Definition unpack_keys (code : list Z) : list Z :=
  map (fun c => Z.shiftr c 32) code.

Definition unpack_idx (code : list Z) : list Z :=
  map (fun c => Z.land c (2 ^ 32 - 1)) code.

(** [Octree::sort_keys]: the pair [(sorted_keys, sorted_idx)]. *)
Definition sort_keys (depth : Z) (pts_scaled : list float)
    : list Z * list Z :=
  let npt := (length pts_scaled / 3)%nat in
  let key_of i :=
    compute_key
      (map (fun j => float_to_uint32 (pts_scaled !!! (3 * i + j)%nat))
           (seq 0 3))
      (Z.to_nat depth) in
  let code := sort_codes (map key_of (seq 0 npt)) in
  (unpack_keys code, unpack_idx code).

(** [Octree::unique_key]: compaction in place of the runs of equal
    neighbours; the pair [(keys, idx)] on return. *)
Definition unique_step (st : list Z * list Z * nat) (i : nat)
    : list Z * list Z * nat :=
  let '(keys, idx, j) := st in
  if negb (keys !!! i =? keys !!! (i - 1)%nat)
  then (<[j := keys !!! i]> keys, idx ++ [Z.of_nat i], S j)
  else st.

Definition unique_key (keys : list Z) : list Z * list Z :=
  let n := length keys in
  let '(keys, idx, j) := foldl unique_step (keys, [0], 1%nat) (seq 1 (n - 1)) in
  (resize j 0 keys, idx ++ [Z.of_nat n]).

(** *** Structure *)

(** One round of the first loop of [build_structure]: layer [curr_depth]
    of the full part. *)
Definition fill_full_layer (full_layer : nat)
    (st : list (list Z) * list (list Z)) (curr_depth : nat)
    : list (list Z) * list (list Z) :=
  let '(keys_, children_) := st in
  let n := Z.to_nat (wrap_int (Z.shiftl 1 (3 * Z.of_nat curr_depth))) in
  let keys := resize n (wrap_uint32 (-1)) (keys_ !!! curr_depth) in
  let children := resize n (-1) (children_ !!! curr_depth) in
  let '(keys, children) :=
    foldl (fun '(keys, children) i =>
             (<[i := Z.of_nat i]> keys,
              if negb (curr_depth =? full_layer)%nat
              then <[i := Z.of_nat i]> children else children))
          (keys, children) (seq 0 n) in
  (<[curr_depth := keys]> keys_, <[curr_depth := children]> children_).

(** [keys[i] = (parent_keys[i >> 3] << 3) | (i % 8)] *)
Definition fill_keys (parent_keys keys : list Z) (nch : nat) : list Z :=
  foldl (fun keys i =>
           let j := Z.to_nat (Z.shiftr (Z.of_nat i) 3) in
           <[i := Z.lor (wrap_uint32 (Z.shiftl (parent_keys !!! j) 3))
                        (Z.of_nat i mod 8)]> keys)
        keys (seq 0 nch).

(** The base address of the block of each node: [addr[j] = i << 3] for
    every [j] of the [i]-th run of parents. *)
Definition fill_addr (parent_pidx : list Z) (np nch : nat) : list Z :=
  foldl (fun addr i =>
           let lo := Z.to_nat (parent_pidx !!! i) in
           let hi := Z.to_nat (parent_pidx !!! S i) in
           foldl (fun addr j =>
                    <[j := wrap_uint32 (Z.shiftl (Z.of_nat i) 3)]> addr)
                 addr (seq lo (hi - lo)))
        (replicate nch 0) (seq 0 np).

(** [children[(node_keys[i] & 7u) | addr[i]] = i] *)
Definition link_children (node_keys addr children : list Z) (n : nat)
    : list Z :=
  foldl (fun children i =>
           let k := Z.lor (Z.land (node_keys !!! i) 7) (addr !!! i) in
           <[Z.to_nat k := Z.of_nat i]> children)
        children (seq 0 n).

(** One round of the second loop of [build_structure]: layer
    [curr_depth] from the keys of its occupied nodes; the keys of the
    occupied parents are handed to the next round. *)
Definition build_layer (st : list (list Z) * list (list Z) * list Z)
    (curr_depth : nat) : list (list Z) * list (list Z) * list Z :=
  let '(keys_, children_, node_keys) := st in
  let n := length node_keys in
  let parent_keys := map (fun k => Z.shiftr k 3) node_keys in
  let '(parent_keys, parent_pidx) := unique_key parent_keys in
  let np := length parent_keys in
  let nch := Z.to_nat (Z.shiftl (Z.of_nat np) 3) in
  let children := resize nch (-1) (children_ !!! curr_depth) in
  let keys := resize nch 0 (keys_ !!! curr_depth) in
  let keys := fill_keys parent_keys keys nch in
  let addr := fill_addr parent_pidx np nch in
  let children := link_children node_keys addr children n in
  (<[curr_depth := keys]> keys_, <[curr_depth := children]> children_,
   parent_keys).

(** The last loop of [build_structure]: [children_[full_layer_][j] = i]
    for the [i]-th surviving key [j]. *)
Definition link_full_layer (node_keys children : list Z) : list Z :=
  foldl (fun children i =>
           <[Z.to_nat (node_keys !!! i) := Z.of_nat i]> children)
        children (seq 0 (length node_keys)).

(** [Octree::build_structure]; [node_keys] is passed by reference, its
    final value is the second component. *)
Definition build_structure (node_keys : list Z) (t : Octree)
    : Octree * list Z :=
  let depth := depth_ (oct_info_ t) in
  let full_layer := full_layer_ (oct_info_ t) in
  let children_ := resize (Z.to_nat (depth + 1)) [] (children_ t) in
  let keys_ := resize (Z.to_nat (depth + 1)) [] (keys_ t) in
  let '(keys_, children_) :=
    foldl (fill_full_layer (Z.to_nat full_layer)) (keys_, children_)
          (seq 0 (Z.to_nat (full_layer + 1))) in
  let '(keys_, children_, node_keys) :=
    foldl build_layer (keys_, children_, node_keys)
          (rev (seq (Z.to_nat (full_layer + 1))
                    (Z.to_nat (depth - full_layer)))) in
  let children_ :=
    if full_layer <? depth then
      <[Z.to_nat full_layer :=
          link_full_layer node_keys (children_ !!! Z.to_nat full_layer)]>
        children_
    else children_ in
  (put_keys keys_ (put_children children_ t), node_keys).

(** The scan of [calc_node_num] for the last entry that is not [-1],
    downwards from position [i - 1]. *)
Fixpoint last_nempty (children_d : list Z) (i : nat) : Z :=
  match i with
  | O => 0
  | S i' =>
      if negb (children_d !!! i' =? -1)
      then wrap_int (children_d !!! i' + 1)
      else last_nempty children_d i'
  end.

(** [Octree::calc_node_num] *)
Definition calc_node_num (t : Octree) : Octree :=
  let layers := seq 0 (Z.to_nat (depth_ (oct_info_ t) + 1)) in
  let node_num :=
    map (fun d => wrap_int (Z.of_nat (length (keys_ t !!! d)))) layers in
  let node_num_nempty :=
    map (fun d =>
           last_nempty (children_ t !!! d) (Z.to_nat (node_num !!! d)))
        layers in
  put_oct_info
    (set_ptr_dis
       (set_nnum_cum default_capacity
          (set_nempty node_num_nempty (set_nnum node_num (oct_info_ t)))))
    t.

(** *** Covered nodes of the finest layer *)

(** The body of the loop of [covered_depth_nodes] over the nodes of a
    layer [d <= depth - 2]: node [i] adds up the counts of its eight
    children and takes the first child index that is not [-1];
    [dnum_n] and [didx_n] are the vectors of layer [d + 1]. *)
Definition cover_node (children_d dnum_n didx_n : list Z)
    (st : list Z * list Z) (i : nat) : list Z * list Z :=
  let '(dnum_d, didx_d) := st in
  let t := children_d !!! i in
  if decide (node_type t = kLeaf) then st
  else
    let t := wrap_int (t * 8) in
    let dnum_d :=
      foldl (fun dnum_d j =>
               <[i := wrap_int (dnum_d !!! i
                                + dnum_n !!! Z.to_nat (t + Z.of_nat j))]>
                 dnum_d)
            dnum_d (seq 0 8) in
    let didx_d :=
      match list_find (fun j => didx_n !!! Z.to_nat (t + Z.of_nat j) <> -1)
              (seq 0 8) with
      | Some (_, j) => <[i := didx_n !!! Z.to_nat (t + Z.of_nat j)]> didx_d
      | None => didx_d
      end in
    (dnum_d, didx_d).

(** [Octree::covered_depth_nodes]: the pair [(dnum_, didx_)].  The two
    members are written by this function only; they have [depth_ + 1]
    layers since [clear].  With [depth_ = 0] the source reads
    [nnum_[-1]]; the embedding then reads layer 0. *)
Definition covered_depth_nodes (t : Octree) : list (list Z) * list (list Z) :=
  let info := oct_info_ t in
  let depth := Z.to_nat (depth_ info) in
  let layers := seq 0 (Z.to_nat (depth_ info + 1)) in
  let cnt d := Z.to_nat (nnum info d) in
  let dnum := map (fun d => replicate (cnt (Z.of_nat d)) 0) layers in
  let didx := map (fun d => replicate (cnt (Z.of_nat d)) (-1)) layers in
  (* layer depth_ *)
  let '(dnum, didx) :=
    foldl (fun '(dnum, didx) i =>
             (<[depth := <[i := 1]> (dnum !!! depth)]> dnum,
              <[depth := <[i := Z.of_nat i]> (didx !!! depth)]> didx))
          (dnum, didx) (seq 0 (cnt (depth_ info))) in
  (* layer depth_ - 1 *)
  let dp := Z.to_nat (depth_ info - 1) in
  let '(dnum, didx) :=
    foldl (fun '(dnum, didx) i =>
             let t := (children_ t !!! dp) !!! i in
             if decide (node_type t = kLeaf) then (dnum, didx)
             else (<[dp := <[i := 8]> (dnum !!! dp)]> dnum,
                   <[dp := <[i := wrap_int (t * 8)]> (didx !!! dp)]> didx))
          (dnum, didx) (seq 0 (cnt (depth_ info - 1))) in
  (* layers depth_ - 2 down to 0 *)
  foldl (fun '(dnum, didx) d =>
           let '(dnum_d, didx_d) :=
             foldl (cover_node (children_ t !!! d) (dnum !!! S d)
                      (didx !!! S d))
                   (dnum !!! d, didx !!! d) (seq 0 (cnt (Z.of_nat d))) in
           (<[d := dnum_d]> dnum, <[d := didx_d]> didx))
        (dnum, didx) (rev (seq 0 (Z.to_nat (depth_ info - 1)))).

(** *** Adaptive trimming *)

(** [enum TrimType] of [trim_octree] *)
Inductive TrimType : Type := kDrop | kDropChildren | kKeep.

#[global] Instance TrimType_eq_dec : EqDecision TrimType.
Proof. solve_decision. Defined.

#[global] Instance TrimType_inhabited : Inhabited TrimType := populate kKeep.

Section Trim.

Variables (has_dis : bool) (th_dist th_norm : float).

(** The layer being flagged: its child links and error arrays. *)
Variables (children_d : list Z) (normal_err_d distance_err_d : list float).

(** The test that collapses the subtree of node [idx]. *)
Definition small_error (idx : nat) : bool :=
  (negb has_dis || (has_dis && flt (distance_err_d !!! idx) th_dist))
  && flt (normal_err_d !!! idx) th_norm.

(** The body of the loop over the eight children of a parent with flag
    [drop_dp_i] and child block [t]; the state is [(drop_d, all_drop)]. *)
Definition flag_child (drop_dp_i : TrimType) (t : Z)
    (st : list TrimType * bool) (j : nat) : list TrimType * bool :=
  let '(drop_d, all_drop) := st in
  let idx := Z.to_nat (t * 8 + Z.of_nat j) in
  let drop_d :=
    if decide (drop_dp_i = kKeep) then
      if small_error idx then <[idx := kDropChildren]> drop_d else drop_d
    else <[idx := kDrop]> drop_d in
  let all_drop :=
    if all_drop then
      negb (bool_decide (drop_d !!! idx = kKeep)
            && bool_decide (node_type (children_d !!! idx) = kInternelNode))
    else all_drop in
  (drop_d, all_drop).

(** The body of the loop over the parents, first pass. *)
Definition flag_block (children_dp : list Z) (drop_dp : list TrimType)
    (st : list TrimType * bool) (i : nat) : list TrimType * bool :=
  let t := children_dp !!! i in
  if decide (node_type t = kLeaf) then st
  else foldl (flag_child (drop_dp !!! i) t) st (seq 0 8).

(** The first pass over layer [d]: the pair [(drop_d, all_drop)]. *)
Definition generate_flags (nnum_dp : nat) (children_dp : list Z)
    (drop_dp drop_d : list TrimType) : list TrimType * bool :=
  foldl (flag_block children_dp drop_dp) (drop_d, true) (seq 0 nnum_dp).

(** The search of the second pass; the state is [(max_idx, max_err)]. *)
Definition max_child (t : Z) (st : nat * float) (j : nat) : nat * float :=
  let '(max_idx, max_err) := st in
  let idx := Z.to_nat (t * 8 + Z.of_nat j) in
  if bool_decide (node_type (children_d !!! idx) = kInternelNode)
     && fgt (normal_err_d !!! idx) max_err
  then (idx, normal_err_d !!! idx) else st.

Definition max_block (children_dp : list Z) (drop_dp : list TrimType)
    (st : nat * float) (i : nat) : nat * float :=
  let t := children_dp !!! i in
  if decide (node_type t = kLeaf) then st
  else if decide (drop_dp !!! i = kKeep)
       then foldl (max_child t) st (seq 0 8) else st.

Definition find_max (nnum_dp : nat) (children_dp : list Z)
    (drop_dp : list TrimType) : nat * float :=
  foldl (max_block children_dp drop_dp) (0%nat, f_minus_one)
        (seq 0 nnum_dp).

(** The flags of layer [d] after both passes. *)
Definition flag_layer (nnum_dp : nat) (children_dp : list Z)
    (drop_dp drop_d : list TrimType) : list TrimType :=
  let '(drop_d, all_drop) :=
    generate_flags nnum_dp children_dp drop_dp drop_d in
  if all_drop
  then <[(find_max nnum_dp children_dp drop_dp).1 := kKeep]> drop_d
  else drop_d.

End Trim.

(** One round of the flag loop of [trim_octree]: layer [d] from the flags
    of layer [d - 1]. *)
Definition flag_round (t : Octree) (drop : list (list TrimType)) (d : nat)
    : list (list TrimType) :=
  let info := oct_info_ t in
  <[d := flag_layer (has_displace_ info) (threshold_dist_ info)
           (threshold_norm_ info) (children_ t !!! d)
           (normal_err_ t !!! d) (distance_err_ t !!! d)
           (Z.to_nat (nnum info (Z.of_nat d - 1)))
           (children_ t !!! (d - 1)%nat) (drop !!! (d - 1)%nat)
           (drop !!! d)]> drop.

(** The flag table after the first [n] rounds: everything [kKeep], then
    the layers from [adaptive_layer] on, top down. *)
Definition flag_rounds (t : Octree) (n : nat) : list (list TrimType) :=
  let info := oct_info_ t in
  foldl (flag_round t)
        (map (fun d => replicate (Z.to_nat (nnum info (Z.of_nat d))) kKeep)
             (seq 0 (Z.to_nat (depth_ info + 1))))
        (seq (Z.to_nat (adp_layer_ info)) n).

(** The flag table of [trim_octree]. *)
Definition drop_flags (t : Octree) : list (list TrimType) :=
  flag_rounds t
    (Z.to_nat (depth_ (oct_info_ t) - adp_layer_ (oct_info_ t) + 1)).

(** The kept keys of a layer. *)
Definition trim_keys (drop_d : list TrimType) (keys_d : list Z)
    (nnum_d : nat) : list Z :=
  foldl (fun key i =>
           if decide (drop_d !!! i = kDrop) then key
           else key ++ [keys_d !!! i])
        [] (seq 0 nnum_d).

(** The renumbered child links of a layer; the state is [(children, id)]. *)
Definition trim_children (drop_d : list TrimType) (children_d : list Z)
    (nnum_d : nat) : list Z :=
  (foldl (fun '(children, id) i =>
            if decide (drop_d !!! i = kDrop) then (children, id)
            else if bool_decide (drop_d !!! i = kKeep)
                    && negb (bool_decide (node_type (children_d !!! i) = kLeaf))
                 then (children ++ [id], id + 1)
                 else (children ++ [-1], id))
         ([], 0) (seq 0 nnum_d)).1.

(** The lambda [trim_data]: gather the kept columns, then transpose. *)
Definition trim_data (drop_d : list TrimType) (nnum_d : nat)
    (signal : list float) : list float :=
  let channel := (length signal / nnum_d)%nat in
  if (channel =? 0)%nat then signal
  else
    let data :=
      foldl (fun data i =>
               if decide (drop_d !!! i = kDrop) then data
               else foldl (fun data c =>
                             data ++ [signal !!! (c * nnum_d + i)%nat])
                          data (seq 0 channel))
            [] (seq 0 nnum_d) in
    let num := (length data / channel)%nat in
    foldl (fun signal i =>
             foldl (fun signal c =>
                      <[(c * num + i)%nat := data !!! (i * channel + c)%nat]>
                        signal)
                   signal (seq 0 channel))
          (resize (length data) (FFin 0) signal) (seq 0 num).

(** One round of the rewriting loop of [trim_octree]. *)
Definition trim_layer (drop : list (list TrimType)) (t : Octree) (d : nat)
    : Octree :=
  let nnum_d := Z.to_nat (nnum (oct_info_ t) (Z.of_nat d)) in
  let drop_d := drop !!! d in
  let on {A} (f : list A -> list A) (v : list (list A)) : list (list A) :=
    <[d := f (v !!! d)]> v in
  let t := put_keys (on (fun k => trim_keys drop_d k nnum_d) (keys_ t)) t in
  let t :=
    put_children
      (on (fun c => trim_children drop_d c nnum_d) (children_ t)) t in
  let t := put_displacement (on (trim_data drop_d nnum_d) (displacement_ t)) t in
  let t := put_avg_normals (on (trim_data drop_d nnum_d) (avg_normals_ t)) t in
  let t := put_avg_features (on (trim_data drop_d nnum_d) (avg_features_ t)) t in
  let t := put_avg_fpfh (on (trim_data drop_d nnum_d) (avg_fpfh_ t)) t in
  let t := put_avg_roughness (on (trim_data drop_d nnum_d) (avg_roughness_ t)) t in
  put_avg_labels (on (trim_data drop_d nnum_d) (avg_labels_ t)) t.

(** [Octree::trim_octree] up to the node counts.  The split labels and
    the serialization that close the function read the result and leave
    keys, child links and counts as they are. *)
Definition trim_octree (t : Octree) : Octree :=
  if negb (is_adaptive_ (oct_info_ t)) then t
  else
    let depth := depth_ (oct_info_ t) in
    let depth_adp := adp_layer_ (oct_info_ t) in
    let drop := drop_flags t in
    calc_node_num
      (foldl (trim_layer drop) t
         (seq (Z.to_nat depth_adp) (Z.to_nat (depth - depth_adp + 1)))).

(** *** Serialization *)

(** The vector [features] of [serialize]: per layer, the normals followed
    by the four [insert]s in the order of the source. *)
Definition serialize_features (t : Octree) : list (list float) :=
  foldl (fun features d =>
           <[d := (((features !!! d ++ displacement_ t !!! d)
                     ++ avg_features_ t !!! d)
                    ++ avg_fpfh_ t !!! d)
                   ++ avg_roughness_ t !!! d]> features)
        (avg_normals_ t) (seq 0 (Z.to_nat (depth_ (oct_info_ t) + 1))).

(** The template [serialize<Dtype>]: the elements written from [des] on. *)
Definition serialize_property {A} (depth : Z) (src : list (list A))
    (location : Z) : list A :=
  if location =? -1 then
    foldl (fun des d => des ++ src !!! d) [] (seq 0 (Z.to_nat (depth + 1)))
  else src !!! Z.to_nat location.

(** The Feature payload of [serialize]: [SERIALIZE_PROPERTY] applied to
    [features]; [kFeature] is the bit mask of the property. *)
Definition serialize_feature (kFeature : Z) (t : Octree)
    : option (list float) :=
  if has_property (oct_info_ t) kFeature then
    Some (serialize_property (depth_ (oct_info_ t)) (serialize_features t)
            (locations (oct_info_ t) kFeature))
  else None.

(** ** Quantities of the specification *)

(** [prefix_sum g k] is [g 0 + ... + g (k - 1)]. *)
Fixpoint prefix_sum (g : nat -> Z) (k : nat) : Z :=
  match k with
  | O => 0
  | S k' => prefix_sum g k' + g k'
  end.

(** The node count over all layers, [nnum[0] + ... + nnum[depth]]. *)
Definition total_nodes (o : OctreeInfo) : Z :=
  prefix_sum (fun d => nnum_ o !!! d) (Z.to_nat (depth_ o + 1)).

(** The number of nodes that carry property [K]: every node when
    [locations[K]] is [-1], and the nodes of the stored layer otherwise. *)
Definition stored_nodes (o : OctreeInfo) (K : nat) : Z :=
  if locations_ o !!! K =? -1 then total_nodes o
  else nnum_ o !!! Z.to_nat (locations_ o !!! K).

(** The length in bytes of the payload of property [K]. *)
Definition property_bytes (o : OctreeInfo) (K : nat) : Z :=
  4 * channels_ o !!! K * stored_nodes o K.

(** Property [K] is present: its bit of [content_flags_] is set. *)
Definition present (o : OctreeInfo) (K : nat) : bool :=
  Z.testbit (content_flags_ o) (Z.of_nat K).

(** The number of nodes for which [set_ptr_dis] leaves room for property
    [K]: [total_nnum_capacity], the larger of the capacity handed to
    [set_nnum_cum] and the node count over all layers, when
    [locations[K]] is [-1], and the nodes of the stored layer otherwise. *)
Definition reserved_nodes (o : OctreeInfo) (capacity : Z) (K : nat) : Z :=
  if locations_ o !!! K =? -1 then Z.max capacity (total_nodes o)
  else nnum_ o !!! Z.to_nat (locations_ o !!! K).

(** The length in bytes between the offsets of property [K] and of the
    next one. *)
Definition reserved_bytes (o : OctreeInfo) (capacity : Z) (K : nat) : Z :=
  4 * channels_ o !!! K * reserved_nodes o capacity K.

(** The wording of the specification for the byte offsets, after
    [set_nnum_cum] with some capacity and [set_ptr_dis]: the first offset
    is [sizeof(OctreeInfo)], a present property takes
    [4 * channels[K] * n] bytes with [n] the node count over all layers
    or of the stored layer, and an absent property takes none. *)
Definition ptr_dis_claim (o : OctreeInfo) (capacity : Z) : Prop :=
  let o' := set_ptr_dis (set_nnum_cum capacity o) in
  ptr_dis_ o' !!! 0%nat = sizeof_OctreeInfo
  /\ forall K : nat, (K < kPTypeNum)%nat ->
       ptr_dis_ o' !!! S K - ptr_dis_ o' !!! K
       = (if present o K then property_bytes o K else 0).

(** The layer payload that the specification gives for the Feature
    property. *)
Definition layer_features (t : Octree) (d : nat) : list float :=
  avg_normals_ t !!! d ++ displacement_ t !!! d ++ avg_features_ t !!! d
    ++ avg_fpfh_ t !!! d ++ avg_roughness_ t !!! d.

(** What [check_format] tests, all of it: the flag is [true] exactly on
    the headers that pass the five scalar tests and, slot by slot, the
    consistency and location tests.  The cap table plays no part. *)
Definition passes_property (o : OctreeInfo) (i : nat) : bool :=
  Bool.eqb (channels_ o !!! i =? 0)
    (Z.land (content_flags_ o) (Z.shiftl 1 (Z.of_nat i)) =? 0)
  && ((channels_ o !!! i =? 0) || (locations_ o !!! i =? -1)
      || (locations_ o !!! i =? depth_ o)).

(** The invariant that [set_channel] documents: slot [k] of [channels_]
    is zero exactly when bit [k] of [content_flags_] is clear. *)
Definition flags_agree (o : OctreeInfo) : Prop :=
  forall k, (k < kPTypeNum)%nat ->
    (channels_ o !!! k =? 0) = negb (present o k).

(** The run lengths [idx[t + 1] - idx[t]] of a boundary vector. *)
Fixpoint run_lengths (idx : list Z) : list Z :=
  match idx with
  | a :: (b :: _) as rest => (b - a) :: run_lengths rest
  | _ => []
  end.

Definition sum_list_Z (l : list Z) : Z := foldr Z.add 0 l.



(** The wording of the specification for the trimmed layers: in
    adaptive mode, after [trim_octree], every layer from
    [adaptive_layer] to [depth] still has a non-empty node. *)
Definition trimmed_layers_claim (t : Octree) : Prop :=
  is_adaptive_ (oct_info_ t) = true ->
  forall d : nat,
    adp_layer_ (oct_info_ t) <= Z.of_nat d <= depth_ (oct_info_ t) ->
    1 <= nnum_nempty (oct_info_ (trim_octree t)) (Z.of_nat d).

(** ** Invariants of the builder *)

(** The invariant of the loop of [unique_key] on the input [keys], after
    the rounds [1 .. m].  [ks] holds the first key of each run found so
    far in its first [j] cells and the input from cell [j] on; [idx]
    holds the [j] run starts; position [m] lies in the last run. *)
Record unique_inv (keys : list Z) (m : nat) (ks idx : list Z) (j : nat)
    : Prop := {
  inv_size : length ks = length keys;
  inv_count : length idx = j /\ (1 <= j <= m + 1)%nat;
  inv_rest : forall p, (j <= p)%nat -> ks !!! p = keys !!! p;
  inv_compact :
    forall b, (b < j)%nat -> ks !!! b = keys !!! Z.to_nat (idx !!! b);
  inv_sorted : StronglySorted Z.lt idx;
  inv_first : idx !!! 0%nat = 0;
  inv_bound : Forall (fun x => 0 <= x <= Z.of_nat m) idx;
  inv_last : keys !!! m = keys !!! Z.to_nat (idx !!! (j - 1)%nat);
  inv_runs :
    forall q, (q <= m)%nat ->
      exists b, (b < j)%nat /\ idx !!! b <= Z.of_nat q
                /\ ((S b < j)%nat -> Z.of_nat q < idx !!! S b)
                /\ keys !!! q = keys !!! Z.to_nat (idx !!! b);
  inv_distinct :
    forall b, (S b < j)%nat ->
      keys !!! Z.to_nat (idx !!! S b) <> keys !!! Z.to_nat (idx !!! b)
}.

(** What [unique_key] returns on a vector that is not empty: [U] holds
    the first key of each run, [idx] the run starts followed by the
    length, and every position lies in exactly one run. *)
Record unique_post (keys U idx : list Z) : Prop := {
  post_count : length idx = S (length U) /\ (1 <= length U <= length keys)%nat;
  post_sorted : StronglySorted Z.lt idx;
  post_first : idx !!! 0%nat = 0;
  post_last : idx !!! length U = Z.of_nat (length keys);
  post_bound : Forall (fun x => 0 <= x <= Z.of_nat (length keys)) idx;
  post_compact :
    forall b, (b < length U)%nat -> U !!! b = keys !!! Z.to_nat (idx !!! b);
  post_runs :
    forall q, (q < length keys)%nat ->
      exists b, (b < length U)%nat
                /\ idx !!! b <= Z.of_nat q < idx !!! S b
                /\ keys !!! q = U !!! b;
  post_distinct : forall b, (S b < length U)%nat -> U !!! S b <> U !!! b
}.

(** The keys of the occupied nodes of a layer: strictly increasing (Morton
    order, no repetition) and below the number of cells of the layer. *)
Definition occupied (bound : Z) (nk : list Z) : Prop :=
  StronglySorted Z.lt nk /\ Forall (fun k => 0 <= k < bound) nk.

(** What a round leaves in its layer, for the occupied nodes [nk] of the
    layer and their parents [U]: complete blocks of eight keys, one per
    parent; child links that number the occupied nodes and nothing else;
    distinct links; an occupied node in every block. *)
Record layer_ok (nk U keys_l children_l : list Z) : Prop := {
  lk_size :
    length keys_l = (8 * length U)%nat
    /\ length children_l = (8 * length U)%nat;
  lk_keys :
    forall b k, (b < length U)%nat -> (k < 8)%nat ->
      keys_l !!! (8 * b + k)%nat = 8 * U !!! b + Z.of_nat k;
  lk_child :
    forall s, (s < length children_l)%nat -> children_l !!! s <> -1 ->
      exists i, (i < length nk)%nat /\ children_l !!! s = Z.of_nat i
                /\ keys_l !!! s = nk !!! i;
  lk_node :
    forall i, (i < length nk)%nat ->
      exists s, (s < length children_l)%nat
                /\ children_l !!! s = Z.of_nat i /\ keys_l !!! s = nk !!! i;
  lk_inj :
    forall s s', (s < length children_l)%nat -> (s' < length children_l)%nat ->
      children_l !!! s <> -1 -> children_l !!! s = children_l !!! s' -> s = s';
  lk_block :
    forall b, (b < length U)%nat ->
      exists k, (k < 8)%nat /\ children_l !!! (8 * b + k)%nat <> -1
}.

(** A layer of the full part: [n] cells that hold their own index. *)
Definition counts_up (n : nat) (v : list Z) : Prop :=
  length v = n /\ forall i, (i < n)%nat -> v !!! i = Z.of_nat i.

(** The state after the first loop of [build_structure] went through the
    layers [0 .. n - 1]. *)
Record full_part (depth fl n : nat) (K C : list (list Z)) : Prop := {
  fp_size : length K = S depth /\ length C = S depth;
  fp_keys : forall d, (d < n)%nat -> counts_up (8 ^ d) (K !!! d);
  fp_children :
    forall d, (d < n)%nat -> d <> fl -> counts_up (8 ^ d) (C !!! d);
  fp_last : (fl < n)%nat -> C !!! fl = replicate (8 ^ fl) (-1);
  fp_rest : forall d, (n <= d)%nat -> K !!! d = [] /\ C !!! d = []
}.

(** Layer [E] seen from the layer above, whose occupied nodes have the
    keys [nk]: one block of eight per occupied parent, in order, and an
    occupied node in each block. *)
Record pending (nk keysE childrenE : list Z) : Prop := {
  pe_size :
    length keysE = (8 * length nk)%nat
    /\ length childrenE = (8 * length nk)%nat;
  pe_keys :
    forall b k, (b < length nk)%nat -> (k < 8)%nat ->
      keysE !!! (8 * b + k)%nat = 8 * nk !!! b + Z.of_nat k;
  pe_block :
    forall b, (b < length nk)%nat ->
      exists k, (k < 8)%nat /\ childrenE !!! (8 * b + k)%nat <> -1
}.

(** Layer [P] seen from below: its child links number its occupied
    nodes [nk], each once. *)
Record parent_ok (nk keysP childrenP : list Z) : Prop := {
  pa_child :
    forall s, (s < length childrenP)%nat -> childrenP !!! s <> -1 ->
      exists i, (i < length nk)%nat /\ childrenP !!! s = Z.of_nat i
                /\ keysP !!! s = nk !!! i;
  pa_node :
    forall i, (i < length nk)%nat ->
      exists s, (s < length childrenP)%nat
                /\ childrenP !!! s = Z.of_nat i /\ keysP !!! s = nk !!! i;
  pa_inj :
    forall s s', (s < length childrenP)%nat -> (s' < length childrenP)%nat ->
      childrenP !!! s <> -1 -> childrenP !!! s = childrenP !!! s' -> s = s'
}.

(** A child layer [E] and its parent layer [P], linked. *)
Record linked (keysE childrenE keysP childrenP : list Z) : Prop := {
  li_size :
    (length keysE mod 8 = 0)%nat /\ length childrenE = length keysE;
  li_small : (8 <= length keysE)%nat /\ Z.of_nat (length keysE) <= 2 ^ 30;
  li_child :
    forall s, (s < length childrenP)%nat -> childrenP !!! s <> -1 ->
      exists b, childrenP !!! s = Z.of_nat b
                /\ (8 * b + 8 <= length keysE)%nat
                /\ 0 <= keysP !!! s < 2 ^ 27
                /\ (forall k, (k < 8)%nat ->
                      keysE !!! (8 * b + k)%nat
                      = 8 * keysP !!! s + Z.of_nat k)
                /\ (exists k, (k < 8)%nat
                              /\ childrenE !!! (8 * b + k)%nat <> -1);
  li_block :
    forall b, (8 * b < length keysE)%nat ->
      exists s, (s < length childrenP)%nat /\ childrenP !!! s = Z.of_nat b;
  li_inj :
    forall s s', (s < length childrenP)%nat -> (s' < length childrenP)%nat ->
      childrenP !!! s <> -1 -> childrenP !!! s = childrenP !!! s' -> s = s'
}.

(** A layer whose occupied nodes have the keys [nk]: its own keys are
    strictly increasing and below [bound], and its child links number
    the occupied nodes, each once. *)
Definition numbered (bound : Z) (nk keys children : list Z) : Prop :=
  length children = length keys
  /\ occupied bound keys
  /\ StronglySorted Z.lt nk
  /\ parent_ok nk keys children.

(** The number of internal nodes among the first [p] of a layer. *)
Definition internal_before (children : list Z) (p : nat) : nat :=
  length (filter (fun c => c <> -1) (take p children)).

(** The state after [j] rounds: the layers [depth - j + 1 .. depth] are
    built, [nk] holds the keys of the occupied nodes of layer
    [depth - j]. *)
Record rounds_inv (depth j : nat) (K0 C0 K C : list (list Z)) (nk : list Z)
    : Prop := {
  ri_size : length K = S depth /\ length C = S depth;
  ri_nodes :
    occupied (8 ^ Z.of_nat (depth - j)) nk /\ (1 <= length nk)%nat;
  ri_rest :
    forall e, (e <= depth - j)%nat -> K !!! e = K0 !!! e /\ C !!! e = C0 !!! e;
  ri_pending :
    (1 <= j)%nat ->
    pending nk (K !!! S (depth - j)) (C !!! S (depth - j));
  ri_linked :
    forall e, (S (depth - j) < e <= depth)%nat ->
      linked (K !!! e) (C !!! e) (K !!! (e - 1)%nat) (C !!! (e - 1)%nat)
}.

(** The cells of layer [d] that belong to the block of parent [i]. *)
Definition block_cells (children_dp : list Z) (i : nat) : list nat :=
  if decide (node_type (children_dp !!! i) = kLeaf) then []
  else (fun j => Z.to_nat (children_dp !!! i * 8 + Z.of_nat j)) <$> seq 0 8.

(** The parent layer is well linked to a child layer of [nnum_d] cells:
    the child links of its first [nnum_dp] nodes are [-1] or the index of
    a block of the child layer, and no block has two parents. *)
Record blocks_ok (nnum_dp nnum_d : nat) (children_dp : list Z) : Prop := {
  bo_range :
    forall i, (i < nnum_dp)%nat -> children_dp !!! i <> -1 ->
      0 <= children_dp !!! i
      /\ (8 * Z.to_nat (children_dp !!! i) + 8 <= nnum_d)%nat;
  bo_inj :
    forall i i', (i < nnum_dp)%nat -> (i' < nnum_dp)%nat ->
      children_dp !!! i <> -1 -> children_dp !!! i = children_dp !!! i' ->
      i = i'
}.

(** The flag that the first pass gives to a cell of the block of
    parent [i]. *)
Definition flag_spec (has_dis : bool) (th_dist th_norm : float)
    (normal_err_d distance_err_d : list float) (drop_dp : list TrimType)
    (i idx : nat) : TrimType :=
  if decide (drop_dp !!! i = kKeep) then
    if small_error has_dis th_dist th_norm normal_err_d distance_err_d idx
    then kDropChildren else kKeep
  else kDrop.

(** The cells that the second pass looks at: the blocks of the internal
    parents whose flag is [kKeep]. *)
Definition kept_cells (children_dp : list Z) (drop_dp : list TrimType)
    (nnum_dp : nat) : list nat :=
  seq 0 nnum_dp ≫= fun i =>
    if decide (drop_dp !!! i = kKeep) then block_cells children_dp i
    else [].

(** A layer keeps an internal node: some cell is flagged [kKeep] and is
    not a leaf. *)
Definition keeps (children_d : list Z) (drop_d : list TrimType)
    (nnum_d : nat) : Prop :=
  exists idx, (idx < nnum_d)%nat /\ drop_d !!! idx = kKeep
              /\ children_d !!! idx <> -1.

(** The nodes of a layer that the trimming keeps, in order: the ones
    whose flag is not [kDrop]. *)
Definition kept_nodes (drop_d : list TrimType) (n : nat) : list nat :=
  filter (fun i => drop_d !!! i <> kDrop) (seq 0 n).

(** The test of [trim_octree] for a kept node that keeps its children:
    its flag is [kKeep] and it is not a leaf. *)
Definition stays_internal (drop_d : list TrimType) (children_d : list Z)
    (i : nat) : bool :=
  bool_decide (drop_d !!! i = kKeep)
  && negb (bool_decide (node_type (children_d !!! i) = kLeaf)).

(** A parent layer and its child layer in block order: the child links
    of the parent layer that are not [-1] count the internal nodes before
    them, the child layer has one block of eight nodes per internal node
    of the parent layer, and the keys of the block of node [s] are
    [8 * key + k]. *)
Definition block_linked (keysP childrenP keysE : list Z) : Prop :=
  length keysE = (8 * internal_before childrenP (length childrenP))%nat
  /\ forall s, (s < length childrenP)%nat -> childrenP !!! s <> -1 ->
       childrenP !!! s = Z.of_nat (internal_before childrenP s)
       /\ forall k, (k < 8)%nat ->
            keysE !!! (8 * internal_before childrenP s + k)%nat
            = 8 * keysP !!! s + Z.of_nat k.

(** The number of nodes of layer [e + n] that come before the subtree of
    node [p] of layer [e]: each internal node before [p] owns a block of
    eight nodes of the next layer. *)
Fixpoint finest_before (children : list (list Z)) (e n p : nat) : nat :=
  match n with
  | O => p
  | S n' =>
      finest_before children (S e) n'
        (8 * internal_before (children !!! e) p)
  end.

(** An adaptive octree that [trim_octree] can take: the header agrees
    with the builder state; between [adaptive_layer - 1] and [depth] every
    child link is [-1] or the index of a block of the next layer, no block
    has two parents, and every internal node has an internal child; and
    the normal error of an internal node is a number above [-1]. *)
Record trim_ready (t : Octree) (D A : nat) : Prop := {
  tr_layers :
    depth_ (oct_info_ t) = Z.of_nat D
    /\ adp_layer_ (oct_info_ t) = Z.of_nat A /\ (1 <= A <= D)%nat;
  tr_header : (S D <= length (nnum_nempty_ (oct_info_ t)))%nat;
  tr_vectors : length (keys_ t) = S D /\ length (children_ t) = S D;
  tr_counts :
    forall e, (e <= D)%nat -> nnum (oct_info_ t) (Z.of_nat e) < 2 ^ 31;
  tr_blocks :
    forall e, (A <= e <= D)%nat ->
      blocks_ok (Z.to_nat (nnum (oct_info_ t) (Z.of_nat (e - 1))))
        (Z.to_nat (nnum (oct_info_ t) (Z.of_nat e)))
        (children_ t !!! (e - 1)%nat);
  tr_top :
    exists i idx,
      (i < Z.to_nat (nnum (oct_info_ t) (Z.of_nat (A - 1))))%nat
      /\ idx ∈ block_cells (children_ t !!! (A - 1)%nat) i
      /\ (children_ t !!! A) !!! idx <> -1;
  tr_cover :
    forall e i, (A < e <= D)%nat ->
      (i < Z.to_nat (nnum (oct_info_ t) (Z.of_nat (e - 1))))%nat ->
      (children_ t !!! (e - 1)%nat) !!! i <> -1 ->
      exists idx, idx ∈ block_cells (children_ t !!! (e - 1)%nat) i
                  /\ (children_ t !!! e) !!! idx <> -1;
  tr_errors :
    forall e idx, (A <= e <= D)%nat ->
      (idx < Z.to_nat (nnum (oct_info_ t) (Z.of_nat e)))%nat ->
      (children_ t !!! e) !!! idx <> -1 ->
      fgt ((normal_err_ t !!! e) !!! idx) f_minus_one = true
}.

(** ** Sample data *)

(** A header of depth 2 with one full layer: keys and child links on
    every layer, three feature channels on the finest layer. *)
Definition sample_info : OctreeInfo :=
  mkOctreeInfo kMagicStr 1 2 1 false 2 false false
    [1; 1; 0; 3; 0; 0] [-1; -1; 0; 2; 0; 0]
    ([1; 8; 16] ++ replicate 13 0) (replicate 16 0) (replicate 16 0)
    (replicate 8 0) 11 (FFin 0) (FFin 0).

(** A point cloud header with normals (3 channels) and labels. *)
Definition sample_pts : PtsInfo.t := PtsInfo.mk 5 35 [3; 3; 0; 0; 0; 1; 0; 0].

(** An empty builder for [sample_info], and the structure built from three
    occupied cells of layer 2 (two of them siblings). *)
Definition sample_empty : Octree :=
  mkOctree sample_info [] [] [] [] [] [] [] [] [] [].

Definition sample_built : Octree :=
  (build_structure [3; 12; 13] (clear 2 sample_empty)).1.

(** The same structure in adaptive mode, trimmed from layer 2 on, with a
    threshold that every error passes: three normal channels per node,
    the error sentinel on the finest layer. *)
Definition sample_adaptive : Octree :=
  let info :=
    with_threshold_norm (FInf false) (with_is_adaptive true sample_info) in
  let normals := map (fun n => replicate (3 * n) (FFin 0)) [1; 8; 16]%nat in
  let none : list (list float) := replicate 3 [] in
  mkOctree info (keys_ sample_built) (children_ sample_built) none normals
    none none none none
    [[]; []; replicate 16 (FFin (2 ^ 215))] none.

(** An adaptive octree of depth 3 with one full layer, trimmed from
    layer 2 on: five occupied cells of layer 3, and normal errors that
    leave two of the four internal nodes of layer 2 below the threshold. *)
Definition sample_deep_info : OctreeInfo :=
  mkOctreeInfo kMagicStr 1 3 1 true 2 false false
    [1; 1; 0; 3; 0; 0] [-1; -1; 0; -1; 0; 0]
    (replicate 16 0) (replicate 16 0) (replicate 16 0)
    (replicate 8 0) 11 (FFin 0) (FFin 10).

Definition sample_deep_empty : Octree :=
  mkOctree sample_deep_info [] [] [] [] [] [] [] [] [] [].

Definition sample_deep_built : Octree :=
  calc_node_num
    (build_structure [3; 12; 13; 70; 511] (clear 3 sample_deep_empty)).1.

Definition sample_deep : Octree :=
  let err2 :=
    <[23%nat := FFin 100]>
      (<[8%nat := FFin 1]>
         (<[1%nat := FFin 100]>
            (<[0%nat := FFin 1]> (replicate 24 (FFin 0))))) in
  let err3 := <[31%nat := FFin 5]> (replicate 32 (FFin 100)) in
  mkOctree (oct_info_ sample_deep_built) (keys_ sample_deep_built)
    (children_ sample_deep_built) [] [] [] [] [] []
    [[]; []; err2; err3] [].

(** An adaptive octree of depth 2 whose layers are all full, trimmed
    from layer 2 on: the structure built from three occupied cells of
    layer 2, with the error sentinel on the finest layer. *)
Definition sample_flat_info : OctreeInfo :=
  mkOctreeInfo kMagicStr 1 2 2 true 2 false false
    [1; 1; 0; 3; 0; 0] [-1; -1; 0; 2; 0; 0]
    (replicate 16 0) (replicate 16 0) (replicate 16 0)
    (replicate 8 0) 11 (FFin 0) (FFin 10).

Definition sample_flat_built : Octree :=
  calc_node_num
    (build_structure [3; 12; 13]
       (clear 2 (mkOctree sample_flat_info [] [] [] [] [] [] [] [] [] []))).1.

Definition sample_flat : Octree :=
  mkOctree (oct_info_ sample_flat_built) (keys_ sample_flat_built)
    (children_ sample_flat_built) [] [] [] [] [] []
    [[]; []; replicate 64 (FFin (2 ^ 215))] [].

(** * Properties *)

(** ** Header *)

Section HeaderFacts.

Variables kKey kChild kFeature kLabel kSplit : Z.

Lemma set_channel_scalars ptype ch o :
  batch_size_ (set_channel ptype ch o) = batch_size_ o
  /\ depth_ (set_channel ptype ch o) = depth_ o
  /\ full_layer_ (set_channel ptype ch o) = full_layer_ o
  /\ locations_ (set_channel ptype ch o) = locations_ o.
Proof. unfold set_channel. by destruct (0 <? ch). Qed.

Lemma set_location_scalars ptype lc o :
  batch_size_ (set_location ptype lc o) = batch_size_ o
  /\ depth_ (set_location ptype lc o) = depth_ o
  /\ full_layer_ (set_location ptype lc o) = full_layer_ o
  /\ channels_ (set_location ptype lc o) = channels_ o
  /\ content_flags_ (set_location ptype lc o) = content_flags_ o.
Proof. done. Qed.

Ltac scalars :=
  repeat first
    [ rewrite (proj1 (set_location_scalars _ _ _))
    | rewrite (proj1 (proj2 (set_location_scalars _ _ _)))
    | rewrite (proj1 (proj2 (proj2 (set_location_scalars _ _ _))))
    | rewrite (proj1 (set_channel_scalars _ _ _))
    | rewrite (proj1 (proj2 (set_channel_scalars _ _ _)))
    | rewrite (proj1 (proj2 (proj2 (set_channel_scalars _ _ _)))) ].

Lemma initialize_scalars depth full_depth nd nf sl ad adp thd thn k2x pt o :
  let o' := initialize kKey kChild kFeature kLabel kSplit depth full_depth
              nd nf sl ad adp thd thn k2x pt o in
  batch_size_ o' = 1
  /\ full_layer_ o' = (if full_depth <? 1 then 1 else full_depth)
  /\ depth_ o' = (if full_layer_ o <? depth then depth else full_layer_ o).
Proof.
  unfold initialize.
  destruct (PtsInfo.channel pt PtsInfo.kLabel =? 1), sl; scalars; done.
Qed.

(** C9.  Whatever the arguments, the header that [initialize] leaves has
    [batch_size_ >= 1] and [full_layer_ >= 1]: [set_batch_size] turns a
    value below 1 into 1, [set_full_layer] turns a full depth below 1
    into 1 (a requested 0 becomes 1), and [set_depth] turns a depth
    below the current [full_layer_] into [full_layer_]. *)
Theorem initialize_coerces depth full_depth nd nf sl ad adp thd thn k2x pt o :
  let init fd :=
    initialize kKey kChild kFeature kLabel kSplit depth fd
      nd nf sl ad adp thd thn k2x pt o in
  (1 <= batch_size_ (init full_depth) /\ 1 <= full_layer_ (init full_depth))
  /\ full_layer_ (init 0) = 1
  /\ (forall b o, batch_size_ (set_batch_size b o) = Z.max 1 b)
  /\ (forall fd o, full_layer_ (set_full_layer fd o) = Z.max 1 fd)
  /\ (forall d o, depth_ (set_depth d o) = Z.max d (full_layer_ o)).
Proof.
  intros init. split; [|split; [|split; [|split]]].
  - unfold init.
    destruct (initialize_scalars depth full_depth nd nf sl ad adp thd thn
                k2x pt o) as (-> & -> & _).
    destruct (Z.ltb_spec full_depth 1); lia.
  - unfold init.
    by destruct (initialize_scalars depth 0 nd nf sl ad adp thd thn
                   k2x pt o) as (_ & -> & _).
  - intros b o'. simpl. destruct (Z.ltb_spec b 1); lia.
  - intros fd o'. simpl. destruct (Z.ltb_spec fd 1); lia.
  - intros d o'. simpl. destruct (Z.ltb_spec (full_layer_ o') d); lia.
Qed.

End HeaderFacts.

(** ** Arithmetic helpers *)

Lemma wrap_int_small z : - 2 ^ 31 <= z < 2 ^ 31 -> wrap_int z = z.
Proof. intros H. unfold wrap_int. rewrite Z.mod_small; lia. Qed.

Lemma wrap_uint32_small z : 0 <= z < 2 ^ 32 -> wrap_uint32 z = z.
Proof. intros H. unfold wrap_uint32. by rewrite Z.mod_small. Qed.

Lemma prefix_sum_nonneg g k :
  (forall e, 0 <= g e) -> 0 <= prefix_sum g k.
Proof. intros Hg. induction k as [|k IH]; simpl; [lia|]. specialize (Hg k). lia. Qed.

Lemma prefix_sum_mono g j k :
  (forall e, 0 <= g e) -> (j <= k)%nat -> prefix_sum g j <= prefix_sum g k.
Proof.
  intros Hg Hjk. induction Hjk as [|k _ IH]; simpl; [lia|].
  specialize (Hg k). lia.
Qed.

Lemma prefix_sum_ext g h k :
  (forall e, (e < k)%nat -> g e = h e) -> prefix_sum g k = prefix_sum h k.
Proof.
  induction k as [|k IH]; intros Hgh; simpl; [done|].
  rewrite IH, Hgh; auto with lia.
Qed.

(** A loop [for i = 1 .. n: acc[i] = (int)(acc[i - 1] + g (i - 1))] leaves
    the prefix sums of [g] above [acc[0]], as long as they fit an [int]. *)
Lemma foldl_accumulate (g : nat -> Z) (init : list Z) (n : nat) :
  (n < length init)%nat ->
  (forall e, 0 <= g e) ->
  0 <= init !!! 0%nat ->
  init !!! 0%nat + prefix_sum g n < 2 ^ 31 ->
  let r := foldl (fun acc i =>
                    <[i := wrap_int (acc !!! (i - 1)%nat + g (i - 1)%nat)]> acc)
                 init (seq 1 n) in
  length r = length init
  /\ (forall k, (k <= n)%nat -> r !!! k = init !!! 0%nat + prefix_sum g k)
  /\ (forall k, (n < k)%nat -> r !!! k = init !!! k).
Proof.
  intros Hn Hg H0. induction n as [|n IH]; intros Hsum r.
  - subst r. simpl. split; [done|]. split; [|done].
    intros k Hk. replace k with 0%nat by lia. simpl. lia.
  - subst r. rewrite seq_S, foldl_app. simpl.
    pose proof (Hg n) as Hgn. simpl in Hsum.
    destruct IH as (Hlen & Hle & Hgt); [lia | lia |].
    rewrite Nat.sub_0_r. split; [by rewrite length_insert|]. split.
    + intros k Hk. destruct (decide (k = S n)) as [->|Hne].
      * rewrite list_lookup_total_insert_eq by lia.
        rewrite Hle by lia. simpl.
        pose proof (prefix_sum_nonneg g n Hg).
        rewrite wrap_int_small; lia.
      * rewrite list_lookup_total_insert_ne by lia. apply Hle. lia.
    + intros k Hk. rewrite list_lookup_total_insert_ne by lia. apply Hgt. lia.
Qed.

Lemma foldl_ext_in {A B} (f g : A -> B -> A) (l : list B) (a : A) :
  (forall a b, b ∈ l -> f a b = g a b) -> foldl f a l = foldl g a l.
Proof.
  revert a. induction l as [|b l IH]; intros a Hfg; simpl; [done|].
  rewrite Hfg by left. apply IH. intros a' b' Hb'. apply Hfg. by right.
Qed.

Lemma land_bit_is_zero (f : Z) (k : nat) :
  (Z.land f (Z.shiftl 1 (Z.of_nat k)) =? 0) = negb (Z.testbit f (Z.of_nat k)).
Proof.
  rewrite Z.shiftl_1_l.
  destruct (Z.testbit f (Z.of_nat k)) eqn:Hbit; simpl.
  - apply Z.eqb_neq. intros Hz.
    assert (Z.testbit (Z.land f (2 ^ Z.of_nat k)) (Z.of_nat k) = true) as Ht.
    { rewrite Z.land_spec, Hbit, Z.pow2_bits_true; [done | lia]. }
    rewrite Hz, Z.bits_0 in Ht. done.
  - apply Z.eqb_eq. apply Z.bits_inj'. intros n Hn.
    rewrite Z.land_spec, Z.bits_0.
    destruct (decide (n = Z.of_nat k)) as [->|Hne].
    + by rewrite Hbit.
    + rewrite Z.pow2_bits_false by lia. apply andb_false_r.
Qed.

Lemma property_index_bit (k : nat) :
  (k < kPTypeNum)%nat -> property_index (Z.shiftl 1 (Z.of_nat k)) = k.
Proof.
  unfold kPTypeNum. intros Hk.
  do 6 (destruct k as [|k]; [by vm_compute|]). lia.
Qed.

Lemma has_property_bit o (k : nat) :
  has_property o (Z.shiftl 1 (Z.of_nat k)) = present o k.
Proof.
  unfold has_property, present. rewrite land_bit_is_zero. apply negb_involutive.
Qed.

Lemma lookup_total_nonneg (l : list Z) (i : nat) :
  Forall (fun x => 0 <= x) l -> 0 <= l !!! i.
Proof.
  intros Hl. destruct (decide (i < length l)%nat) as [Hi|Hi].
  - by apply (Forall_lookup_total_1 _ l i).
  - rewrite list_lookup_total_alt, lookup_ge_None_2 by lia. done.
Qed.

(** ** Byte offsets *)

Section PtrDis.

Variables (o : OctreeInfo) (capacity : Z).

Hypothesis depth_range : 0 <= depth_ o <= 13.
Hypothesis nnum_cum_size : length (nnum_cum_ o) = 16%nat.
Hypothesis ptr_dis_size : length (ptr_dis_ o) = 8%nat.
Hypothesis nnum_counts : Forall (fun n => 0 <= n) (nnum_ o).
Hypothesis channels_counts : Forall (fun c => 0 <= c) (channels_ o).
Hypothesis flags_consistent :
  forall k, (k < kPTypeNum)%nat ->
            (channels_ o !!! k =? 0) = negb (present o k).
Hypothesis nodes_fit : total_nodes o < 2 ^ 31.
Hypothesis bytes_fit :
  sizeof_OctreeInfo + prefix_sum (reserved_bytes o capacity) kPTypeNum
  < 2 ^ 31.

Let o1 := set_nnum_cum capacity o.

Lemma nnum_nonneg d : 0 <= nnum_ o !!! d.
Proof using nnum_counts. by apply lookup_total_nonneg. Qed.

Lemma channels_nonneg k : 0 <= channels_ o !!! k.
Proof using channels_counts. by apply lookup_total_nonneg. Qed.

Lemma set_nnum_cum_capacity :
  total_nnum_capacity o1 = Z.max capacity (total_nodes o).
Proof using All.
  unfold total_nnum_capacity, o1, set_nnum_cum. simpl.
  replace (Z.to_nat (depth_ o + 2)) with (S (Z.to_nat (depth_ o + 1))) by lia.
  remember (Z.to_nat (depth_ o + 1)) as top eqn:Htop.
  assert (total_nodes o = prefix_sum (fun d => nnum_ o !!! d) top) as Htot
    by (by rewrite Htop).
  destruct (foldl_accumulate (fun d => nnum_ o !!! d)
              (<[0%nat := 0]> (nnum_cum_ o)) top) as (Hlen & Hle & _).
  - rewrite length_insert. lia.
  - apply nnum_nonneg.
  - rewrite list_lookup_total_insert_eq; lia.
  - rewrite list_lookup_total_insert_eq by lia. lia.
  - rewrite length_insert in Hlen.
    rewrite list_lookup_total_insert_eq by lia.
    rewrite Hle by lia.
    rewrite list_lookup_total_insert_eq by lia.
    rewrite <- Htot, Z.add_0_l.
    destruct (Z.ltb_spec (total_nodes o) capacity); lia.
Qed.

(** The length that [set_ptr_dis] adds for slot [k]. *)
Let added (k : nat) : Z :=
  let lc := locations o1 (Z.shiftl 1 (Z.of_nat k)) in
  4 * (if lc =? -1 then total_nnum_capacity o1 else nnum o1 lc)
    * channels_ o !!! k.

Lemma added_bytes k :
  (k < kPTypeNum)%nat -> added k = reserved_bytes o capacity k.
Proof using All.
  intros Hk. unfold added, reserved_bytes, reserved_nodes, locations.
  rewrite has_property_bit, property_index_bit by done.
  rewrite set_nnum_cum_capacity.
  pose proof (flags_consistent k Hk) as Hc.
  replace (present o1 k) with (present o k) by done.
  destruct (present o k); simpl in *.
  - replace (locations_ o1) with (locations_ o) by done.
    unfold nnum. replace (nnum_ o1) with (nnum_ o) by done.
    destruct (locations_ o !!! k =? -1); lia.
  - apply Z.eqb_eq in Hc. rewrite Hc. lia.
Qed.

Lemma reserved_bytes_nonneg k : 0 <= reserved_bytes o capacity k.
Proof using All.
  unfold reserved_bytes, reserved_nodes.
  pose proof (channels_nonneg k).
  assert (0 <= total_nodes o)
    by (apply prefix_sum_nonneg; intros; apply nnum_nonneg).
  destruct (locations_ o !!! k =? -1); [nia|].
  pose proof (nnum_nonneg (Z.to_nat (locations_ o !!! k))). nia.
Qed.

Lemma set_ptr_dis_prefix k :
  (k <= kPTypeNum)%nat ->
  ptr_dis_ (set_ptr_dis o1) !!! k
  = sizeof_OctreeInfo + prefix_sum (reserved_bytes o capacity) k.
Proof using All.
  intros Hk. unfold set_ptr_dis, with_ptr_dis. cbn [ptr_dis_].
  rewrite (foldl_ext_in _
             (fun acc i =>
                <[i := wrap_int (acc !!! (i - 1)%nat
                                 + (fun e => if decide (e < kPTypeNum)%nat
                                             then reserved_bytes o capacity e
                                             else 0)
                                     (i - 1)%nat)]> acc)).
  2:{ intros acc i Hi. apply elem_of_seq in Hi.
      rewrite decide_True by (unfold kPTypeNum in *; lia).
      rewrite <- added_bytes by (unfold kPTypeNum in *; lia).
      unfold added. replace (Z.of_nat (i - 1)) with (Z.of_nat i - 1) by lia.
      done. }
  destruct (foldl_accumulate
              (fun e => if decide (e < kPTypeNum)%nat
                        then reserved_bytes o capacity e else 0)
              (<[0%nat := sizeof_OctreeInfo]> (ptr_dis_ o1)) kPTypeNum)
    as (_ & Hle & _).
  - rewrite length_insert. replace (ptr_dis_ o1) with (ptr_dis_ o) by done.
    rewrite ptr_dis_size. unfold kPTypeNum. lia.
  - intros e. case_decide; [apply reserved_bytes_nonneg | done].
  - rewrite list_lookup_total_insert_eq; [by vm_compute|].
    replace (ptr_dis_ o1) with (ptr_dis_ o) by done. lia.
  - rewrite list_lookup_total_insert_eq
      by (replace (ptr_dis_ o1) with (ptr_dis_ o) by done; lia).
    erewrite prefix_sum_ext; [exact bytes_fit|].
    intros e He. by rewrite decide_True.
  - rewrite Hle by done.
    rewrite list_lookup_total_insert_eq
      by (replace (ptr_dis_ o1) with (ptr_dis_ o) by done; lia).
    f_equal. apply prefix_sum_ext. intros e He.
    rewrite decide_True; [done | lia].
Qed.

(** C7, as amended.  On a header with [0 <= depth_ <= 13], counts that
    are not negative, [channels_] zero exactly for the absent properties
    and sizes that fit an [int]: after [set_nnum_cum] with a capacity and
    [set_ptr_dis], [ptr_dis_[0]] is [sizeof(OctreeInfo)] and the byte
    range of a present property [K] has length [4 * channels[K] * n],
    where [n] is the node count of the stored layer when [locations[K]]
    is not [-1], and [nnum_cum_[depth_ + 2]] when it is: the larger of
    the capacity and the node count over all layers, hence that count
    whenever the capacity is not above it; a property that is absent has
    length 0. *)
Theorem set_ptr_dis_offsets (K : nat) :
  (K < kPTypeNum)%nat ->
  let o' := set_ptr_dis o1 in
  ptr_dis_ o' !!! 0%nat = sizeof_OctreeInfo
  /\ ptr_dis_ o' !!! S K - ptr_dis_ o' !!! K
     = (if present o K
        then 4 * channels_ o !!! K
             * (if locations_ o !!! K =? -1
                then nnum_cum_ o' !!! Z.to_nat (depth_ o + 2)
                else nnum_ o !!! Z.to_nat (locations_ o !!! K))
        else 0)
  /\ nnum_cum_ o' !!! Z.to_nat (depth_ o + 2)
     = Z.max capacity (total_nodes o)
  /\ (capacity <= total_nodes o ->
      nnum_cum_ o' !!! Z.to_nat (depth_ o + 2) = total_nodes o).
Proof using All.
  intros HK o'. subst o'.
  assert (nnum_cum_ (set_ptr_dis o1) !!! Z.to_nat (depth_ o + 2)
          = Z.max capacity (total_nodes o)) as Hcap
    by exact set_nnum_cum_capacity.
  split; [|split; [|split]].
  - rewrite set_ptr_dis_prefix by lia. simpl. lia.
  - rewrite !set_ptr_dis_prefix by lia. rewrite Hcap. simpl.
    pose proof (flags_consistent K HK) as Hc.
    unfold reserved_bytes at 2. unfold reserved_nodes.
    destruct (present o K); simpl in Hc; [lia|].
    apply Z.eqb_eq in Hc. rewrite Hc. lia.
  - exact Hcap.
  - intros Hsmall. rewrite Hcap. lia.
Qed.

End PtrDis.

(** C7, at the sample header with room for 100 nodes, above the 25 nodes
    of its layers: the Key slot (index 0) is stored on every layer and
    takes 400 bytes. *)
Lemma set_ptr_dis_offsets_sample :
  let o' := set_ptr_dis (set_nnum_cum 100 sample_info) in
  ptr_dis_ o' !!! 0%nat = sizeof_OctreeInfo
  /\ ptr_dis_ o' !!! 1%nat - ptr_dis_ o' !!! 0%nat
     = (if present sample_info 0
        then 4 * channels_ sample_info !!! 0%nat
             * (if locations_ sample_info !!! 0%nat =? -1
                then nnum_cum_ o' !!! Z.to_nat (depth_ sample_info + 2)
                else nnum_ sample_info
                       !!! Z.to_nat (locations_ sample_info !!! 0%nat))
        else 0)
  /\ nnum_cum_ o' !!! Z.to_nat (depth_ sample_info + 2)
     = Z.max 100 (total_nodes sample_info)
  /\ (100 <= total_nodes sample_info ->
      nnum_cum_ o' !!! Z.to_nat (depth_ sample_info + 2)
      = total_nodes sample_info).
Proof.
  apply (set_ptr_dis_offsets sample_info 100).
  - simpl. lia.
  - reflexivity.
  - reflexivity.
  - apply (bool_decide_unpack _). by vm_compute.
  - apply (bool_decide_unpack _). by vm_compute.
  - intros k Hk. unfold kPTypeNum in Hk.
    do 6 (destruct k as [|k]; [reflexivity|]). lia.
  - by vm_compute.
  - by vm_compute.
  - unfold kPTypeNum. lia.
Defined.

(** C7, as the specification words it, fails on the sample header once
    [set_nnum_cum] is given room for 100 nodes: the layers hold 25 nodes,
    the claim gives the Key slot 100 bytes, and [set_ptr_dis] gives it
    400. *)
Lemma ptr_dis_claim_fails : ~ ptr_dis_claim sample_info 100.
Proof.
  intros [_ Hclaim]. specialize (Hclaim 0%nat ltac:(unfold kPTypeNum; lia)).
  vm_compute in Hclaim. discriminate.
Qed.

(** ** Validation *)

Lemma check_format_sample : check_format sample_info = (true, EmptyString).
Proof. by vm_compute. Qed.

(** C4, on the code.  [check_format] leaves the message empty and returns
    [true] on a header whose [batch_size_] is 0, and on a header whose
    Key channel count 3 is above its cap 2: the first test reads
    [batch_size_ < 0] and the cap test joins its two bounds with [&&]. *)
Theorem check_format_accepts_invalid :
  check_format (with_batch_size 0 sample_info) = (true, EmptyString)
  /\ check_format (with_channels [3; 1; 0; 3; 0; 0] sample_info)
     = (true, EmptyString).
Proof. split; by vm_compute. Qed.

Lemma append_empty (a b : string) :
  String.eqb (a +:+ b) EmptyString
  = String.eqb a EmptyString && String.eqb b EmptyString.
Proof. by destruct a, b. Qed.

Lemma append_message_nonempty (msg : string) c s :
  String.eqb (msg +:+ String c s) EmptyString = false.
Proof. rewrite append_empty. apply andb_false_r. Qed.

Lemma append_nl_nonempty (msg s : string) :
  String.eqb (msg +:+ s +:+ nl) EmptyString = false.
Proof. rewrite !append_empty. simpl. by rewrite !andb_false_r. Qed.

Lemma channel_cap_unreachable ch cap :
  0 <= cap -> (ch <? 0) && (cap <? ch) = false.
Proof.
  intros Hcap. destruct (Z.ltb_spec ch 0), (Z.ltb_spec cap ch); simpl; lia.
Qed.

Lemma channel_max_nonneg i : 0 <= channel_max !!! i.
Proof.
  apply lookup_total_nonneg. apply (bool_decide_unpack _). by vm_compute.
Qed.

Lemma check_property_empty o msg i :
  String.eqb (check_property o msg i) EmptyString
  = passes_property o i && String.eqb msg EmptyString.
Proof.
  unfold check_property, passes_property.
  rewrite channel_cap_unreachable by apply channel_max_nonneg.
  destruct (Bool.eqb _ _); simpl.
  - destruct (channels_ o !!! i =? 0); simpl; [done|].
    destruct (locations_ o !!! i =? -1); simpl; [done|].
    destruct (locations_ o !!! i =? depth_ o); simpl; [done|].
    rewrite !append_empty. simpl. by rewrite !andb_false_r.
  - destruct (_ && _); rewrite !append_empty; simpl; by rewrite !andb_false_r.
Qed.

Lemma check_properties_empty o msg l :
  String.eqb (foldl (check_property o) msg l) EmptyString
  = forallb (passes_property o) l && String.eqb msg EmptyString.
Proof.
  revert msg. induction l as [|i l IH]; intros msg; simpl; [done|].
  rewrite IH, check_property_empty.
  destruct (passes_property o i), (forallb _ l); simpl; try done.
Qed.

(** The flag of [check_format] in closed form. *)
Lemma check_format_flag o :
  (check_format o).1
  = String.eqb kMagicStr (magic_str_ o)
    && (0 <=? batch_size_ o)
    && ((1 <=? depth_ o) && (depth_ o <=? 8))
    && ((0 <=? full_layer_ o) && (full_layer_ o <=? depth_ o))
    && ((full_layer_ o <=? adp_layer_ o) && (adp_layer_ o <=? depth_ o))
    && forallb (passes_property o) (seq 0 kPTypeNum).
Proof.
  unfold check_format. cbn [fst].
  rewrite check_properties_empty.
  rewrite !(Z.leb_antisym _ _).
  destruct (String.eqb kMagicStr (magic_str_ o)),
    (batch_size_ o <? 0), (depth_ o <? 1), (8 <? depth_ o),
    (full_layer_ o <? 0), (depth_ o <? full_layer_ o),
    (adp_layer_ o <? full_layer_ o), (depth_ o <? adp_layer_ o);
    cbn [negb andb orb];
    rewrite ?append_empty, ?andb_false_r, ?andb_true_r; try done;
    cbn; by rewrite ?andb_false_r.
Qed.

(** ** Feature channels and feature payload *)

Lemma set_channel_channels ptype ch o :
  channels_ (set_channel ptype ch o)
  = <[property_index ptype := if 0 <? ch then ch else 0]> (channels_ o).
Proof. unfold set_channel. by destruct (0 <? ch). Qed.

Lemma set_channel_size ptype ch o :
  length (channels_ (set_channel ptype ch o)) = length (channels_ o).
Proof. by rewrite set_channel_channels, length_insert. Qed.

(** Each round of the loop of [serialize] extends one layer of
    [features]; the layers that the loop has not reached are untouched. *)
Lemma serialize_features_upto (t : Octree) (n d : nat) :
  (n <= length (avg_normals_ t))%nat ->
  foldl (fun features d =>
           <[d := (((features !!! d ++ displacement_ t !!! d)
                     ++ avg_features_ t !!! d)
                    ++ avg_fpfh_ t !!! d)
                   ++ avg_roughness_ t !!! d]> features)
        (avg_normals_ t) (seq 0 n) !!! d
  = if decide (d < n)%nat then layer_features t d else avg_normals_ t !!! d.
Proof.
  intros Hn. induction n as [|n IH]; [done|].
  rewrite seq_S, foldl_app. cbn [foldl Nat.add].
  set (prev := foldl _ _ (seq 0 n)) in *.
  assert (length prev = length (avg_normals_ t)) as Hlen.
  { subst prev. clear. induction n as [|n IHn]; [done|].
    by rewrite seq_S, foldl_app; cbn [foldl]; rewrite length_insert. }
  destruct (decide (d = n)) as [->|Hne].
  - rewrite list_lookup_total_insert_eq by lia.
    rewrite decide_True by lia. rewrite IH by lia.
    rewrite decide_False by lia. unfold layer_features.
    by rewrite <- !app_assoc.
  - rewrite list_lookup_total_insert_ne by done. rewrite IH by lia.
    destruct (decide (d < n)%nat); [by rewrite decide_True by lia|].
    by rewrite decide_False by lia.
Qed.

Lemma serialize_property_all {A} depth (src : list (list A)) :
  serialize_property depth src (-1)
  = concat (map (fun d => src !!! d) (seq 0 (Z.to_nat (depth + 1)))).
Proof.
  unfold serialize_property. simpl.
  generalize (Z.to_nat (depth + 1)). intros n.
  induction n as [|n IH]; [done|].
  rewrite seq_S, foldl_app, map_app, concat_app. simpl.
  by rewrite IH, app_nil_r.
Qed.

Section FeatureLayout.

Variables kKey kChild kFeature kLabel kSplit : Z.

(** C8.  In [serialize] the payload of the Feature property is, layer by
    layer, [avg_normals ++ displacement ++ avg_features ++ avg_fpfh ++
    avg_roughness]; and [initialize] stores as Feature channel count the
    sum of the normal, feature, fpfh and roughness channel counts of
    the points, plus 1 when displacement is enabled. *)
Theorem feature_layout depth full_depth nd nf sl ad adp thd thn k2x
    (pt : PtsInfo.t) (o : OctreeInfo) (t : Octree) (d : nat) :
  property_index kLabel <> property_index kFeature ->
  (property_index kFeature < length (channels_ o))%nat ->
  0 <= PtsInfo.channel pt PtsInfo.kNormal ->
  0 <= PtsInfo.channel pt PtsInfo.kFeature ->
  0 <= PtsInfo.channel pt PtsInfo.KFPFH ->
  0 <= PtsInfo.channel pt PtsInfo.KRoughness ->
  PtsInfo.channel pt PtsInfo.kNormal + PtsInfo.channel pt PtsInfo.kFeature
    + PtsInfo.channel pt PtsInfo.KFPFH
    + PtsInfo.channel pt PtsInfo.KRoughness + 1 < 2 ^ 31 ->
  (Z.to_nat (depth_ (oct_info_ t) + 1) <= length (avg_normals_ t))%nat ->
  (d < Z.to_nat (depth_ (oct_info_ t) + 1))%nat ->
  serialize_features t !!! d = layer_features t d
  /\ serialize_feature kFeature t
     = (if has_property (oct_info_ t) kFeature then
          Some (if locations (oct_info_ t) kFeature =? -1
                then concat (map (fun e => serialize_features t !!! e)
                               (seq 0 (Z.to_nat (depth_ (oct_info_ t) + 1))))
                else serialize_features t
                       !!! Z.to_nat (locations (oct_info_ t) kFeature))
        else None)
  /\ channels_
       (initialize kKey kChild kFeature kLabel kSplit depth full_depth
          nd nf sl ad adp thd thn k2x pt o) !!! property_index kFeature
     = PtsInfo.channel pt PtsInfo.kNormal
       + PtsInfo.channel pt PtsInfo.kFeature
       + PtsInfo.channel pt PtsInfo.KFPFH
       + PtsInfo.channel pt PtsInfo.KRoughness
       + (if nd then 1 else 0).
Proof.
  intros Hidx Hsize Hn Hf Hp Hr Hfit Hlen Hd.
  split; [|split].
  - unfold serialize_features. rewrite serialize_features_upto by done.
    by rewrite decide_True.
  - unfold serialize_feature. destruct (has_property _ _); [|done].
    f_equal. destruct (locations (oct_info_ t) kFeature =? -1) eqn:Hloc.
    + apply Z.eqb_eq in Hloc. rewrite Hloc. apply serialize_property_all.
    + unfold serialize_property. by rewrite Hloc.
  - unfold initialize.
    set (total := PtsInfo.channel pt PtsInfo.kNormal + _ + _ + _) in *.
    assert (wrap_int total = total) as -> by (apply wrap_int_small; lia).
    set (ch := if nd then wrap_int (total + 1) else total).
    assert (ch = total + (if nd then 1 else 0)) as Hch.
    { subst ch. destruct nd; [apply wrap_int_small|]; lia. }
    set (o4 := if sl then _ else _).
    assert (property_index kFeature < length (channels_ o4))%nat as Hsz.
    { subst o4. destruct sl; cbn [channels_ set_location with_locations];
        rewrite ?set_channel_size; cbn [channels_ set_location with_locations];
        rewrite ?set_channel_size; cbn; rewrite ?set_channel_size;
        cbn; by rewrite ?set_channel_size. }
    assert (channels_ (set_location kFeature
                         (if nf || ad then -1 else depth)
                         (set_channel kFeature ch o4))
              !!! property_index kFeature = total + (if nd then 1 else 0))
      as Hset.
    { cbn [set_location with_locations channels_].
      rewrite set_channel_channels, list_lookup_total_insert_eq by done.
      rewrite Hch. destruct (Z.ltb_spec 0 (total + if nd then 1 else 0));
        [done|]. destruct nd; lia. }
    destruct (PtsInfo.channel pt PtsInfo.kLabel =? 1); [|exact Hset].
    cbn [set_location with_locations channels_].
    rewrite set_channel_channels. simpl (0 <? 1).
    rewrite list_lookup_total_insert_ne by done. exact Hset.
Qed.

End FeatureLayout.

(** ** Run compaction *)

(** C10.  On an empty vector [unique_key] does not return two empty
    vectors: [keys] comes back with the single value 0 and [idx] as
    [[0; 0]], which is not strictly increasing. *)
Theorem unique_key_empty :
  unique_key [] = ([0], [0; 0])
  /\ length (unique_key []).1 = 1%nat
  /\ ~ StronglySorted Z.lt (unique_key []).2.
Proof.
  split; [done|]. split; [done|].
  simpl. intros Hs. apply StronglySorted_inv in Hs as [_ Hall].
  apply Forall_inv in Hall. lia.
Qed.

Section UniqueKey.

Variable keys : list Z.

(** The state of the loop of [unique_key] after the rounds [1 .. m]. *)
Let state (m : nat) : list Z * list Z * nat :=
  foldl unique_step (keys, [0], 1%nat) (seq 1 m).

Lemma unique_inv_start : unique_inv keys 0 keys [0] 1.
Proof.
  split.
  - done.
  - split; [done | lia].
  - done.
  - intros b Hb. by replace b with 0%nat by lia.
  - repeat constructor.
  - done.
  - by repeat constructor.
  - done.
  - intros q Hq. exists 0%nat. replace q with 0%nat by lia.
    repeat split; [lia | done].
  - intros b Hb. lia.
Qed.

Lemma unique_inv_step m ks idx j :
  (S m < length keys)%nat ->
  unique_inv keys m ks idx j ->
  let '(ks', idx', j') := unique_step (ks, idx, j) (S m) in
  unique_inv keys (S m) ks' idx' j'.
Proof.
  intros Hm [Hsize [Hcount Hj] Hrest Hcompact Hsorted Hfirst Hbound Hlast
               Hruns Hdist].
  unfold unique_step. rewrite Nat.sub_succ, Nat.sub_0_r.
  assert (ks !!! S m = keys !!! S m) as -> by (apply Hrest; lia).
  assert (ks !!! m = keys !!! m) as ->.
  { destruct (decide (j <= m)%nat) as [Hle|Hgt]; [by apply Hrest|].
    replace m with (j - 1)%nat at 1 by lia.
    rewrite Hcompact by lia. by rewrite Hlast. }
  destruct (Z.eqb_spec (keys !!! S m) (keys !!! m)) as [Heq|Hne];
    cbn [negb].
  - (* same run *)
    split; [done | | done | done | done | done | | | | done].
    + split; [done | lia].
    + eapply Forall_impl; [exact Hbound|]. simpl. lia.
    + by rewrite Heq.
    + intros q Hq. destruct (decide (q <= m)%nat) as [Hle|Hgt].
      * destruct (Hruns q Hle) as (b & ? & ? & ? & ?). by exists b.
      * replace q with (S m) by lia. exists (j - 1)%nat.
        repeat split; [lia | | lia | by rewrite Heq].
        assert (idx !!! (j - 1)%nat <= Z.of_nat m); [|lia].
        pose proof (Forall_lookup_total_1 _ idx (j - 1) Hbound) as Hb.
        simpl in Hb. lia.
  - (* a new run starts at [S m] *)
    split.
    + by rewrite length_insert.
    + rewrite length_app. simpl. split; lia.
    + intros p Hp. rewrite list_lookup_total_insert_ne by lia.
      apply Hrest. lia.
    + intros b Hb. destruct (decide (b = j)) as [->|Hbj].
      * rewrite list_lookup_total_insert_eq by lia.
        rewrite lookup_total_app_r by lia.
        rewrite Hcount, Nat.sub_diag. simpl. by rewrite Nat2Z.id.
      * rewrite list_lookup_total_insert_ne by lia.
        rewrite lookup_total_app_l by lia. apply Hcompact. lia.
    + apply StronglySorted_app_2; [| done | repeat constructor].
      intros x y Hx Hy. apply list_elem_of_singleton in Hy as ->.
      rewrite Forall_forall in Hbound. apply Hbound in Hx. lia.
    + rewrite lookup_total_app_l by lia. done.
    + apply Forall_app. split.
      * eapply Forall_impl; [exact Hbound|]. simpl. lia.
      * repeat constructor; lia.
    + replace (S j - 1)%nat with j by lia.
      rewrite lookup_total_app_r by lia.
      rewrite Hcount, Nat.sub_diag. simpl. by rewrite Nat2Z.id.
    + intros q Hq. destruct (decide (q <= m)%nat) as [Hle|Hgt].
      * destruct (Hruns q Hle) as (b & Hb & Hlo & Hhi & Hk).
        exists b. rewrite lookup_total_app_l by lia.
        repeat split; [lia | done | | done].
        intros Hnext. destruct (decide (S b < j)%nat) as [Hin|Hout].
        -- rewrite lookup_total_app_l by lia. by apply Hhi.
        -- rewrite lookup_total_app_r by lia.
           replace (S b - length idx)%nat with 0%nat by lia. simpl. lia.
      * replace q with (S m) by lia. exists j.
        rewrite lookup_total_app_r by lia.
        rewrite Hcount, Nat.sub_diag. simpl.
        repeat split; [lia | lia | lia | by rewrite Nat2Z.id].
    + intros b Hb. destruct (decide (S b < j)%nat) as [Hin|Hout].
      * rewrite !lookup_total_app_l by lia. by apply Hdist.
      * replace (S b) with j by lia.
        rewrite lookup_total_app_r by lia.
        rewrite lookup_total_app_l by lia.
        rewrite Hcount, Nat.sub_diag. simpl. rewrite Nat2Z.id.
        replace b with (j - 1)%nat by lia. by rewrite <- Hlast.
Qed.

Lemma unique_inv_state m :
  (m < length keys)%nat ->
  let '(ks, idx, j) := state m in unique_inv keys m ks idx j.
Proof.
  induction m as [|m IH]; intros Hm.
  - apply unique_inv_start.
  - unfold state in *. rewrite seq_S, foldl_app. cbn [foldl Nat.add].
    destruct (foldl unique_step (keys, [0], 1%nat) (seq 1 m))
      as [[ks idx] j].
    apply unique_inv_step; [done|]. apply IH. lia.
Qed.

End UniqueKey.

Lemma unique_key_post (keys : list Z) :
  (1 <= length keys)%nat ->
  unique_post keys (unique_key keys).1 (unique_key keys).2.
Proof.
  intros Hn. unfold unique_key.
  pose proof (unique_inv_state keys (length keys - 1)) as Hinv.
  destruct (foldl unique_step (keys, [0], 1%nat) (seq 1 (length keys - 1)))
    as [[ks idx] j].
  destruct Hinv as [Hsize [Hcount Hj] Hrest Hcompact Hsorted Hfirst Hbound
                      Hlast Hruns Hdist]; [lia|].
  cbn [fst snd].
  assert (length (resize j 0 ks) = j) as HU by apply length_resize.
  assert (forall b, (b < j)%nat -> resize j 0 ks !!! b = ks !!! b) as Htake.
  { intros b Hb. rewrite resize_le by lia. by apply lookup_total_take_lt. }
  split; rewrite ?HU.
  - rewrite length_app. simpl. lia.
  - apply StronglySorted_app_2; [| done | repeat constructor].
    intros x y Hx Hy. apply list_elem_of_singleton in Hy as ->.
    rewrite Forall_forall in Hbound. apply Hbound in Hx. lia.
  - by rewrite lookup_total_app_l by lia.
  - rewrite lookup_total_app_r by lia. by rewrite Hcount, Nat.sub_diag.
  - apply Forall_app. split.
    + eapply Forall_impl; [exact Hbound|]. simpl. lia.
    + repeat constructor; lia.
  - intros b Hb. rewrite Htake by done. rewrite lookup_total_app_l by lia.
    by apply Hcompact.
  - intros q Hq. destruct (Hruns q) as (b & Hb & Hlo & Hhi & Hk); [lia|].
    exists b. rewrite Htake by done. rewrite lookup_total_app_l by lia.
    rewrite Hcompact by done. repeat split; [done | done | | done].
    destruct (decide (S b < j)%nat) as [Hin|Hout].
    + rewrite lookup_total_app_l by lia. by apply Hhi.
    + rewrite lookup_total_app_r by lia.
      replace (S b - length idx)%nat with 0%nat by lia. simpl. lia.
  - intros b Hb. rewrite !Htake by lia. rewrite !Hcompact by lia.
    by apply Hdist.
Qed.

(** The run lengths of a boundary vector telescope. *)
Lemma run_lengths_sum (a : Z) (idx : list Z) :
  sum_list_Z (run_lengths (a :: idx)) = default a (last idx) - a.
Proof.
  revert a. induction idx as [|b idx IH]; intros a.
  - simpl. lia.
  - change (run_lengths (a :: b :: idx))
      with ((b - a) :: run_lengths (b :: idx)).
    unfold sum_list_Z in *. cbn [foldr]. rewrite IH.
    destruct idx as [|c idx]; [simpl; lia|].
    rewrite last_cons_cons.
    destruct (last (c :: idx)) eqn:Hl; simpl; [lia|].
    by apply last_None in Hl.
Qed.

Lemma shiftr_le_mono a b n : 0 <= n -> a <= b -> Z.shiftr a n <= Z.shiftr b n.
Proof.
  intros Hn Hab. rewrite !Z.shiftr_div_pow2 by done.
  apply Z.div_le_mono; [|done]. by apply Z.pow_pos_nonneg.
Qed.

Lemma sort_codes_keys_sorted (keys : list Z) :
  StronglySorted Z.le (unpack_keys (sort_codes keys))
  /\ length (unpack_keys (sort_codes keys)) = length keys.
Proof.
  unfold unpack_keys, sort_codes. split.
  - apply (StronglySorted_fmap _ Z.le).
    + intros a b Hab. by apply shiftr_le_mono.
    + apply (StronglySorted_merge_sort Z.le).
  - rewrite length_map.
    rewrite (Permutation_length (merge_sort_Permutation Z.le _)).
    apply length_imap.
Qed.

(** The shape of what [sort_keys] and [unique_key] leave for a cloud of
    [N >= 1] points: [N] keys in non-decreasing order, and run bounds
    that increase strictly from 0 to [N], so that the run lengths add up
    to [N]. *)
Lemma sort_keys_runs_shape (depth : Z) (pts_scaled : list float) :
  let N := (length pts_scaled / 3)%nat in
  (1 <= N)%nat ->
  let sorted_keys := (sort_keys depth pts_scaled).1 in
  let unique_idx := (unique_key sorted_keys).2 in
  length sorted_keys = N
  /\ StronglySorted Z.le sorted_keys
  /\ StronglySorted Z.lt unique_idx
  /\ head unique_idx = Some 0
  /\ last unique_idx = Some (Z.of_nat N)
  /\ sum_list_Z (run_lengths unique_idx) = Z.of_nat N.
Proof.
  intros N HN sorted_keys unique_idx.
  destruct (sort_codes_keys_sorted
              (map (fun i =>
                      compute_key
                        (map (fun j =>
                                float_to_uint32
                                  (pts_scaled !!! (3 * i + j)%nat))
                             (seq 0 3))
                        (Z.to_nat depth)) (seq 0 N))) as [Hsorted Hlen].
  rewrite length_map, length_seq in Hlen.
  change (StronglySorted Z.le sorted_keys) in Hsorted.
  change (length sorted_keys = N) in Hlen.
  destruct (unique_key_post sorted_keys) as
    [[Hcount HU] Hs Hfirst Hlast _ _ _ _]; [lia|].
  fold unique_idx in Hcount, Hs, Hfirst, Hlast.
  set (U := (unique_key sorted_keys).1) in *.
  destruct unique_idx as [|a idx] eqn:Hidx; [done|].
  cbn in Hfirst. subst a.
  assert (last (0 :: idx) = Some (Z.of_nat N)) as Hl.
  { rewrite last_lookup. simpl in Hcount.
    replace (Init.Nat.pred (length (0 :: idx))) with (length U)
      by (simpl; lia).
    rewrite list_lookup_total_alt in Hlast.
    destruct ((0 :: idx) !! length U) eqn:Hlk; simpl in Hlast.
    - by rewrite Hlast, Hlen.
    - apply lookup_ge_None in Hlk. simpl in Hlk. lia. }
  repeat split; try done.
  rewrite run_lengths_sum.
  destruct idx as [|b idx]; [simpl in Hcount; lia|].
  rewrite last_cons_cons in Hl. rewrite Hl. simpl. lia.
Qed.

(** ** Loops that store into a vector *)

Section Scatter.

Context {A B : Type} `{Inhabited A}.
Variables (g : B -> nat) (h : B -> A).

(** The loop [for j in js: v[g j] = h j]. *)
Let scatter (init : list A) (js : list B) : list A :=
  foldl (fun l j => <[g j := h j]> l) init js.

Lemma scatter_length init js : length (scatter init js) = length init.
Proof.
  induction js as [|j js IH] using rev_ind; [done|].
  unfold scatter in *. by rewrite foldl_app; simpl; rewrite length_insert.
Qed.

(** A cell that no round addresses keeps its value. *)
Lemma scatter_untouched init js s :
  (forall j, j ∈ js -> g j <> s) -> scatter init js !!! s = init !!! s.
Proof.
  induction js as [|j js IH] using rev_ind; intros Hs; [done|].
  unfold scatter in *. rewrite foldl_app. simpl.
  rewrite list_lookup_total_insert_ne.
  - apply IH. intros j' Hj'. apply Hs. apply elem_of_app. by left.
  - apply Hs. apply elem_of_app. right. by apply list_elem_of_singleton.
Qed.

(** A cell holds its old value or the value of a round that addresses it. *)
Lemma scatter_origin init js s :
  scatter init js !!! s = init !!! s
  \/ exists j, j ∈ js /\ g j = s /\ scatter init js !!! s = h j.
Proof.
  induction js as [|j js IH] using rev_ind; [by left|].
  unfold scatter in *. rewrite foldl_app. simpl.
  destruct (decide (g j = s)) as [Hgs|Hgs].
  - destruct (decide (s < length init)%nat) as [Hin|Hout].
    + right. exists j. split; [|split; [done|]].
      * apply elem_of_app. right. by apply list_elem_of_singleton.
      * subst s. apply list_lookup_total_insert_eq.
        fold (scatter init js). by rewrite scatter_length.
    + left. rewrite !list_lookup_total_alt.
      rewrite !lookup_ge_None_2; [done | lia |].
      rewrite length_insert. fold (scatter init js).
      rewrite scatter_length. lia.
  - rewrite list_lookup_total_insert_ne by done.
    destruct IH as [IH|(j' & Hj' & Hg' & IH)]; [by left|].
    right. exists j'. split; [|done]. apply elem_of_app. by left.
Qed.

(** With pairwise distinct addresses every round's store survives. *)
Lemma scatter_stored init js j :
  NoDup (map g js) -> j ∈ js -> (g j < length init)%nat ->
  scatter init js !!! g j = h j.
Proof.
  induction js as [|j' js IH] using rev_ind; intros Hnd Hj Hlen.
  - by apply elem_of_nil in Hj.
  - unfold scatter in *. rewrite foldl_app. simpl.
    rewrite map_app in Hnd. apply NoDup_app in Hnd as (Hnd & Hdis & _).
    apply elem_of_app in Hj as [Hj|Hj].
    + rewrite list_lookup_total_insert_ne.
      * by apply IH.
      * intros Heq. apply (Hdis (g j)).
        -- apply list_elem_of_fmap. by exists j.
        -- rewrite <- Heq. simpl. by left.
    + apply list_elem_of_singleton in Hj as ->.
      apply list_lookup_total_insert_eq.
      fold (scatter init js). by rewrite scatter_length.
Qed.

End Scatter.

Lemma StronglySorted_lt_lookup (l : list Z) (i j : nat) :
  StronglySorted Z.lt l -> (i < j)%nat -> (j < length l)%nat ->
  l !!! i < l !!! j.
Proof.
  intros Hs. revert i j. induction Hs as [|x l Hs IH Hall]; intros i j Hij Hj.
  - simpl in Hj. lia.
  - destruct j as [|j]; [lia|]. simpl in Hj.
    destruct i as [|i].
    + simpl. rewrite Forall_forall in Hall. apply Hall.
      apply list_elem_of_lookup_total_2. lia.
    + simpl. apply IH; lia.
Qed.

Lemma StronglySorted_lt_le_lookup (l : list Z) (i j : nat) :
  StronglySorted Z.lt l -> (i <= j)%nat -> (j < length l)%nat ->
  l !!! i <= l !!! j.
Proof.
  intros Hs Hij Hj. destruct (decide (i = j)) as [->|Hne]; [lia|].
  apply Z.lt_le_incl. apply StronglySorted_lt_lookup; [done | lia | done].
Qed.

(** A strictly increasing vector of naturals grows at least like its
    index. *)
Lemma StronglySorted_lt_index (l : list Z) (i : nat) :
  StronglySorted Z.lt l -> Forall (fun x => 0 <= x) l ->
  (i < length l)%nat -> Z.of_nat i <= l !!! i.
Proof.
  intros Hs Hpos. induction i as [|i IH]; intros Hi.
  - by apply lookup_total_nonneg.
  - assert (l !!! i < l !!! S i)
      by (apply StronglySorted_lt_lookup; [done | lia | done]).
    specialize (IH ltac:(lia)). lia.
Qed.

(** ** Key arithmetic *)

Lemma shiftr_3 k : Z.shiftr k 3 = k `div` 8.
Proof. by rewrite Z.shiftr_div_pow2. Qed.

Lemma shiftl_3 k : Z.shiftl k 3 = 8 * k.
Proof. rewrite Z.shiftl_mul_pow2 by done. lia. Qed.

Lemma land_7 k : Z.land k 7 = k `mod` 8.
Proof. change 7 with (Z.ones 3). by rewrite Z.land_ones. Qed.

Lemma lor_block (b r : Z) : 0 <= r < 8 -> Z.lor (8 * b) r = 8 * b + r.
Proof.
  intros Hr. symmetry. apply Z.add_nocarry_lor.
  apply Z.bits_inj'. intros n Hn. rewrite Z.land_spec, Z.bits_0.
  destruct (decide (n < 3)) as [Hlow|Hhigh].
  - replace (8 * b) with (b * 2 ^ 3) by lia.
    by rewrite Z.mul_pow2_bits_low.
  - assert (Z.testbit r n = false) as ->; [|apply andb_false_r].
    destruct (decide (r = 0)) as [->|Hr0]; [apply Z.bits_0|].
    apply Z.bits_above_log2; [lia|].
    assert (Z.log2 r < 3); [|lia]. apply Z.log2_lt_pow2; lia.
Qed.

Lemma key_of_parent (p : Z) (i : nat) :
  0 <= p < 2 ^ 29 ->
  Z.lor (wrap_uint32 (Z.shiftl p 3)) (Z.of_nat i `mod` 8)
  = 8 * p + Z.of_nat (i mod 8).
Proof.
  intros Hp. rewrite shiftl_3, wrap_uint32_small by lia.
  rewrite lor_block by (apply Z.mod_pos_bound; lia).
  rewrite Nat2Z.inj_mod. done.
Qed.

Lemma slot_of_key (k : Z) (b : nat) :
  Z.of_nat b < 2 ^ 29 ->
  Z.to_nat (Z.lor (Z.land k 7) (wrap_uint32 (Z.shiftl (Z.of_nat b) 3)))
  = (8 * b + Z.to_nat (k `mod` 8))%nat.
Proof.
  intros Hb. rewrite shiftl_3, wrap_uint32_small by lia.
  rewrite land_7, Z.lor_comm.
  pose proof (Z.mod_pos_bound k 8 ltac:(lia)).
  rewrite lor_block by done. lia.
Qed.

Lemma block_div (b k : nat) : (k < 8)%nat -> ((8 * b + k) / 8)%nat = b.
Proof. intros. symmetry. apply (Nat.div_unique _ 8 b k); lia. Qed.

Lemma block_mod (b k : nat) : (k < 8)%nat -> ((8 * b + k) mod 8)%nat = k.
Proof. intros. symmetry. apply (Nat.mod_unique _ 8 b k); lia. Qed.

Lemma index_block (i : nat) : Z.to_nat (Z.shiftr (Z.of_nat i) 3) = (i / 8)%nat.
Proof.
  rewrite shiftr_3. change 8 with (Z.of_nat 8).
  rewrite <- Nat2Z.inj_div. apply Nat2Z.id.
Qed.

Lemma block_count (np : nat) :
  Z.to_nat (Z.shiftl (Z.of_nat np) 3) = (8 * np)%nat.
Proof. rewrite shiftl_3. lia. Qed.

Lemma lookup_total_map {A B} `{Inhabited A, Inhabited B}
    (f : A -> B) (l : list A) (i : nat) :
  (i < length l)%nat -> map f l !!! i = f (l !!! i).
Proof. apply (list_lookup_total_fmap f). Qed.

(** ** One round of the bottom-up build *)

Lemma adjacent_lt_sorted (l : list Z) :
  (forall b, (S b < length l)%nat -> l !!! b < l !!! S b) ->
  StronglySorted Z.lt l.
Proof.
  intros Hadj. apply Sorted_StronglySorted; [intros x y z; lia|].
  induction l as [|x l IH]; [constructor|].
  constructor.
  - apply IH. intros b Hb. apply (Hadj (S b)). simpl. lia.
  - destruct l as [|y l]; constructor.
    apply (Hadj 0%nat). simpl. lia.
Qed.

Lemma occupied_lookup bound nk q :
  occupied bound nk -> (q < length nk)%nat -> 0 <= nk !!! q < bound.
Proof.
  intros [_ Hb] Hq. by apply (Forall_lookup_total_1 _ nk q) in Hb.
Qed.

Lemma occupied_index bound nk q :
  occupied bound nk -> (q < length nk)%nat -> Z.of_nat q <= nk !!! q.
Proof.
  intros [Hs Hb] Hq. apply StronglySorted_lt_index; [done | | done].
  eapply Forall_impl; [exact Hb|]. simpl. lia.
Qed.

Lemma occupied_gap bound nk q q' :
  occupied bound nk -> (q <= q')%nat -> (q' < length nk)%nat ->
  Z.of_nat q' - Z.of_nat q <= nk !!! q' - nk !!! q.
Proof.
  intros [Hs _] Hqq Hq'. induction Hqq as [|q' Hqq IH]; [lia|].
  assert (nk !!! q' < nk !!! S q')
    by (apply StronglySorted_lt_lookup; [done | lia | done]).
  specialize (IH ltac:(lia)). lia.
Qed.

Lemma occupied_inj bound nk q q' :
  occupied bound nk -> (q < length nk)%nat -> (q' < length nk)%nat ->
  nk !!! q = nk !!! q' -> q = q'.
Proof.
  intros [Hs _] Hq Hq' Heq.
  destruct (Nat.lt_trichotomy q q') as [Hlt|[Heq'|Hgt]]; [|done|].
  - pose proof (StronglySorted_lt_lookup nk q q' Hs Hlt Hq'). lia.
  - pose proof (StronglySorted_lt_lookup nk q' q Hs Hgt Hq). lia.
Qed.

Section Layer.

Variables (M : Z) (nk : list Z).

Hypothesis cells : 0 < M <= 2 ^ 27.
Hypothesis nodes : occupied (8 * M) nk.
Hypothesis some_node : (1 <= length nk)%nat.

Let pk : list Z := map (fun k => Z.shiftr k 3) nk.
Let U : list Z := (unique_key pk).1.
Let idx : list Z := (unique_key pk).2.

Lemma pk_lookup q : (q < length nk)%nat -> pk !!! q = nk !!! q `div` 8.
Proof using All.
  intros Hq. unfold pk. rewrite lookup_total_map by done.
  apply shiftr_3.
Qed.

Lemma parents_post : unique_post pk U idx.
Proof using All.
  apply unique_key_post. unfold pk. by rewrite length_map.
Qed.

Lemma pk_mono q q' :
  (q <= q')%nat -> (q' < length nk)%nat -> pk !!! q <= pk !!! q'.
Proof using All.
  intros Hqq Hq'. rewrite !pk_lookup by lia.
  apply Z.div_le_mono; [lia|].
  destruct nodes as [Hs _].
  by apply StronglySorted_lt_le_lookup.
Qed.

Lemma idx_lookup_bound b :
  (b <= length U)%nat -> 0 <= idx !!! b <= Z.of_nat (length nk).
Proof using All.
  intros Hb. destruct parents_post as [[Hcount _] _ _ _ Hbound _ _ _].
  apply (Forall_lookup_total_1 _ idx b) in Hbound; [|lia].
  unfold pk in Hbound. by rewrite length_map in Hbound.
Qed.

Lemma idx_mono b b' :
  (b < b')%nat -> (b' <= length U)%nat -> idx !!! b < idx !!! b'.
Proof using All.
  intros Hbb Hb'. destruct parents_post as [[Hcount _] Hs _ _ _ _ _ _].
  apply StronglySorted_lt_lookup; [done | done | lia].
Qed.

(** The run of a node: the parent it belongs to. *)
Lemma run_of q :
  (q < length nk)%nat ->
  exists b, (b < length U)%nat
            /\ idx !!! b <= Z.of_nat q < idx !!! S b
            /\ nk !!! q `div` 8 = U !!! b.
Proof using All.
  intros Hq. destruct parents_post as [_ _ _ _ _ _ Hruns _].
  destruct (Hruns q) as (b & Hb & Hin & Hk).
  { unfold pk. by rewrite length_map. }
  exists b. rewrite <- pk_lookup by done. done.
Qed.

Lemma run_unique q b b' :
  (b < length U)%nat -> (b' < length U)%nat ->
  idx !!! b <= Z.of_nat q < idx !!! S b ->
  idx !!! b' <= Z.of_nat q < idx !!! S b' ->
  b = b'.
Proof using All.
  intros Hb Hb' Hq Hq'.
  destruct (Nat.lt_trichotomy b b') as [Hlt|[Heq|Hgt]]; [|done|].
  - destruct (decide (S b = b')) as [<-|Hne]; [lia|].
    pose proof (idx_mono (S b) b' ltac:(lia) ltac:(lia)). lia.
  - destruct (decide (S b' = b)) as [<-|Hne]; [lia|].
    pose proof (idx_mono (S b') b ltac:(lia) ltac:(lia)). lia.
Qed.

Lemma run_key q b :
  (b < length U)%nat -> idx !!! b <= Z.of_nat q < idx !!! S b ->
  nk !!! q `div` 8 = U !!! b.
Proof using All.
  intros Hb Hq.
  assert (q < length nk)%nat as Hlt.
  { pose proof (idx_lookup_bound (S b) ltac:(lia)). lia. }
  destruct (run_of q Hlt) as (b' & Hb' & Hq' & Hk).
  by rewrite (run_unique q b b').
Qed.

(** A parent has at most eight occupied children. *)
Lemma run_short b : (b < length U)%nat -> idx !!! S b - idx !!! b <= 8.
Proof using All.
  intros Hb.
  pose proof (idx_mono b (S b) ltac:(lia) ltac:(lia)) as Hlt.
  pose proof (idx_lookup_bound b ltac:(lia)) as Hlo.
  pose proof (idx_lookup_bound (S b) ltac:(lia)) as Hhi.
  set (q := Z.to_nat (idx !!! b)). set (q' := Z.to_nat (idx !!! S b - 1)).
  assert (nk !!! q `div` 8 = U !!! b) as Hq
    by (apply run_key; [done | lia]).
  assert (nk !!! q' `div` 8 = U !!! b) as Hq'
    by (apply run_key; [done | lia]).
  pose proof (occupied_gap _ nk q q' nodes ltac:(lia) ltac:(lia)) as Hgap.
  pose proof (Z.div_mod (nk !!! q) 8 ltac:(lia)).
  pose proof (Z.div_mod (nk !!! q') 8 ltac:(lia)).
  pose proof (Z.mod_pos_bound (nk !!! q) 8 ltac:(lia)).
  pose proof (Z.mod_pos_bound (nk !!! q') 8 ltac:(lia)).
  lia.
Qed.

Lemma idx_block b : (b <= length U)%nat -> idx !!! b <= 8 * Z.of_nat b.
Proof using All.
  induction b as [|b IH]; intros Hb.
  - destruct parents_post as [_ _ Hfirst _ _ _ _ _]. lia.
  - pose proof (run_short b ltac:(lia)). specialize (IH ltac:(lia)). lia.
Qed.

Lemma nodes_fit_blocks : (length nk <= 8 * length U)%nat.
Proof using All.
  destruct parents_post as [_ _ _ Hlast _ _ _ _].
  pose proof (idx_block (length U) ltac:(lia)) as Hb.
  unfold pk in Hlast. rewrite length_map in Hlast. lia.
Qed.

(** The parents are the occupied nodes of the layer above. *)
Lemma parents_occupied : occupied M U /\ (1 <= length U)%nat.
Proof using All.
  destruct parents_post as [[Hcount HU] _ _ _ _ Hcompact _ Hdist].
  assert (forall b, (b < length U)%nat ->
                    U !!! b = nk !!! Z.to_nat (idx !!! b) `div` 8
                    /\ (Z.to_nat (idx !!! b) < length nk)%nat) as Hhead.
  { intros b Hb.
    pose proof (idx_mono b (S b) ltac:(lia) ltac:(lia)).
    pose proof (idx_lookup_bound b ltac:(lia)).
    pose proof (idx_lookup_bound (S b) ltac:(lia)).
    rewrite Hcompact by done. split; [apply pk_lookup|]; lia. }
  split; [split|lia].
  - apply adjacent_lt_sorted. intros b Hb.
    specialize (Hdist b Hb).
    destruct (Hhead b ltac:(lia)) as [Hb1 Hb2].
    destruct (Hhead (S b) ltac:(lia)) as [Hs1 Hs2].
    pose proof (idx_mono b (S b) ltac:(lia) ltac:(lia)).
    pose proof (pk_mono (Z.to_nat (idx !!! b)) (Z.to_nat (idx !!! S b))
                  ltac:(lia) Hs2) as Hle.
    rewrite !pk_lookup in Hle by lia. lia.
  - apply Forall_lookup_2. intros b x Hbx.
    pose proof (lookup_lt_Some _ _ _ Hbx) as Hb.
    apply list_lookup_total_correct in Hbx as <-.
    destruct (Hhead b Hb) as [-> Hlt].
    pose proof (occupied_lookup _ nk _ nodes Hlt).
    split; [apply Z.div_pos; lia|].
    apply Z.div_lt_upper_bound; lia.
Qed.

(** The vectors that the round leaves in layer [curr_depth]. *)
Let nch : nat := (8 * length U)%nat.
Let keys_l (old : list Z) : list Z := fill_keys U (resize nch 0 old) nch.
Let addr : list Z := fill_addr idx (length U) nch.
Let children_l : list Z :=
  link_children nk addr (resize nch (-1) []) (length nk).

Lemma parents_small b : (b < length U)%nat -> 0 <= U !!! b < 2 ^ 27.
Proof using All.
  intros Hb. destruct parents_occupied as [Hocc _].
  pose proof (occupied_lookup _ U b Hocc Hb). lia.
Qed.

Lemma parents_few : Z.of_nat (length U) <= 2 ^ 27.
Proof using All.
  destruct parents_occupied as [Hocc Hone].
  pose proof (occupied_index _ U (length U - 1) Hocc ltac:(lia)).
  pose proof (occupied_lookup _ U (length U - 1) Hocc ltac:(lia)). lia.
Qed.

Lemma keys_l_size old : length (keys_l old) = nch.
Proof using Type.
  unfold keys_l, fill_keys.
  rewrite (scatter_length (fun i => i)
             (fun i => Z.lor (wrap_uint32
                                (Z.shiftl
                                   (U !!! Z.to_nat (Z.shiftr (Z.of_nat i) 3))
                                   3))
                             (Z.of_nat i `mod` 8))).
  apply length_resize.
Qed.

Lemma keys_l_lookup old b k :
  (b < length U)%nat -> (k < 8)%nat ->
  keys_l old !!! (8 * b + k)%nat = 8 * U !!! b + Z.of_nat k.
Proof using All.
  intros Hb Hk. unfold keys_l, fill_keys.
  rewrite (scatter_stored (fun i => i)
             (fun i => Z.lor (wrap_uint32
                                (Z.shiftl
                                   (U !!! Z.to_nat (Z.shiftr (Z.of_nat i) 3))
                                   3))
                             (Z.of_nat i `mod` 8))).
  - rewrite index_block.
    rewrite block_div by done.
    pose proof (parents_small b Hb).
    rewrite key_of_parent by lia.
    by rewrite block_mod.
  - rewrite map_id. apply NoDup_seq.
  - apply elem_of_seq. unfold nch. lia.
  - rewrite length_resize. unfold nch. lia.
Qed.

(** [addr] after the rounds [0 .. k - 1] of its outer loop. *)
Lemma addr_upto k :
  (k <= length U)%nat ->
  let a := foldl (fun addr i =>
                    foldl (fun addr j =>
                             <[j := wrap_uint32 (Z.shiftl (Z.of_nat i) 3)]>
                               addr)
                          addr
                          (seq (Z.to_nat (idx !!! i))
                               (Z.to_nat (idx !!! S i)
                                - Z.to_nat (idx !!! i))))
                 (replicate nch 0) (seq 0 k) in
  length a = nch
  /\ forall b q, (b < k)%nat -> idx !!! b <= Z.of_nat q < idx !!! S b ->
                 a !!! q = wrap_uint32 (Z.shiftl (Z.of_nat b) 3).
Proof using All.
  induction k as [|k IH]; intros Hk a.
  - subst a. simpl. split; [apply length_replicate | intros; lia].
  - subst a. rewrite seq_S, foldl_app. cbn [foldl Nat.add].
    destruct IH as [Hlen Hprev]; [lia|].
    set (prev := foldl _ (replicate nch 0) (seq 0 k)) in *.
    pose proof (idx_lookup_bound k ltac:(lia)) as Hlo.
    pose proof (idx_lookup_bound (S k) ltac:(lia)) as Hhi.
    pose proof (idx_mono k (S k) ltac:(lia) ltac:(lia)) as Hlt.
    pose proof nodes_fit_blocks as Hfit. fold nch in Hfit.
    split.
    + by rewrite (scatter_length (fun j : nat => j)
                    (fun _ => wrap_uint32 (Z.shiftl (Z.of_nat k) 3))).
    + intros b q Hb Hq. destruct (decide (b = k)) as [->|Hne].
      * apply (scatter_stored (fun j : nat => j)
                 (fun _ => wrap_uint32 (Z.shiftl (Z.of_nat k) 3))).
        -- rewrite map_id. apply NoDup_seq.
        -- apply elem_of_seq. lia.
        -- lia.
      * rewrite (scatter_untouched (fun j : nat => j)
                   (fun _ => wrap_uint32 (Z.shiftl (Z.of_nat k) 3))).
        -- apply Hprev; [lia | done].
        -- intros j Hj. apply elem_of_seq in Hj.
           pose proof (idx_lookup_bound (S b) ltac:(lia)).
           destruct (decide (S b = k)) as [Heq|Hneq].
           ++ rewrite Heq in Hq. lia.
           ++ pose proof (idx_mono (S b) k ltac:(lia) ltac:(lia)). lia.
Qed.

Lemma addr_lookup b q :
  (b < length U)%nat -> idx !!! b <= Z.of_nat q < idx !!! S b ->
  addr !!! q = wrap_uint32 (Z.shiftl (Z.of_nat b) 3).
Proof using All.
  intros Hb Hq. unfold addr, fill_addr.
  destruct (addr_upto (length U) ltac:(lia)) as [_ Hall]. by apply Hall.
Qed.

(** The cell of [children] that the round links to node [i]. *)
Let slot (i : nat) : nat :=
  Z.to_nat (Z.lor (Z.land (nk !!! i) 7) (addr !!! i)).

Lemma slot_block i b :
  (b < length U)%nat -> idx !!! b <= Z.of_nat i < idx !!! S b ->
  slot i = (8 * b + Z.to_nat (nk !!! i `mod` 8))%nat.
Proof using All.
  intros Hb Hi. unfold slot. rewrite (addr_lookup b i Hb Hi).
  apply slot_of_key. pose proof parents_few. lia.
Qed.

Lemma slot_key old i :
  (i < length nk)%nat ->
  (slot i < nch)%nat /\ keys_l old !!! slot i = nk !!! i.
Proof using All.
  intros Hi. destruct (run_of i Hi) as (b & Hb & Hrun & Hk).
  rewrite (slot_block i b Hb Hrun).
  pose proof (Z.mod_pos_bound (nk !!! i) 8 ltac:(lia)) as Hr.
  split; [unfold nch; lia|].
  rewrite keys_l_lookup by lia. rewrite <- Hk.
  pose proof (Z.div_mod (nk !!! i) 8 ltac:(lia)). lia.
Qed.

Lemma slot_inj i i' :
  (i < length nk)%nat -> (i' < length nk)%nat -> slot i = slot i' -> i = i'.
Proof using All.
  intros Hi Hi' Heq.
  destruct (slot_key [] i Hi) as [_ Hk].
  destruct (slot_key [] i' Hi') as [_ Hk'].
  rewrite Heq, Hk' in Hk. by apply (occupied_inj _ nk _ _ nodes).
Qed.

Lemma children_l_size : length children_l = nch.
Proof using Type.
  unfold children_l, link_children.
  rewrite (scatter_length slot Z.of_nat). apply length_resize.
Qed.

Lemma children_l_stored i :
  (i < length nk)%nat -> children_l !!! slot i = Z.of_nat i.
Proof using All.
  intros Hi. unfold children_l, link_children.
  apply (scatter_stored slot Z.of_nat).
  - apply (NoDup_fmap_2_strong slot); [|apply NoDup_seq].
    intros x y Hx Hy. apply elem_of_seq in Hx, Hy.
    apply slot_inj; lia.
  - apply elem_of_seq. lia.
  - rewrite length_resize. by destruct (slot_key [] i Hi).
Qed.

Lemma children_l_origin s :
  (s < nch)%nat -> children_l !!! s <> -1 ->
  exists i, (i < length nk)%nat /\ s = slot i
            /\ children_l !!! s = Z.of_nat i.
Proof using All.
  intros Hs Hne.
  assert (children_l
          = foldl (fun l j => <[slot j := Z.of_nat j]> l)
              (resize nch (-1) []) (seq 0 (length nk))) as Heq by done.
  rewrite Heq in *. clear Heq.
  destruct (scatter_origin slot Z.of_nat (resize nch (-1) [])
              (seq 0 (length nk)) s) as [Hinit|(i & Hi & Hg & Hv)].
  - rewrite Hinit, resize_nil in Hne.
    rewrite lookup_total_replicate_2 in Hne by done. done.
  - apply elem_of_seq in Hi. exists i. repeat split; [lia | done | done].
Qed.

Lemma build_layer_ok (old : list Z) :
  layer_ok nk U (keys_l old) children_l.
Proof using All.
  split.
  - by rewrite keys_l_size, children_l_size.
  - intros b k. apply keys_l_lookup.
  - intros s Hs Hne. rewrite children_l_size in Hs.
    destruct (children_l_origin s Hs Hne) as (i & Hi & -> & Hv).
    exists i. repeat split; [done | done |]. by apply slot_key.
  - intros i Hi. exists (slot i). rewrite children_l_size.
    destruct (slot_key old i Hi) as [Hlt Hk].
    repeat split; [done | by apply children_l_stored | done].
  - intros s s' Hs Hs' Hne Heq. rewrite children_l_size in Hs, Hs'.
    destruct (children_l_origin s Hs Hne) as (i & Hi & -> & Hv).
    destruct (children_l_origin s' Hs') as (i' & Hi' & -> & Hv');
      [by rewrite <- Heq|].
    rewrite Hv, Hv' in Heq. f_equal. lia.
  - intros b Hb.
    pose proof (idx_lookup_bound b ltac:(lia)) as Hlo.
    pose proof (idx_lookup_bound (S b) ltac:(lia)) as Hhi.
    pose proof (idx_mono b (S b) ltac:(lia) ltac:(lia)) as Hlt.
    set (i := Z.to_nat (idx !!! b)).
    pose proof (Z.mod_pos_bound (nk !!! i) 8 ltac:(lia)) as Hr.
    exists (Z.to_nat (nk !!! i `mod` 8)). split; [lia|].
    rewrite <- (slot_block i b Hb) by lia.
    rewrite children_l_stored by lia. lia.
Qed.

(** The round, in terms of the vectors above. *)
Lemma build_layer_eq (K C : list (list Z)) (d : nat) :
  C !!! d = [] ->
  build_layer (K, C, nk) d
  = (<[d := keys_l (K !!! d)]> K, <[d := children_l]> C, U).
Proof using Type.
  intros Hfresh. unfold build_layer. fold pk.
  rewrite (surjective_pairing (unique_key pk)). fold U idx.
  rewrite block_count, Hfresh. done.
Qed.

End Layer.

Lemma build_layer_round (M : Z) (nk : list Z) (K C : list (list Z)) (d : nat) :
  0 < M <= 2 ^ 27 -> occupied (8 * M) nk -> (1 <= length nk)%nat ->
  C !!! d = [] ->
  exists keys_l children_l U,
    build_layer (K, C, nk) d
    = (<[d := keys_l]> K, <[d := children_l]> C, U)
    /\ layer_ok nk U keys_l children_l
    /\ occupied M U /\ (1 <= length U)%nat.
Proof.
  intros HM Hocc Hone Hfresh. eexists _, _, _. split; [|split].
  - by apply build_layer_eq.
  - by apply (build_layer_ok M).
  - by apply (parents_occupied M nk).
Qed.

(** ** The full layers *)

Lemma full_count (d : nat) :
  (d <= 10)%nat ->
  Z.to_nat (wrap_int (Z.shiftl 1 (3 * Z.of_nat d))) = (8 ^ d)%nat.
Proof.
  intros Hd. rewrite Z.shiftl_1_l.
  rewrite Z.pow_mul_r by lia. change (2 ^ 3) with 8.
  assert (8 ^ Z.of_nat d <= 8 ^ 10) by (apply Z.pow_le_mono_r; lia).
  assert (0 < 8 ^ Z.of_nat d) by (apply Z.pow_pos_nonneg; lia).
  rewrite wrap_int_small by lia.
  apply Nat2Z.inj. rewrite Z2Nat.id by lia.
  by rewrite Nat2Z.inj_pow.
Qed.

Lemma fill_pair (c : bool) (l : list nat) (ks ch : list Z) :
  foldl (fun '(keys, children) i =>
           (<[i := Z.of_nat i]> keys,
            if c then <[i := Z.of_nat i]> children else children))
        (ks, ch) l
  = (foldl (fun v i => <[i := Z.of_nat i]> v) ks l,
     if c then foldl (fun v i => <[i := Z.of_nat i]> v) ch l else ch).
Proof.
  revert ks ch. induction l as [|i l IH]; intros ks ch; simpl.
  - by destruct c.
  - rewrite IH. by destruct c.
Qed.

Lemma fill_index (n : nat) (x : Z) :
  counts_up n (foldl (fun v i => <[i := Z.of_nat i]> v) (replicate n x)
                 (seq 0 n)).
Proof.
  split.
  - rewrite (scatter_length (fun i : nat => i) Z.of_nat).
    apply length_replicate.
  - intros i Hi. apply (scatter_stored (fun i : nat => i) Z.of_nat).
    + rewrite map_id. apply NoDup_seq.
    + apply elem_of_seq. lia.
    + by rewrite length_replicate.
Qed.

Lemma fill_full_layers (depth fl n : nat) :
  (fl <= depth)%nat -> (fl <= 10)%nat -> (n <= S fl)%nat ->
  let st := foldl (fill_full_layer fl)
              (replicate (S depth) [], replicate (S depth) []) (seq 0 n) in
  full_part depth fl n st.1 st.2.
Proof.
  intros Hfl Hten. induction n as [|n IH]; intros Hn st.
  - subst st. cbn [foldl seq fst snd]. split; try (intros; lia).
    + by rewrite length_replicate.
    + intros d _. destruct (decide (d < S depth)%nat).
      * by rewrite lookup_total_replicate_2.
      * rewrite list_lookup_total_alt, lookup_ge_None_2;
          [done | rewrite length_replicate; lia].
  - subst st. rewrite seq_S, foldl_app. cbn [foldl Nat.add].
    destruct (foldl (fill_full_layer fl) _ (seq 0 n)) as [K C].
    destruct IH as [[HK HC] Hkeys Hchildren Hlast Hrest]; [lia|].
    cbn [fst snd] in *. unfold fill_full_layer.
    rewrite full_count by lia.
    destruct (Hrest n ltac:(lia)) as [-> ->].
    rewrite !resize_nil, fill_pair. cbn [fst snd].
    split.
    + by rewrite !length_insert.
    + intros d Hd. destruct (decide (d = n)) as [->|Hne].
      * rewrite list_lookup_total_insert_eq by lia. apply fill_index.
      * rewrite list_lookup_total_insert_ne by done. apply Hkeys. lia.
    + intros d Hd Hdfl. destruct (decide (d = n)) as [->|Hne].
      * rewrite list_lookup_total_insert_eq by lia.
        destruct (Nat.eqb_spec n fl); [done|]. apply fill_index.
      * rewrite list_lookup_total_insert_ne by done. apply Hchildren; lia.
    + intros Hfln. destruct (decide (fl = n)) as [->|Hne].
      * rewrite list_lookup_total_insert_eq by lia.
        by rewrite Nat.eqb_refl.
      * rewrite list_lookup_total_insert_ne by done. apply Hlast. lia.
    + intros d Hd. rewrite !list_lookup_total_insert_ne by lia.
      apply Hrest. lia.
Qed.

(** ** Parent and child layers *)

Lemma layer_pending nk U keys_l children_l :
  layer_ok nk U keys_l children_l -> pending U keys_l children_l.
Proof. intros [Hsize Hkeys _ _ _ Hblock]. by split. Qed.

Lemma layer_parent nk U keys_l children_l :
  layer_ok nk U keys_l children_l -> parent_ok nk keys_l children_l.
Proof. intros [_ _ Hchild Hnode Hinj _]. by split. Qed.

Lemma pending_linked (M : Z) nk keysE childrenE keysP childrenP :
  M <= 2 ^ 27 -> occupied M nk -> (1 <= length nk)%nat ->
  pending nk keysE childrenE -> parent_ok nk keysP childrenP ->
  linked keysE childrenE keysP childrenP.
Proof.
  intros HM Hocc Hone [[HsizeK HsizeC] Hkeys Hblock] [Hchild Hnode Hinj].
  split.
  - split; [|lia]. rewrite HsizeK, Nat.mul_comm. apply Nat.Div0.mod_mul.
  - pose proof (occupied_index _ nk (length nk - 1) Hocc ltac:(lia)).
    pose proof (occupied_lookup _ nk (length nk - 1) Hocc ltac:(lia)).
    lia.
  - intros s Hs Hne. destruct (Hchild s Hs Hne) as (i & Hi & Hv & Hk).
    exists i. pose proof (occupied_lookup _ nk i Hocc Hi).
    repeat split; [done | lia | lia | lia | |].
    + intros k Hk8. rewrite Hk. by apply Hkeys.
    + by apply Hblock.
  - intros b Hb. destruct (Hnode b) as (s & Hs & Hv & _); [lia|].
    by exists s.
  - done.
Qed.

(** ** The rounds of the bottom-up loop *)

Lemma rounds_step (depth fl j : nat) K0 C0 K C nk :
  (depth <= 10)%nat -> (j < depth - fl)%nat ->
  (forall e, (fl < e)%nat -> C0 !!! e = []) ->
  rounds_inv depth j K0 C0 K C nk ->
  exists K' C' nk',
    build_layer (K, C, nk) (depth - j) = (K', C', nk')
    /\ rounds_inv depth (S j) K0 C0 K' C' nk'.
Proof.
  intros Hten Hj Hfresh [[HK HC] [Hocc Hone] Hrest Hpend Hlinked].
  set (d := (depth - j)%nat) in *.
  assert (Z.of_nat d = Z.of_nat (d - 1) + 1) as Hd by lia.
  assert (8 ^ Z.of_nat d = 8 * 8 ^ Z.of_nat (d - 1)) as Hpow.
  { rewrite Hd, Z.pow_add_r by lia. lia. }
  assert (0 < 8 ^ Z.of_nat (d - 1) <= 2 ^ 27) as HM.
  { split; [apply Z.pow_pos_nonneg; lia|].
    change (2 ^ 27) with (8 ^ 9). apply Z.pow_le_mono_r; lia. }
  rewrite Hpow in Hocc.
  destruct (build_layer_round _ nk K C d HM Hocc Hone)
    as (keys_l & children_l & U & Heq & Hok & HoccU & HoneU).
  { destruct (Hrest d ltac:(lia)) as [_ ->]. apply Hfresh. lia. }
  exists (<[d := keys_l]> K), (<[d := children_l]> C), U.
  split; [done|].
  assert (depth - S j = d - 1)%nat as Hd1 by lia.
  assert (S (d - 1) = d) as Hd2 by lia.
  split; rewrite ?Hd1, ?Hd2.
  - by rewrite !length_insert.
  - done.
  - intros e He. rewrite !list_lookup_total_insert_ne by lia.
    apply Hrest. lia.
  - intros _. rewrite !list_lookup_total_insert_eq by lia.
    by apply (layer_pending nk).
  - intros e He. destruct (decide (e = S d)) as [->|Hne].
    + replace (S d - 1)%nat with d by lia.
      rewrite !list_lookup_total_insert_eq by lia.
      rewrite !list_lookup_total_insert_ne by lia.
      apply (pending_linked (8 * 8 ^ Z.of_nat (d - 1)) nk).
      * rewrite <- Hpow. change (2 ^ 27) with (8 ^ 9).
        apply Z.pow_le_mono_r; lia.
      * done.
      * done.
      * apply Hpend. lia.
      * by apply (layer_parent nk U).
    + rewrite !list_lookup_total_insert_ne by lia. apply Hlinked. lia.
Qed.

Lemma rounds_unfold (depth j : nat) st :
  (j < depth)%nat ->
  foldl build_layer st (rev (seq (S depth - S j) (S j)))
  = build_layer (foldl build_layer st (rev (seq (S depth - j) j)))
      (depth - j).
Proof.
  intros Hj. replace (S depth - S j)%nat with (depth - j)%nat by lia.
  cbn [seq rev]. rewrite foldl_app. cbn [foldl].
  by replace (S (depth - j)) with (S depth - j)%nat by lia.
Qed.

Lemma rounds_all (depth fl j : nat) K0 C0 nk :
  (depth <= 10)%nat -> (j <= depth - fl)%nat ->
  length K0 = S depth -> length C0 = S depth ->
  (forall e, (fl < e)%nat -> C0 !!! e = []) ->
  occupied (8 ^ Z.of_nat depth) nk -> (1 <= length nk)%nat ->
  exists K C nk',
    foldl build_layer (K0, C0, nk) (rev (seq (S depth - j) j)) = (K, C, nk')
    /\ rounds_inv depth j K0 C0 K C nk'.
Proof.
  intros Hten Hj HK HC Hfresh Hocc Hone. induction j as [|j IH].
  - exists K0, C0, nk. split; [done|]. split.
    + done.
    + by rewrite Nat.sub_0_r.
    + done.
    + lia.
    + intros e He. lia.
  - destruct IH as (K & C & nk' & Heq & Hinv); [lia|].
    destruct (rounds_step depth fl j K0 C0 K C nk' Hten ltac:(lia) Hfresh Hinv)
      as (K' & C' & nk'' & Hstep & Hinv').
    exists K', C', nk''. split; [|done].
    rewrite rounds_unfold by lia. by rewrite Heq.
Qed.

(** ** The link of the last full layer *)

Lemma full_link_parent (fl : nat) (top keys_fl : list Z) :
  occupied (8 ^ Z.of_nat fl) top -> counts_up (8 ^ fl) keys_fl ->
  let children_fl := link_full_layer top (replicate (8 ^ fl) (-1)) in
  length children_fl = (8 ^ fl)%nat
  /\ parent_ok top keys_fl children_fl
  /\ (forall i, (i < length top)%nat ->
        children_fl !!! Z.to_nat (top !!! i) = Z.of_nat i)
  /\ (forall s, (s < 8 ^ fl)%nat -> (forall i, (i < length top)%nat ->
                                        top !!! i <> Z.of_nat s) ->
        children_fl !!! s = -1).
Proof.
  intros Hocc [Hsize Hkeys] children_fl.
  set (g := fun i : nat => Z.to_nat (top !!! i)).
  assert (children_fl
          = foldl (fun v i => <[g i := Z.of_nat i]> v)
              (replicate (8 ^ fl) (-1)) (seq 0 (length top))) as Hdef by done.
  assert (forall i, (i < length top)%nat ->
            (g i < 8 ^ fl)%nat /\ Z.of_nat (g i) = top !!! i) as Hg.
  { intros i Hi. pose proof (occupied_lookup _ top i Hocc Hi) as Hb.
    assert (Z.of_nat (8 ^ fl) = 8 ^ Z.of_nat fl) as Hpow
      by (by rewrite Nat2Z.inj_pow).
    unfold g. lia. }
  assert (length children_fl = (8 ^ fl)%nat) as Hlen.
  { rewrite Hdef, (scatter_length g Z.of_nat). apply length_replicate. }
  assert (forall i, (i < length top)%nat ->
            children_fl !!! g i = Z.of_nat i) as Hstored.
  { intros i Hi. rewrite Hdef. apply (scatter_stored g Z.of_nat).
    - apply (NoDup_fmap_2_strong g); [|apply NoDup_seq].
      intros x y Hx Hy Hxy. apply elem_of_seq in Hx, Hy.
      apply (occupied_inj _ top x y Hocc); [lia | lia |].
      destruct (Hg x ltac:(lia)) as [_ <-].
      destruct (Hg y ltac:(lia)) as [_ <-]. by rewrite Hxy.
    - apply elem_of_seq. lia.
    - rewrite length_replicate. by apply Hg. }
  assert (forall s, (s < 8 ^ fl)%nat -> children_fl !!! s <> -1 ->
            exists i, (i < length top)%nat /\ g i = s
                      /\ children_fl !!! s = Z.of_nat i) as Horigin.
  { intros s Hs Hne. rewrite Hdef in *.
    destruct (scatter_origin g Z.of_nat (replicate (8 ^ fl) (-1))
                (seq 0 (length top)) s) as [Hinit|(i & Hi & Hgi & Hv)].
    - rewrite Hinit, lookup_total_replicate_2 in Hne by done. done.
    - apply elem_of_seq in Hi. exists i. repeat split; [lia | done | done]. }
  split; [done|]. split; [split|split].
  - intros s Hs Hne. rewrite Hlen in Hs.
    destruct (Horigin s Hs Hne) as (i & Hi & Hgi & Hv).
    exists i. repeat split; [done | done |].
    rewrite Hkeys by done. rewrite <- Hgi. by apply Hg.
  - intros i Hi. exists (g i). rewrite Hlen.
    destruct (Hg i Hi) as [Hlt Heq].
    repeat split; [done | by apply Hstored |].
    by rewrite Hkeys.
  - intros s s' Hs Hs' Hne Heq. rewrite Hlen in Hs, Hs'.
    destruct (Horigin s Hs Hne) as (i & Hi & Hgi & Hv).
    destruct (Horigin s' Hs') as (i' & Hi' & Hgi' & Hv'); [by rewrite <- Heq|].
    rewrite Hv, Hv' in Heq. rewrite <- Hgi, <- Hgi'. f_equal. lia.
  - done.
  - intros s Hs Hfree.
    destruct (decide (children_fl !!! s = -1)) as [|Hne]; [done|].
    destruct (Horigin s Hs Hne) as (i & Hi & Hgi & _).
    destruct (Hg i Hi) as [_ Heq]. exfalso. apply (Hfree i Hi).
    by rewrite <- Heq, Hgi.
Qed.

(** ** The structure that [build_structure] leaves *)

Section Structure.

Variables (depth fl : nat) (nk : list Z) (t : Octree).

Hypothesis layers : (fl <= depth <= 10)%nat.
Hypothesis header_depth : depth_ (oct_info_ t) = Z.of_nat depth.
Hypothesis header_full : full_layer_ (oct_info_ t) = Z.of_nat fl.
Hypothesis nodes : occupied (8 ^ Z.of_nat depth) nk.
Hypothesis some_node : (1 <= length nk)%nat.

Let built := build_structure nk (clear (Z.of_nat depth) t).

Lemma build_structure_shape :
  length (keys_ built.1) = S depth
    /\ length (children_ built.1) = S depth
    /\ (forall e, (e <= fl)%nat -> counts_up (8 ^ e) (keys_ built.1 !!! e))
    /\ (forall e, (e < fl)%nat ->
          counts_up (8 ^ e) (children_ built.1 !!! e))
    /\ occupied (8 ^ Z.of_nat fl) built.2 /\ (1 <= length built.2)%nat
    /\ children_ built.1 !!! fl
       = (if decide (fl < depth)%nat
          then link_full_layer built.2 (replicate (8 ^ fl) (-1))
          else replicate (8 ^ fl) (-1))
    /\ (forall e, (fl < e <= depth)%nat ->
          linked (keys_ built.1 !!! e) (children_ built.1 !!! e)
            (keys_ built.1 !!! (e - 1)%nat)
            (children_ built.1 !!! (e - 1)%nat)).
Proof using All.
  unfold built, build_structure.
  assert (forall A, resize (S depth) [] (replicate
            (if Z.of_nat depth =? 0 then 0%nat
             else Z.to_nat (Z.of_nat depth + 1)) ([] : list A))
          = replicate (S depth) []) as Hclear.
  { intros A. apply resize_replicate. }
  cbn [oct_info_ clear keys_ children_]. rewrite header_depth, header_full.
  replace (Z.to_nat (Z.of_nat depth + 1)) with (S depth) by lia.
  replace (Z.to_nat (Z.of_nat fl + 1)) with (S fl) by lia.
  replace (Z.to_nat (Z.of_nat depth - Z.of_nat fl))
    with (depth - fl)%nat by lia.
  rewrite Nat2Z.id.
  replace (Z.to_nat (Z.of_nat depth + 1)) with (S depth) in Hclear by lia.
  rewrite !Hclear.
  pose proof (fill_full_layers depth fl (S fl) ltac:(lia) ltac:(lia)
                ltac:(lia)) as Hfull.
  cbn zeta in Hfull.
  destruct (foldl (fill_full_layer fl) _ (seq 0 (S fl))) as [K0 C0].
  cbn [fst snd] in Hfull.
  destruct Hfull as [[HK0 HC0] Hkeys Hchildren Hlast Hrest].
  destruct (rounds_all depth fl (depth - fl) K0 C0 nk)
    as (K & C & top & Heq & Hinv); try done; try lia.
  { intros e He. by apply Hrest. }
  replace (S depth - (depth - fl))%nat with (S fl) in Heq by lia.
  rewrite Heq. clear Heq.
  destruct Hinv as [[HK HC] [Hocc Hone] Hkeep Hpend Hlinked].
  replace (depth - (depth - fl))%nat with fl in * by lia.
  cbn [fst snd keys_ children_ put_keys put_children].
  split; [done|].
  assert (C !!! fl = replicate (8 ^ fl) (-1)) as Hfl.
  { destruct (Hkeep fl ltac:(lia)) as [_ ->]. apply Hlast. lia. }
  assert (counts_up (8 ^ fl) (K !!! fl)) as Hkfl.
  { destruct (Hkeep fl ltac:(lia)) as [-> _]. apply Hkeys. lia. }
  destruct (Z.ltb_spec (Z.of_nat fl) (Z.of_nat depth)) as [Hlt|Hge].
  - (* some layer below the full part *)
    destruct (full_link_parent fl top (K !!! fl) Hocc Hkfl)
      as (Hlen & Hparent & _).
    rewrite decide_True by lia. rewrite Hfl.
    split; [by rewrite length_insert|].
    split; [|split; [|split; [done|split; [done|split]]]].
    + intros e He. destruct (Hkeep e He) as [-> _]. apply Hkeys. lia.
    + intros e He. rewrite list_lookup_total_insert_ne by lia.
      destruct (Hkeep e ltac:(lia)) as [_ ->]. apply Hchildren; lia.
    + by rewrite list_lookup_total_insert_eq by lia.
    + intros e He. destruct (decide (e = S fl)) as [->|Hne].
      * replace (S fl - 1)%nat with fl by lia.
        rewrite list_lookup_total_insert_eq by lia.
        rewrite list_lookup_total_insert_ne by lia.
        apply (pending_linked (8 ^ Z.of_nat fl) top);
          [| done | done | apply Hpend; lia | done].
        change (2 ^ 27) with (8 ^ 9). apply Z.pow_le_mono_r; lia.
      * rewrite !list_lookup_total_insert_ne by lia. apply Hlinked. lia.
  - (* the octree is full down to [depth] *)
    rewrite decide_False by lia.
    split; [done|].
    split; [|split; [|split; [done|split; [done|split; [done|]]]]].
    + intros e He. destruct (Hkeep e He) as [-> _]. apply Hkeys. lia.
    + intros e He.
      destruct (Hkeep e ltac:(lia)) as [_ ->]. apply Hchildren; lia.
    + intros e He. lia.
Qed.

End Structure.



Lemma sample_nodes : occupied (8 ^ Z.of_nat 2) [3; 12; 13].
Proof. split; repeat constructor; lia. Qed.





(** ** The flag passes of [trim_octree] *)

Lemma foldl_bind {A B C} (f : A -> B -> A) (g : C -> list B) (a : A)
    (l : list C) :
  foldl f a (l ≫= g) = foldl (fun a x => foldl f a (g x)) a l.
Proof.
  revert a. induction l as [|x l IH]; intros a; [done|].
  by rewrite bind_cons, foldl_app, IH.
Qed.

Lemma node_type_internal (c : Z) : node_type c = kInternelNode <-> c <> -1.
Proof. unfold node_type. destruct (Z.eqb_spec c (-1)); split; done. Qed.

Lemma node_type_leaf (c : Z) : node_type c = kLeaf <-> c = -1.
Proof. unfold node_type. destruct (Z.eqb_spec c (-1)); split; done. Qed.

Lemma flt_trans (a b c : float) :
  flt a b = true -> flt b c = true -> flt a c = true.
Proof.
  destruct a as [|[]|x], b as [|[]|y], c as [|[]|z]; simpl; try done.
  intros Hxy Hyz. apply Z.ltb_lt in Hxy, Hyz. apply Z.ltb_lt. lia.
Qed.

Lemma block_cells_elem children_dp i idx :
  idx ∈ block_cells children_dp i
  <-> children_dp !!! i <> -1
      /\ exists j, (j < 8)%nat
                   /\ idx = Z.to_nat (children_dp !!! i * 8 + Z.of_nat j).
Proof.
  unfold block_cells. case_decide as Hleaf.
  - apply node_type_leaf in Hleaf. split.
    + intros Hin. by apply elem_of_nil in Hin.
    + intros [Hne _]. done.
  - rewrite list_elem_of_fmap. split.
    + intros (j & -> & Hj). apply elem_of_seq in Hj. split.
      * intros Heq. apply Hleaf. by apply node_type_leaf.
      * exists j. split; [lia | done].
    + intros (_ & j & Hj & ->). exists j. split; [done|].
      apply elem_of_seq. lia.
Qed.

Lemma block_cells_NoDup nnum_dp nnum_d children_dp :
  blocks_ok nnum_dp nnum_d children_dp ->
  NoDup (seq 0 nnum_dp ≫= block_cells children_dp)
  /\ forall idx, idx ∈ seq 0 nnum_dp ≫= block_cells children_dp ->
                 (idx < nnum_d)%nat.
Proof.
  intros [Hrange Hinj]. split.
  - apply NoDup_bind; [| |apply NoDup_seq].
    + intros i i' idx Hi Hi' Hidx Hidx'. apply elem_of_seq in Hi, Hi'.
      apply block_cells_elem in Hidx as (Hne & j & Hj & ->).
      apply block_cells_elem in Hidx' as (Hne' & j' & Hj' & Heq).
      destruct (Hrange i ltac:(lia) Hne) as [Hpos _].
      destruct (Hrange i' ltac:(lia) Hne') as [Hpos' _].
      apply Hinj; [lia | lia | done | lia].
    + intros i Hi. unfold block_cells. case_decide; [constructor|].
      apply elem_of_seq in Hi.
      apply (NoDup_fmap_2_strong _); [|apply NoDup_seq].
      intros j j' Hj Hj' Heq. apply elem_of_seq in Hj, Hj'.
      assert (children_dp !!! i <> -1) as Hne
        by (intros Heq'; by apply node_type_leaf in Heq').
      destruct (Hrange i ltac:(lia) Hne) as [Hpos _]. lia.
  - intros idx Hin. apply list_elem_of_bind in Hin as (i & Hidx & Hi).
    apply elem_of_seq in Hi.
    apply block_cells_elem in Hidx as (Hne & j & Hj & ->).
    destruct (Hrange i ltac:(lia) Hne) as [Hpos Hfit]. lia.
Qed.

Section FirstPass.

Variables (has_dis : bool) (th_dist th_norm : float).
Variables (children_d : list Z) (normal_err_d distance_err_d : list float).
Variables (children_dp : list Z) (drop_dp : list TrimType).

Local Abbreviation flag_of :=
  (flag_spec has_dis th_dist th_norm normal_err_d distance_err_d drop_dp).

(** The body of the loops of the first pass on the cell [idx] of the
    block of parent [i]. *)
Let flag_cell (st : list TrimType * bool) (c : nat * nat)
    : list TrimType * bool :=
  let drop_d :=
    if decide (drop_dp !!! c.1 = kKeep) then
      if small_error has_dis th_dist th_norm normal_err_d distance_err_d
           c.2
      then <[c.2 := kDropChildren]> st.1 else st.1
    else <[c.2 := kDrop]> st.1 in
  (drop_d,
   if st.2 then
     negb (bool_decide (drop_d !!! c.2 = kKeep)
           && bool_decide (node_type (children_d !!! c.2) = kInternelNode))
   else st.2).

Let cells (nnum_dp : nat) : list (nat * nat) :=
  seq 0 nnum_dp ≫= fun i => pair i <$> block_cells children_dp i.

Lemma cells_elem nnum_dp i idx :
  (i, idx) ∈ cells nnum_dp
  <-> (i < nnum_dp)%nat /\ idx ∈ block_cells children_dp i.
Proof using Type.
  unfold cells. rewrite list_elem_of_bind. split.
  - intros (i' & Hin & Hi'). apply elem_of_seq in Hi'.
    apply list_elem_of_fmap in Hin as (idx' & [= -> ->] & Hidx).
    split; [lia | done].
  - intros [Hi Hidx]. exists i. split.
    + apply list_elem_of_fmap. by exists idx.
    + apply elem_of_seq. lia.
Qed.

Lemma cells_snd nnum_dp :
  (cells nnum_dp).*2 = seq 0 nnum_dp ≫= block_cells children_dp.
Proof using Type.
  unfold cells. induction (seq 0 nnum_dp) as [|i l IH]; [done|].
  rewrite !bind_cons, fmap_app, IH. f_equal.
  rewrite <- list_fmap_compose. apply list_fmap_id.
Qed.

Lemma generate_flags_cells nnum_dp drop0 :
  generate_flags has_dis th_dist th_norm children_d normal_err_d
    distance_err_d nnum_dp children_dp drop_dp drop0
  = foldl flag_cell (drop0, true) (cells nnum_dp).
Proof using Type.
  unfold generate_flags, cells. rewrite foldl_bind.
  apply foldl_ext_in. intros st i _.
  unfold flag_block, block_cells. case_decide; [done|].
  rewrite !foldl_fmap. apply foldl_ext_in. intros [drop_d all_drop] j _.
  done.
Qed.

Lemma flag_cells_spec (ps : list (nat * nat)) (drop0 : list TrimType) :
  NoDup ps.*2 ->
  (forall c, c ∈ ps -> (c.2 < length drop0)%nat /\ drop0 !!! c.2 = kKeep) ->
  let r := foldl flag_cell (drop0, true) ps in
  length r.1 = length drop0
  /\ (forall c, c ∈ ps -> r.1 !!! c.2 = flag_of c.1 c.2)
  /\ (forall idx, idx ∉ ps.*2 -> r.1 !!! idx = drop0 !!! idx)
  /\ (if r.2 then
        forall c, c ∈ ps ->
          ~ (flag_of c.1 c.2 = kKeep /\ children_d !!! c.2 <> -1)
      else
        exists c, c ∈ ps /\ flag_of c.1 c.2 = kKeep
                  /\ children_d !!! c.2 <> -1).
Proof using Type.
  induction ps as [|c ps IH] using rev_ind; intros Hnd Hcells r.
  - subst r. simpl. split; [done|]. split; [|split; [done|]].
    + intros c Hc. by apply elem_of_nil in Hc.
    + intros c Hc. by apply elem_of_nil in Hc.
  - subst r. rewrite foldl_app. cbn [foldl].
    rewrite fmap_app in Hnd. apply NoDup_app in Hnd as (Hnd & Hfresh & _).
    destruct IH as (Hlen & Hspec & Hkeep & Hall); [done | |].
    { intros c' Hc'. apply Hcells. apply elem_of_app. by left. }
    set (prev := foldl flag_cell (drop0, true) ps) in *.
    destruct (Hcells c) as [Hin Hinit].
    { apply elem_of_app. right. by apply list_elem_of_singleton. }
    assert (c.2 ∉ ps.*2) as Hnew.
    { intros Hold. apply (Hfresh _ Hold). simpl. by left. }
    assert (prev.1 !!! c.2 = kKeep) as Hbefore by (by rewrite Hkeep).
    assert ((flag_cell prev c).1 !!! c.2 = flag_of c.1 c.2) as Hhere.
    { unfold flag_cell, flag_spec. cbn [fst].
      case_decide; [destruct (small_error _ _ _ _ _ _)|];
        rewrite ?list_lookup_total_insert_eq by lia; done. }
    assert (forall idx, idx <> c.2 ->
              (flag_cell prev c).1 !!! idx = prev.1 !!! idx) as Hother.
    { intros idx Hne. unfold flag_cell. cbn [fst].
      case_decide; [destruct (small_error _ _ _ _ _ _)|];
        rewrite ?list_lookup_total_insert_ne by done; done. }
    split; [|split; [|split]].
    + unfold flag_cell. cbn [fst].
      case_decide; [destruct (small_error _ _ _ _ _ _)|];
        rewrite ?length_insert; done.
    + intros c' Hc'. apply elem_of_app in Hc' as [Hc'|Hc'].
      * rewrite Hother; [by apply Hspec|].
        intros Heq. apply Hnew. rewrite <- Heq.
        apply list_elem_of_fmap. by exists c'.
      * by apply list_elem_of_singleton in Hc' as ->.
    + intros idx Hidx. rewrite fmap_app in Hidx.
      apply not_elem_of_app in Hidx as [Hidx Hidx'].
      rewrite Hother; [by apply Hkeep|].
      intros ->. apply Hidx'. simpl. by left.
    + change ((flag_cell prev c).2)
        with (if prev.2 then
                negb (bool_decide ((flag_cell prev c).1 !!! c.2 = kKeep)
                      && bool_decide (node_type (children_d !!! c.2)
                                      = kInternelNode))
              else prev.2).
      rewrite Hhere. destruct prev.2 eqn:Hp.
      * destruct (decide (flag_of c.1 c.2 = kKeep)) as [Hk|Hk];
          [destruct (decide (children_d !!! c.2 = -1)) as [Hl|Hl]|].
        -- rewrite bool_decide_eq_true_2 by done.
           rewrite (bool_decide_eq_false_2 (node_type _ = _))
             by (rewrite node_type_internal; tauto).
           cbn [andb negb]. intros c' Hc'.
           apply elem_of_app in Hc' as [Hc'|Hc']; [by apply Hall|].
           apply list_elem_of_singleton in Hc' as ->. tauto.
        -- rewrite !bool_decide_eq_true_2
             by (done || by apply node_type_internal).
           cbn [andb negb]. exists c. split; [|done].
           apply elem_of_app. right. by apply list_elem_of_singleton.
        -- rewrite bool_decide_eq_false_2 by done.
           cbn [andb negb]. intros c' Hc'.
           apply elem_of_app in Hc' as [Hc'|Hc']; [by apply Hall|].
           apply list_elem_of_singleton in Hc' as ->. tauto.
      * destruct Hall as (c' & Hc' & Hk & Hi). exists c'.
        split; [|done]. apply elem_of_app. by left.
Qed.

(** The first pass on a layer whose flags are all [kKeep]. *)
Lemma generate_flags_spec (nnum_dp nnum_d : nat) :
  blocks_ok nnum_dp nnum_d children_dp ->
  let r := generate_flags has_dis th_dist th_norm children_d normal_err_d
             distance_err_d nnum_dp children_dp drop_dp
             (replicate nnum_d kKeep) in
  length r.1 = nnum_d
  /\ (forall i idx, (i < nnum_dp)%nat -> idx ∈ block_cells children_dp i ->
        r.1 !!! idx = flag_of i idx)
  /\ (forall idx, (forall i, (i < nnum_dp)%nat ->
                            idx ∉ block_cells children_dp i) ->
        r.1 !!! idx = kKeep)
  /\ (if r.2 then
        forall i idx, (i < nnum_dp)%nat ->
          idx ∈ block_cells children_dp i ->
          ~ (flag_of i idx = kKeep /\ children_d !!! idx <> -1)
      else
        exists i idx, (i < nnum_dp)%nat /\ idx ∈ block_cells children_dp i
                      /\ flag_of i idx = kKeep
                      /\ children_d !!! idx <> -1).
Proof using Type.
  intros Hok r. subst r. rewrite generate_flags_cells.
  destruct (block_cells_NoDup _ _ _ Hok) as [Hnd Hfit].
  destruct (flag_cells_spec (cells nnum_dp) (replicate nnum_d kKeep))
    as (Hlen & Hspec & Hkeep & Hall).
  { by rewrite cells_snd. }
  { intros [i idx] Hc. cbn [snd]. rewrite length_replicate.
    assert (idx < nnum_d)%nat as Hidx.
    { apply Hfit. rewrite <- cells_snd. apply list_elem_of_fmap.
      by exists (i, idx). }
    split; [done | by apply lookup_total_replicate_2]. }
  rewrite length_replicate in Hlen.
  split; [done|]. split; [|split].
  - intros i idx Hi Hidx. apply (Hspec (i, idx)). by apply cells_elem.
  - intros idx Hfree. rewrite Hkeep.
    + destruct (decide (idx < nnum_d)%nat).
      * by apply lookup_total_replicate_2.
      * rewrite list_lookup_total_alt, lookup_ge_None_2;
          [done | rewrite length_replicate; lia].
    + rewrite cells_snd. intros Hin.
      apply list_elem_of_bind in Hin as (i & Hidx & Hi).
      apply elem_of_seq in Hi. by apply (Hfree i ltac:(lia)).
  - destruct (foldl flag_cell _ _).2.
    + intros i idx Hi Hidx. apply (Hall (i, idx)). by apply cells_elem.
    + destruct Hall as ([i idx] & Hc & Hk & Hint).
      apply cells_elem in Hc as [Hi Hidx]. by exists i, idx.
Qed.

End FirstPass.

Lemma small_error_test has_dis th_dist th_norm normal_err_d distance_err_d idx :
  small_error has_dis th_dist th_norm normal_err_d distance_err_d idx
  = flt (normal_err_d !!! idx) th_norm
    && (negb has_dis || flt (distance_err_d !!! idx) th_dist).
Proof.
  unfold small_error.
  by destruct has_dis, (flt (distance_err_d !!! idx) th_dist),
    (flt (normal_err_d !!! idx) th_norm).
Qed.

(** The flag table before round [d]: the rounds so far left the layers
    from [d] on as they were set up. *)
Lemma flag_rounds_size (t : Octree) (n : nat) :
  length (flag_rounds t n) = Z.to_nat (depth_ (oct_info_ t) + 1).
Proof.
  unfold flag_rounds. induction n as [|n IH].
  - simpl. by rewrite length_map, length_seq.
  - rewrite seq_S, foldl_app. cbn [foldl]. unfold flag_round at 1.
    by rewrite length_insert.
Qed.

Lemma flag_rounds_later (t : Octree) (n e : nat) :
  (Z.to_nat (adp_layer_ (oct_info_ t)) + n <= e)%nat ->
  (Z.of_nat e <= depth_ (oct_info_ t)) ->
  flag_rounds t n !!! e
  = replicate (Z.to_nat (nnum (oct_info_ t) (Z.of_nat e))) kKeep.
Proof.
  intros Hn He. induction n as [|n IH].
  - unfold flag_rounds. cbn [foldl seq].
    rewrite lookup_total_map by (rewrite length_seq; lia).
    by rewrite lookup_total_seq_lt by lia.
  - unfold flag_rounds in *. rewrite seq_S, foldl_app. cbn [foldl].
    unfold flag_round at 1.
    rewrite list_lookup_total_insert_ne by lia. apply IH. lia.
Qed.

Lemma flag_rounds_S (t : Octree) (n : nat) :
  flag_rounds t (S n)
  = flag_round t (flag_rounds t n) (Z.to_nat (adp_layer_ (oct_info_ t)) + n).
Proof. unfold flag_rounds. by rewrite seq_S, foldl_app. Qed.

(** C5.  In [trim_octree], on every layer [d] from [adaptive_layer] to
    [depth], the first pass flags the cell [idx = 8 t + j] of the block of
    an internal parent [i] of layer [d - 1] as follows: when the flag of
    the parent is [kKeep], [kDropChildren] exactly when
    [normal_err[d][idx] < th_norm] and ([has_displace] is off or
    [distance_err[d][idx] < th_dist]), and [kKeep] otherwise; when the flag
    of the parent is [kDrop] or [kDropChildren], [kDrop].  The second pass
    changes one cell at most, and only when it restores a node. *)
Theorem first_pass_flags (t : Octree) (d i j : nat) :
  let info := oct_info_ t in
  let nnum_dp := Z.to_nat (nnum info (Z.of_nat d - 1)) in
  let nnum_d := Z.to_nat (nnum info (Z.of_nat d)) in
  let children_dp := children_ t !!! (d - 1)%nat in
  let drop := flag_rounds t (d - Z.to_nat (adp_layer_ info)) in
  let drop_dp := drop !!! (d - 1)%nat in
  let pass :=
    generate_flags (has_displace_ info) (threshold_dist_ info)
      (threshold_norm_ info) (children_ t !!! d) (normal_err_ t !!! d)
      (distance_err_ t !!! d) nnum_dp children_dp drop_dp (drop !!! d) in
  let restored :=
    (find_max (children_ t !!! d) (normal_err_ t !!! d) nnum_dp children_dp
       drop_dp).1 in
  let idx := Z.to_nat (children_dp !!! i * 8 + Z.of_nat j) in
  1 <= adp_layer_ info <= Z.of_nat d -> Z.of_nat d <= depth_ info ->
  blocks_ok nnum_dp nnum_d children_dp ->
  (i < nnum_dp)%nat -> children_dp !!! i <> -1 -> (j < 8)%nat ->
  pass.1 !!! idx
  = (if decide (drop_dp !!! i = kKeep) then
       if flt ((normal_err_ t !!! d) !!! idx) (threshold_norm_ info)
          && (negb (has_displace_ info)
              || flt ((distance_err_ t !!! d) !!! idx) (threshold_dist_ info))
       then kDropChildren else kKeep
     else kDrop)
  /\ (flag_rounds t (S (d - Z.to_nat (adp_layer_ info))) !!! d) !!! idx
     = (if pass.2 && bool_decide (idx = restored) then kKeep
        else pass.1 !!! idx).
Proof.
  intros info. subst info.
  intros nnum_dp nnum_d children_dp drop drop_dp pass restored idx
    Hadp Hd Hok Hi Hint Hj.
  assert (drop !!! d = replicate nnum_d kKeep) as Hfresh.
  { apply flag_rounds_later; [lia | done]. }
  assert (idx ∈ block_cells children_dp i) as Hcell.
  { apply block_cells_elem. split; [done|]. by exists j. }
  destruct (generate_flags_spec (has_displace_ (oct_info_ t))
              (threshold_dist_ (oct_info_ t)) (threshold_norm_ (oct_info_ t))
              (children_ t !!! d) (normal_err_ t !!! d)
              (distance_err_ t !!! d) children_dp
              drop_dp nnum_dp nnum_d Hok) as (Hlen & Hspec & _ & _).
  unfold pass. rewrite Hfresh.
  split.
  - rewrite (Hspec i idx Hi Hcell). unfold flag_spec.
    by rewrite small_error_test.
  - rewrite flag_rounds_S. unfold flag_round.
    replace (Z.to_nat (adp_layer_ (oct_info_ t))
             + (d - Z.to_nat (adp_layer_ (oct_info_ t))))%nat with d by lia.
    rewrite list_lookup_total_insert_eq by (rewrite flag_rounds_size; lia).
    fold drop. fold drop_dp. fold children_dp. fold nnum_dp.
    rewrite Hfresh. unfold flag_layer.
    set (g := generate_flags (has_displace_ (oct_info_ t))
                (threshold_dist_ (oct_info_ t))
                (threshold_norm_ (oct_info_ t)) (children_ t !!! d)
                (normal_err_ t !!! d) (distance_err_ t !!! d) nnum_dp
                children_dp drop_dp (replicate nnum_d kKeep)) in *.
    destruct g as [drop_d all_drop].
    cbn [fst snd] in *. fold restored.
    destruct all_drop; cbn [andb]; [|done].
    case_bool_decide as Hr.
    + rewrite <- Hr. apply list_lookup_total_insert_eq.
      destruct (block_cells_NoDup _ _ _ Hok) as [_ Hfit].
      rewrite Hlen. apply Hfit. apply list_elem_of_bind.
      exists i. split; [done | apply elem_of_seq; lia].
    + by rewrite list_lookup_total_insert_ne.
Qed.

Lemma flt_irrefl (a : float) : flt a a = false.
Proof. destruct a as [|[]|x]; simpl; try done. apply Z.ltb_irrefl. Qed.

Section SecondPass.

Variables (children_d : list Z) (normal_err_d : list float).
Variables (children_dp : list Z) (drop_dp : list TrimType).

Local Abbreviation kept := (kept_cells children_dp drop_dp).

Let max_cell (st : nat * float) (idx : nat) : nat * float :=
  if bool_decide (node_type (children_d !!! idx) = kInternelNode)
     && fgt (normal_err_d !!! idx) st.2
  then (idx, normal_err_d !!! idx) else st.

Lemma kept_cells_elem nnum_dp idx :
  idx ∈ kept nnum_dp
  <-> exists i, (i < nnum_dp)%nat /\ drop_dp !!! i = kKeep
                /\ idx ∈ block_cells children_dp i.
Proof using Type.
  unfold kept_cells. rewrite list_elem_of_bind. split.
  - intros (i & Hin & Hi). apply elem_of_seq in Hi.
    case_decide; [|by apply elem_of_nil in Hin].
    exists i. repeat split; [lia | done | done].
  - intros (i & Hi & Hkeep & Hin). exists i.
    rewrite decide_True by done. split; [done | apply elem_of_seq; lia].
Qed.

Lemma find_max_cells nnum_dp :
  find_max children_d normal_err_d nnum_dp children_dp drop_dp
  = foldl max_cell (0%nat, f_minus_one) (kept nnum_dp).
Proof using Type.
  unfold find_max, kept_cells. rewrite foldl_bind.
  apply foldl_ext_in. intros st i _.
  unfold max_block, block_cells.
  case_decide; [by case_decide|]. case_decide; [|done].
  rewrite foldl_fmap. apply foldl_ext_in. by intros [max_idx max_err] j _.
Qed.

(** The search keeps its start value when no internal cell has an error
    above [-1]; otherwise it ends on an internal cell whose error no
    other internal cell exceeds. *)
Lemma max_cells_spec (cs : list nat) :
  let r := foldl max_cell (0%nat, f_minus_one) cs in
  (r = (0%nat, f_minus_one)
   /\ forall c, c ∈ cs -> children_d !!! c <> -1 ->
                fgt (normal_err_d !!! c) f_minus_one = false)
  \/ (r.1 ∈ cs /\ children_d !!! r.1 <> -1
      /\ r.2 = normal_err_d !!! r.1
      /\ fgt r.2 f_minus_one = true
      /\ forall c, c ∈ cs -> children_d !!! c <> -1 ->
                   fgt (normal_err_d !!! c) r.2 = false).
Proof using Type.
  induction cs as [|c cs IH] using rev_ind; intros r.
  - left. split; [done|]. intros c Hc. by apply elem_of_nil in Hc.
  - subst r. rewrite foldl_app. cbn [foldl].
    set (prev := foldl max_cell (0%nat, f_minus_one) cs) in *.
    assert (c ∈ cs ++ [c]) as Hc
      by (apply elem_of_app; right; by apply list_elem_of_singleton).
    assert (max_cell prev c
            = if bool_decide (node_type (children_d !!! c) = kInternelNode)
                 && fgt (normal_err_d !!! c) prev.2
              then (c, normal_err_d !!! c) else prev) as -> by done.
    destruct (bool_decide (node_type (children_d !!! c) = kInternelNode))
      eqn:Hint; cbn [andb].
    + apply bool_decide_eq_true, node_type_internal in Hint.
      destruct (fgt (normal_err_d !!! c) prev.2) eqn:Hgt.
      * (* a new maximum *)
        right. cbn [fst snd].
        assert (forall c', c' ∈ cs -> children_d !!! c' <> -1 ->
                  fgt (normal_err_d !!! c') prev.2 = false) as Hprev.
        { destruct IH as [[-> Hall]|(_ & _ & _ & _ & Hall)]; done. }
        assert (fgt (normal_err_d !!! c) f_minus_one = true) as Habove.
        { destruct IH as [[Heq _]|(_ & _ & _ & Hbase & _)].
          - by rewrite Heq in Hgt.
          - unfold fgt in *. by apply (flt_trans _ prev.2). }
        repeat split; [done | done | done |].
        intros c' Hc' Hint'.
        apply elem_of_app in Hc' as [Hc'|Hc'].
        -- destruct (fgt (normal_err_d !!! c') (normal_err_d !!! c))
             eqn:Hgt'; [|done].
           rewrite <- (Hprev c' Hc' Hint'). symmetry.
           unfold fgt in *. by apply (flt_trans _ (normal_err_d !!! c)).
        -- apply list_elem_of_singleton in Hc' as ->. apply flt_irrefl.
      * (* not above the maximum so far *)
        destruct IH as [[Heq Hall]|(Hin & Hi & He & Hbase & Hall)].
        -- left. split; [done|]. intros c' Hc' Hint'.
           apply elem_of_app in Hc' as [Hc'|Hc']; [by apply Hall|].
           apply list_elem_of_singleton in Hc' as ->.
           by rewrite Heq in Hgt.
        -- right. repeat split; [| done | done | done |].
           ++ apply elem_of_app. by left.
           ++ intros c' Hc' Hint'.
              apply elem_of_app in Hc' as [Hc'|Hc']; [by apply Hall|].
              by apply list_elem_of_singleton in Hc' as ->.
    + (* a leaf *)
      apply bool_decide_eq_false in Hint.
      destruct IH as [[Heq Hall]|(Hin & Hi & He & Hbase & Hall)].
      * left. split; [done|]. intros c' Hc' Hint'.
        apply elem_of_app in Hc' as [Hc'|Hc']; [by apply Hall|].
        apply list_elem_of_singleton in Hc' as ->.
        exfalso. apply Hint. by apply node_type_internal.
      * right. repeat split; [| done | done | done |].
        -- apply elem_of_app. by left.
        -- intros c' Hc' Hint'.
           apply elem_of_app in Hc' as [Hc'|Hc']; [by apply Hall|].
           apply list_elem_of_singleton in Hc' as ->.
           exfalso. apply Hint. by apply node_type_internal.
Qed.

(** The second pass finds a node to restore as soon as one internal cell
    of a kept block has an error above [-1]. *)
Lemma find_max_spec (nnum_dp : nat) (c0 : nat) :
  c0 ∈ kept nnum_dp -> children_d !!! c0 <> -1 ->
  fgt (normal_err_d !!! c0) f_minus_one = true ->
  let m := (find_max children_d normal_err_d nnum_dp children_dp drop_dp).1 in
  m ∈ kept nnum_dp /\ children_d !!! m <> -1
  /\ forall c, c ∈ kept nnum_dp -> children_d !!! c <> -1 ->
               fgt (normal_err_d !!! c) (normal_err_d !!! m) = false.
Proof using Type.
  intros Hc0 Hint Habove m. subst m. rewrite find_max_cells.
  destruct (max_cells_spec (kept nnum_dp))
    as [[_ Hall]|(Hin & Hi & He & _ & Hall)].
  - by rewrite (Hall c0 Hc0 Hint) in Habove.
  - rewrite He in Hall. done.
Qed.

End SecondPass.

Section BothPasses.

Variables (has_dis : bool) (th_dist th_norm : float).
Variables (children_d : list Z) (normal_err_d distance_err_d : list float).
Variables (children_dp : list Z) (drop_dp : list TrimType).
Variables (nnum_dp nnum_d : nat).

Hypothesis linked_blocks : blocks_ok nnum_dp nnum_d children_dp.

Let pass :=
  generate_flags has_dis th_dist th_norm children_d normal_err_d
    distance_err_d nnum_dp children_dp drop_dp (replicate nnum_d kKeep).
Let restored :=
  (find_max children_d normal_err_d nnum_dp children_dp drop_dp).1.
Let final :=
  flag_layer has_dis th_dist th_norm children_d normal_err_d
    distance_err_d nnum_dp children_dp drop_dp (replicate nnum_d kKeep).

Lemma flag_layer_size : length final = nnum_d.
Proof using All.
  destruct (generate_flags_spec has_dis th_dist th_norm children_d
              normal_err_d distance_err_d children_dp drop_dp nnum_dp
              nnum_d linked_blocks) as (Hlen & _).
  unfold final, flag_layer. fold pass in Hlen |- *.
  destruct pass as [drop_d all_drop]. cbn [fst] in Hlen.
  destruct all_drop; [by rewrite length_insert | done].
Qed.

Lemma kept_cells_fit c : c ∈ kept_cells children_dp drop_dp nnum_dp ->
                         (c < nnum_d)%nat.
Proof using All.
  intros Hc. apply kept_cells_elem in Hc as (i & Hi & _ & Hin).
  destruct (block_cells_NoDup _ _ _ linked_blocks) as [_ Hfit].
  apply Hfit. apply list_elem_of_bind. exists i.
  split; [done | apply elem_of_seq; lia].
Qed.

(** The second pass, when it runs, restores [kKeep] on an internal cell
    of a kept block whose error no other such cell exceeds. *)
Lemma flag_layer_restores (c0 : nat) :
  c0 ∈ kept_cells children_dp drop_dp nnum_dp ->
  children_d !!! c0 <> -1 ->
  fgt (normal_err_d !!! c0) f_minus_one = true ->
  pass.2 = true ->
  final !!! restored = kKeep
  /\ restored ∈ kept_cells children_dp drop_dp nnum_dp
  /\ children_d !!! restored <> -1
  /\ forall c, c ∈ kept_cells children_dp drop_dp nnum_dp ->
               children_d !!! c <> -1 ->
               fgt (normal_err_d !!! c) (normal_err_d !!! restored) = false.
Proof using All.
  intros Hc0 Hint Habove Hall.
  destruct (find_max_spec children_d normal_err_d children_dp drop_dp
              nnum_dp c0 Hc0 Hint Habove) as (Hin & Hi & Hmax).
  fold restored in Hin, Hi, Hmax.
  split; [|done].
  destruct (generate_flags_spec has_dis th_dist th_norm children_d
              normal_err_d distance_err_d children_dp drop_dp nnum_dp
              nnum_d linked_blocks) as (Hlen & _).
  unfold final, flag_layer. fold pass in Hlen, Hall |- *. fold restored.
  destruct pass as [drop_d all_drop]. cbn [fst snd] in *. subst all_drop.
  apply list_lookup_total_insert_eq. rewrite Hlen.
  by apply kept_cells_fit.
Qed.

(** Whenever a kept block holds an internal cell with an error above
    [-1], the layer keeps an internal node after both passes. *)
Lemma flag_layer_keeps (c0 : nat) :
  c0 ∈ kept_cells children_dp drop_dp nnum_dp ->
  children_d !!! c0 <> -1 ->
  fgt (normal_err_d !!! c0) f_minus_one = true ->
  keeps children_d final nnum_d.
Proof using All.
  intros Hc0 Hint Habove.
  destruct (pass.2) eqn:Hall.
  - destruct (flag_layer_restores c0 Hc0 Hint Habove Hall)
      as (Hkeep & Hin & Hi & _).
    exists restored. split; [by apply kept_cells_fit | done].
  - destruct (generate_flags_spec has_dis th_dist th_norm children_d
                normal_err_d distance_err_d children_dp drop_dp nnum_dp
                nnum_d linked_blocks) as (Hlen & Hspec & _ & Hsome).
    fold pass in Hlen, Hspec, Hsome. rewrite Hall in Hsome.
    destruct Hsome as (i & idx & Hi & Hidx & Hk & Hl).
    exists idx. split; [|split; [|done]].
    + destruct (block_cells_NoDup _ _ _ linked_blocks) as [_ Hfit].
      apply Hfit. apply list_elem_of_bind. exists i.
      split; [done | apply elem_of_seq; lia].
    + unfold final, flag_layer. fold pass.
      rewrite <- (Hspec i idx Hi Hidx) in Hk.
      destruct pass as [drop_d all_drop]. cbn [fst snd] in *.
      by subst all_drop.
Qed.

End BothPasses.

(** ** Rewriting the layers and counting the nodes *)

Lemma trim_children_keys_spec (drop_d : list TrimType)
    (children_d keys_d : list Z) (n : nat) :
  let c' := trim_children drop_d children_d n in
  length c' = length (trim_keys drop_d keys_d n)
  /\ (length c' <= n)%nat
  /\ Forall (fun v => -1 <= v < Z.of_nat (length c')) c'
  /\ (keeps children_d drop_d n ->
      exists p, (p < length c')%nat /\ c' !!! p <> -1).
Proof.
  unfold trim_children, trim_keys, keeps.
  induction n as [|n IH].
  - simpl. repeat split; [lia | constructor |].
    intros (idx & Hidx & _). lia.
  - rewrite !seq_S, !foldl_app. cbn [foldl Nat.add].
    destruct (foldl _ ([], 0) (seq 0 n)) as [children id] eqn:Hst.
    cbn [fst] in *.
    set (key := foldl _ [] (seq 0 n)) in *.
    destruct IH as (Hlen & Hle & Hall & Hsome).
    (* the counter is the number of links handed out so far *)
    assert (0 <= id <= Z.of_nat (length children)
            /\ Forall (fun v => -1 <= v < id) children) as [Hid Hbelow].
    { clear -Hst. revert children id Hst. induction n as [|n IHn];
        intros children id Hst.
      - simpl in Hst. injection Hst as <- <-. split; [simpl; lia|constructor].
      - rewrite seq_S, foldl_app in Hst. cbn [foldl Nat.add] in Hst.
        destruct (foldl _ ([], 0) (seq 0 n)) as [ch0 id0].
        destruct (IHn ch0 id0 eq_refl) as [Hid0 Hall0].
        case_decide; [injection Hst as <- <-; done|].
        destruct (_ && _); injection Hst as <- <-;
          rewrite length_app; simpl; (split; [lia|]);
          apply Forall_app; (split; [|repeat constructor; lia]).
        + eapply Forall_impl; [exact Hall0|]. simpl. lia.
        + done. }
    case_decide as Hdrop.
    + (* the cell is dropped *)
      cbn [fst]. repeat split; [done | lia | done |].
      intros (idx & Hidx & Hk & Hi). apply Hsome.
      exists idx. repeat split; [|done|done].
      destruct (decide (idx = n)) as [->|]; [|lia].
      rewrite Hk in Hdrop. done.
    + destruct (bool_decide (drop_d !!! n = kKeep)
                && negb (bool_decide (node_type (children_d !!! n) = kLeaf)))
        eqn:Hkept; cbn [fst]; rewrite !length_app; simpl.
      * (* a kept internal node gets the next link *)
        repeat split; [lia | lia | |].
        -- apply Forall_app. split.
           ++ eapply Forall_impl; [exact Hbelow|]. simpl. lia.
           ++ repeat constructor; lia.
        -- intros _. exists (length children). split; [lia|].
           rewrite lookup_total_app_r by lia.
           rewrite Nat.sub_diag. simpl. lia.
      * (* a kept leaf, or a node that drops its children *)
        repeat split; [lia | lia | |].
        -- apply Forall_app. split.
           ++ eapply Forall_impl; [exact Hall|]. simpl. lia.
           ++ repeat constructor; lia.
        -- intros (idx & Hidx & Hk & Hi).
           destruct Hsome as (p & Hp & Hne).
           { exists idx. repeat split; [|done|done].
             destruct (decide (idx = n)) as [->|]; [|lia].
             apply andb_false_iff in Hkept as [Hf|Hf].
             - by apply bool_decide_eq_false in Hf.
             - apply negb_false_iff, bool_decide_eq_true in Hf.
               by apply node_type_leaf in Hf. }
           exists p. split; [lia|]. by rewrite lookup_total_app_l.
Qed.

Lemma last_nempty_pos (l : list Z) (n : nat) :
  Forall (fun v => -1 <= v < 2 ^ 31 - 1) l ->
  (exists p, (p < n)%nat /\ l !!! p <> -1) ->
  1 <= last_nempty l n.
Proof.
  intros Hall. induction n as [|n IH]; intros (p & Hp & Hne); [lia|].
  cbn [last_nempty]. destruct (Z.eqb_spec (l !!! n) (-1)) as [Hleaf|Hint].
  - cbn [negb]. apply IH. exists p. split; [|done].
    destruct (decide (p = n)) as [->|]; [done | lia].
  - cbn [negb].
    assert (-1 <= l !!! n < 2 ^ 31 - 1) as Hv.
    { destruct (decide (n < length l)%nat).
      - by apply (Forall_lookup_total_1 _ l n) in Hall.
      - rewrite list_lookup_total_alt, lookup_ge_None_2 by lia. simpl. lia. }
    rewrite wrap_int_small; lia.
Qed.

Lemma copy_prefix_lookup (n : nat) (src dst : list Z) (d : nat) :
  (d < n)%nat -> (n <= length dst)%nat ->
  copy_prefix n src dst !!! d = src !!! d.
Proof.
  intros Hd Hn. unfold copy_prefix.
  apply (scatter_stored (fun i : nat => i) (fun i => src !!! i)).
  - rewrite map_id. apply NoDup_seq.
  - apply elem_of_seq. lia.
  - lia.
Qed.

(** The count of non-empty nodes that [calc_node_num] stores. *)
Lemma calc_node_num_nempty (T : Octree) (d : nat) :
  Z.of_nat d <= depth_ (oct_info_ T) ->
  (Z.to_nat (depth_ (oct_info_ T) + 1) <= length (nnum_nempty_ (oct_info_ T)))%nat ->
  nnum_nempty (oct_info_ (calc_node_num T)) (Z.of_nat d)
  = last_nempty (children_ T !!! d)
      (Z.to_nat (wrap_int (Z.of_nat (length (keys_ T !!! d))))).
Proof.
  intros Hd Hsize. unfold calc_node_num, nnum_nempty.
  cbn [oct_info_ put_oct_info]. unfold set_ptr_dis, set_nnum_cum.
  cbn [nnum_nempty_ with_ptr_dis with_nnum_cum set_nempty with_nnum_nempty
       depth_ set_nnum with_nnum].
  rewrite Nat2Z.id.
  rewrite copy_prefix_lookup by lia.
  rewrite lookup_total_map by (rewrite length_seq; lia).
  rewrite lookup_total_seq_lt by lia. cbn [Nat.add].
  rewrite lookup_total_map by (rewrite length_seq; lia).
  by rewrite lookup_total_seq_lt by lia.
Qed.

(** The count of nodes that [calc_node_num] stores. *)
Lemma calc_node_num_nnum (T : Octree) (d : nat) :
  Z.of_nat d <= depth_ (oct_info_ T) ->
  (Z.to_nat (depth_ (oct_info_ T) + 1) <= length (nnum_ (oct_info_ T)))%nat ->
  nnum (oct_info_ (calc_node_num T)) (Z.of_nat d)
  = wrap_int (Z.of_nat (length (keys_ T !!! d))).
Proof.
  intros Hd Hsize. unfold calc_node_num, nnum.
  cbn [oct_info_ put_oct_info]. unfold set_ptr_dis, set_nnum_cum.
  cbn [nnum_ with_ptr_dis with_nnum_cum set_nempty with_nnum_nempty
       depth_ set_nnum with_nnum].
  rewrite Nat2Z.id.
  rewrite copy_prefix_lookup by lia.
  rewrite lookup_total_map by (rewrite length_seq; lia).
  by rewrite lookup_total_seq_lt by lia.
Qed.

Lemma build_structure_header (nk : list Z) (t : Octree) :
  oct_info_ (build_structure nk t).1 = oct_info_ t.
Proof.
  unfold build_structure.
  destruct (foldl (fill_full_layer _) _ _) as [K C].
  by destruct (foldl build_layer _ _) as [[K' C'] nk'].
Qed.

(** The layer sizes of the built octree are the node counts that
    [calc_node_num] writes into the header: [nnum[d]] is the size of
    [keys_[d]], [8^d] on the full layers and a multiple of 8 below. *)
Lemma built_node_counts (depth fl : nat) (nk : list Z) (t : Octree)
    (d : nat) :
  (fl <= depth <= 10)%nat ->
  depth_ (oct_info_ t) = Z.of_nat depth ->
  full_layer_ (oct_info_ t) = Z.of_nat fl ->
  occupied (8 ^ Z.of_nat depth) nk -> (1 <= length nk)%nat ->
  (S depth <= length (nnum_ (oct_info_ t)))%nat ->
  (d <= depth)%nat ->
  let built := (build_structure nk (clear (Z.of_nat depth) t)).1 in
  nnum (oct_info_ (calc_node_num built)) (Z.of_nat d)
  = Z.of_nat (length (keys_ built !!! d))
  /\ (if decide (d <= fl)%nat
      then nnum (oct_info_ (calc_node_num built)) (Z.of_nat d) = 8 ^ Z.of_nat d
      else nnum (oct_info_ (calc_node_num built)) (Z.of_nat d) mod 8 = 0).
Proof.
  intros Hlayers Hdepth Hfull Hocc Hone Hnnum Hd built.
  destruct (build_structure_shape depth fl nk t Hlayers Hdepth Hfull Hocc Hone)
    as (_ & _ & Hkeys & _ & _ & _ & _ & Hlinked).
  fold built in Hkeys, Hlinked.
  assert (oct_info_ built = oct_info_ t) as Hinfo.
  { unfold built. by rewrite build_structure_header. }
  assert (Z.of_nat (8 ^ d) = 8 ^ Z.of_nat d) as Hpow.
  { by rewrite Nat2Z.inj_pow. }
  assert (8 ^ Z.of_nat d <= 8 ^ 10) as Hten.
  { apply Z.pow_le_mono_r; lia. }
  rewrite calc_node_num_nnum by (rewrite Hinfo, ?Hdepth; lia).
  destruct (decide (d <= fl)%nat) as [Hle|Hgt].
  - destruct (Hkeys d Hle) as [-> _].
    rewrite wrap_int_small by lia. by rewrite Hpow.
  - destruct (Hlinked d ltac:(lia)) as [[Hmod _] [_ Hsmall] _ _ _].
    rewrite wrap_int_small by lia. split; [done|].
    apply Nat.Div0.mod_divides in Hmod as [c ->].
    rewrite Nat2Z.inj_mul, Z.mul_comm. apply Z.mod_mul. lia.
Qed.

Lemma trim_layer_fields (drop : list (list TrimType)) (t : Octree) (d : nat) :
  let nnum_d := Z.to_nat (nnum (oct_info_ t) (Z.of_nat d)) in
  oct_info_ (trim_layer drop t d) = oct_info_ t
  /\ keys_ (trim_layer drop t d)
     = <[d := trim_keys (drop !!! d) (keys_ t !!! d) nnum_d]> (keys_ t)
  /\ children_ (trim_layer drop t d)
     = <[d := trim_children (drop !!! d) (children_ t !!! d) nnum_d]>
         (children_ t).
Proof. done. Qed.

(** The rewriting loop of [trim_octree] after its first [n] rounds. *)
Lemma trim_layers_spec (drop : list (list TrimType)) (t : Octree)
    (A n : nat) :
  let T := foldl (trim_layer drop) t (seq A n) in
  oct_info_ T = oct_info_ t
  /\ length (keys_ T) = length (keys_ t)
  /\ length (children_ T) = length (children_ t)
  /\ forall d,
       (keys_ T !!! d
        = if decide (A <= d < A + n)%nat
          then trim_keys (drop !!! d) (keys_ t !!! d)
                 (Z.to_nat (nnum (oct_info_ t) (Z.of_nat d)))
          else keys_ t !!! d)
       /\ (children_ T !!! d
           = if decide (A <= d < A + n)%nat
             then trim_children (drop !!! d) (children_ t !!! d)
                    (Z.to_nat (nnum (oct_info_ t) (Z.of_nat d)))
             else children_ t !!! d)
       \/ (length (keys_ t) <= d)%nat \/ (length (children_ t) <= d)%nat.
Proof.
  induction n as [|n IH]; intros T.
  - subst T. simpl. repeat split; try done.
    intros d. left. rewrite !decide_False by lia. done.
  - subst T. rewrite seq_S, foldl_app. cbn [foldl].
    set (prev := foldl (trim_layer drop) t (seq A n)) in *.
    destruct IH as (Hinfo & Hk & Hc & Hlayers).
    destruct (trim_layer_fields drop prev (A + n)) as (-> & -> & ->).
    rewrite !length_insert. repeat split; [done | done | done |].
    intros d.
    destruct (decide (length (keys_ t) <= d)%nat); [right; by left|].
    destruct (decide (length (children_ t) <= d)%nat); [right; by right|].
    left. destruct (Hlayers d) as [[Hkd Hcd]|[?|?]]; [|lia|lia].
    destruct (decide (d = A + n)%nat) as [->|Hne].
    + rewrite !list_lookup_total_insert_eq by lia.
      rewrite Hinfo, Hkd, Hcd. repeat case_decide; (done || lia).
    + rewrite !list_lookup_total_insert_ne by lia. rewrite Hkd, Hcd.
      repeat case_decide; (done || lia).
Qed.

(** ** The flag table and the trimmed octree *)

Section TrimOctree.

Variables (t : Octree) (D A : nat).
Hypothesis ready : trim_ready t D A.

Let cnt (e : nat) : nat := Z.to_nat (nnum (oct_info_ t) (Z.of_nat e)).

Lemma flag_rounds_earlier (n e : nat) :
  (e < A)%nat ->
  flag_rounds t n !!! e = replicate (cnt e) kKeep.
Proof using All.
  destruct ready as [(HD & HA & Hle) _ _ _ _ _ _ _]. intros He.
  induction n as [|n IH].
  - unfold flag_rounds. cbn [foldl seq].
    rewrite lookup_total_map by (rewrite length_seq; lia).
    by rewrite lookup_total_seq_lt by lia.
  - rewrite flag_rounds_S. unfold flag_round.
    rewrite list_lookup_total_insert_ne by lia. done.
Qed.

Lemma flag_rounds_fresh (n e : nat) :
  (A + n <= e <= D)%nat ->
  flag_rounds t n !!! e = replicate (cnt e) kKeep.
Proof using All.
  destruct ready as [(HD & HA & Hle) _ _ _ _ _ _ _]. intros He.
  apply flag_rounds_later; lia.
Qed.

Lemma flag_rounds_stable (n e : nat) :
  (A <= e)%nat -> (e - A < n)%nat ->
  flag_rounds t n !!! e = flag_rounds t (S (e - A)) !!! e.
Proof using All.
  destruct ready as [(HD & HA & Hle) _ _ _ _ _ _ _]. intros He Hn.
  induction n as [|n IH]; [lia|].
  destruct (decide (n = e - A)%nat) as [->|Hne]; [done|].
  rewrite flag_rounds_S. unfold flag_round.
  rewrite list_lookup_total_insert_ne by lia. apply IH. lia.
Qed.

(** Round [d] of the flag loop, in terms of the two passes. *)
Lemma flag_rounds_round (d : nat) :
  (A <= d <= D)%nat ->
  flag_rounds t (S (d - A)) !!! d
  = flag_layer (has_displace_ (oct_info_ t))
      (threshold_dist_ (oct_info_ t)) (threshold_norm_ (oct_info_ t))
      (children_ t !!! d) (normal_err_ t !!! d) (distance_err_ t !!! d)
      (cnt (d - 1)) (children_ t !!! (d - 1)%nat)
      (flag_rounds t (d - A) !!! (d - 1)%nat) (replicate (cnt d) kKeep).
Proof using All.
  pose proof ready as [(HD & HA & Hle) _ _ _ _ _ _ _]. intros Hd.
  rewrite flag_rounds_S. unfold flag_round.
  rewrite HA, Nat2Z.id.
  replace (A + (d - A))%nat with d by lia.
  rewrite list_lookup_total_insert_eq by (rewrite flag_rounds_size; lia).
  rewrite (flag_rounds_fresh (d - A) d) by lia.
  unfold cnt. by replace (Z.of_nat d - 1) with (Z.of_nat (d - 1)) by lia.
Qed.

(** The candidate that makes the second pass succeed on layer [d]. *)
Lemma flag_rounds_candidate (d : nat) :
  (A <= d <= D)%nat ->
  ((A < d)%nat ->
   keeps (children_ t !!! (d - 1)%nat)
     (flag_rounds t (d - A) !!! (d - 1)%nat) (cnt (d - 1))) ->
  exists c0,
    c0 ∈ kept_cells (children_ t !!! (d - 1)%nat)
           (flag_rounds t (d - A) !!! (d - 1)%nat) (cnt (d - 1))
    /\ (children_ t !!! d) !!! c0 <> -1
    /\ fgt ((normal_err_ t !!! d) !!! c0) f_minus_one = true.
Proof using All.
  pose proof ready as [(_ & _ & Hle) _ _ _ Hblocks Htop Hcover Herr].
  intros Hd Hkeeps.
  assert (exists i c0,
            (i < cnt (d - 1))%nat
            /\ (flag_rounds t (d - A) !!! (d - 1)%nat) !!! i = kKeep
            /\ c0 ∈ block_cells (children_ t !!! (d - 1)%nat) i
            /\ (children_ t !!! d) !!! c0 <> -1) as (i & c0 & Hi & Hk & Hc & Hint).
  { destruct (decide (A < d)%nat) as [Hlt|Hge].
    - destruct (Hkeeps Hlt) as (i & Hi & Hk & Hinti).
      destruct (Hcover d i ltac:(lia) Hi Hinti) as (c0 & Hc & Hint).
      by exists i, c0.
    - replace d with A in * by lia.
      destruct Htop as (i & c0 & Hi & Hc & Hint). exists i, c0.
      rewrite Nat.sub_diag, flag_rounds_earlier by lia.
      repeat split; [done | | done | done].
      by apply lookup_total_replicate_2. }
  exists c0. split; [|split; [done|]].
  - apply kept_cells_elem. by exists i.
  - apply Herr; [lia | | done].
    destruct (block_cells_NoDup _ _ _ (Hblocks d Hd)) as [_ Hfit].
    apply Hfit. apply list_elem_of_bind. exists i.
    split; [done | apply elem_of_seq; unfold cnt in Hi; lia].
Qed.

(** After its round, every layer from [adaptive_layer] on keeps an
    internal node. *)
Lemma flag_rounds_keep (d : nat) :
  (A <= d <= D)%nat ->
  keeps (children_ t !!! d) (flag_rounds t (S (d - A)) !!! d) (cnt d).
Proof using All.
  pose proof ready as [_ _ _ _ Hblocks _ _ _].
  induction d as [d IH] using lt_wf_ind. intros Hd.
  destruct (flag_rounds_candidate d Hd) as (c0 & Hc0 & Hint & Habove).
  { intros Hlt.
    rewrite (flag_rounds_stable (d - A) (d - 1)) by lia.
    replace (S (d - 1 - A)) with (d - A)%nat by lia.
    replace (d - A)%nat with (S (d - 1 - A)) by lia.
    apply IH; lia. }
  rewrite flag_rounds_round by done.
  by apply (flag_layer_keeps _ _ _ _ _ _ _ _ _ _ (Hblocks d Hd) c0).
Qed.

End TrimOctree.

(** C1, as amended.  In adaptive mode and on an octree that meets
    [trim_ready] (the header agrees with the builder state, the child
    links from layer [adaptive_layer - 1] on point to whole blocks of the
    next layer and share none, some node of layer [adaptive_layer - 1]
    and every internal node of the layers [adaptive_layer .. depth - 1]
    has an internal child, and the normal errors of internal nodes are
    above [-1]), after [trim_octree] has rewritten the layers
    and rerun [calc_node_num], every layer [d] from [adaptive_layer] to
    [depth] still has a non-empty node: [nnum_nempty[d] >= 1].  Whenever
    the first pass on layer [d] leaves no internal node with flag [kKeep],
    the flag table of [trim_octree] has [kKeep] on the node found by the
    second pass, which is an internal cell of the block of a parent that
    is still [kKeep], and no other such cell has a larger
    [normal_err[d]]. *)
Theorem trim_keeps_every_layer (t : Octree) (D A d : nat) :
  is_adaptive_ (oct_info_ t) = true ->
  trim_ready t D A ->
  (A <= d <= D)%nat ->
  let info := oct_info_ t in
  let nnum_dp := Z.to_nat (nnum info (Z.of_nat (d - 1))) in
  let children_dp := children_ t !!! (d - 1)%nat in
  let drop_dp := flag_rounds t (d - A) !!! (d - 1)%nat in
  let pass :=
    generate_flags (has_displace_ info) (threshold_dist_ info)
      (threshold_norm_ info) (children_ t !!! d) (normal_err_ t !!! d)
      (distance_err_ t !!! d) nnum_dp children_dp drop_dp
      (flag_rounds t (d - A) !!! d) in
  let restored :=
    (find_max (children_ t !!! d) (normal_err_ t !!! d) nnum_dp children_dp
       drop_dp).1 in
  1 <= nnum_nempty (oct_info_ (trim_octree t)) (Z.of_nat d)
  /\ (pass.2 = true ->
      (drop_flags t !!! d) !!! restored = kKeep
      /\ restored ∈ kept_cells children_dp drop_dp nnum_dp
      /\ (children_ t !!! d) !!! restored <> -1
      /\ forall c, c ∈ kept_cells children_dp drop_dp nnum_dp ->
                   (children_ t !!! d) !!! c <> -1 ->
                   fgt ((normal_err_ t !!! d) !!! c)
                     ((normal_err_ t !!! d) !!! restored) = false).
Proof.
  intros Hadaptive Hready Hd info. subst info.
  intros nnum_dp children_dp drop_dp pass restored.
  pose proof Hready as [(HD & HA & Hle) Hheader [Hkeys Hchildren] Hcounts
                          Hblocks _ _ _].
  assert (drop_flags t = flag_rounds t (D - A + 1)) as Hdrop.
  { unfold drop_flags. rewrite HD, HA. f_equal. lia. }
  assert (drop_flags t !!! d = flag_rounds t (S (d - A)) !!! d) as Hlayer.
  { rewrite Hdrop. apply (flag_rounds_stable t D A Hready); lia. }
  split.
  - (* the count of non-empty nodes *)
    unfold trim_octree. rewrite Hadaptive. cbn [negb].
    rewrite HD, HA.
    replace (Z.to_nat (Z.of_nat D - Z.of_nat A + 1)) with (D - A + 1)%nat
      by lia.
    rewrite Nat2Z.id.
    destruct (trim_layers_spec (drop_flags t) t A (D - A + 1))
      as (Hinfo & HkT & HcT & Hlayers).
    set (T := foldl (trim_layer (drop_flags t)) t (seq A (D - A + 1))) in *.
    rewrite calc_node_num_nempty by (rewrite Hinfo, ?HD; lia).
    destruct (Hlayers d) as [[-> ->]|[?|?]]; [|lia|lia].
    rewrite !decide_True by lia.
    destruct (trim_children_keys_spec (drop_flags t !!! d)
                (children_ t !!! d) (keys_ t !!! d)
                (Z.to_nat (nnum (oct_info_ t) (Z.of_nat d))))
      as (Hlen & Hshort & Hall & Hsome).
    rewrite <- Hlen.
    set (c' := trim_children _ _ _) in *.
    pose proof (Hcounts d ltac:(lia)) as Hint.
    rewrite wrap_int_small by lia. rewrite Nat2Z.id.
    apply last_nempty_pos.
    + eapply Forall_impl; [exact Hall|]. simpl. lia.
    + apply Hsome. rewrite Hlayer.
      by apply (flag_rounds_keep t D A Hready).
  - (* the restored node *)
    intros Hall. rewrite Hlayer.
    rewrite (flag_rounds_round t D A Hready) by done.
    destruct (flag_rounds_candidate t D A Hready d Hd)
      as (c0 & Hc0 & Hint & Habove).
    { intros Hlt.
      rewrite (flag_rounds_stable t D A Hready (d - A) (d - 1)) by lia.
      replace (S (d - 1 - A)) with (d - A)%nat by lia.
      replace (d - A)%nat with (S (d - 1 - A)) by lia.
      apply (flag_rounds_keep t D A Hready). lia. }
    apply (flag_layer_restores _ _ _ _ _ _ _ _ _ _ (Hblocks d Hd) c0);
      try done.
    unfold pass in Hall.
    rewrite (flag_rounds_fresh t D A Hready (d - A) d) in Hall by lia.
    exact Hall.
Qed.

(** ** Built octrees can be trimmed *)

Lemma copy_prefix_length (n : nat) (src dst : list Z) :
  length (copy_prefix n src dst) = length dst.
Proof.
  unfold copy_prefix.
  apply (scatter_length (fun i : nat => i) (fun i => src !!! i)).
Qed.

Lemma calc_node_num_fields (T : Octree) :
  keys_ (calc_node_num T) = keys_ T
  /\ children_ (calc_node_num T) = children_ T
  /\ depth_ (oct_info_ (calc_node_num T)) = depth_ (oct_info_ T)
  /\ adp_layer_ (oct_info_ (calc_node_num T)) = adp_layer_ (oct_info_ T)
  /\ length (nnum_nempty_ (oct_info_ (calc_node_num T)))
     = length (nnum_nempty_ (oct_info_ T)).
Proof.
  repeat split; try done.
  unfold calc_node_num. cbn [oct_info_ put_oct_info].
  unfold set_ptr_dis, set_nnum_cum.
  cbn [nnum_nempty_ with_ptr_dis with_nnum_cum set_nempty with_nnum_nempty].
  apply copy_prefix_length.
Qed.

(** The structure that [build_structure] and [calc_node_num] leave is
    the structure that the trimming needs, whenever the octree has a
    layer below the full part ([full_layer < depth]) and the adaptive
    layer is the last full layer or a deeper one
    ([full_layer <= adaptive_layer], as [check_format] asks, and
    [1 <= adaptive_layer]): an octree [T] with this header, these keys
    and these child links, and with the normal errors of its internal
    nodes filled in, meets [trim_ready]. *)
Lemma built_ready (depth fl A : nat) (nk : list Z) (t T : Octree) :
  (fl <= depth <= 10)%nat ->
  depth_ (oct_info_ t) = Z.of_nat depth ->
  full_layer_ (oct_info_ t) = Z.of_nat fl ->
  adp_layer_ (oct_info_ t) = Z.of_nat A ->
  (fl <= A <= depth /\ 1 <= A /\ fl < depth)%nat ->
  occupied (8 ^ Z.of_nat depth) nk -> (1 <= length nk)%nat ->
  (S depth <= length (nnum_ (oct_info_ t)))%nat ->
  (S depth <= length (nnum_nempty_ (oct_info_ t)))%nat ->
  let built :=
    calc_node_num (build_structure nk (clear (Z.of_nat depth) t)).1 in
  oct_info_ T = oct_info_ built ->
  keys_ T = keys_ built -> children_ T = children_ built ->
  (forall e idx, (A <= e <= depth)%nat ->
     (idx < length (keys_ T !!! e))%nat ->
     (children_ T !!! e) !!! idx <> -1 ->
     fgt ((normal_err_ T !!! e) !!! idx) f_minus_one = true) ->
  trim_ready T depth A.
Proof.
  intros Hlayers Hdepth Hfull Hadp HA Hocc Hone Hnnum Hnempty built
    Hinfo HkeysT HchildrenT Herr.
  set (B := (build_structure nk (clear (Z.of_nat depth) t)).1) in *.
  destruct (calc_node_num_fields B) as (HkB & HcB & HdB & HaB & HnB).
  fold built in HkB, HcB, HdB, HaB, HnB.
  assert (oct_info_ B = oct_info_ t) as HinfoB.
  { unfold B. by rewrite build_structure_header. }
  rewrite HkB in HkeysT. rewrite HcB in HchildrenT.
  destruct (build_structure_shape depth fl nk t Hlayers Hdepth Hfull Hocc Hone)
    as (HK & HC & Hkeys & Hfullc & Htop & Htop1 & Hlast & Hlinked).
  fold B in HK, HC, Hkeys, Hfullc, Htop, Hlast, Hlinked.
  assert (forall e, (e <= depth)%nat ->
            nnum (oct_info_ T) (Z.of_nat e)
            = Z.of_nat (length (keys_ B !!! e))) as Hn.
  { intros e He. rewrite Hinfo.
    pose proof (built_node_counts depth fl nk t e Hlayers Hdepth Hfull Hocc
                  Hone Hnnum He) as Hcount.
    cbn zeta in Hcount. by destruct Hcount as [Hcount _]. }
  assert (forall e, (e <= depth)%nat ->
            Z.of_nat (length (keys_ B !!! e)) <= 2 ^ 30) as Hsmall.
  { intros e He. destruct (decide (e <= fl)%nat) as [Hle|Hgt].
    - destruct (Hkeys e Hle) as [-> _]. rewrite Nat2Z.inj_pow.
      change (2 ^ 30) with (8 ^ 10). apply Z.pow_le_mono_r; lia.
    - by destruct (Hlinked e ltac:(lia)) as [_ [_ Hs] _ _ _]. }
  assert (forall e, (fl <= e <= depth)%nat ->
            length (children_ B !!! e) = length (keys_ B !!! e)) as Hsame.
  { intros e He. destruct (decide (e = fl)) as [->|Hne].
    - rewrite Hlast, decide_True by lia.
      destruct (full_link_parent fl (build_structure nk
                  (clear (Z.of_nat depth) t)).2 (keys_ B !!! fl) Htop
                  (Hkeys fl ltac:(lia))) as (-> & _).
      by destruct (Hkeys fl ltac:(lia)) as [-> _].
    - by destruct (Hlinked e ltac:(lia)) as [[_ Hs] _ _ _ _]. }
  split.
  - rewrite Hinfo, HdB, HaB, HinfoB. repeat split; (done || lia).
  - rewrite Hinfo, HnB, HinfoB. done.
  - by rewrite HkeysT, HchildrenT.
  - intros e He. rewrite Hn by done. pose proof (Hsmall e He). lia.
  - intros e He. rewrite !Hn by lia. rewrite !Nat2Z.id, HchildrenT.
    destruct (decide (e = fl)) as [->|Hne].
    { destruct (Hfullc (fl - 1)%nat ltac:(lia)) as [Hsz Hval].
      destruct (Hkeys (fl - 1)%nat ltac:(lia)) as [-> _].
      destruct (Hkeys fl ltac:(lia)) as [-> _].
      assert (8 ^ fl = 8 * 8 ^ (fl - 1))%nat as Hpow.
      { replace fl with (S (fl - 1)) at 1 by lia. by rewrite Nat.pow_succ_r'. }
      split.
      - intros i Hi _. rewrite Hval by done. lia.
      - intros i i' Hi Hi' _. rewrite !Hval by done. lia. }
    destruct (Hlinked e ltac:(lia)) as [_ _ Hchild _ Hinj].
    split.
    + intros i Hi Hint. rewrite <- Hsame in Hi by lia.
      destruct (Hchild i Hi Hint) as (b & Hb & Hfit & _).
      rewrite Hb, Nat2Z.id. lia.
    + intros i i' Hi Hi'. rewrite <- Hsame in Hi, Hi' by lia.
      by apply Hinj.
  - destruct (decide (A = fl)) as [->|Hne].
    { destruct (Hfullc (fl - 1)%nat ltac:(lia)) as [Hsz Hval].
      destruct (full_link_parent fl (build_structure nk
                  (clear (Z.of_nat depth) t)).2 (keys_ B !!! fl) Htop
                  (Hkeys fl ltac:(lia))) as (_ & _ & Hstored & _).
      pose proof (occupied_lookup _ _ 0%nat Htop ltac:(lia)) as Hrange.
      set (top := (build_structure nk (clear (Z.of_nat depth) t)).2) in *.
      assert (8 ^ Z.of_nat fl = 8 * 8 ^ Z.of_nat (fl - 1)) as Hpow.
      { replace (Z.of_nat fl) with (Z.succ (Z.of_nat (fl - 1))) at 1 by lia.
        rewrite Z.pow_succ_r by lia. done. }
      assert (0 < 8 ^ Z.of_nat (fl - 1)) by (apply Z.pow_pos_nonneg; lia).
      assert (Z.to_nat (top !!! 0%nat / 8) < 8 ^ (fl - 1))%nat as Hparent.
      { apply Nat2Z.inj_lt. rewrite Z2Nat.id by (apply Z.div_pos; lia).
        rewrite Nat2Z.inj_pow. apply Z.div_lt_upper_bound; lia. }
      exists (Z.to_nat (top !!! 0%nat / 8)), (Z.to_nat (top !!! 0%nat)).
      rewrite Hn by lia. rewrite Nat2Z.id, HchildrenT.
      destruct (Hkeys (fl - 1)%nat ltac:(lia)) as [-> _].
      split; [done|]. split.
      - apply block_cells_elem. rewrite Hval by done.
        rewrite Z2Nat.id by (apply Z.div_pos; lia).
        split; [pose proof (Z.div_pos (top !!! 0%nat) 8); lia|].
        exists (Z.to_nat (top !!! 0%nat mod 8)).
        pose proof (Z.mod_pos_bound (top !!! 0%nat) 8 ltac:(lia)).
        pose proof (Z.div_mod (top !!! 0%nat) 8 ltac:(lia)).
        split; [lia|]. f_equal. lia.
      - rewrite Hlast, decide_True by lia.
        rewrite Hstored by lia. done. }
    destruct (Hlinked A ltac:(lia)) as [_ [Height _] Hchild Hblock _].
    destruct (Hblock 0%nat ltac:(lia)) as (s & Hs & Hv).
    destruct (Hchild s Hs) as (b & Hb & _ & _ & _ & k & Hk & Hint).
    { rewrite Hv. done. }
    assert (b = 0%nat) as -> by lia.
    exists s, k. rewrite Hn by lia. rewrite Nat2Z.id, HchildrenT.
    rewrite <- Hsame by lia. split; [done|]. split; [|done].
    apply block_cells_elem. split; [by rewrite Hv|].
    exists k. split; [done|]. rewrite Hv. lia.
  - intros e i He Hi Hint. rewrite Hn in Hi by lia.
    rewrite Nat2Z.id in Hi. rewrite HchildrenT in *.
    rewrite <- Hsame in Hi by lia.
    destruct (Hlinked e ltac:(lia)) as [_ _ Hchild _ _].
    destruct (Hchild i Hi Hint) as (b & Hb & _ & _ & _ & k & Hk & Hsome).
    exists (8 * b + k)%nat. split; [|done].
    apply block_cells_elem. split; [done|].
    exists k. split; [done|]. rewrite Hb. lia.
  - intros e idx He Hidx Hint. apply Herr; [done| |done].
    rewrite Hn in Hidx by lia. rewrite Nat2Z.id in Hidx.
    by rewrite HkeysT.
Qed.

(** ** The sample octree *)


Lemma sample_blocks :
  blocks_ok 8 16 (children_ sample_adaptive !!! 1%nat).
Proof.
  split.
  - intros i Hi Hint.
    do 2 (destruct i as [|i]; [vm_compute; split; [discriminate | lia]|]).
    do 6 (destruct i as [|i]; [by vm_compute in Hint|]). lia.
  - intros i i' Hi Hi' Hint Heq.
    do 2 (destruct i as [|i];
          [do 2 (destruct i' as [|i']; [done || by vm_compute in Heq|]);
           do 6 (destruct i' as [|i']; [by vm_compute in Heq|]); lia|]).
    do 6 (destruct i as [|i]; [by vm_compute in Hint|]). lia.
Qed.

Lemma sample_ready : trim_ready sample_adaptive 2 2.
Proof.
  split.
  - repeat split; lia.
  - vm_compute. lia.
  - by vm_compute.
  - intros e He. do 3 (destruct e as [|e]; [by vm_compute|]). lia.
  - intros e He. replace e with 2%nat by lia. exact sample_blocks.
  - exists 0%nat, 3%nat. split; [vm_compute; lia|]. split.
    + apply block_cells_elem. split; [by vm_compute|].
      exists 3%nat. split; [lia | by vm_compute].
    + by vm_compute.
  - intros e i He. lia.
  - intros e idx He Hidx _. replace e with 2%nat in * by lia.
    change (normal_err_ sample_adaptive !!! 2%nat)
      with (replicate 16 (FFin (2 ^ 215))).
    rewrite lookup_total_replicate_2; [by vm_compute|].
    by vm_compute in Hidx.
Qed.

(** C1 on the sample: every node of layer 2 passes the threshold, the
    second pass restores cell 3, and one non-empty node is counted. *)
Lemma trim_keeps_every_layer_sample :
  1 <= nnum_nempty (oct_info_ (trim_octree sample_adaptive)) 2.
Proof.
  apply (trim_keeps_every_layer sample_adaptive 2 2 2).
  - reflexivity.
  - exact sample_ready.
  - lia.
Defined.

(** The header of [sample_flat] is one that [check_format] accepts, and
    the octree has 64 nodes on its finest layer, none of them linked. *)
Lemma sample_flat_format :
  check_format (oct_info_ sample_flat) = (true, EmptyString)
  /\ nnum_ (oct_info_ sample_flat) !!! 2%nat = 64
  /\ children_ sample_flat !!! 2%nat = replicate 64 (-1).
Proof. by vm_compute. Qed.

(** C1, as the specification words it, fails on [sample_flat], where
    [depth = full_layer = adaptive_layer = 2]: [build_structure] links
    the finest layer only when [depth > full_layer], so layer 2 has no
    internal node that the second pass of [trim_octree] could restore,
    and [nnum_nempty[2]] is 0 after the trimming. *)
Lemma trimmed_layers_claim_fails : ~ trimmed_layers_claim sample_flat.
Proof.
  intros Hclaim.
  specialize (Hclaim eq_refl 2%nat ltac:(by vm_compute)).
  vm_compute in Hclaim. by apply Hclaim.
Qed.

(** C5 on the sample: cell 3 of the block of node 0 of layer 1 is flagged
    [kDropChildren] by the first pass. *)
Lemma first_pass_flags_sample :
  let t := sample_adaptive in
  let drop := flag_rounds t 0 in
  let pass :=
    generate_flags false (FFin 0) (FInf false) (children_ t !!! 2%nat)
      (normal_err_ t !!! 2%nat) (distance_err_ t !!! 2%nat) 8
      (children_ t !!! 1%nat) (drop !!! 1%nat) (drop !!! 2%nat) in
  pass.1 !!! 3%nat = kDropChildren.
Proof.
  destruct (first_pass_flags sample_adaptive 2 0 3) as [Hpass _].
  - simpl. lia.
  - simpl. lia.
  - exact sample_blocks.
  - vm_compute. lia.
  - by vm_compute.
  - lia.
  - exact Hpass.
Defined.

(** C8 on the sample: normals only, three channels, no displacement. *)
Lemma feature_layout_sample :
  serialize_features sample_adaptive !!! 2%nat
  = layer_features sample_adaptive 2
  /\ channels_ (initialize 1 2 8 16 32 2 1 false false false false 2
                  (FFin 0) (FFin 0) false sample_pts reset) !!! 3%nat = 3.
Proof.
  destruct (feature_layout 1 2 8 16 32 2 1 false false false false 2
              (FFin 0) (FFin 0) false sample_pts reset sample_adaptive 2)
    as (Hlayer & _ & Hchannel).
  - by vm_compute.
  - vm_compute. lia.
  - by vm_compute.
  - by vm_compute.
  - by vm_compute.
  - by vm_compute.
  - by vm_compute.
  - vm_compute. lia.
  - vm_compute. lia.
  - split; [exact Hlayer | exact Hchannel].
Defined.
(** * Further properties of the header *)

(** ** Validation *)

Lemma passes_property_spec (o : OctreeInfo) (i : nat) :
  passes_property o i = true
  <-> (channels_ o !!! i = 0
       <-> Z.testbit (content_flags_ o) (Z.of_nat i) = false)
      /\ (channels_ o !!! i <> 0 ->
          locations_ o !!! i = -1 \/ locations_ o !!! i = depth_ o).
Proof.
  unfold passes_property. rewrite land_bit_is_zero.
  destruct (Z.eqb_spec (channels_ o !!! i) 0) as [Hc|Hc],
    (Z.testbit (content_flags_ o) (Z.of_nat i)),
    (Z.eqb_spec (locations_ o !!! i) (-1)) as [Hl|Hl],
    (Z.eqb_spec (locations_ o !!! i) (depth_ o)) as [Hd|Hd];
    simpl; split; try done; intuition (done || lia).
Qed.

Lemma forallb_seq (f : nat -> bool) (n : nat) :
  forallb f (seq 0 n) = true <-> forall i, (i < n)%nat -> f i = true.
Proof.
  rewrite forallb_forall. split.
  - intros Hall i Hi. apply Hall, in_seq. lia.
  - intros Hall i Hi. apply in_seq in Hi. apply Hall. lia.
Qed.

(** X1.  [check_format] returns [true] exactly on the headers whose magic
    string is [kMagicStr], whose [batch_size_] is not negative, whose
    [depth_] lies in [1, 8], [full_layer_] in [0, depth_] and [adp_layer_]
    in [full_layer_, depth_], and whose six property slots each have a
    channel count that is zero exactly when the property's bit of
    [content_flags_] is clear and, when the count is not zero, a location
    that is [-1] or [depth_].  The flag is [true] exactly when no message
    is produced. *)
Theorem check_format_accepts_iff (o : OctreeInfo) :
  ((check_format o).1 = true
   <-> magic_str_ o = kMagicStr
       /\ 0 <= batch_size_ o
       /\ 1 <= depth_ o <= 8
       /\ 0 <= full_layer_ o <= depth_ o
       /\ full_layer_ o <= adp_layer_ o <= depth_ o
       /\ forall i, (i < kPTypeNum)%nat ->
            (channels_ o !!! i = 0
             <-> Z.testbit (content_flags_ o) (Z.of_nat i) = false)
            /\ (channels_ o !!! i <> 0 ->
                locations_ o !!! i = -1 \/ locations_ o !!! i = depth_ o))
  /\ ((check_format o).2 = EmptyString <-> (check_format o).1 = true).
Proof.
  split.
  - rewrite check_format_flag, !andb_true_iff, forallb_seq, String.eqb_eq,
      !Z.leb_le.
    split.
    + intros (((((Hm & Hb) & Hd) & Hf) & Ha) & Hp).
      repeat split; try done; try lia; by apply passes_property_spec, Hp.
    + intros (Hm & Hb & Hd & Hf & Ha & Hp).
      repeat split; try done; try lia.
      intros i Hi. by apply passes_property_spec, Hp.
  - unfold check_format. cbn [fst snd]. by split; intros ?%String.eqb_eq.
Qed.

(** ** Channels, locations and the content flags *)

Lemma testbit_set_bit (f : Z) (k j : nat) :
  Z.testbit (Z.lor f (Z.shiftl 1 (Z.of_nat k))) (Z.of_nat j)
  = Z.testbit f (Z.of_nat j) || bool_decide (j = k).
Proof.
  rewrite Z.lor_spec, Z.shiftl_1_l. f_equal.
  case_bool_decide as Hjk.
  - subst j. apply Z.pow2_bits_true. lia.
  - apply Z.pow2_bits_false. lia.
Qed.

Lemma testbit_clear_bit (f : Z) (k j : nat) :
  Z.testbit (Z.land f (Z.lnot (Z.shiftl 1 (Z.of_nat k)))) (Z.of_nat j)
  = Z.testbit f (Z.of_nat j) && negb (bool_decide (j = k)).
Proof.
  rewrite Z.land_spec, Z.lnot_spec, Z.shiftl_1_l by lia. do 2 f_equal.
  case_bool_decide as Hjk.
  - subst j. apply Z.pow2_bits_true. lia.
  - apply Z.pow2_bits_false. lia.
Qed.

Lemma present_set_channel (o : OctreeInfo) (k j : nat) (ch : Z) :
  present (set_channel (Z.shiftl 1 (Z.of_nat k)) ch o) j
  = if decide (j = k) then 0 <? ch else present o j.
Proof.
  unfold present, set_channel.
  destruct (0 <? ch); cbn [content_flags_ with_content_flags with_channels].
  - rewrite testbit_set_bit. case_decide.
    + rewrite bool_decide_true by done. apply orb_true_r.
    + rewrite bool_decide_false by done. apply orb_false_r.
  - rewrite testbit_clear_bit. case_decide.
    + rewrite bool_decide_true by done. apply andb_false_r.
    + rewrite bool_decide_false by done. apply andb_true_r.
Qed.

Lemma channels_set_channel (o : OctreeInfo) (k j : nat) (ch : Z) :
  (k < kPTypeNum)%nat -> (k < length (channels_ o))%nat ->
  channels_ (set_channel (Z.shiftl 1 (Z.of_nat k)) ch o) !!! j
  = if decide (j = k) then Z.max 0 ch else channels_ o !!! j.
Proof.
  intros Hk Hlen. rewrite set_channel_channels, property_index_bit by done.
  case_decide as Hjk.
  - subst j. rewrite list_lookup_total_insert_eq by done.
    destruct (Z.ltb_spec 0 ch); lia.
  - by rewrite list_lookup_total_insert_ne.
Qed.

(** X2.  Reading back a channel count: after [set_channel] on the
    property of bit [k], [channel] returns the count that was stored, or 0
    when the count was not positive, and [has_property] tells the two
    cases apart; the channel count and the presence of every other
    property are unchanged. *)
Theorem channel_set_channel (o : OctreeInfo) (k j : nat) (ch : Z) :
  (k < kPTypeNum)%nat -> (j < kPTypeNum)%nat ->
  (kPTypeNum <= length (channels_ o))%nat ->
  let p := Z.shiftl 1 (Z.of_nat k) in
  let q := Z.shiftl 1 (Z.of_nat j) in
  channel (set_channel p ch o) p = Z.max 0 ch
  /\ has_property (set_channel p ch o) p = (0 <? ch)
  /\ (j <> k ->
      channel (set_channel p ch o) q = channel o q
      /\ has_property (set_channel p ch o) q = has_property o q).
Proof.
  intros Hk Hj Hlen p q. unfold channel, p, q.
  rewrite !has_property_bit, !present_set_channel, !property_index_bit by done.
  rewrite !channels_set_channel by lia.
  rewrite !decide_True by done.
  split; [|split; [done|]].
  - destruct (Z.ltb_spec 0 ch); simpl; lia.
  - intros Hne. by rewrite !decide_False by done.
Qed.

Lemma channel_set_channel_sample :
  channel (set_channel 8 3 reset) 8 = 3
  /\ has_property (set_channel 8 3 reset) 8 = true
  /\ (0%nat <> 3%nat ->
      channel (set_channel 8 3 reset) 1 = channel reset 1
      /\ has_property (set_channel 8 3 reset) 1 = has_property reset 1).
Proof.
  apply (channel_set_channel reset 3 0 3).
  - unfold kPTypeNum. lia.
  - unfold kPTypeNum. lia.
  - simpl. unfold kPTypeNum. lia.
Defined.

Lemma set_channel_keeps_flags_aux (o : OctreeInfo) (k : nat) (ch : Z) :
  (k < kPTypeNum)%nat -> (kPTypeNum <= length (channels_ o))%nat ->
  flags_agree o ->
  flags_agree (set_channel (Z.shiftl 1 (Z.of_nat k)) ch o).
Proof.
  intros Hk Hlen Hagree j Hj.
  rewrite present_set_channel, channels_set_channel by lia.
  case_decide as Hjk; [|by apply Hagree].
  destruct (Z.ltb_spec 0 ch); simpl.
  - apply Z.eqb_neq. lia.
  - apply Z.eqb_eq. lia.
Qed.

(** X3.  [set_channel] and [set_property] keep [content_flags_]
    consistent with [channels_], whatever the count: if every slot is
    zero exactly when its bit is clear, the same holds afterwards. *)
Theorem set_channel_keeps_flags (o : OctreeInfo) (k : nat) (ch lc : Z) :
  (k < kPTypeNum)%nat -> (kPTypeNum <= length (channels_ o))%nat ->
  flags_agree o ->
  flags_agree (set_channel (Z.shiftl 1 (Z.of_nat k)) ch o)
  /\ flags_agree (set_property (Z.shiftl 1 (Z.of_nat k)) ch lc o).
Proof.
  intros Hk Hlen Hagree.
  split; by apply set_channel_keeps_flags_aux.
Qed.

Lemma reset_flags_agree : flags_agree reset.
Proof.
  intros k Hk. unfold kPTypeNum in Hk.
  do 6 (destruct k as [|k]; [by vm_compute|]). lia.
Qed.

Lemma set_channel_keeps_flags_sample :
  flags_agree (set_channel 8 3 reset)
  /\ flags_agree (set_property 8 3 (-1) reset).
Proof.
  apply (set_channel_keeps_flags reset 3 3 (-1)).
  - unfold kPTypeNum. lia.
  - simpl. unfold kPTypeNum. lia.
  - exact reset_flags_agree.
Defined.

Lemma locations_set_location (o : OctreeInfo) (k j : nat) (lc : Z) :
  (k < kPTypeNum)%nat -> (k < length (locations_ o))%nat ->
  locations_ (set_location (Z.shiftl 1 (Z.of_nat k)) lc o) !!! j
  = if decide (j = k) then lc else locations_ o !!! j.
Proof.
  intros Hk Hlen. unfold set_location. cbn [locations_ with_locations].
  rewrite property_index_bit by done. case_decide as Hjk.
  - subst j. by rewrite list_lookup_total_insert_eq.
  - by rewrite list_lookup_total_insert_ne.
Qed.

(** X4.  [set_property] stores a channel count and a location together:
    when the count is positive, [locations] reads the location back; when
    it is not, the property is absent and [locations] returns 0, whatever
    was stored.  The location of every other property is unchanged. *)
Theorem locations_set_property (o : OctreeInfo) (k j : nat) (ch lc : Z) :
  (k < kPTypeNum)%nat -> (j < kPTypeNum)%nat ->
  (kPTypeNum <= length (channels_ o))%nat ->
  (kPTypeNum <= length (locations_ o))%nat ->
  let p := Z.shiftl 1 (Z.of_nat k) in
  let q := Z.shiftl 1 (Z.of_nat j) in
  locations (set_property p ch lc o) p = (if 0 <? ch then lc else 0)
  /\ channel (set_property p ch lc o) p = Z.max 0 ch
  /\ (j <> k -> locations (set_property p ch lc o) q = locations o q).
Proof.
  intros Hk Hj Hc Hl p q. unfold locations, channel, set_property, p, q.
  rewrite !has_property_bit, !property_index_bit by done.
  replace (present (set_location (Z.shiftl 1 (Z.of_nat k)) lc
                      (set_channel (Z.shiftl 1 (Z.of_nat k)) ch o)))
    with (present (set_channel (Z.shiftl 1 (Z.of_nat k)) ch o)) by done.
  replace (channels_ (set_location (Z.shiftl 1 (Z.of_nat k)) lc
                        (set_channel (Z.shiftl 1 (Z.of_nat k)) ch o)))
    with (channels_ (set_channel (Z.shiftl 1 (Z.of_nat k)) ch o)) by done.
  rewrite !present_set_channel, !channels_set_channel by lia.
  destruct (set_channel_scalars (Z.shiftl 1 (Z.of_nat k)) ch o)
    as (_ & _ & _ & Hloc).
  rewrite !locations_set_location by (rewrite ?Hloc; lia).
  rewrite Hloc.
  rewrite !decide_True by done.
  split; [|split].
  - by destruct (0 <? ch).
  - destruct (Z.ltb_spec 0 ch); simpl; lia.
  - intros Hne. by rewrite !decide_False by done.
Qed.

Lemma locations_set_property_sample :
  locations (set_property 8 0 2 reset) 8 = 0
  /\ channel (set_property 8 0 2 reset) 8 = 0
  /\ (0%nat <> 3%nat ->
      locations (set_property 8 0 2 reset) 1 = locations reset 1).
Proof.
  apply (locations_set_property reset 3 0 0 2).
  - unfold kPTypeNum. lia.
  - unfold kPTypeNum. lia.
  - simpl. unfold kPTypeNum. lia.
  - simpl. unfold kPTypeNum. lia.
Defined.

(** ** A header made by [initialize] *)

Lemma set_channel_header (ptype ch : Z) (o : OctreeInfo) :
  magic_str_ (set_channel ptype ch o) = magic_str_ o
  /\ adp_layer_ (set_channel ptype ch o) = adp_layer_ o.
Proof. unfold set_channel. by destruct (0 <? ch). Qed.

Section InitializeValid.

Variable D : Z.

(** The slots of a header are sound for depth [D]: six of each, flags
    and counts consistent, and every stored location [-1] or [D]. *)
Let sound (o : OctreeInfo) : Prop :=
  length (channels_ o) = kPTypeNum /\ length (locations_ o) = kPTypeNum
  /\ flags_agree o
  /\ forall k, (k < kPTypeNum)%nat -> channels_ o !!! k <> 0 ->
       locations_ o !!! k = -1 \/ locations_ o !!! k = D.

Lemma sound_set_property (o : OctreeInfo) (k : nat) (ch lc : Z) :
  (k < kPTypeNum)%nat -> lc = -1 \/ lc = D -> sound o ->
  sound (set_location (Z.shiftl 1 (Z.of_nat k)) lc
           (set_channel (Z.shiftl 1 (Z.of_nat k)) ch o)).
Proof.
  intros Hk Hlc (Hc & Hl & Hagree & Hloc).
  destruct (set_channel_scalars (Z.shiftl 1 (Z.of_nat k)) ch o)
    as (_ & _ & _ & Hsame).
  split; [|split; [|split]].
  - change (length (channels_ (set_channel (Z.shiftl 1 (Z.of_nat k)) ch o))
            = kPTypeNum).
    by rewrite set_channel_size.
  - unfold set_location. cbn [locations_ with_locations].
    by rewrite length_insert, Hsame.
  - change (flags_agree (set_channel (Z.shiftl 1 (Z.of_nat k)) ch o)).
    apply set_channel_keeps_flags_aux; [done | lia | done].
  - intros j Hj.
    change (channels_ (set_channel (Z.shiftl 1 (Z.of_nat k)) ch o) !!! j <> 0
            -> locations_ (set_location (Z.shiftl 1 (Z.of_nat k)) lc
                             (set_channel (Z.shiftl 1 (Z.of_nat k)) ch o))
                 !!! j = -1
               \/ locations_ (set_location (Z.shiftl 1 (Z.of_nat k)) lc
                                (set_channel (Z.shiftl 1 (Z.of_nat k)) ch o))
                    !!! j = D).
    rewrite channels_set_channel, locations_set_location
      by (rewrite ?Hsame; lia).
    rewrite Hsame. case_decide; [done|]. by apply Hloc.
Qed.

Lemma sound_scalars (o o' : OctreeInfo) :
  channels_ o' = channels_ o -> locations_ o' = locations_ o ->
  content_flags_ o' = content_flags_ o -> sound o -> sound o'.
Proof.
  intros Hc Hl Hf (Hc' & Hl' & Hagree & Hloc).
  unfold sound, flags_agree, present in *. rewrite Hc, Hl, Hf. done.
Qed.

Variables (a b c l s : nat).
Hypothesis key_bit : (a < kPTypeNum)%nat.
Hypothesis child_bit : (b < kPTypeNum)%nat.
Hypothesis feature_bit : (c < kPTypeNum)%nat.
Hypothesis label_bit : (l < kPTypeNum)%nat.
Hypothesis split_bit : (s < kPTypeNum)%nat.

Lemma initialize_sound full_depth nd nf sl ad adp thd thn k2x pt o :
  sound o ->
  sound (initialize (Z.shiftl 1 (Z.of_nat a)) (Z.shiftl 1 (Z.of_nat b))
           (Z.shiftl 1 (Z.of_nat c)) (Z.shiftl 1 (Z.of_nat l))
           (Z.shiftl 1 (Z.of_nat s)) D full_depth nd nf sl ad adp thd thn
           k2x pt o).
Proof using All.
  intros Hsound. unfold initialize.
  assert (forall x : bool, (if x then -1 else D) = -1 \/ (if x then -1 else D) = D)
    as Hlc by (intros []; auto).
  destruct (PtsInfo.channel pt PtsInfo.kLabel =? 1), sl;
    repeat (apply sound_set_property; [done | by auto |]);
    by apply (sound_scalars o).
Qed.

End InitializeValid.

Lemma set_location_header (ptype lc : Z) (o : OctreeInfo) :
  magic_str_ (set_location ptype lc o) = magic_str_ o
  /\ adp_layer_ (set_location ptype lc o) = adp_layer_ o.
Proof. done. Qed.

Lemma initialize_header (kKey kChild kFeature kLabel kSplit : Z)
    depth full_depth nd nf sl ad adp thd thn k2x pt o :
  let o' := initialize kKey kChild kFeature kLabel kSplit depth full_depth
              nd nf sl ad adp thd thn k2x pt o in
  magic_str_ o' = magic_str_ o /\ adp_layer_ o' = adp.
Proof.
  unfold initialize.
  destruct (PtsInfo.channel pt PtsInfo.kLabel =? 1), sl;
    repeat first
      [ rewrite (proj1 (set_channel_header _ _ _))
      | rewrite (proj2 (set_channel_header _ _ _))
      | rewrite (proj1 (set_location_header _ _ _))
      | rewrite (proj2 (set_location_header _ _ _)) ];
    done.
Qed.

(** X6.  A header that [initialize] fills in from a [reset] one passes
    [check_format] exactly when the arguments are in range: the depth in
    [1, 8], the full depth at most the depth, and the adaptive depth
    between the full layer ([full_depth], or 1 when that is smaller) and
    the depth.  Its property slots are always found consistent; in
    particular a depth below the full depth yields a header that
    [check_format] rejects. *)
Theorem initialize_check_format (a b c l s : nat) (depth full_depth : Z)
    (nd nf sl ad : bool) (adp : Z) (thd thn : float) (k2x : bool)
    (pt : PtsInfo.t) :
  (a < kPTypeNum)%nat -> (b < kPTypeNum)%nat -> (c < kPTypeNum)%nat ->
  (l < kPTypeNum)%nat -> (s < kPTypeNum)%nat ->
  let o' :=
    initialize (Z.shiftl 1 (Z.of_nat a)) (Z.shiftl 1 (Z.of_nat b))
      (Z.shiftl 1 (Z.of_nat c)) (Z.shiftl 1 (Z.of_nat l))
      (Z.shiftl 1 (Z.of_nat s)) depth full_depth nd nf sl ad adp thd thn
      k2x pt reset in
  (check_format o').1 = true
  <-> 1 <= depth <= 8 /\ full_depth <= depth
      /\ Z.max 1 full_depth <= adp <= depth.
Proof.
  intros Ha Hb Hc Hl Hs o'.
  destruct (initialize_scalars (Z.shiftl 1 (Z.of_nat a))
              (Z.shiftl 1 (Z.of_nat b)) (Z.shiftl 1 (Z.of_nat c))
              (Z.shiftl 1 (Z.of_nat l)) (Z.shiftl 1 (Z.of_nat s))
              depth full_depth nd nf sl ad adp thd thn k2x pt reset)
    as (Hbatch & Hfull & Hdepth).
  destruct (initialize_header (Z.shiftl 1 (Z.of_nat a))
              (Z.shiftl 1 (Z.of_nat b)) (Z.shiftl 1 (Z.of_nat c))
              (Z.shiftl 1 (Z.of_nat l)) (Z.shiftl 1 (Z.of_nat s))
              depth full_depth nd nf sl ad adp thd thn k2x pt reset)
    as (Hmagic & Hadp).
  pose proof (initialize_sound depth a b c l s Ha Hb Hc Hl Hs full_depth
                nd nf sl ad adp thd thn k2x pt reset) as Hsound.
  fold o' in Hbatch, Hfull, Hdepth, Hmagic, Hadp, Hsound.
  cbn [full_layer_ reset] in Hdepth.
  destruct Hsound as (_ & _ & Hagree & Hloc).
  { repeat split; try done; [exact reset_flags_agree|].
    intros k Hk. unfold kPTypeNum in Hk.
    do 6 (destruct k as [|k]; [by vm_compute|]). lia. }
  rewrite check_format_flag, !andb_true_iff, forallb_seq, String.eqb_eq,
    !Z.leb_le.
  rewrite Hbatch, Hfull, Hdepth, Hmagic, Hadp.
  split.
  - intros (((((_ & _) & Hd) & Hf) & Had) & _).
    destruct (Z.ltb_spec 0 depth), (Z.ltb_spec full_depth 1); lia.
  - intros (Hd & Hf & Had).
    assert ((if 0 <? depth then depth else 0) = depth) as Hdd
      by (destruct (Z.ltb_spec 0 depth); lia).
    rewrite Hdd.
    repeat split; try done; try (destruct (Z.ltb_spec full_depth 1); lia).
    intros k Hk. apply passes_property_spec. rewrite Hdepth, Hdd. split.
    + pose proof (Hagree k Hk) as Hk'. unfold present in Hk'.
      destruct (Z.testbit (content_flags_ o') (Z.of_nat k));
        simpl in Hk'; [apply Z.eqb_neq in Hk' | apply Z.eqb_eq in Hk'];
        split; (done || lia).
    + by apply Hloc.
Qed.

Lemma initialize_check_format_sample :
  (check_format
     (initialize 1 2 8 16 32 2 1 false false false false 2 (FFin 0)
        (FFin 0) false sample_pts reset)).1 = true
  <-> 1 <= 2 <= 8 /\ 1 <= 2 /\ Z.max 1 1 <= 2 <= 2.
Proof.
  apply (initialize_check_format 0 1 3 4 5 2 1 false false false false 2
           (FFin 0) (FFin 0) false sample_pts);
    unfold kPTypeNum; lia.
Defined.

(** ** Cumulative node counts and layer offsets *)

Lemma prefix_sum_S (g : nat -> Z) (k : nat) :
  prefix_sum g (S k) = prefix_sum g k + g k.
Proof. done. Qed.

Lemma set_nnum_cum_lookup (o : OctreeInfo) (capacity : Z) :
  0 <= depth_ o <= 13 -> length (nnum_cum_ o) = 16%nat ->
  Forall (fun n => 0 <= n) (nnum_ o) -> total_nodes o < 2 ^ 31 ->
  let cum := nnum_cum_ (set_nnum_cum capacity o) in
  length cum = 16%nat
  /\ (forall d, (d <= Z.to_nat (depth_ o + 1))%nat ->
        cum !!! d = prefix_sum (fun e => nnum_ o !!! e) d)
  /\ cum !!! Z.to_nat (depth_ o + 2) = Z.max capacity (total_nodes o).
Proof.
  intros Hdepth Hsize Hnnum Hfit. unfold set_nnum_cum.
  cbn [nnum_cum_ with_nnum_cum].
  replace (Z.to_nat (depth_ o + 2)) with (S (Z.to_nat (depth_ o + 1))) by lia.
  remember (Z.to_nat (depth_ o + 1)) as top eqn:Htop.
  assert (total_nodes o = prefix_sum (fun d => nnum_ o !!! d) top) as Htot
    by (by rewrite Htop).
  destruct (foldl_accumulate (fun d => nnum_ o !!! d)
              (<[0%nat := 0]> (nnum_cum_ o)) top) as (Hlen & Hle & _).
  - rewrite length_insert. lia.
  - intros e. by apply lookup_total_nonneg.
  - rewrite list_lookup_total_insert_eq; lia.
  - rewrite list_lookup_total_insert_eq by lia. lia.
  - rewrite length_insert in Hlen.
    rewrite list_lookup_total_insert_eq in Hle by lia.
    split; [|split].
    + by rewrite length_insert, Hlen.
    + intros d Hd. rewrite list_lookup_total_insert_ne by lia.
      rewrite Hle by lia. lia.
    + rewrite list_lookup_total_insert_eq by lia.
      rewrite Hle by lia. rewrite <- Htot, Z.add_0_l.
      destruct (Z.ltb_spec (total_nodes o) capacity); lia.
Qed.

(** X7.  [set_nnum_cum] leaves in [nnum_cum_[d]] the number of nodes of
    the layers above [d], for every [d] up to [depth_ + 1]: the entries
    start at 0, never decrease and end with the node count of the whole
    octree; the cell after them holds the larger of that count and the
    requested capacity. *)
Theorem set_nnum_cum_sums (o : OctreeInfo) (capacity : Z) (d : nat) :
  0 <= depth_ o <= 13 -> length (nnum_cum_ o) = 16%nat ->
  Forall (fun n => 0 <= n) (nnum_ o) -> total_nodes o < 2 ^ 31 ->
  (d <= Z.to_nat (depth_ o))%nat ->
  let o' := set_nnum_cum capacity o in
  nnum_cum_ o' !!! 0%nat = 0
  /\ nnum_cum_ o' !!! S d = nnum_cum_ o' !!! d + nnum_ o !!! d
  /\ nnum_cum_ o' !!! d <= nnum_cum_ o' !!! S d <= total_nnum o'
  /\ total_nnum o' = total_nodes o
  /\ total_nnum_capacity o' = Z.max capacity (total_nodes o).
Proof.
  intros Hdepth Hsize Hnnum Hfit Hd o'.
  destruct (set_nnum_cum_lookup o capacity Hdepth Hsize Hnnum Hfit)
    as (_ & Hcum & Hcap).
  fold o' in Hcum, Hcap.
  unfold total_nnum, total_nnum_capacity.
  replace (depth_ o') with (depth_ o) by done.
  rewrite Hcap, !Hcum by lia.
  pose proof (lookup_total_nonneg (nnum_ o) d Hnnum).
  pose proof (prefix_sum_mono (fun e => nnum_ o !!! e) (S d)
                (Z.to_nat (depth_ o + 1))
                (fun e => lookup_total_nonneg (nnum_ o) e Hnnum)
                ltac:(lia)) as Hmono.
  rewrite prefix_sum_S in *. cbn [prefix_sum].
  repeat split; (done || lia).
Qed.

Lemma set_nnum_cum_sums_sample :
  let o' := set_nnum_cum 0 sample_info in
  nnum_cum_ o' !!! 0%nat = 0
  /\ nnum_cum_ o' !!! 2%nat = nnum_cum_ o' !!! 1%nat + nnum_ sample_info !!! 1%nat
  /\ nnum_cum_ o' !!! 1%nat <= nnum_cum_ o' !!! 2%nat <= total_nnum o'
  /\ total_nnum o' = total_nodes sample_info
  /\ total_nnum_capacity o' = Z.max 0 (total_nodes sample_info).
Proof.
  apply (set_nnum_cum_sums sample_info 0 1).
  - simpl. lia.
  - reflexivity.
  - vm_compute. repeat constructor; discriminate.
  - vm_compute. reflexivity.
  - simpl. lia.
Defined.

Section LayerOffsets.

Variables (o : OctreeInfo) (capacity : Z).

Hypothesis depth_range : 0 <= depth_ o <= 13.
Hypothesis nnum_cum_size : length (nnum_cum_ o) = 16%nat.
Hypothesis ptr_dis_size : length (ptr_dis_ o) = 8%nat.
Hypothesis nnum_counts : Forall (fun n => 0 <= n) (nnum_ o).
Hypothesis channels_counts : Forall (fun c => 0 <= c) (channels_ o).
Hypothesis flags_consistent : flags_agree o.
Hypothesis nodes_fit : total_nodes o < 2 ^ 31.
Hypothesis bytes_fit :
  sizeof_OctreeInfo + prefix_sum (reserved_bytes o capacity) kPTypeNum
  < 2 ^ 31.

Let o' := set_ptr_dis (set_nnum_cum capacity o).

(** X5.  The accessor [ptr_dis] on a header whose counts and offsets
    were set by [set_nnum_cum], with any capacity, and [set_ptr_dis]: for
    a property that is absent it returns [-1]; for a property stored on
    one layer it returns the start of the property's block, whatever the
    depth asked for; for a property stored on every layer it returns the
    start of the block plus 4 bytes per channel for each node of the
    layers above.  So layer 0 starts the block, the offset asked for
    [depth_ + 2] is the start of the next block, and the offset asked for
    [depth_ + 1], the end of the last layer, is not beyond it, and is the
    start of the next block when the capacity is not above the node
    count. *)
Theorem ptr_dis_layers (K d : nat) :
  (K < kPTypeNum)%nat -> (d <= Z.to_nat (depth_ o + 1))%nat ->
  let p := Z.shiftl 1 (Z.of_nat K) in
  ptr_dis o' p (Z.of_nat d)
  = (if negb (present o K) then -1
     else if locations_ o !!! K =? -1
          then ptr_dis_ o' !!! K
               + 4 * channels_ o !!! K * prefix_sum (fun e => nnum_ o !!! e) d
          else ptr_dis_ o' !!! K)
  /\ (present o K = true -> locations_ o !!! K = -1 ->
      ptr_dis o' p 0 = ptr_dis_ o' !!! K
      /\ ptr_dis o' p (depth_ o + 1) <= ptr_dis_ o' !!! S K
      /\ ptr_dis o' p (depth_ o + 2) = ptr_dis_ o' !!! S K
      /\ (capacity <= total_nodes o ->
          ptr_dis o' p (depth_ o + 1) = ptr_dis_ o' !!! S K)).
Proof using All.
  intros HK Hd p.
  destruct (set_nnum_cum_lookup o capacity depth_range nnum_cum_size
              nnum_counts nodes_fit) as (_ & Hcum & Hcap).
  pose proof (set_ptr_dis_prefix o capacity depth_range nnum_cum_size
                ptr_dis_size nnum_counts channels_counts
                flags_consistent nodes_fit bytes_fit) as Hptr.
  fold o' in Hptr.
  pose proof (reserved_bytes_nonneg o capacity depth_range nnum_cum_size
                ptr_dis_size nnum_counts channels_counts
                flags_consistent nodes_fit bytes_fit) as Hbytes.
  assert (forall e, 0 <= nnum_ o !!! e) as Hnn
    by (intros e; by apply lookup_total_nonneg).
  assert (0 <= channels_ o !!! K) as Hch by (by apply lookup_total_nonneg).
  assert (0 <= total_nodes o) as Htot0 by (by apply prefix_sum_nonneg).
  assert (0 < sizeof_OctreeInfo) as Hsz by (by vm_compute).
  assert (locations_ o !!! K = -1 ->
          reserved_bytes o capacity K
          = 4 * channels_ o !!! K * Z.max capacity (total_nodes o)
          /\ 0 <= prefix_sum (reserved_bytes o capacity) K
          /\ sizeof_OctreeInfo + prefix_sum (reserved_bytes o capacity) K
               + 4 * channels_ o !!! K * Z.max capacity (total_nodes o)
             < 2 ^ 31) as Hroom.
  { intros Hloc.
    assert (reserved_bytes o capacity K
            = 4 * channels_ o !!! K * Z.max capacity (total_nodes o))
      as HbK.
    { unfold reserved_bytes, reserved_nodes. rewrite Hloc. done. }
    assert (prefix_sum (reserved_bytes o capacity) (S K)
            <= prefix_sum (reserved_bytes o capacity) kPTypeNum) as Hle.
    { apply prefix_sum_mono; [done | lia]. }
    pose proof (prefix_sum_nonneg (reserved_bytes o capacity) K Hbytes).
    rewrite prefix_sum_S, HbK in Hle. lia. }
  assert (forall e, (e <= Z.to_nat (depth_ o + 1))%nat ->
            ptr_dis o' p (Z.of_nat e)
            = (if negb (present o K) then -1
               else if locations_ o !!! K =? -1
                    then ptr_dis_ o' !!! K
                         + 4 * channels_ o !!! K
                           * prefix_sum (fun e => nnum_ o !!! e) e
                    else ptr_dis_ o' !!! K)) as Hall.
  { intros e He. unfold ptr_dis, locations, channel, p.
    rewrite has_property_bit, property_index_bit by done.
    replace (present o' K) with (present o K) by done.
    destruct (present o K) eqn:Hpresent; [|done]. cbn [negb].
    replace (locations_ o') with (locations_ o) by done.
    replace (channels_ o') with (channels_ o) by done.
    destruct (Z.eqb_spec (locations_ o !!! K) (-1)) as [Hloc|Hloc]; [|done].
    replace (nnum_cum_ o') with (nnum_cum_ (set_nnum_cum capacity o)) by done.
    rewrite Nat2Z.id, Hcum by done.
    pose proof (prefix_sum_nonneg (fun e => nnum_ o !!! e) e Hnn) as H0.
    pose proof (prefix_sum_mono (fun e => nnum_ o !!! e) e
                  (Z.to_nat (depth_ o + 1)) Hnn He) as Hmono.
    fold (total_nodes o) in Hmono.
    destruct (Hroom Hloc) as (_ & HK0 & Hfit).
    rewrite Hptr by lia.
    assert (0 <= prefix_sum (fun e => nnum_ o !!! e) e * channels_ o !!! K
            <= channels_ o !!! K * Z.max capacity (total_nodes o))
      as Hprod by nia.
    rewrite (wrap_int_small (_ * _)) by lia.
    rewrite wrap_int_small; lia. }
  split; [by apply Hall|].
  intros Hpresent Hloc.
  pose proof (Hall 0%nat ltac:(lia)) as H0.
  pose proof (Hall (Z.to_nat (depth_ o + 1)) ltac:(lia)) as Htop.
  rewrite Hpresent in H0, Htop. cbn [negb] in H0, Htop.
  rewrite Hloc in H0, Htop. cbn [Z.eqb Pos.eqb] in H0, Htop.
  change (Z.of_nat 0) with 0 in H0. rewrite Z2Nat.id in Htop by lia.
  destruct (Hroom Hloc) as (HbK & HK0 & Hfit).
  assert (ptr_dis_ o' !!! S K
          = ptr_dis_ o' !!! K
            + 4 * channels_ o !!! K * Z.max capacity (total_nodes o))
    as Hnext.
  { rewrite !Hptr by lia. rewrite prefix_sum_S, HbK. lia. }
  fold (total_nodes o) in Htop.
  split; [|split; [|split]].
  - rewrite H0. cbn [prefix_sum]. lia.
  - rewrite Htop, Hnext. nia.
  - rewrite Hnext. unfold ptr_dis, locations, channel, p.
    rewrite has_property_bit, property_index_bit by done.
    replace (present o' K) with (present o K) by done.
    rewrite Hpresent. cbn [negb].
    replace (locations_ o') with (locations_ o) by done.
    replace (channels_ o') with (channels_ o) by done.
    rewrite Hloc. cbn [Z.eqb Pos.eqb].
    replace (nnum_cum_ o') with (nnum_cum_ (set_nnum_cum capacity o)) by done.
    rewrite Hcap.
    rewrite Hptr by lia.
    assert (0 <= Z.max capacity (total_nodes o) * channels_ o !!! K) by nia.
    rewrite (wrap_int_small (_ * _)) by lia.
    rewrite wrap_int_small; lia.
  - intros Hsmall. rewrite Htop, Hnext.
    rewrite Z.max_r by done. done.
Qed.

End LayerOffsets.

Lemma sample_flags_agree : flags_agree sample_info.
Proof.
  intros k Hk. unfold kPTypeNum in Hk.
  do 6 (destruct k as [|k]; [reflexivity|]). lia.
Qed.

Lemma ptr_dis_layers_sample :
  let o' := set_ptr_dis (set_nnum_cum 100 sample_info) in
  ptr_dis o' 1 (Z.of_nat 2)
  = (if negb (present sample_info 0) then -1
     else if locations_ sample_info !!! 0%nat =? -1
          then ptr_dis_ o' !!! 0%nat
               + 4 * channels_ sample_info !!! 0%nat
                 * prefix_sum (fun e => nnum_ sample_info !!! e) 2
          else ptr_dis_ o' !!! 0%nat)
  /\ (present sample_info 0 = true -> locations_ sample_info !!! 0%nat = -1 ->
      ptr_dis o' 1 0 = ptr_dis_ o' !!! 0%nat
      /\ ptr_dis o' 1 (depth_ sample_info + 1) <= ptr_dis_ o' !!! 1%nat
      /\ ptr_dis o' 1 (depth_ sample_info + 2) = ptr_dis_ o' !!! 1%nat
      /\ (100 <= total_nodes sample_info ->
          ptr_dis o' 1 (depth_ sample_info + 1) = ptr_dis_ o' !!! 1%nat)).
Proof.
  refine (ptr_dis_layers sample_info 100 _ _ _ _ _ _ _ _
            0%nat 2%nat _ _).
  - simpl. lia.
  - reflexivity.
  - reflexivity.
  - apply (bool_decide_unpack _). by vm_compute.
  - apply (bool_decide_unpack _). by vm_compute.
  - exact sample_flags_agree.
  - by vm_compute.
  - by vm_compute.
  - unfold kPTypeNum. lia.
  - simpl. lia.
Defined.

(** * Further properties of the key stages *)

(** ** Sorting the points *)

Lemma lor_high (b r n : Z) :
  0 <= n -> 0 <= r < 2 ^ n -> Z.lor (b * 2 ^ n) r = b * 2 ^ n + r.
Proof.
  intros Hn Hr. symmetry. apply Z.add_nocarry_lor.
  apply Z.bits_inj'. intros m Hm. rewrite Z.land_spec, Z.bits_0.
  destruct (decide (m < n)) as [Hlow|Hhigh].
  - by rewrite Z.mul_pow2_bits_low.
  - assert (Z.testbit r m = false) as ->; [|apply andb_false_r].
    destruct (decide (r = 0)) as [->|Hr0]; [apply Z.bits_0|].
    apply Z.bits_above_log2; [lia|].
    assert (Z.log2 r < n); [|lia]. apply Z.log2_lt_pow2; lia.
Qed.

Lemma pack_code_parts (key : Z) (i : nat) :
  Z.of_nat i < 2 ^ 32 ->
  pack_code key i = wrap_uint32 key * 2 ^ 32 + Z.of_nat i
  /\ Z.shiftr (pack_code key i) 32 = wrap_uint32 key
  /\ Z.land (pack_code key i) (2 ^ 32 - 1) = Z.of_nat i.
Proof.
  intros Hi. unfold pack_code.
  rewrite (wrap_uint32_small (Z.of_nat i)) by lia.
  rewrite Z.shiftl_mul_pow2 by done.
  rewrite lor_high by lia.
  assert (0 <= wrap_uint32 key < 2 ^ 32) as Hk
    by (apply Z.mod_pos_bound; lia).
  split; [done|]. split.
  - rewrite Z.shiftr_div_pow2 by done.
    symmetry. apply (Z.div_unique _ _ _ (Z.of_nat i)); lia.
  - change (2 ^ 32 - 1) with (Z.ones 32). rewrite Z.land_ones by done.
    symmetry. apply (Z.mod_unique _ _ (wrap_uint32 key)); lia.
Qed.

Lemma imap_seq_lookup {A B} `{Inhabited A} (f : nat -> A -> B) (l : list A) :
  imap f l = (fun i => f i (l !!! i)) <$> seq 0 (length l).
Proof.
  apply list_eq. intros i. rewrite list_lookup_imap, list_lookup_fmap.
  destruct (decide (i < length l)%nat) as [Hi|Hi].
  - rewrite lookup_seq_lt by done.
    rewrite (list_lookup_lookup_total_lt l i) by done. done.
  - rewrite lookup_seq_ge by lia. by rewrite lookup_ge_None_2 by lia.
Qed.

Lemma StronglySorted_le_lookup (l : list Z) (i j : nat) :
  StronglySorted Z.le l -> (i < j)%nat -> (j < length l)%nat ->
  l !!! i <= l !!! j.
Proof.
  intros Hs. revert i j. induction Hs as [|x l Hs IH Hall]; intros i j Hij Hj.
  - simpl in Hj. lia.
  - destruct j as [|j]; [lia|]. simpl in Hj.
    destruct i as [|i].
    + simpl. rewrite Forall_forall in Hall. apply Hall.
      apply list_elem_of_lookup_total_2. lia.
    + simpl. apply IH; lia.
Qed.

Section SortCodes.

Variable keys : list Z.
Hypothesis few : Z.of_nat (length keys) <= 2 ^ 32.

Let n := length keys.
Let code (i : nat) : Z := pack_code (keys !!! i) i.
Let sorted := sort_codes keys.

Lemma sort_codes_perm : sorted ≡ₚ code <$> seq 0 n.
Proof using Type.
  unfold sorted, sort_codes. rewrite merge_sort_Permutation.
  by rewrite imap_seq_lookup.
Qed.

Lemma sort_codes_length : length sorted = n.
Proof using Type.
  by rewrite sort_codes_perm, length_fmap, length_seq.
Qed.

Lemma sort_codes_origin (r : nat) :
  (r < n)%nat -> exists i, (i < n)%nat /\ sorted !!! r = code i.
Proof using Type.
  intros Hr.
  assert (sorted !!! r ∈ sorted) as Hin
    by (apply list_elem_of_lookup_total_2; by rewrite sort_codes_length).
  apply (elem_of_Permutation_proper _ _ _ sort_codes_perm) in Hin.
  apply list_elem_of_fmap in Hin as (i & Heq & Hi).
  apply elem_of_seq in Hi. exists i. split; [lia | done].
Qed.

Lemma code_inj (i j : nat) :
  (i < n)%nat -> (j < n)%nat -> code i = code j -> i = j.
Proof using few.
  intros Hi Hj Heq. unfold code in Heq.
  destruct (pack_code_parts (keys !!! i) i) as (_ & _ & Hli); [unfold n in *; lia|].
  destruct (pack_code_parts (keys !!! j) j) as (_ & _ & Hlj); [unfold n in *; lia|].
  rewrite Heq in Hli. lia.
Qed.

Lemma sort_codes_NoDup : NoDup sorted.
Proof using few.
  rewrite sort_codes_perm. apply NoDup_fmap_2_strong; [|apply NoDup_seq].
  intros i j Hi Hj. apply elem_of_seq in Hi, Hj. apply code_inj; lia.
Qed.

Lemma sort_codes_idx_perm :
  unpack_idx sorted ≡ₚ Z.of_nat <$> seq 0 n.
Proof using few.
  unfold unpack_idx.
  change (map (fun c => Z.land c (2 ^ 32 - 1)) sorted)
    with ((fun c => Z.land c (2 ^ 32 - 1)) <$> sorted).
  rewrite sort_codes_perm, <- list_fmap_compose.
  assert ((fun c => Z.land c (2 ^ 32 - 1)) ∘ code <$> seq 0 n
          = Z.of_nat <$> seq 0 n) as ->; [|done].
  apply list_fmap_ext.
  intros i x Hx. apply lookup_seq in Hx as [-> Hi]. cbn [compose Nat.add].
  destruct (pack_code_parts (keys !!! i) i) as (_ & _ & Hland);
    [unfold n in *; lia|].
  exact Hland.
Qed.

Lemma sort_codes_pair (r : nat) :
  (r < n)%nat ->
  0 <= unpack_idx sorted !!! r < Z.of_nat n
  /\ unpack_keys sorted !!! r
     = wrap_uint32 (keys !!! Z.to_nat (unpack_idx sorted !!! r)).
Proof using few.
  intros Hr. destruct (sort_codes_origin r Hr) as (i & Hi & Heq).
  unfold unpack_idx, unpack_keys.
  rewrite !lookup_total_map by (by rewrite sort_codes_length).
  rewrite Heq. unfold code.
  destruct (pack_code_parts (keys !!! i) i) as (_ & -> & ->);
    [unfold n in *; lia|].
  rewrite Nat2Z.id. split; [lia | done].
Qed.

Lemma sort_codes_stable (r : nat) :
  (S r < n)%nat ->
  unpack_keys sorted !!! r = unpack_keys sorted !!! S r ->
  unpack_idx sorted !!! r < unpack_idx sorted !!! S r.
Proof using few.
  intros Hr.
  destruct (sort_codes_origin r ltac:(lia)) as (i & Hi & Heq).
  destruct (sort_codes_origin (S r) Hr) as (j & Hj & Heq').
  assert (sorted !!! r <= sorted !!! S r) as Hle.
  { pose proof (StronglySorted_merge_sort Z.le
                  (imap (fun i key => pack_code key i) keys)) as Hs.
    fold (sort_codes keys) in Hs. fold sorted in Hs.
    apply StronglySorted_le_lookup; [done | lia |].
    rewrite sort_codes_length. lia. }
  assert (sorted !!! r <> sorted !!! S r) as Hne.
  { intros Hsame. pose proof sort_codes_NoDup as Hnd.
    eapply NoDup_lookup in Hnd.
    - assert (r = S r) by exact Hnd. lia.
    - apply list_lookup_lookup_total_lt. rewrite sort_codes_length. lia.
    - rewrite Hsame.
      apply list_lookup_lookup_total_lt. rewrite sort_codes_length. lia. }
  unfold unpack_idx, unpack_keys.
  rewrite !lookup_total_map by (rewrite sort_codes_length; lia).
  rewrite Heq, Heq' in *. unfold code in *.
  destruct (pack_code_parts (keys !!! i) i) as (Hci & -> & ->);
    [unfold n in *; lia|].
  destruct (pack_code_parts (keys !!! j) j) as (Hcj & -> & ->);
    [unfold n in *; lia|].
  intros Hk. rewrite Hci, Hcj, Hk in *. lia.
Qed.

End SortCodes.

Lemma lor_uint32 (a b : Z) :
  0 <= a < 2 ^ 32 -> 0 <= b < 2 ^ 32 -> 0 <= Z.lor a b < 2 ^ 32.
Proof.
  intros Ha Hb.
  assert (0 <= Z.lor a b) as Hpos by (apply Z.lor_nonneg; lia).
  split; [done|].
  destruct (decide (Z.lor a b = 0)) as [->|Hne]; [done|].
  apply Z.log2_lt_pow2; [lia|].
  rewrite Z.log2_lor by lia.
  destruct (decide (a = 0)) as [->|Ha0], (decide (b = 0)) as [->|Hb0];
    try (rewrite Z.lor_0_l in Hne || rewrite Z.lor_0_r in Hne);
    try done.
  - change (Z.log2 0) with 0. rewrite Z.max_r by apply Z.log2_nonneg.
    apply Z.log2_lt_pow2; lia.
  - change (Z.log2 0) with 0. rewrite Z.max_l by apply Z.log2_nonneg.
    apply Z.log2_lt_pow2; lia.
  - apply Z.max_lub_lt; apply Z.log2_lt_pow2; lia.
Qed.

Lemma foldl_lor_uint32 {A} (f : A -> Z) (l : list A) (key : Z) :
  0 <= key < 2 ^ 32 ->
  0 <= foldl (fun key x => Z.lor key (wrap_uint32 (f x))) key l < 2 ^ 32.
Proof.
  revert key. induction l as [|x l IH]; intros key Hkey; [done|].
  simpl. apply IH. apply lor_uint32; [done|].
  apply Z.mod_pos_bound. lia.
Qed.

Lemma compute_key_uint32 (pt : list Z) (depth : nat) :
  0 <= compute_key pt depth < 2 ^ 32.
Proof.
  unfold compute_key.
  assert (forall (l : list nat) key, 0 <= key < 2 ^ 32 ->
            0 <= foldl (fun key i =>
                          foldl (fun key j =>
                                   Z.lor key
                                     (wrap_uint32
                                        (Z.shiftl
                                           (Z.land (pt !!! j)
                                              (Z.shiftl 1 (Z.of_nat i)))
                                           (Z.of_nat (2 * i + 2 - j)))))
                                key (seq 0 3)) key l < 2 ^ 32) as Hall.
  { induction l as [|i l IH]; intros key Hkey; [done|].
    cbn [foldl]. apply IH.
    apply (foldl_lor_uint32
             (fun j => Z.shiftl (Z.land (pt !!! j) (Z.shiftl 1 (Z.of_nat i)))
                         (Z.of_nat (2 * i + 2 - j)))). done. }
  apply Hall. lia.
Qed.

(** X8.  [sort_keys] keeps every point and keeps its key with it: the
    vector [sorted_idx] is a rearrangement of the point indices
    [0 .. N - 1], [sorted_keys[r]] is the key of the point
    [sorted_idx[r]], and points with the same key come in the order of
    their indices. *)
Theorem sort_keys_pairs (depth : Z) (pts_scaled : list float) (r : nat) :
  let N := (length pts_scaled / 3)%nat in
  let key_of i :=
    compute_key
      (map (fun j => float_to_uint32 (pts_scaled !!! (3 * i + j)%nat))
           (seq 0 3))
      (Z.to_nat depth) in
  let sorted_keys := (sort_keys depth pts_scaled).1 in
  let sorted_idx := (sort_keys depth pts_scaled).2 in
  Z.of_nat N <= 2 ^ 32 -> (r < N)%nat ->
  sorted_idx ≡ₚ Z.of_nat <$> seq 0 N
  /\ 0 <= sorted_idx !!! r < Z.of_nat N
  /\ sorted_keys !!! r = key_of (Z.to_nat (sorted_idx !!! r))
  /\ ((S r < N)%nat -> sorted_keys !!! r = sorted_keys !!! S r ->
      sorted_idx !!! r < sorted_idx !!! S r).
Proof.
  intros N key_of sorted_keys sorted_idx HN Hr.
  set (keys := map key_of (seq 0 N)).
  assert (length keys = N) as Hlen
    by (unfold keys; by rewrite length_map, length_seq).
  assert (sorted_keys = unpack_keys (sort_codes keys)) as -> by done.
  assert (sorted_idx = unpack_idx (sort_codes keys)) as -> by done.
  assert (Z.of_nat (length keys) <= 2 ^ 32) as Hfew by (by rewrite Hlen).
  destruct (sort_codes_pair keys Hfew r ltac:(lia)) as [Hidx Hkey].
  rewrite Hlen in Hidx.
  split; [|split; [done|split]].
  - rewrite <- Hlen. by apply sort_codes_idx_perm.
  - rewrite Hkey.
    assert (Z.to_nat (unpack_idx (sort_codes keys) !!! r) < N)%nat as Hlt
      by lia.
    unfold keys at 2.
    rewrite lookup_total_map by (by rewrite length_seq).
    rewrite lookup_total_seq_lt by done. cbn [Nat.add].
    apply wrap_uint32_small, compute_key_uint32.
  - intros HSr. apply sort_codes_stable; [done | lia].
Qed.

Lemma sort_keys_pairs_sample :
  let pts :=
    [FFin (2 ^ 149); FFin 0; FFin 0; FFin 0; FFin 0; FFin 0;
     FFin (2 ^ 149); FFin 0; FFin 0] in
  let key_of i :=
    compute_key
      (map (fun j => float_to_uint32 (pts !!! (3 * i + j)%nat)) (seq 0 3))
      (Z.to_nat 1) in
  (sort_keys 1 pts).2 ≡ₚ Z.of_nat <$> seq 0 3
  /\ 0 <= (sort_keys 1 pts).2 !!! 1%nat < Z.of_nat 3
  /\ (sort_keys 1 pts).1 !!! 1%nat
     = key_of (Z.to_nat ((sort_keys 1 pts).2 !!! 1%nat))
  /\ ((2 < 3)%nat ->
      (sort_keys 1 pts).1 !!! 1%nat = (sort_keys 1 pts).1 !!! 2%nat ->
      (sort_keys 1 pts).2 !!! 1%nat < (sort_keys 1 pts).2 !!! 2%nat).
Proof.
  apply (sort_keys_pairs 1
           [FFin (2 ^ 149); FFin 0; FFin 0; FFin 0; FFin 0; FFin 0;
            FFin (2 ^ 149); FFin 0; FFin 0] 1).
  - simpl. lia.
  - simpl. lia.
Defined.

(** ** Run compaction of a sorted vector *)

Section UniqueSorted.

Variables (keys : list Z) (bound : Z).

Hypothesis some_key : (1 <= length keys)%nat.
Hypothesis sorted : StronglySorted Z.le keys.
Hypothesis in_range : Forall (fun k => 0 <= k < bound) keys.

Let U : list Z := (unique_key keys).1.
Let idx : list Z := (unique_key keys).2.

Lemma unique_sorted_head (b : nat) :
  (b < length U)%nat ->
  (0 <= idx !!! b /\ (Z.to_nat (idx !!! b) < length keys)%nat)
  /\ U !!! b = keys !!! Z.to_nat (idx !!! b).
Proof using some_key.
  intros Hb.
  destruct (unique_key_post keys some_key)
    as [[Hcount HU] Hs _ Hlast Hbound Hcompact _ _].
  fold U idx in Hcount, HU, Hs, Hlast, Hbound, Hcompact.
  split; [|by apply Hcompact].
  pose proof (StronglySorted_lt_le_lookup idx (S b) (length U) Hs
                ltac:(lia) ltac:(lia)) as Hle.
  pose proof (StronglySorted_lt_lookup idx b (S b) Hs ltac:(lia)
                ltac:(lia)) as Hlt.
  pose proof (Forall_lookup_total_1 _ idx b Hbound ltac:(lia)) as Hb0.
  simpl in Hb0. lia.
Qed.

Lemma unique_sorted_occupied : occupied bound U /\ (1 <= length U)%nat.
Proof using All.
  destruct (unique_key_post keys some_key)
    as [[Hcount HU] Hs _ _ _ _ _ Hdist].
  fold U idx in Hcount, HU, Hs, Hdist.
  split; [split|lia].
  - apply adjacent_lt_sorted. intros b Hb.
    specialize (Hdist b Hb).
    destruct (unique_sorted_head b ltac:(lia)) as [[Hb0 Hb1] Hb2].
    destruct (unique_sorted_head (S b) Hb) as [[Hs0 Hs1] Hs2].
    pose proof (StronglySorted_lt_lookup idx b (S b) Hs ltac:(lia)
                  ltac:(lia)) as Hlt.
    pose proof (StronglySorted_le_lookup keys (Z.to_nat (idx !!! b))
                  (Z.to_nat (idx !!! S b)) sorted ltac:(lia) Hs1) as Hle.
    rewrite Hb2, Hs2 in *. lia.
  - apply Forall_lookup_2. intros b x Hbx.
    pose proof (lookup_lt_Some _ _ _ Hbx) as Hb.
    apply list_lookup_total_correct in Hbx as <-.
    destruct (unique_sorted_head b Hb) as [[_ Hlt] ->].
    by apply (Forall_lookup_total_1 _ keys _ in_range).
Qed.

Lemma unique_sorted_elem (k : Z) : k ∈ U <-> k ∈ keys.
Proof using some_key.
  destruct (unique_key_post keys some_key) as [_ _ _ _ _ _ Hruns _].
  fold U idx in Hruns. split.
  - intros Hk. apply list_elem_of_lookup_total_1 in Hk as (b & Hb & <-).
    destruct (unique_sorted_head b Hb) as [[_ Hlt] ->].
    by apply list_elem_of_lookup_total_2.
  - intros Hk. apply list_elem_of_lookup_total_1 in Hk as (q & Hq & <-).
    destruct (Hruns q Hq) as (b & Hb & _ & ->).
    by apply list_elem_of_lookup_total_2.
Qed.

End UniqueSorted.

(** X9.  On a vector of keys that is not empty and not decreasing,
    [unique_key] returns the same keys without repetition: the result is
    strictly increasing, it has the same elements as the input, and
    every position [q] of the input lies in one run
    [idx[b] <= q < idx[b + 1]], whose key [keys[b]] it holds. *)
Theorem unique_key_sorted (keys : list Z) (bound k : Z) (q : nat) :
  (1 <= length keys)%nat -> StronglySorted Z.le keys ->
  Forall (fun k => 0 <= k < bound) keys -> (q < length keys)%nat ->
  let U := (unique_key keys).1 in
  let idx := (unique_key keys).2 in
  occupied bound U
  /\ (1 <= length U <= length keys)%nat
  /\ (k ∈ U <-> k ∈ keys)
  /\ exists b, (b < length U)%nat
               /\ idx !!! b <= Z.of_nat q < idx !!! S b
               /\ keys !!! q = U !!! b.
Proof.
  intros Hone Hsorted Hrange Hq U idx.
  destruct (unique_sorted_occupied keys bound Hone Hsorted Hrange)
    as [Hocc HU].
  destruct (unique_key_post keys Hone) as [[_ Hlen] _ _ _ _ _ Hruns _].
  split; [done|]. split; [done|]. split.
  - by apply unique_sorted_elem.
  - by apply Hruns.
Qed.

Lemma unique_key_sorted_sample :
  let keys : list Z := [0; 4; 4] in
  occupied 8 (unique_key keys).1
  /\ (1 <= length (unique_key keys).1 <= length keys)%nat
  /\ (4 ∈ (unique_key keys).1 <-> 4 ∈ keys)
  /\ exists b, (b < length (unique_key keys).1)%nat
               /\ (unique_key keys).2 !!! b <= Z.of_nat 2
                  < (unique_key keys).2 !!! S b
               /\ keys !!! 2%nat = (unique_key keys).1 !!! b.
Proof.
  apply (unique_key_sorted [0; 4; 4] 8 4 2).
  - simpl. lia.
  - repeat constructor; lia.
  - repeat constructor; lia.
  - simpl. lia.
Defined.

(** * Further properties of the structure *)

(** ** Layers in Morton order *)

Lemma internal_before_0 (children : list Z) : internal_before children 0 = 0%nat.
Proof. done. Qed.

Lemma internal_before_S (children : list Z) (p : nat) :
  (p < length children)%nat ->
  internal_before children (S p)
  = (internal_before children p
     + if decide (children !!! p = (-1)%Z) then 0 else 1)%nat.
Proof.
  intros Hp. unfold internal_before.
  rewrite (take_S_r children p (children !!! p))
    by (by apply list_lookup_lookup_total_lt).
  rewrite filter_app, length_app. f_equal.
  rewrite filter_cons, filter_nil.
  destruct (decide (children !!! p = -1)) as [Heq|Hne].
  - by rewrite decide_False by (intros Hc; by apply Hc).
  - by rewrite decide_True.
Qed.

Section Numbered.

Variables (bound : Z) (nk keys children : list Z).
Hypothesis ok : numbered bound nk keys children.

Lemma numbered_link (s : nat) :
  (s < length children)%nat -> children !!! s <> -1 ->
  exists i, (i < length nk)%nat /\ children !!! s = Z.of_nat i
            /\ keys !!! s = nk !!! i.
Proof using ok. destruct ok as (_ & _ & _ & [Hchild _ _]). apply Hchild. Qed.

Lemma numbered_mono (s s' : nat) :
  (s < s')%nat -> (s' < length children)%nat ->
  children !!! s <> -1 -> children !!! s' <> -1 ->
  children !!! s < children !!! s'.
Proof using ok.
  intros Hss Hs' Hint Hint'.
  destruct (numbered_link s ltac:(lia) Hint) as (i & Hi & -> & Hk).
  destruct (numbered_link s' Hs' Hint') as (i' & Hi' & -> & Hk').
  destruct ok as (Hsize & [Hsorted _] & Hnodes & _).
  pose proof (StronglySorted_lt_lookup keys s s' Hsorted Hss
                ltac:(lia)) as Hlt.
  destruct (decide (i < i')%nat) as [|Hge]; [lia|].
  pose proof (StronglySorted_lt_le_lookup nk i' i Hnodes ltac:(lia) Hi).
  lia.
Qed.

Lemma numbered_inj (s s' : nat) :
  (s < length children)%nat -> (s' < length children)%nat ->
  children !!! s <> -1 -> children !!! s = children !!! s' -> s = s'.
Proof using ok. destruct ok as (_ & _ & _ & [_ _ Hinj]). apply Hinj. Qed.

Lemma numbered_upto (p : nat) :
  (p <= length children)%nat ->
  (internal_before children p <= length nk)%nat
  /\ (forall s, (s < length children)%nat -> children !!! s <> -1 ->
        ((s < p)%nat
         <-> children !!! s < Z.of_nat (internal_before children p)))
  /\ (forall q, (q < p)%nat -> children !!! q <> -1 ->
        children !!! q = Z.of_nat (internal_before children q)).
Proof using ok.
  induction p as [|p IH]; intros Hp.
  - rewrite internal_before_0. split; [lia|]. split; [|intros q Hq; lia].
    intros s Hs Hint.
    destruct (numbered_link s Hs Hint) as (i & _ & -> & _). lia.
  - destruct (IH ltac:(lia)) as (Hle & Hiff & Hrank).
    rewrite internal_before_S by lia.
    destruct (decide (children !!! p = -1)) as [Hleaf|Hint].
    + rewrite Nat.add_0_r. split; [done|]. split.
      * intros s Hs Hs'. rewrite <- Hiff by done.
        split; [|lia]. intros Hlt.
        destruct (decide (s = p)) as [->|]; [done | lia].
      * intros q Hq Hq'. apply Hrank; [|done].
        destruct (decide (q = p)) as [->|]; [done | lia].
    + destruct (numbered_link p ltac:(lia) Hint) as (i0 & Hi0 & Hc0 & _).
      assert (i0 = internal_before children p) as Hi.
      { pose proof (proj2 (Hiff p ltac:(lia) Hint)) as Hback.
        destruct (decide (i0 < internal_before children p)%nat) as [|Hge];
          [lia|].
        destruct (decide (i0 = internal_before children p)) as [|Hne];
          [done|].
        destruct ok as (_ & _ & _ & [_ Hnode _]).
        destruct (Hnode (internal_before children p) ltac:(lia))
          as (s0 & Hs0 & Hc & _).
        assert (children !!! s0 <> -1) as Hint0 by lia.
        pose proof (Hiff s0 Hs0 Hint0) as Hiff0.
        destruct (decide (s0 = p)) as [->|Hsp]; [lia|].
        assert (p < s0)%nat as Hlt by lia.
        pose proof (numbered_mono p s0 Hlt Hs0 Hint Hint0). lia. }
      subst i0. split; [lia|]. split.
      * intros s Hs Hs'. split.
        -- intros Hlt. destruct (decide (s = p)) as [->|Hsp]; [lia|].
           pose proof (proj1 (Hiff s Hs Hs') ltac:(lia)). lia.
        -- intros Hlt.
           destruct (decide (children !!! s
                             < Z.of_nat (internal_before children p)))
             as [Hlow|Hhigh].
           ++ pose proof (proj2 (Hiff s Hs Hs') Hlow). lia.
           ++ assert (s = p); [|lia].
              apply numbered_inj; [done | lia | done | lia].
      * intros q Hq Hq'. destruct (decide (q = p)) as [->|Hqp]; [done|].
        apply Hrank; [lia | done].
Qed.

Lemma numbered_rank (p : nat) :
  (p < length children)%nat -> children !!! p <> -1 ->
  children !!! p = Z.of_nat (internal_before children p).
Proof using ok.
  intros Hp Hint.
  destruct (numbered_upto (S p) ltac:(lia)) as (_ & _ & Hrank).
  apply Hrank; [lia | done].
Qed.

Lemma numbered_count : internal_before children (length children) = length nk.
Proof using ok.
  destruct (numbered_upto (length children) ltac:(lia)) as (Hle & Hiff & _).
  destruct (decide (internal_before children (length children)
                    = length nk)) as [|Hne]; [done|].
  destruct ok as (_ & _ & _ & [_ Hnode _]).
  destruct (Hnode (internal_before children (length children)) ltac:(lia))
    as (s0 & Hs0 & Hc & _).
  pose proof (proj1 (Hiff s0 Hs0 ltac:(lia)) Hs0). lia.
Qed.

Lemma numbered_last_nempty (n : nat) :
  (n <= length children)%nat -> Z.of_nat (length nk) < 2 ^ 31 ->
  last_nempty children n = Z.of_nat (internal_before children n).
Proof using ok.
  intros Hn Hsmall. induction n as [|n IH]; [done|].
  cbn [last_nempty]. rewrite internal_before_S by lia.
  destruct (numbered_upto (S n) ltac:(lia)) as (Hle & _ & Hrank).
  rewrite internal_before_S in Hle by lia.
  destruct (Z.eqb_spec (children !!! n) (-1)) as [Hleaf|Hint]; cbn [negb].
  - rewrite decide_True by done. rewrite IH by lia. lia.
  - rewrite decide_False in * by done.
    rewrite (Hrank n) by (lia || done).
    rewrite wrap_int_small by lia. lia.
Qed.

End Numbered.

Lemma counts_up_numbered (e : nat) (keys children : list Z) :
  counts_up (8 ^ e) keys -> counts_up (8 ^ e) children ->
  numbered (8 ^ Z.of_nat e) keys keys children.
Proof.
  intros [Hlen Hkeys] [Hlenc Hchildren].
  assert (Z.of_nat (8 ^ e) = 8 ^ Z.of_nat e) as Hpow
    by (by rewrite Nat2Z.inj_pow).
  assert (StronglySorted Z.lt keys) as Hsorted.
  { apply adjacent_lt_sorted. intros b Hb. rewrite !Hkeys by lia. lia. }
  split; [lia|]. split; [|split; [done|]].
  - split; [done|]. apply Forall_lookup_2. intros b x Hbx.
    pose proof (lookup_lt_Some _ _ _ Hbx) as Hb.
    apply list_lookup_total_correct in Hbx as <-. rewrite Hkeys by lia. lia.
  - split.
    + intros s Hs _. exists s. rewrite Hchildren by lia.
      split; [lia|]. split; [done|]. done.
    + intros i Hi. exists i. rewrite Hchildren by lia.
      split; [lia|]. done.
    + intros s s' Hs Hs' _. rewrite !Hchildren by lia. lia.
Qed.

Lemma layer_numbered (M : Z) (nk U keys_l children_l : list Z) :
  0 < M -> occupied (8 * M) nk -> occupied M U ->
  layer_ok nk U keys_l children_l ->
  numbered (8 * M) nk keys_l children_l.
Proof.
  intros HM Hnk HU Hok.
  pose proof (layer_parent nk U keys_l children_l Hok) as Hparent.
  destruct Hok as [[HsizeK HsizeC] Hkeys _ _ _ _].
  split; [lia|]. split; [|split; [by destruct Hnk | done]].
  assert (forall p, (p < length keys_l)%nat ->
            keys_l !!! p = 8 * U !!! (p / 8)%nat + Z.of_nat (p mod 8)) as Hkey.
  { intros p Hp. pose proof (Nat.div_mod_eq p 8) as Hdm.
    pose proof (Nat.mod_upper_bound p 8 ltac:(lia)) as Hmod.
    rewrite Hdm at 1. apply Hkeys; lia. }
  split.
  - apply adjacent_lt_sorted. intros p Hp.
    rewrite !Hkey by lia.
    pose proof (Nat.div_mod_eq p 8) as Hdm.
    pose proof (Nat.mod_upper_bound p 8 ltac:(lia)) as Hmod.
    destruct (decide (p mod 8 < 7)%nat) as [Hlow|Hhigh].
    + replace (S p) with (8 * (p / 8) + S (p mod 8))%nat by lia.
      rewrite block_div, block_mod by lia. lia.
    + replace (S p) with (8 * S (p / 8) + 0)%nat by lia.
      rewrite block_div, block_mod by lia.
      pose proof (StronglySorted_lt_lookup U (p / 8) (S (p / 8))
                    (proj1 HU) ltac:(lia) ltac:(lia)). lia.
  - apply Forall_lookup_2. intros p x Hpx.
    pose proof (lookup_lt_Some _ _ _ Hpx) as Hp.
    apply list_lookup_total_correct in Hpx as <-. rewrite Hkey by done.
    pose proof (Nat.mod_upper_bound p 8 ltac:(lia)) as Hmod.
    pose proof (Nat.div_mod_eq p 8) as Hdm.
    pose proof (occupied_lookup M U (p / 8) HU ltac:(lia)). lia.
Qed.

Lemma rounds_numbered (depth fl j : nat) K0 C0 nk :
  (depth <= 10)%nat -> (j <= depth - fl)%nat ->
  length K0 = S depth -> length C0 = S depth ->
  (forall e, (fl < e)%nat -> C0 !!! e = []) ->
  occupied (8 ^ Z.of_nat depth) nk -> (1 <= length nk)%nat ->
  exists K C (N : nat -> list Z),
    foldl build_layer (K0, C0, nk) (rev (seq (S depth - j) j))
    = (K, C, N (depth - j)%nat)
    /\ rounds_inv depth j K0 C0 K C (N (depth - j)%nat)
    /\ N depth = nk
    /\ forall e, (depth - j < e <= depth)%nat ->
         numbered (8 ^ Z.of_nat e) (N e) (K !!! e) (C !!! e)
         /\ pending (N (e - 1)%nat) (K !!! e) (C !!! e).
Proof.
  intros Hten Hj HK HC Hfresh Hocc Hone. induction j as [|j IH].
  - exists K0, C0, (fun _ => nk). rewrite Nat.sub_0_r.
    split; [done|]. split; [|split; [done | intros e He; lia]].
    split; try done.
    + by rewrite Nat.sub_0_r.
    + lia.
    + intros e He. lia.
  - destruct IH as (K & C & N & Heq & Hinv & HN & Hnum); [lia|].
    pose proof Hinv as [[HK' HC'] [HoccN HoneN] Hrest _ _].
    set (d := (depth - j)%nat) in *.
    assert (Z.of_nat d = Z.of_nat (d - 1) + 1) as Hd by lia.
    assert (8 ^ Z.of_nat d = 8 * 8 ^ Z.of_nat (d - 1)) as Hpow.
    { rewrite Hd, Z.pow_add_r by lia. lia. }
    assert (0 < 8 ^ Z.of_nat (d - 1) <= 2 ^ 27) as HM.
    { split; [apply Z.pow_pos_nonneg; lia|].
      change (2 ^ 27) with (8 ^ 9). apply Z.pow_le_mono_r; lia. }
    rewrite Hpow in HoccN.
    destruct (build_layer_round _ (N d) K C d HM HoccN HoneN)
      as (keys_l & children_l & U & Hround & Hok & HoccU & HoneU).
    { destruct (Hrest d ltac:(lia)) as [_ ->]. apply Hfresh. lia. }
    destruct (rounds_step depth fl j K0 C0 K C (N d) Hten ltac:(lia) Hfresh
                Hinv) as (K' & C' & nk'' & Hstep & Hinv').
    fold d in Hstep. rewrite Hround in Hstep. injection Hstep as <- <- <-.
    assert (depth - S j = d - 1)%nat as Hd1 by lia.
    exists (<[d := keys_l]> K), (<[d := children_l]> C),
      (fun e => if decide (e = d - 1)%nat then U else N e).
    rewrite Hd1, decide_True by done.
    split; [|split; [done|split]].
    + rewrite rounds_unfold by lia. fold d. by rewrite Heq.
    + rewrite decide_False by lia. done.
    + intros e He. rewrite (decide_False (P := e = (d - 1)%nat)) by lia.
      destruct (decide (e = d)) as [->|Hne].
      * rewrite decide_True by done.
        rewrite !list_lookup_total_insert_eq by lia. split.
        -- rewrite Hpow.
           apply (layer_numbered _ _ U); [lia | done | done | done].
        -- by apply (layer_pending (N d)).
      * rewrite decide_False by lia.
        rewrite !list_lookup_total_insert_ne by lia. apply Hnum. lia.
Qed.

Section Numbering.

Variables (depth fl : nat) (nk : list Z) (t : Octree).

Hypothesis layers : (fl < depth <= 10)%nat.
Hypothesis header_depth : depth_ (oct_info_ t) = Z.of_nat depth.
Hypothesis header_full : full_layer_ (oct_info_ t) = Z.of_nat fl.
Hypothesis nodes : occupied (8 ^ Z.of_nat depth) nk.
Hypothesis some_node : (1 <= length nk)%nat.

Let built := build_structure nk (clear (Z.of_nat depth) t).

Lemma build_structure_numbered :
  exists N : nat -> list Z,
    N depth = nk /\ N fl = built.2
    /\ (forall e, (e <= depth)%nat ->
          numbered (8 ^ Z.of_nat e) (N e) (keys_ built.1 !!! e)
            (children_ built.1 !!! e))
    /\ (forall e, (e < depth)%nat ->
          length (keys_ built.1 !!! S e) = (8 * length (N e))%nat)
    /\ (forall e, (fl <= e < depth)%nat ->
          pending (N e) (keys_ built.1 !!! S e) (children_ built.1 !!! S e)).
Proof using All.
  unfold built, build_structure.
  assert (forall A, resize (S depth) [] (replicate
            (if Z.of_nat depth =? 0 then 0%nat
             else Z.to_nat (Z.of_nat depth + 1)) ([] : list A))
          = replicate (S depth) []) as Hclear.
  { intros A. apply resize_replicate. }
  cbn [oct_info_ clear keys_ children_]. rewrite header_depth, header_full.
  replace (Z.to_nat (Z.of_nat depth + 1)) with (S depth) by lia.
  replace (Z.to_nat (Z.of_nat fl + 1)) with (S fl) by lia.
  replace (Z.to_nat (Z.of_nat depth - Z.of_nat fl))
    with (depth - fl)%nat by lia.
  rewrite Nat2Z.id.
  replace (Z.to_nat (Z.of_nat depth + 1)) with (S depth) in Hclear by lia.
  rewrite !Hclear.
  pose proof (fill_full_layers depth fl (S fl) ltac:(lia) ltac:(lia)
                ltac:(lia)) as Hfull.
  cbn zeta in Hfull.
  destruct (foldl (fill_full_layer fl) _ (seq 0 (S fl))) as [K0 C0].
  cbn [fst snd] in Hfull.
  destruct Hfull as [[HK0 HC0] Hkeys Hchildren Hlast Hrest].
  destruct (rounds_numbered depth fl (depth - fl) K0 C0 nk)
    as (K & C & N & Heq & Hinv & HN & Hnum); try done; try lia.
  { intros e He. by apply Hrest. }
  replace (S depth - (depth - fl))%nat with (S fl) in Heq by lia.
  rewrite Heq. clear Heq.
  destruct Hinv as [[HK HC] [Hocc Hone] Hkeep Hpend _].
  replace (depth - (depth - fl))%nat with fl in * by lia.
  assert ((Z.of_nat fl <? Z.of_nat depth) = true) as ->
    by (apply Z.ltb_lt; lia).
  cbn [fst snd keys_ children_ put_keys put_children].
  assert (C !!! fl = replicate (8 ^ fl) (-1)) as Hfl.
  { destruct (Hkeep fl ltac:(lia)) as [_ ->]. apply Hlast. lia. }
  assert (forall e, (e <= fl)%nat -> counts_up (8 ^ e) (K !!! e)) as HkeysK.
  { intros e He. destruct (Hkeep e He) as [-> _]. apply Hkeys. lia. }
  destruct (full_link_parent fl (N fl) (K !!! fl) Hocc (HkeysK fl ltac:(lia)))
    as (Hlen & Hparent & _).
  rewrite Hfl.
  exists (fun e => if decide (e < fl)%nat then K !!! e else N e).
  rewrite !decide_False by lia.
  split; [done|]. split; [done|]. split; [|split].
  - intros e He. destruct (decide (e < fl)%nat) as [Hlt|Hge].
    + rewrite list_lookup_total_insert_ne by lia.
      apply counts_up_numbered; [by apply HkeysK; lia|].
      destruct (Hkeep e ltac:(lia)) as [_ ->]. apply Hchildren; lia.
    + destruct (decide (e = fl)) as [->|Hne].
      * rewrite list_lookup_total_insert_eq by lia.
        destruct (HkeysK fl ltac:(lia)) as [HlenK HkeyK].
        destruct (counts_up_numbered fl (K !!! fl) (K !!! fl)
                    (HkeysK fl ltac:(lia)) (HkeysK fl ltac:(lia)))
          as (_ & HoccK & _).
        split; [lia|]. split; [done|]. split; [by destruct Hocc | done].
      * rewrite list_lookup_total_insert_ne by lia. apply Hnum. lia.
  - intros e He. destruct (decide (e < fl)%nat) as [Hlt|Hge].
    + destruct (HkeysK (S e) ltac:(lia)) as [-> _].
      destruct (HkeysK e ltac:(lia)) as [-> _].
      by rewrite Nat.pow_succ_r'.
    + destruct (Hnum (S e) ltac:(lia)) as [_ [[Hsize _] _ _]].
      by replace (S e - 1)%nat with e in Hsize by lia.
  - intros e He. rewrite list_lookup_total_insert_ne by lia.
    rewrite decide_False by lia.
    destruct (Hnum (S e) ltac:(lia)) as [_ Hp].
    by replace (S e - 1)%nat with e in Hp by lia.
Qed.

End Numbering.

Lemma occupied_length (bound : Z) (nk : list Z) :
  occupied bound nk -> Z.of_nat (length nk) <= Z.max 0 bound.
Proof.
  intros Hocc. destruct (decide (length nk = 0%nat)) as [->|Hne]; [lia|].
  pose proof (occupied_index bound nk (length nk - 1) Hocc ltac:(lia)).
  pose proof (occupied_lookup bound nk (length nk - 1) Hocc ltac:(lia)).
  lia.
Qed.

Lemma counts_up_occupied (e : nat) (keys : list Z) :
  counts_up (8 ^ e) keys -> occupied (8 ^ Z.of_nat e) keys.
Proof.
  intros Hkeys.
  by destruct (counts_up_numbered e keys keys Hkeys Hkeys) as (_ & Hocc & _).
Qed.

(** X10.  After [build_structure], the keys of every layer are in Morton
    order: strictly increasing, so that no key occurs twice, and below
    [8^e] on layer [e]. *)
Theorem layer_keys_sorted (depth fl : nat) (nk : list Z) (t : Octree)
    (e : nat) :
  (fl <= depth <= 10)%nat ->
  depth_ (oct_info_ t) = Z.of_nat depth ->
  full_layer_ (oct_info_ t) = Z.of_nat fl ->
  occupied (8 ^ Z.of_nat depth) nk -> (1 <= length nk)%nat ->
  (e <= depth)%nat ->
  let keys_e := keys_ (build_structure nk (clear (Z.of_nat depth) t)).1 !!! e in
  StronglySorted Z.lt keys_e
  /\ Forall (fun k => 0 <= k < 8 ^ Z.of_nat e) keys_e.
Proof.
  intros Hlayers Hdepth Hfull Hocc Hone He keys_e.
  destruct (decide (e <= fl)%nat) as [Hle|Hgt].
  - destruct (build_structure_shape depth fl nk t Hlayers Hdepth Hfull Hocc
                Hone) as (_ & _ & Hkeys & _).
    by apply counts_up_occupied, Hkeys.
  - destruct (build_structure_numbered depth fl nk t ltac:(lia) Hdepth Hfull
                Hocc Hone) as (N & _ & _ & Hnum & _).
    by destruct (Hnum e He) as (_ & Hsorted & _).
Qed.

Lemma layer_keys_sorted_sample :
  StronglySorted Z.lt (keys_ sample_built !!! 2%nat)
  /\ Forall (fun k => 0 <= k < 8 ^ Z.of_nat 2) (keys_ sample_built !!! 2%nat).
Proof.
  apply (layer_keys_sorted 2 1 [3; 12; 13] sample_empty 2).
  - lia.
  - reflexivity.
  - reflexivity.
  - exact sample_nodes.
  - simpl. lia.
  - lia.
Defined.

(** ** Node counts of the built octree *)

Section BuiltCounts.

Variables (depth fl : nat) (nk : list Z) (t : Octree).

Hypothesis layers : (fl < depth <= 10)%nat.
Hypothesis header_depth : depth_ (oct_info_ t) = Z.of_nat depth.
Hypothesis header_full : full_layer_ (oct_info_ t) = Z.of_nat fl.
Hypothesis nodes : occupied (8 ^ Z.of_nat depth) nk.
Hypothesis some_node : (1 <= length nk)%nat.
Hypothesis nnum_size : (S depth <= length (nnum_ (oct_info_ t)))%nat.
Hypothesis nempty_size : (S depth <= length (nnum_nempty_ (oct_info_ t)))%nat.

Let built := (build_structure nk (clear (Z.of_nat depth) t)).1.
Let counted := calc_node_num built.

Lemma built_counts :
  exists N : nat -> list Z,
    N depth = nk
    /\ (forall e, (e <= depth)%nat ->
          numbered (8 ^ Z.of_nat e) (N e) (keys_ built !!! e)
            (children_ built !!! e)
          /\ nnum (oct_info_ counted) (Z.of_nat e)
             = Z.of_nat (length (keys_ built !!! e))
          /\ nnum_nempty (oct_info_ counted) (Z.of_nat e)
             = Z.of_nat (length (N e)))
    /\ (forall e, (e < depth)%nat ->
          length (keys_ built !!! S e) = (8 * length (N e))%nat).
Proof using All.
  destruct (build_structure_numbered depth fl nk t layers header_depth
              header_full nodes some_node) as (N & HN & _ & Hnum & Hlen & _).
  fold built in Hnum, Hlen.
  assert (oct_info_ built = oct_info_ t) as Hinfo.
  { unfold built. by rewrite build_structure_header. }
  exists N. split; [done|]. split; [|done].
  intros e He. pose proof (Hnum e He) as Hn. split; [done|].
  destruct Hn as (Hsize & Hocc & Hsorted & Hparent).
  pose proof (occupied_length _ _ Hocc) as Hfew.
  assert (8 ^ Z.of_nat e <= 8 ^ 10) as Hten
    by (apply Z.pow_le_mono_r; lia).
  assert (0 < 8 ^ Z.of_nat e) as Hpos by (apply Z.pow_pos_nonneg; lia).
  assert (length (N e) <= length (keys_ built !!! e))%nat as Hle.
  { rewrite <- (numbered_count _ _ _ _ (Hnum e He)), <- Hsize.
    unfold internal_before.
    etrans; [apply length_filter|]. rewrite length_take. lia. }
  split.
  - unfold counted. rewrite calc_node_num_nnum by (rewrite Hinfo, ?header_depth; lia).
    apply wrap_int_small. lia.
  - unfold counted.
    rewrite calc_node_num_nempty by (rewrite Hinfo, ?header_depth; lia).
    rewrite wrap_int_small, Nat2Z.id by lia.
    rewrite <- Hsize.
    rewrite (numbered_last_nempty _ _ _ _ (Hnum e He)) by lia.
    by rewrite (numbered_count _ _ _ _ (Hnum e He)).
Qed.

End BuiltCounts.

(** X11.  The node counts that [calc_node_num] stores for the built
    octree: [nnum[e]] is the number of nodes of layer [e]; every
    non-empty node of a layer owns one block of eight nodes of the next,
    so [nnum[e + 1] = 8 * nnum_nempty[e]]; [nnum_nempty[e]] counts the
    internal nodes of the layer; and on the finest layer it is the number
    of keys handed to [build_structure]. *)
Theorem built_node_numbers (depth fl : nat) (nk : list Z) (t : Octree)
    (e : nat) :
  (fl < depth <= 10)%nat ->
  depth_ (oct_info_ t) = Z.of_nat depth ->
  full_layer_ (oct_info_ t) = Z.of_nat fl ->
  occupied (8 ^ Z.of_nat depth) nk -> (1 <= length nk)%nat ->
  (S depth <= length (nnum_ (oct_info_ t)))%nat ->
  (S depth <= length (nnum_nempty_ (oct_info_ t)))%nat ->
  (e < depth)%nat ->
  let built := (build_structure nk (clear (Z.of_nat depth) t)).1 in
  let info := oct_info_ (calc_node_num built) in
  nnum info (Z.of_nat (S e)) = 8 * nnum_nempty info (Z.of_nat e)
  /\ nnum_nempty info (Z.of_nat e)
     = Z.of_nat (internal_before (children_ built !!! e)
                   (length (children_ built !!! e)))
  /\ nnum_nempty info (Z.of_nat depth) = Z.of_nat (length nk).
Proof.
  intros Hlayers Hdepth Hfull Hocc Hone Hnnum Hnempty He built info.
  destruct (built_counts depth fl nk t Hlayers Hdepth Hfull Hocc Hone Hnnum
              Hnempty) as (N & HN & Hcount & Hlen).
  fold built in Hcount, Hlen. fold info in Hcount.
  destruct (Hcount e ltac:(lia)) as (Hnum & _ & ->).
  destruct (Hcount (S e) ltac:(lia)) as (_ & -> & _).
  destruct (Hcount depth ltac:(lia)) as (_ & _ & ->).
  rewrite Hlen by done. rewrite (numbered_count _ _ _ _ Hnum), HN. lia.
Qed.

Lemma built_node_numbers_sample :
  let info := oct_info_ (calc_node_num sample_built) in
  nnum info (Z.of_nat 2) = 8 * nnum_nempty info (Z.of_nat 1)
  /\ nnum_nempty info (Z.of_nat 1)
     = Z.of_nat (internal_before (children_ sample_built !!! 1%nat)
                   (length (children_ sample_built !!! 1%nat)))
  /\ nnum_nempty info (Z.of_nat 2) = Z.of_nat (length [3; 12; 13]).
Proof.
  apply (built_node_numbers 2 1 [3; 12; 13] sample_empty 1).
  - lia.
  - reflexivity.
  - reflexivity.
  - exact sample_nodes.
  - simpl. lia.
  - simpl. lia.
  - simpl. lia.
  - lia.
Defined.

(** X12.  On the finest layer the child link of a non-empty node is the
    position of its key in the key vector handed to [build_structure]:
    every one of those keys is the key of exactly one node, whose link
    is the key's position, and the other nodes are empty. *)
Theorem finest_links (depth fl : nat) (nk : list Z) (t : Octree)
    (i s : nat) :
  (fl < depth <= 10)%nat ->
  depth_ (oct_info_ t) = Z.of_nat depth ->
  full_layer_ (oct_info_ t) = Z.of_nat fl ->
  occupied (8 ^ Z.of_nat depth) nk -> (1 <= length nk)%nat ->
  let built := (build_structure nk (clear (Z.of_nat depth) t)).1 in
  let keys_d := keys_ built !!! depth in
  let children_d := children_ built !!! depth in
  length children_d = length keys_d
  /\ ((i < length nk)%nat ->
      exists p, (p < length keys_d)%nat /\ keys_d !!! p = nk !!! i
                /\ children_d !!! p = Z.of_nat i
                /\ forall p', (p' < length keys_d)%nat ->
                     keys_d !!! p' = nk !!! i -> p' = p)
  /\ ((s < length keys_d)%nat -> children_d !!! s <> -1 ->
      exists i', (i' < length nk)%nat /\ children_d !!! s = Z.of_nat i'
                 /\ keys_d !!! s = nk !!! i').
Proof.
  intros Hlayers Hdepth Hfull Hocc Hone built keys_d children_d.
  destruct (build_structure_numbered depth fl nk t Hlayers Hdepth Hfull Hocc
              Hone) as (N & HN & _ & Hnum & _).
  destruct (Hnum depth ltac:(lia)) as (Hsize & Hkeys & _ & [Hchild Hnode _]).
  rewrite HN in Hchild, Hnode.
  fold built in Hsize, Hkeys, Hchild, Hnode.
  fold keys_d children_d in Hsize, Hkeys, Hchild, Hnode.
  split; [done|]. split.
  - intros Hi. destruct (Hnode i Hi) as (p & Hp & Hc & Hk).
    exists p. rewrite Hsize in Hp. repeat split; try done.
    intros p' Hp' Hk'.
    apply (occupied_inj _ keys_d p' p Hkeys); [done | done | congruence].
  - intros Hs Hint. apply Hchild; [lia | done].
Qed.

Lemma finest_links_sample :
  let nk : list Z := [3; 12; 13] in
  let keys_d := keys_ sample_built !!! 2%nat in
  let children_d := children_ sample_built !!! 2%nat in
  length children_d = length keys_d
  /\ ((1 < length nk)%nat ->
      exists p, (p < length keys_d)%nat /\ keys_d !!! p = nk !!! 1%nat
                /\ children_d !!! p = Z.of_nat 1
                /\ forall p', (p' < length keys_d)%nat ->
                     keys_d !!! p' = nk !!! 1%nat -> p' = p)
  /\ ((3 < length keys_d)%nat -> children_d !!! 3%nat <> -1 ->
      exists i', (i' < length nk)%nat
                 /\ children_d !!! 3%nat = Z.of_nat i'
                 /\ keys_d !!! 3%nat = nk !!! i').
Proof.
  apply (finest_links 2 1 [3; 12; 13] sample_empty 1 3).
  - lia.
  - reflexivity.
  - reflexivity.
  - exact sample_nodes.
  - simpl. lia.
Defined.

(** ** From the points to the nodes *)

Lemma lor_below (n a b : Z) :
  0 <= n -> 0 <= a < 2 ^ n -> 0 <= b < 2 ^ n -> 0 <= Z.lor a b < 2 ^ n.
Proof.
  intros Hn Ha Hb.
  assert (0 <= Z.lor a b) as Hpos by (apply Z.lor_nonneg; lia).
  split; [done|].
  destruct (decide (Z.lor a b = 0)) as [->|Hne]; [lia|].
  apply Z.log2_lt_pow2; [lia|].
  rewrite Z.log2_lor by lia.
  destruct (decide (a = 0)) as [->|Ha0], (decide (b = 0)) as [->|Hb0];
    try (rewrite Z.lor_0_l in Hne || rewrite Z.lor_0_r in Hne);
    try done.
  - change (Z.log2 0) with 0. rewrite Z.max_r by apply Z.log2_nonneg.
    apply Z.log2_lt_pow2; lia.
  - change (Z.log2 0) with 0. rewrite Z.max_l by apply Z.log2_nonneg.
    apply Z.log2_lt_pow2; lia.
  - apply Z.max_lub_lt; apply Z.log2_lt_pow2; lia.
Qed.

Lemma land_bit (x : Z) (i : nat) :
  Z.land x (Z.shiftl 1 (Z.of_nat i))
  = if Z.testbit x (Z.of_nat i) then 2 ^ Z.of_nat i else 0.
Proof.
  pose proof (land_bit_is_zero x i) as Hz.
  destruct (Z.testbit x (Z.of_nat i)) eqn:Hbit; simpl in Hz.
  - rewrite Z.shiftl_1_l. apply Z.bits_inj'. intros n Hn.
    rewrite Z.land_spec.
    destruct (decide (n = Z.of_nat i)) as [->|Hne].
    + by rewrite Hbit, Z.pow2_bits_true by lia.
    + rewrite Z.pow2_bits_false by lia. apply andb_false_r.
  - by apply Z.eqb_eq.
Qed.

Lemma compute_key_below (pt : list Z) (depth : nat) :
  0 <= compute_key pt depth < 8 ^ Z.of_nat depth.
Proof.
  unfold compute_key.
  assert (8 ^ Z.of_nat depth = 2 ^ (3 * Z.of_nat depth)) as ->.
  { rewrite Z.pow_mul_r by lia. done. }
  assert (forall i j, (i < depth)%nat -> (j < 3)%nat ->
            0 <= wrap_uint32
                   (Z.shiftl (Z.land (pt !!! j) (Z.shiftl 1 (Z.of_nat i)))
                      (Z.of_nat (2 * i + 2 - j)))
            < 2 ^ (3 * Z.of_nat depth)) as Hterm.
  { intros i j Hi Hj. rewrite land_bit.
    assert (0 < 2 ^ (3 * Z.of_nat depth)) by (apply Z.pow_pos_nonneg; lia).
    destruct (Z.testbit (pt !!! j) (Z.of_nat i)).
    - rewrite Z.shiftl_mul_pow2, <- Z.pow_add_r by lia.
      assert (0 < 2 ^ (Z.of_nat i + Z.of_nat (2 * i + 2 - j)))
        by (apply Z.pow_pos_nonneg; lia).
      assert (2 ^ (Z.of_nat i + Z.of_nat (2 * i + 2 - j))
              < 2 ^ (3 * Z.of_nat depth))
        by (apply Z.pow_lt_mono_r; lia).
      unfold wrap_uint32.
      pose proof (Z.mod_le (2 ^ (Z.of_nat i + Z.of_nat (2 * i + 2 - j)))
                    (2 ^ 32) ltac:(lia) ltac:(lia)).
      pose proof (Z.mod_pos_bound
                    (2 ^ (Z.of_nat i + Z.of_nat (2 * i + 2 - j)))
                    (2 ^ 32) ltac:(lia)).
      lia.
    - rewrite Z.shiftl_0_l. by vm_compute. }
  assert (forall (l : list nat) key,
            (forall i, i ∈ l -> (i < depth)%nat) ->
            0 <= key < 2 ^ (3 * Z.of_nat depth) ->
            0 <= foldl (fun key i =>
                          foldl (fun key j =>
                                   Z.lor key
                                     (wrap_uint32
                                        (Z.shiftl
                                           (Z.land (pt !!! j)
                                              (Z.shiftl 1 (Z.of_nat i)))
                                           (Z.of_nat (2 * i + 2 - j)))))
                                key (seq 0 3)) key l
            < 2 ^ (3 * Z.of_nat depth)) as Hall.
  { induction l as [|i l IH]; intros key Hl Hkey; [done|].
    cbn [foldl]. apply IH.
    - intros i' Hi'. apply Hl. by right.
    - assert (i < depth)%nat as Hi by (apply Hl; by left).
      cbn [seq foldl].
      repeat apply lor_below; try lia; try done; apply Hterm; lia. }
  apply Hall.
  - intros i Hi. apply elem_of_seq in Hi. lia.
  - split; [lia|]. apply Z.pow_pos_nonneg; lia.
Qed.

(** X13.  The first stages of [build], from the scaled points to the
    structure, for a header with [full_layer < depth <= 10] and a cloud
    of at most [2^32] points: every point is found again.  Point [h]
    stands at some position [r] of the sorted order, [r] lies in one run
    [b] of [unique_key], and the finest layer has exactly one node with
    the key of the point; that node is not empty and its child link is
    [b], the number of the run. *)
Theorem points_reach_nodes (depth fl : nat) (pts_scaled : list float)
    (t : Octree) (h : nat) :
  let N := (length pts_scaled / 3)%nat in
  let key_of i :=
    compute_key
      (map (fun j => float_to_uint32 (pts_scaled !!! (3 * i + j)%nat))
           (seq 0 3))
      (Z.to_nat (Z.of_nat depth)) in
  let sorted := sort_keys (Z.of_nat depth) pts_scaled in
  let uniq := unique_key sorted.1 in
  let built := (build_structure uniq.1 (clear (Z.of_nat depth) t)).1 in
  let keys_d := keys_ built !!! depth in
  let children_d := children_ built !!! depth in
  (fl < depth <= 10)%nat ->
  depth_ (oct_info_ t) = Z.of_nat depth ->
  full_layer_ (oct_info_ t) = Z.of_nat fl ->
  Z.of_nat N <= 2 ^ 32 -> (h < N)%nat ->
  exists r b p,
    (r < N)%nat /\ sorted.2 !!! r = Z.of_nat h
    /\ (b < length uniq.1)%nat
    /\ uniq.2 !!! b <= Z.of_nat r < uniq.2 !!! S b
    /\ (p < length keys_d)%nat /\ keys_d !!! p = key_of h
    /\ children_d !!! p = Z.of_nat b
    /\ forall p', (p' < length keys_d)%nat ->
         keys_d !!! p' = key_of h -> p' = p.
Proof.
  intros N key_of sorted uniq built keys_d children_d Hlayers Hdepth Hfull
    HN Hh.
  subst keys_d children_d built uniq.
  set (keys := map key_of (seq 0 N)).
  assert (length keys = N) as Hlen
    by (unfold keys; by rewrite length_map, length_seq).
  assert (sorted.1 = unpack_keys (sort_codes keys)) as Hsk by done.
  assert (sorted.2 = unpack_idx (sort_codes keys)) as Hsi by done.
  assert (Z.of_nat (length keys) <= 2 ^ 32) as Hfew by (by rewrite Hlen).
  destruct (sort_codes_keys_sorted keys) as [Hsorted Hlen'].
  rewrite <- Hsk in Hsorted, Hlen'. rewrite Hlen in Hlen'.
  (* the position of the point *)
  assert (Z.of_nat h ∈ sorted.2) as Hin.
  { rewrite Hsi.
    apply (elem_of_Permutation_proper _ _ _ (sort_codes_idx_perm keys Hfew)).
    apply list_elem_of_fmap. exists h. split; [done|].
    apply elem_of_seq. lia. }
  apply list_elem_of_lookup_total_1 in Hin as (r & Hr & Hrh).
  assert (length sorted.2 = N) as Hlen2.
  { rewrite Hsi. unfold unpack_idx. rewrite length_map.
    by rewrite sort_codes_length. }
  rewrite Hlen2 in Hr.
  destruct (sort_codes_pair keys Hfew r ltac:(lia)) as [_ Hkey].
  rewrite <- Hsk, <- Hsi, Hrh, Nat2Z.id in Hkey.
  assert (sorted.1 !!! r = key_of h) as Hkr.
  { rewrite Hkey. unfold keys.
    rewrite lookup_total_map by (by rewrite length_seq).
    rewrite lookup_total_seq_lt by done. cbn [Nat.add].
    apply wrap_uint32_small, compute_key_uint32. }
  (* the keys are in range *)
  assert (Forall (fun k => 0 <= k < 8 ^ Z.of_nat depth) sorted.1) as Hrange.
  { apply Forall_lookup_2. intros q x Hqx.
    pose proof (lookup_lt_Some _ _ _ Hqx) as Hq. rewrite Hlen' in Hq.
    apply list_lookup_total_correct in Hqx as <-.
    destruct (sort_codes_pair keys Hfew q ltac:(lia)) as [Hidx Hkq].
    rewrite <- Hsk, <- Hsi in Hkq. rewrite <- Hsi in Hidx.
    rewrite Hkq. unfold keys.
    rewrite lookup_total_map by (rewrite length_seq; lia).
    rewrite lookup_total_seq_lt by lia. cbn [Nat.add].
    rewrite wrap_uint32_small by apply compute_key_uint32.
    unfold key_of. rewrite Nat2Z.id. apply compute_key_below. }
  (* the run of the position *)
  destruct (unique_sorted_occupied sorted.1 (8 ^ Z.of_nat depth)
              ltac:(lia) Hsorted Hrange) as [Hocc Hone].
  destruct (unique_key_post sorted.1 ltac:(lia))
    as [_ _ _ _ _ _ Hruns _].
  destruct (Hruns r ltac:(lia)) as (b & Hb & Hrun & Hrb).
  (* the node of the run *)
  destruct (build_structure_numbered depth fl (unique_key sorted.1).1 t
              Hlayers Hdepth Hfull Hocc Hone) as (Nn & HNn & _ & Hnum & _).
  destruct (Hnum depth ltac:(lia)) as (Hsize & Hkeys & _ & [_ Hnode _]).
  rewrite HNn in Hnode.
  destruct (Hnode b Hb) as (p & Hp & Hc & Hk).
  rewrite Hsize in Hp.
  assert ((keys_ (build_structure (unique_key sorted.1).1
                    (clear (Z.of_nat depth) t)).1 !!! depth) !!! p
          = key_of h) as Hkp by (by rewrite Hk, <- Hrb).
  exists r, b, p.
  split; [done|]. split; [done|]. split; [done|]. split; [done|].
  split; [done|]. split; [done|]. split; [done|].
  intros p' Hp' Hk'.
  apply (occupied_inj _ _ p' p Hkeys); [done | done |]. by rewrite Hk', Hkp.
Qed.

Lemma points_reach_nodes_sample :
  let pts :=
    [FFin (2 ^ 149); FFin 0; FFin 0; FFin 0; FFin 0; FFin 0;
     FFin (2 ^ 149); FFin 0; FFin 0] in
  let key_of i :=
    compute_key
      (map (fun j => float_to_uint32 (pts !!! (3 * i + j)%nat)) (seq 0 3))
      (Z.to_nat (Z.of_nat 2)) in
  let sorted := sort_keys (Z.of_nat 2) pts in
  let uniq := unique_key sorted.1 in
  let built := (build_structure uniq.1 (clear (Z.of_nat 2) sample_empty)).1 in
  let keys_d := keys_ built !!! 2%nat in
  let children_d := children_ built !!! 2%nat in
  exists r b p,
    (r < 3)%nat /\ sorted.2 !!! r = Z.of_nat 2
    /\ (b < length uniq.1)%nat
    /\ uniq.2 !!! b <= Z.of_nat r < uniq.2 !!! S b
    /\ (p < length keys_d)%nat /\ keys_d !!! p = key_of 2%nat
    /\ children_d !!! p = Z.of_nat b
    /\ forall p', (p' < length keys_d)%nat ->
         keys_d !!! p' = key_of 2%nat -> p' = p.
Proof.
  apply (points_reach_nodes 2 1
           [FFin (2 ^ 149); FFin 0; FFin 0; FFin 0; FFin 0; FFin 0;
            FFin (2 ^ 149); FFin 0; FFin 0] sample_empty 2).
  - lia.
  - reflexivity.
  - reflexivity.
  - simpl. lia.
  - simpl. lia.
Defined.

(** * Further properties of the trimming *)

(** ** The nodes that a layer keeps *)

Lemma kept_nodes_S (drop_d : list TrimType) (n : nat) :
  kept_nodes drop_d (S n)
  = kept_nodes drop_d n
    ++ (if decide (drop_d !!! n = kDrop) then [] else [n]).
Proof.
  unfold kept_nodes. rewrite seq_S, filter_app. f_equal. cbn [Nat.add].
  rewrite filter_cons, filter_nil.
  destruct (decide (drop_d !!! n = kDrop)) as [Hd|Hd].
  - by rewrite decide_False by (intros Hc; by apply Hc).
  - by rewrite decide_True.
Qed.

Lemma kept_nodes_elem (drop_d : list TrimType) (n i : nat) :
  i ∈ kept_nodes drop_d n <-> (i < n)%nat /\ drop_d !!! i <> kDrop.
Proof.
  unfold kept_nodes. rewrite list_elem_of_filter, elem_of_seq.
  split; intros [? ?]; split; (done || lia).
Qed.

Lemma kept_nodes_lookup (drop_d : list TrimType) (n p : nat) :
  (p < length (kept_nodes drop_d n))%nat ->
  (kept_nodes drop_d n !!! p < n)%nat
  /\ drop_d !!! (kept_nodes drop_d n !!! p) <> kDrop.
Proof.
  intros Hp. apply kept_nodes_elem.
  by apply list_elem_of_lookup_total_2.
Qed.

Lemma kept_nodes_length (drop_d : list TrimType) (n : nat) :
  (length (kept_nodes drop_d n) <= n)%nat.
Proof.
  unfold kept_nodes. etrans; [apply length_filter|]. by rewrite length_seq.
Qed.

Lemma trim_keys_kept (drop_d : list TrimType) (keys_d : list Z) (n : nat) :
  trim_keys drop_d keys_d n = (fun i => keys_d !!! i) <$> kept_nodes drop_d n.
Proof.
  unfold trim_keys. induction n as [|n IH]; [done|].
  rewrite seq_S, foldl_app, kept_nodes_S, fmap_app. cbn [foldl Nat.add].
  rewrite IH. case_decide; [by rewrite app_nil_r | done].
Qed.

(** The renumbering loop: the counter is the number of kept nodes that
    stay internal, and a kept node that stays internal gets the value of
    the counter when the loop reaches it. *)
Lemma trim_children_fold (drop_d : list TrimType) (children_d : list Z)
    (n : nat) :
  let stays := stays_internal drop_d children_d in
  let kept := kept_nodes drop_d n in
  let st :=
    foldl (fun '(children, id) i =>
             if decide (drop_d !!! i = kDrop) then (children, id)
             else if bool_decide (drop_d !!! i = kKeep)
                     && negb (bool_decide
                                (node_type (children_d !!! i) = kLeaf))
                  then (children ++ [id], id + 1)
                  else (children ++ [-1], id))
          ([], 0) (seq 0 n) in
  st.2 = Z.of_nat (length (filter (fun i => stays i = true) kept))
  /\ length st.1 = length kept
  /\ forall p, (p < length kept)%nat ->
       st.1 !!! p
       = if stays (kept !!! p)
         then Z.of_nat (length (filter (fun i => stays i = true)
                                  (take p kept)))
         else -1.
Proof.
  intros stays. induction n as [|n IH]; cbn zeta.
  - cbn. split; [done|]. split; [done|]. intros p Hp.
    unfold kept_nodes in Hp. cbn in Hp. lia.
  - rewrite seq_S, foldl_app, kept_nodes_S. cbn [foldl Nat.add].
    cbn zeta in IH.
    destruct (foldl _ ([], 0) (seq 0 n)) as [children id].
    cbn [fst snd] in IH. destruct IH as (Hid & Hlen & Hall).
    case_decide as Hdrop.
    + rewrite app_nil_r. done.
    + fold (stays_internal drop_d children_d n). fold (stays n).
      rewrite filter_app, !length_app, filter_cons, filter_nil.
      destruct (stays n) eqn:Hstays; cbn [fst snd length].
      * rewrite decide_True by done. cbn [length].
        split; [lia|]. split; [rewrite length_app; cbn [length]; lia|].
        intros p Hp.
        destruct (decide (p < length (kept_nodes drop_d n))%nat)
          as [Hlt|Hge].
        -- rewrite !lookup_total_app_l by lia.
           rewrite take_app_le by lia. by apply Hall.
        -- assert (p = length (kept_nodes drop_d n)) as -> by lia.
           rewrite lookup_total_app_r by lia.
           rewrite (lookup_total_app_r (kept_nodes drop_d n)) by lia.
           rewrite Hlen, Nat.sub_diag. cbn [lookup_total list_lookup_total].
           rewrite Hstays, take_app_length. done.
      * rewrite decide_False by done. cbn [length].
        split; [lia|]. split; [rewrite length_app; cbn [length]; lia|].
        intros p Hp.
        destruct (decide (p < length (kept_nodes drop_d n))%nat)
          as [Hlt|Hge].
        -- rewrite !lookup_total_app_l by lia.
           rewrite take_app_le by lia. by apply Hall.
        -- assert (p = length (kept_nodes drop_d n)) as -> by lia.
           rewrite lookup_total_app_r by lia.
           rewrite (lookup_total_app_r (kept_nodes drop_d n)) by lia.
           rewrite Hlen, Nat.sub_diag. cbn [lookup_total list_lookup_total].
           by rewrite Hstays.
Qed.

Lemma trim_children_kept (drop_d : list TrimType) (children_d : list Z)
    (n : nat) :
  let stays := stays_internal drop_d children_d in
  let kept := kept_nodes drop_d n in
  length (trim_children drop_d children_d n) = length kept
  /\ forall p, (p < length kept)%nat ->
       trim_children drop_d children_d n !!! p
       = if stays (kept !!! p)
         then Z.of_nat (length (filter (fun i => stays i = true)
                                  (take p kept)))
         else -1.
Proof.
  intros stays kept.
  destruct (trim_children_fold drop_d children_d n) as (_ & Hlen & Hall).
  by split.
Qed.

(** ** The layers that the rewriting loop reaches *)

Lemma trim_layers_vectors (drop : list (list TrimType)) (t : Octree)
    (A n d : nat) :
  let T := foldl (trim_layer drop) t (seq A n) in
  let cnt := Z.to_nat (nnum (oct_info_ t) (Z.of_nat d)) in
  oct_info_ T = oct_info_ t
  /\ length (keys_ T) = length (keys_ t)
  /\ length (children_ T) = length (children_ t)
  /\ keys_ T !!! d
     = (if decide ((A <= d < A + n)%nat /\ (d < length (keys_ t))%nat)
        then trim_keys (drop !!! d) (keys_ t !!! d) cnt
        else keys_ t !!! d)
  /\ children_ T !!! d
     = (if decide ((A <= d < A + n)%nat /\ (d < length (children_ t))%nat)
        then trim_children (drop !!! d) (children_ t !!! d) cnt
        else children_ t !!! d).
Proof.
  induction n as [|n IH]; cbn zeta.
  - cbn [seq foldl]. repeat split; try done;
      by rewrite decide_False by lia.
  - rewrite seq_S, foldl_app. cbn [foldl]. cbn zeta in IH.
    set (prev := foldl (trim_layer drop) t (seq A n)) in *.
    destruct IH as (Hinfo & Hk & Hc & Hkeys & Hchildren).
    destruct (trim_layer_fields drop prev (A + n)) as (-> & -> & ->).
    rewrite !length_insert. split; [done|]. split; [done|].
    split; [done|]. rewrite Hinfo.
    destruct (decide (d = A + n)%nat) as [->|Hne].
    + rewrite decide_False in Hkeys by lia.
      rewrite decide_False in Hchildren by lia.
      split.
      * destruct (decide (A + n < length (keys_ t))%nat) as [Hlt|Hge].
        -- rewrite list_lookup_total_insert_eq by lia.
           rewrite decide_True by lia. by rewrite Hkeys.
        -- rewrite decide_False by lia.
           by rewrite !list_lookup_total_alt, !lookup_ge_None_2
             by (rewrite ?length_insert; lia).
      * destruct (decide (A + n < length (children_ t))%nat) as [Hlt|Hge].
        -- rewrite list_lookup_total_insert_eq by lia.
           rewrite decide_True by lia. by rewrite Hchildren.
        -- rewrite decide_False by lia.
           by rewrite !list_lookup_total_alt, !lookup_ge_None_2
             by (rewrite ?length_insert; lia).
    + rewrite !list_lookup_total_insert_ne by done.
      rewrite Hkeys, Hchildren. split.
      * destruct (decide (d < length (keys_ t))%nat);
          destruct (decide (A <= d < A + n)%nat);
          [rewrite !decide_True by lia | rewrite !decide_False by lia..];
          done.
      * destruct (decide (d < length (children_ t))%nat);
          destruct (decide (A <= d < A + n)%nat);
          [rewrite !decide_True by lia | rewrite !decide_False by lia..];
          done.
Qed.

(** A layer of the trimmed octree. *)
Lemma trim_octree_layer (t : Octree) (d : nat) :
  let lo := adp_layer_ (oct_info_ t) in
  let hi := depth_ (oct_info_ t) in
  let cnt := Z.to_nat (nnum (oct_info_ t) (Z.of_nat d)) in
  let reached :=
    is_adaptive_ (oct_info_ t) = true /\ 0 <= lo <= Z.of_nat d
    /\ Z.of_nat d <= hi in
  keys_ (trim_octree t) !!! d
  = (if decide (reached /\ (d < length (keys_ t))%nat)
     then trim_keys (drop_flags t !!! d) (keys_ t !!! d) cnt
     else keys_ t !!! d)
  /\ children_ (trim_octree t) !!! d
     = (if decide (reached /\ (d < length (children_ t))%nat)
        then trim_children (drop_flags t !!! d) (children_ t !!! d) cnt
        else children_ t !!! d)
  \/ lo < 0.
Proof.
  intros lo hi cnt reached.
  destruct (decide (lo < 0)) as [Hneg|Hpos]; [by right | left].
  unfold trim_octree. subst reached.
  destruct (is_adaptive_ (oct_info_ t)); cbn [negb].
  - set (A := Z.to_nat (adp_layer_ (oct_info_ t))).
    set (n := Z.to_nat (depth_ (oct_info_ t) - adp_layer_ (oct_info_ t) + 1)).
    destruct (calc_node_num_fields
                (foldl (trim_layer (drop_flags t)) t (seq A n)))
      as (-> & -> & _).
    destruct (trim_layers_vectors (drop_flags t) t A n d)
      as (_ & _ & _ & -> & ->).
    fold cnt. fold lo hi in A, n |- *.
    split.
    + destruct (decide ((A <= d < A + n)%nat /\ (d < length (keys_ t))%nat));
        [rewrite decide_True by (unfold A, n in *; lia)
        |rewrite decide_False by (unfold A, n in *; lia)]; done.
    + destruct (decide ((A <= d < A + n)%nat
                        /\ (d < length (children_ t))%nat));
        [rewrite decide_True by (unfold A, n in *; lia)
        |rewrite decide_False by (unfold A, n in *; lia)]; done.
  - rewrite !decide_False by (intros [[? _] _]; done). done.
Qed.

(** X14.  The layers that [trim_octree] rewrites, node by node.  On a
    layer [d] between the adaptive layer and [depth_] of an adaptive
    octree, the nodes whose flag is not [kDrop] stay, in their order and
    with their keys.  A kept node whose flag is [kKeep] and that is not a
    leaf gets as child link the number of such nodes before it; every
    other kept node, also an internal node with flag [kDropChildren],
    becomes a leaf. *)
Theorem trim_octree_nodes (t : Octree) (d p : nat) :
  is_adaptive_ (oct_info_ t) = true ->
  0 <= adp_layer_ (oct_info_ t) <= Z.of_nat d ->
  Z.of_nat d <= depth_ (oct_info_ t) ->
  (d < length (keys_ t))%nat -> (d < length (children_ t))%nat ->
  let drop_d := drop_flags t !!! d in
  let kept := kept_nodes drop_d (Z.to_nat (nnum (oct_info_ t) (Z.of_nat d))) in
  let stays := stays_internal drop_d (children_ t !!! d) in
  (p < length kept)%nat ->
  length (keys_ (trim_octree t) !!! d) = length kept
  /\ length (children_ (trim_octree t) !!! d) = length kept
  /\ (keys_ (trim_octree t) !!! d) !!! p = (keys_ t !!! d) !!! (kept !!! p)
  /\ (children_ (trim_octree t) !!! d) !!! p
     = if stays (kept !!! p)
       then Z.of_nat (length (filter (fun i => stays i = true)
                                (take p kept)))
       else -1.
Proof.
  intros Hadaptive Hlo Hhi Hk Hc drop_d kept stays Hp.
  destruct (trim_octree_layer t d) as [[-> ->]|Hneg]; [|lia].
  rewrite !decide_True by (repeat split; (done || lia)).
  fold drop_d. rewrite trim_keys_kept. fold kept.
  destruct (trim_children_kept drop_d (children_ t !!! d)
              (Z.to_nat (nnum (oct_info_ t) (Z.of_nat d)))) as (Hlen & Hall).
  fold kept stays in Hlen, Hall.
  split; [by rewrite length_fmap|]. split; [done|]. split.
  - by rewrite (list_lookup_total_fmap (fun i => (keys_ t !!! d) !!! i) kept p)
      by done.
  - by apply Hall.
Qed.

(** ** Order of the kept keys *)

Lemma fmap_seq_lookup (l : list Z) (n : nat) :
  (n <= length l)%nat -> (fun i => l !!! i) <$> seq 0 n = take n l.
Proof.
  induction n as [|n IH]; intros Hn; [done|].
  rewrite seq_S, fmap_app, IH by lia. cbn [fmap list_fmap Nat.add].
  by rewrite (take_S_r l n (l !!! n))
    by (apply list_lookup_lookup_total_lt; lia).
Qed.

Lemma trim_keys_sublist (drop_d : list TrimType) (keys_d : list Z) (n : nat) :
  (n <= length keys_d)%nat -> trim_keys drop_d keys_d n `sublist_of` keys_d.
Proof.
  intros Hn. rewrite trim_keys_kept.
  trans (take n keys_d); [|apply sublist_take].
  rewrite <- fmap_seq_lookup by done.
  apply fmap_sublist. unfold kept_nodes. apply sublist_filter.
Qed.

Lemma StronglySorted_sublist {A} (R : A -> A -> Prop) (l k : list A) :
  l `sublist_of` k -> StronglySorted R k -> StronglySorted R l.
Proof.
  induction 1 as [|x l k Hsub IH|x l k Hsub IH]; intros Hk.
  - done.
  - apply StronglySorted_inv in Hk as [Hk Hx].
    constructor; [by apply IH|].
    apply Forall_forall. intros y Hy.
    rewrite Forall_forall in Hx. apply Hx.
    by apply (elem_of_sublist l k).
  - apply StronglySorted_inv in Hk as [Hk _]. by apply IH.
Qed.

(** X15.  [trim_octree] only removes nodes: the keys of every layer
    after the call are the keys before it with some entries left out, in
    the same order.  A layer whose keys were strictly increasing, as
    [build_structure] leaves them, is still strictly increasing. *)
Theorem trim_octree_keeps_order (t : Octree) (d : nat) :
  (Z.to_nat (nnum (oct_info_ t) (Z.of_nat d)) <= length (keys_ t !!! d))%nat ->
  keys_ (trim_octree t) !!! d `sublist_of` keys_ t !!! d
  /\ (length (keys_ (trim_octree t) !!! d) <= length (keys_ t !!! d))%nat
  /\ (StronglySorted Z.lt (keys_ t !!! d) ->
      StronglySorted Z.lt (keys_ (trim_octree t) !!! d)).
Proof.
  intros Hn.
  assert (keys_ (trim_octree t) !!! d `sublist_of` keys_ t !!! d) as Hsub.
  { unfold trim_octree.
    destruct (is_adaptive_ (oct_info_ t)); cbn [negb]; [|done].
    set (A := Z.to_nat (adp_layer_ (oct_info_ t))).
    set (n := Z.to_nat (depth_ (oct_info_ t) - adp_layer_ (oct_info_ t) + 1)).
    destruct (calc_node_num_fields
                (foldl (trim_layer (drop_flags t)) t (seq A n)))
      as (-> & _).
    destruct (trim_layers_vectors (drop_flags t) t A n d)
      as (_ & _ & _ & -> & _).
    case_decide; [by apply trim_keys_sublist | done]. }
  split; [done|]. split; [by apply sublist_length|].
  by apply StronglySorted_sublist.
Qed.

(** ** The flags of a node and of its parent *)

Lemma block_parent_unique (nnum_dp nnum_d : nat) (children_dp : list Z)
    (i i' idx : nat) :
  blocks_ok nnum_dp nnum_d children_dp ->
  (i < nnum_dp)%nat -> (i' < nnum_dp)%nat ->
  idx ∈ block_cells children_dp i -> idx ∈ block_cells children_dp i' ->
  i = i'.
Proof.
  intros [Hrange Hinj] Hi Hi' Hidx Hidx'.
  apply block_cells_elem in Hidx as (Hne & j & Hj & ->).
  apply block_cells_elem in Hidx' as (Hne' & j' & Hj' & Heq).
  destruct (Hrange i Hi Hne) as [Hpos _].
  destruct (Hrange i' Hi' Hne') as [Hpos' _].
  apply Hinj; [done | done | done | lia].
Qed.

Section FinalFlags.

Variables (has_dis : bool) (th_dist th_norm : float).
Variables (children_d : list Z) (normal_err_d distance_err_d : list float).
Variables (children_dp : list Z) (drop_dp : list TrimType).
Variables (nnum_dp nnum_d : nat).

Hypothesis linked_blocks : blocks_ok nnum_dp nnum_d children_dp.

(** After both passes a cell is flagged [kDrop] exactly when the flag of
    its parent is not [kKeep]: the second pass restores a cell of a kept
    block, which the first pass did not flag [kDrop]. *)
Lemma flag_layer_drop (c0 i idx : nat) :
  c0 ∈ kept_cells children_dp drop_dp nnum_dp ->
  children_d !!! c0 <> -1 ->
  fgt (normal_err_d !!! c0) f_minus_one = true ->
  (i < nnum_dp)%nat -> idx ∈ block_cells children_dp i ->
  flag_layer has_dis th_dist th_norm children_d normal_err_d
    distance_err_d nnum_dp children_dp drop_dp (replicate nnum_d kKeep)
    !!! idx = kDrop
  <-> drop_dp !!! i <> kKeep.
Proof using All.
  intros Hc0 Hint Habove Hi Hidx.
  destruct (generate_flags_spec has_dis th_dist th_norm children_d
              normal_err_d distance_err_d children_dp drop_dp nnum_dp
              nnum_d linked_blocks) as (Hlen & Hspec & _ & _).
  assert (flag_spec has_dis th_dist th_norm normal_err_d distance_err_d
            drop_dp i idx = kDrop <-> drop_dp !!! i <> kKeep) as Hfirst.
  { unfold flag_spec. case_decide as Hk.
    - split; [|done]. by destruct (small_error _ _ _ _ _ _).
    - done. }
  pose proof (flag_layer_restores has_dis th_dist th_norm children_d
                normal_err_d distance_err_d children_dp drop_dp nnum_dp
                nnum_d linked_blocks c0 Hc0 Hint Habove) as Hrestore.
  cbn zeta in Hrestore. unfold flag_layer in *.
  destruct (generate_flags _ _ _ _ _ _ _ _ _ _) as [drop_d all_drop].
  cbn [fst snd] in *. rewrite <- Hfirst, <- (Hspec i idx Hi Hidx).
  destruct all_drop; [|done].
  destruct (Hrestore eq_refl) as (Hkeep & Hin & _).
  set (restored := (find_max children_d normal_err_d nnum_dp children_dp
                      drop_dp).1) in *.
  destruct (decide (idx = restored)) as [->|Hne].
  - rewrite Hkeep.
    apply kept_cells_elem in Hin as (i' & Hi' & Hk' & Hin').
    assert (i = i') as <-
      by (by apply (block_parent_unique nnum_dp nnum_d children_dp i i'
                      restored)).
    rewrite (Hspec i restored Hi Hidx). unfold flag_spec.
    rewrite decide_True by done.
    by destruct (small_error _ _ _ _ _ _).
  - by rewrite list_lookup_total_insert_ne by done.
Qed.

End FinalFlags.

Section DropFlags.

Variables (t : Octree) (D A : nat).
Hypothesis ready : trim_ready t D A.

Let cnt (e : nat) : nat := Z.to_nat (nnum (oct_info_ t) (Z.of_nat e)).

Lemma drop_flags_rounds : drop_flags t = flag_rounds t (D - A + 1).
Proof using All.
  destruct ready as [(HD & HA & Hle) _ _ _ _ _ _ _].
  unfold drop_flags. rewrite HD, HA. f_equal. lia.
Qed.

Lemma drop_flags_upper (e : nat) :
  (e < A)%nat -> drop_flags t !!! e = replicate (cnt e) kKeep.
Proof using All.
  intros He. rewrite drop_flags_rounds.
  by apply (flag_rounds_earlier t D A ready).
Qed.

Lemma drop_flags_own_round (d : nat) :
  (A <= d <= D)%nat ->
  drop_flags t !!! d = flag_rounds t (S (d - A)) !!! d.
Proof using All.
  intros Hd. rewrite drop_flags_rounds.
  apply (flag_rounds_stable t D A ready); lia.
Qed.

Lemma drop_flags_parent_round (d : nat) :
  (A <= d <= D)%nat ->
  drop_flags t !!! (d - 1)%nat = flag_rounds t (d - A) !!! (d - 1)%nat.
Proof using All.
  pose proof ready as [(HD & HA & Hle) _ _ _ _ _ _ _]. intros Hd.
  destruct (decide (d = A)) as [->|Hne].
  - rewrite drop_flags_upper by lia.
    rewrite Nat.sub_diag. symmetry.
    apply (flag_rounds_earlier t D A ready). lia.
  - rewrite drop_flags_own_round by lia. f_equal. f_equal. lia.
Qed.

Lemma drop_flags_cell (d i idx : nat) :
  (A <= d <= D)%nat -> (i < cnt (d - 1))%nat ->
  idx ∈ block_cells (children_ t !!! (d - 1)%nat) i ->
  (drop_flags t !!! d) !!! idx = kDrop
  <-> (drop_flags t !!! (d - 1)%nat) !!! i <> kKeep.
Proof using All.
  pose proof ready as [_ _ _ _ Hblocks _ _ _]. intros Hd Hi Hidx.
  rewrite drop_flags_own_round, drop_flags_parent_round by done.
  rewrite (flag_rounds_round t D A ready) by done.
  destruct (flag_rounds_candidate t D A ready d Hd)
    as (c0 & Hc0 & Hint & Habove).
  { intros Hlt.
    rewrite (flag_rounds_stable t D A ready (d - A) (d - 1)) by lia.
    replace (S (d - 1 - A)) with (d - A)%nat by lia.
    replace (d - A)%nat with (S (d - 1 - A)) by lia.
    apply (flag_rounds_keep t D A ready). lia. }
  by apply (flag_layer_drop _ _ _ _ _ _ _ _ _ _ (Hblocks d Hd) c0).
Qed.

End DropFlags.

(** X16.  Which nodes [trim_octree] removes, on an octree that meets
    [trim_ready]: the header agrees with the builder state, the child
    links from layer [A - 1] on point to whole blocks of the next layer
    and share none, some node of layer [A - 1] and every internal node of
    the layers [A .. D - 1] has an internal child, and the normal errors
    of internal nodes are above [-1].  In the final flag table, a node of
    a layer [d] from the adaptive layer on, in the block of a parent [i],
    is flagged [kDrop] exactly when the flag of its parent is not
    [kKeep], that is, when the parent is removed itself or loses its
    children; the search for the largest error never brings back a
    removed node.  The layers above the adaptive layer are all [kKeep],
    so no node of the adaptive layer is removed. *)
Theorem removed_with_parent (t : Octree) (D A d i idx : nat) :
  trim_ready t D A ->
  (A <= d <= D)%nat ->
  (i < Z.to_nat (nnum (oct_info_ t) (Z.of_nat (d - 1))))%nat ->
  idx ∈ block_cells (children_ t !!! (d - 1)%nat) i ->
  ((drop_flags t !!! d) !!! idx = kDrop
   <-> (drop_flags t !!! (d - 1)%nat) !!! i <> kKeep)
  /\ (d = A -> (drop_flags t !!! d) !!! idx <> kDrop).
Proof.
  intros Hready Hd Hi Hidx.
  pose proof (drop_flags_cell t D A Hready d i idx Hd Hi Hidx) as Hiff.
  split; [done|]. intros ->. rewrite Hiff.
  rewrite (drop_flags_upper t D A Hready) by (destruct Hready; lia).
  rewrite lookup_total_replicate_2 by done. by intros Hc.
Qed.

(** ** Blocks of the kept nodes *)

Lemma internal_before_le (children : list Z) (p q : nat) :
  (p <= q)%nat ->
  (internal_before children p <= internal_before children q)%nat.
Proof.
  intros Hpq. unfold internal_before.
  replace q with (p + (q - p))%nat by lia.
  rewrite <- take_take_drop, filter_app, length_app. lia.
Qed.

Lemma internal_before_lt (children : list Z) (s q : nat) :
  (s < length children)%nat -> children !!! s <> -1 -> (s < q)%nat ->
  (internal_before children s < internal_before children q)%nat.
Proof.
  intros Hs Hint Hq.
  pose proof (internal_before_le children (S s) q ltac:(lia)) as Hle.
  rewrite internal_before_S in Hle by done.
  rewrite decide_False in Hle by done. lia.
Qed.

Lemma internal_before_nth (children : list Z) (n b : nat) :
  (n <= length children)%nat -> (b < internal_before children n)%nat ->
  exists s, (s < n)%nat /\ children !!! s <> -1
            /\ internal_before children s = b.
Proof.
  induction n as [|n IH]; intros Hn Hb.
  - rewrite internal_before_0 in Hb. lia.
  - rewrite internal_before_S in Hb by lia.
    destruct (decide (b < internal_before children n)%nat) as [Hlt|Hge].
    + destruct (IH ltac:(lia) Hlt) as (s & Hs & Hint & Heq).
      exists s. split; [lia | done].
    + case_decide as Hleaf; [lia|].
      exists n. split; [lia|]. split; [done | lia].
Qed.

Lemma ranked_last_nempty (children : list Z) (n : nat) :
  (forall s, (s < n)%nat -> children !!! s <> -1 ->
     children !!! s = Z.of_nat (internal_before children s)) ->
  (n <= length children)%nat -> Z.of_nat n < 2 ^ 31 ->
  last_nempty children n = Z.of_nat (internal_before children n).
Proof.
  intros Hrank Hn Hsmall. induction n as [|n IH]; [done|].
  cbn [last_nempty]. rewrite internal_before_S by lia.
  assert (internal_before children n <= n)%nat as Hle.
  { unfold internal_before. etrans; [apply length_filter|].
    rewrite length_take. lia. }
  destruct (Z.eqb_spec (children !!! n) (-1)) as [Hleaf|Hint]; cbn [negb].
  - rewrite decide_True by done. rewrite IH; [lia | | lia | lia].
    intros s Hs. apply Hrank. lia.
  - rewrite decide_False by done.
    rewrite (Hrank n) by (lia || done).
    rewrite wrap_int_small by lia. lia.
Qed.

Lemma filter_rank_lookup (P : nat -> Prop) `{forall x, Decision (P x)}
    (l : list nat) (p : nat) :
  (p < length l)%nat -> P (l !!! p) ->
  filter P l !!! length (filter P (take p l)) = l !!! p.
Proof.
  intros Hp HP.
  pose proof (take_drop_middle l p (l !!! p)
                (list_lookup_lookup_total_lt l p Hp)) as Hsplit.
  set (a := take p l) in *. set (x := l !!! p) in *.
  set (b := drop (S p) l) in *. clearbody a x b. subst l.
  rewrite filter_app, filter_cons, decide_True by done.
  rewrite lookup_total_app_r by lia. by rewrite Nat.sub_diag.
Qed.

Lemma bind_block_lookup (f : nat -> list nat) (l : list nat) (r k : nat) :
  (forall x, length (f x) = 8%nat) -> (r < length l)%nat -> (k < 8)%nat ->
  (l ≫= f) !!! (8 * r + k)%nat = f (l !!! r) !!! k.
Proof.
  intros Hf. revert r. induction l as [|x l IH]; intros r Hr Hk;
    [simpl in Hr; lia|].
  rewrite bind_cons. destruct r as [|r].
  - rewrite lookup_total_app_l by (rewrite Hf; lia). done.
  - rewrite lookup_total_app_r by (rewrite Hf; lia). rewrite Hf.
    replace (8 * S r + k - 8)%nat with (8 * r + k)%nat by lia.
    simpl in Hr. rewrite IH by lia. done.
Qed.

Lemma length_bind_block (f : nat -> list nat) (l : list nat) :
  (forall x, length (f x) = 8%nat) -> length (l ≫= f) = (8 * length l)%nat.
Proof.
  intros Hf. induction l as [|x l IH]; [done|].
  rewrite bind_cons, length_app, Hf, IH. simpl. lia.
Qed.

Lemma StronglySorted_seq (a n : nat) : StronglySorted lt (seq a n).
Proof.
  revert a. induction n as [|n IH]; intros a; [constructor|].
  cbn [seq]. constructor; [apply IH|].
  apply Forall_forall. intros y Hy. apply elem_of_seq in Hy. lia.
Qed.

Lemma StronglySorted_lt_NoDup (l : list nat) : StronglySorted lt l -> NoDup l.
Proof.
  induction 1 as [|x l Hl IH Hx]; [constructor|].
  apply NoDup_cons. split; [|done].
  intros Hin. rewrite Forall_forall in Hx. specialize (Hx x Hin). lia.
Qed.

Lemma StronglySorted_blocks (g : nat -> nat) (l : list nat) :
  StronglySorted lt l ->
  (forall x y, x ∈ l -> y ∈ l -> (x < y)%nat -> (g x < g y)%nat) ->
  StronglySorted lt
    (l ≫= fun s => (fun k => (8 * g s + k)%nat) <$> seq 0 8).
Proof.
  induction 1 as [|x l Hl IH Hx]; intros Hg; [constructor|].
  rewrite bind_cons. apply StronglySorted_app_2.
  - intros c c' Hc Hc'.
    apply list_elem_of_fmap in Hc as (k & -> & Hk).
    apply elem_of_seq in Hk.
    apply list_elem_of_bind in Hc' as (y & Hc' & Hy).
    apply list_elem_of_fmap in Hc' as (k' & -> & Hk').
    rewrite Forall_forall in Hx.
    pose proof (Hg x y ltac:(left) ltac:(by right) (Hx y Hy)). lia.
  - cbn [seq fmap list_fmap].
    repeat (constructor; [|repeat constructor; lia]). constructor.
  - apply IH. intros y y' Hy Hy'. apply Hg; by right.
Qed.

Lemma trimmed_rank (drop_d : list TrimType) (children_d : list Z)
    (n p : nat) :
  let stays := stays_internal drop_d children_d in
  let kept := kept_nodes drop_d n in
  (p <= length kept)%nat ->
  internal_before (trim_children drop_d children_d n) p
  = length (filter (fun i => stays i = true) (take p kept)).
Proof.
  intros stays kept.
  destruct (trim_children_kept drop_d children_d n) as (Hlen & Hall).
  fold kept stays in Hlen, Hall.
  induction p as [|p IH]; intros Hp; [done|].
  rewrite internal_before_S by lia. rewrite IH by lia.
  rewrite (take_S_r kept p (kept !!! p))
    by (apply list_lookup_lookup_total_lt; lia).
  rewrite filter_app, length_app, filter_cons, filter_nil.
  rewrite Hall by lia.
  destruct (stays (kept !!! p)) eqn:Hstays.
  - rewrite (decide_True (P := true = true)) by done.
    rewrite (decide_False (P := Z.of_nat _ = -1)) by lia. done.
  - rewrite (decide_False (P := false = true)) by done.
    rewrite (decide_True (P := -1 = -1)) by done. done.
Qed.

Section TrimPair.

Variables (keysP childrenP keysE : list Z).
Variables (dropP dropE : list TrimType).

Let nP := length childrenP.
Let nE := length keysE.
Let rank := internal_before childrenP.

Hypothesis linked_layers : block_linked keysP childrenP keysE.
Hypothesis flags :
  forall s k, (s < nP)%nat -> childrenP !!! s <> -1 -> (k < 8)%nat ->
    dropE !!! (8 * rank s + k)%nat = kDrop <-> dropP !!! s <> kKeep.

Let keptP := kept_nodes dropP nP.
Let keptE := kept_nodes dropE nE.
Let stays := stays_internal dropP childrenP.
Let parents := filter (fun i => stays i = true) keptP.
Let block (s : nat) : list nat :=
  (fun k => (8 * rank s + k)%nat) <$> seq 0 8.

Lemma stays_spec (s : nat) :
  stays s = true <-> dropP !!! s = kKeep /\ childrenP !!! s <> -1.
Proof using Type.
  unfold stays, stays_internal.
  rewrite andb_true_iff, negb_true_iff, bool_decide_eq_true,
    bool_decide_eq_false, node_type_leaf. done.
Qed.

Lemma parents_elem (s : nat) :
  s ∈ parents
  <-> (s < nP)%nat /\ dropP !!! s = kKeep /\ childrenP !!! s <> -1.
Proof using Type.
  unfold parents, keptP.
  rewrite list_elem_of_filter, kept_nodes_elem, stays_spec. split.
  - intros [[Hk Hint] [Hs _]]. done.
  - intros (Hs & Hk & Hint). rewrite Hk. done.
Qed.

(** The kept nodes of the child layer are the blocks of the parents
    that stay internal, in the order of the parents. *)
Lemma kept_blocks : keptE = parents ≫= block.
Proof using All.
  destruct linked_layers as [Hsize Hlink].
  assert (StronglySorted lt keptE) as HsortE.
  { unfold keptE, kept_nodes.
    eapply StronglySorted_sublist; [apply sublist_filter|].
    apply StronglySorted_seq. }
  assert (StronglySorted lt (parents ≫= block)) as HsortB.
  { apply StronglySorted_blocks.
    - unfold parents, keptP, kept_nodes.
      eapply StronglySorted_sublist; [apply sublist_filter|].
      eapply StronglySorted_sublist; [apply sublist_filter|].
      apply StronglySorted_seq.
    - intros x y Hx _ Hxy. apply parents_elem in Hx as (Hx & _ & Hint).
      by apply internal_before_lt. }
  apply (StronglySorted_unique_strong lt); [intros; lia | done | done |].
  apply NoDup_Permutation; [by apply StronglySorted_lt_NoDup..|].
  intros c. unfold keptE. rewrite kept_nodes_elem, list_elem_of_bind.
  split.
  - intros [Hc Hkeep]. unfold nE in Hc. rewrite Hsize in Hc.
    destruct (internal_before_nth childrenP (length childrenP) (c / 8))
      as (s & Hs & Hint & Hrank); [lia | |].
    { apply Nat.Div0.div_lt_upper_bound. lia. }
    assert (c = 8 * rank s + c mod 8)%nat as Hcell.
    { unfold rank. rewrite Hrank. apply Nat.div_mod_eq. }
    pose proof (Nat.mod_upper_bound c 8 ltac:(lia)) as Hk.
    exists s. split.
    + unfold block. apply list_elem_of_fmap. exists (c mod 8)%nat.
      split; [done | apply elem_of_seq; lia].
    + apply parents_elem. split; [done|]. split; [|done].
      destruct (decide (dropP !!! s = kKeep)) as [|Hno]; [done|].
      exfalso. apply Hkeep. rewrite Hcell. by apply flags.
  - intros (s & Hc & Hs). apply parents_elem in Hs as (Hs & Hk & Hint).
    apply list_elem_of_fmap in Hc as (k & -> & Hkk).
    apply elem_of_seq in Hkk.
    pose proof (internal_before_lt childrenP s (length childrenP) Hs Hint Hs)
      as Hlt.
    split.
    + unfold nE. rewrite Hsize. unfold rank. lia.
    + rewrite flags by (done || lia). by intros Hc.
Qed.

Let children' := trim_children dropP childrenP nP.

(** Trimming two linked layers leaves two linked layers. *)
Lemma trim_block_linked :
  block_linked (trim_keys dropP keysP nP) children'
    (trim_keys dropE keysE nE).
Proof using All.
  destruct (trim_children_kept dropP childrenP nP) as (Hlen & Hall).
  fold children' keptP stays in Hlen, Hall.
  assert (forall x, length (block x) = 8%nat) as Hblock.
  { intros x. unfold block. by rewrite length_fmap, length_seq. }
  assert (forall p, (p <= length keptP)%nat ->
            internal_before children' p
            = length (filter (fun i => stays i = true) (take p keptP)))
    as Hrank by (intros p Hp; by apply trimmed_rank).
  assert (internal_before children' (length children') = length parents)
    as Hcount.
  { rewrite Hrank by lia. by rewrite Hlen, take_ge by lia. }
  split.
  - rewrite trim_keys_kept, length_fmap. fold keptE.
    rewrite kept_blocks, length_bind_block by done. by rewrite Hcount.
  - intros p Hp Hint. rewrite Hlen in Hp.
    rewrite Hall in Hint |- * by done.
    destruct (stays (keptP !!! p)) eqn:Hstays; [|done].
    rewrite Hrank by lia. split; [done|].
    intros k Hk.
    set (r := length (filter (fun i => stays i = true) (take p keptP))).
    assert (r < length parents)%nat as Hr.
    { rewrite <- Hcount. unfold r. rewrite <- Hrank by lia.
      apply internal_before_lt; [lia | | lia].
      rewrite Hall, Hstays by done. lia. }
    assert (parents !!! r = keptP !!! p) as Hparent
      by (by apply filter_rank_lookup).
    destruct (kept_nodes_lookup dropP nP p Hp) as [Hs _]. fold keptP in Hs.
    apply stays_spec in Hstays as [_ Hinternal].
    destruct linked_layers as [_ Hlink].
    destruct (Hlink (keptP !!! p) Hs Hinternal) as [_ Hkeys].
    rewrite !trim_keys_kept. fold keptE keptP.
    rewrite (list_lookup_total_fmap (fun i => keysP !!! i) keptP p) by done.
    rewrite (list_lookup_total_fmap (fun i => keysE !!! i) keptE)
      by (rewrite kept_blocks, length_bind_block by done; lia).
    rewrite kept_blocks, bind_block_lookup by done.
    rewrite Hparent. unfold block.
    rewrite (list_lookup_total_fmap _ (seq 0 8) k)
      by (rewrite length_seq; lia).
    rewrite lookup_total_seq_lt by lia. cbn [Nat.add].
    by apply Hkeys.
Qed.

End TrimPair.

(** ** Layers that keep all their nodes *)

Lemma kept_nodes_all (n m : nat) :
  (n <= m)%nat -> kept_nodes (replicate m kKeep) n = seq 0 n.
Proof.
  induction n as [|n IH]; intros Hn; [done|].
  rewrite kept_nodes_S, IH by lia.
  rewrite lookup_total_replicate_2 by lia.
  rewrite decide_False by done. by rewrite seq_S.
Qed.

Lemma trim_keys_all (keys_d : list Z) :
  trim_keys (replicate (length keys_d) kKeep) keys_d (length keys_d) = keys_d.
Proof.
  rewrite trim_keys_kept, kept_nodes_all, fmap_seq_lookup by done.
  by rewrite take_ge.
Qed.

Lemma trim_children_all (children_d : list Z) :
  (forall s, (s < length children_d)%nat -> children_d !!! s <> -1 ->
     children_d !!! s = Z.of_nat (internal_before children_d s)) ->
  trim_children (replicate (length children_d) kKeep) children_d
    (length children_d) = children_d.
Proof.
  intros Hrank. set (n := length children_d).
  set (c' := trim_children (replicate n kKeep) children_d n).
  destruct (trim_children_kept (replicate n kKeep) children_d n)
    as (Hlen & Hall).
  rewrite kept_nodes_all in Hlen, Hall by done.
  rewrite length_seq in Hlen, Hall. fold c' in Hlen, Hall.
  assert (forall p, (p <= n)%nat -> take p c' = take p children_d) as Htake.
  { induction p as [|p IH]; intros Hp; [done|].
    rewrite (take_S_r c' p (c' !!! p))
      by (apply list_lookup_lookup_total_lt; lia).
    rewrite (take_S_r children_d p (children_d !!! p))
      by (apply list_lookup_lookup_total_lt; unfold n in Hp; lia).
    rewrite IH by lia. f_equal. f_equal.
    rewrite Hall by lia. rewrite lookup_total_seq_lt by lia. cbn [Nat.add].
    pose proof (trimmed_rank (replicate n kKeep) children_d n p) as Hr.
    cbn zeta in Hr. rewrite kept_nodes_all in Hr by done.
    rewrite length_seq in Hr. fold c' in Hr. rewrite <- Hr by lia.
    unfold internal_before at 1. rewrite IH by lia.
    fold (internal_before children_d p).
    unfold stays_internal. rewrite lookup_total_replicate_2 by lia.
    rewrite bool_decide_eq_true_2 by done. cbn [andb].
    case_bool_decide as Hleaf; cbn [negb].
    - apply node_type_leaf in Hleaf. by rewrite Hleaf.
    - symmetry. apply Hrank; [unfold n in Hp; lia|].
      intros Hc. by apply Hleaf, node_type_leaf. }
  rewrite <- (take_ge c' n) by lia.
  rewrite Htake by lia. by apply take_ge.
Qed.

(** ** The trimmed octree is an octree *)

Lemma trim_octree_counts (t : Octree) (d : nat) :
  is_adaptive_ (oct_info_ t) = true ->
  Z.of_nat d <= depth_ (oct_info_ t) ->
  (Z.to_nat (depth_ (oct_info_ t) + 1) <= length (nnum_ (oct_info_ t)))%nat ->
  (Z.to_nat (depth_ (oct_info_ t) + 1)
   <= length (nnum_nempty_ (oct_info_ t)))%nat ->
  let T := trim_octree t in
  nnum (oct_info_ T) (Z.of_nat d)
  = wrap_int (Z.of_nat (length (keys_ T !!! d)))
  /\ nnum_nempty (oct_info_ T) (Z.of_nat d)
     = last_nempty (children_ T !!! d)
         (Z.to_nat (wrap_int (Z.of_nat (length (keys_ T !!! d))))).
Proof.
  intros Hadaptive Hd Hnnum Hnempty. cbn zeta. unfold trim_octree.
  rewrite Hadaptive. cbn [negb].
  set (A := Z.to_nat (adp_layer_ (oct_info_ t))).
  set (n := Z.to_nat (depth_ (oct_info_ t) - adp_layer_ (oct_info_ t) + 1)).
  destruct (trim_layers_vectors (drop_flags t) t A n d) as (Hinfo & _).
  set (T0 := foldl (trim_layer (drop_flags t)) t (seq A n)) in *.
  destruct (calc_node_num_fields T0) as (-> & -> & _).
  rewrite calc_node_num_nnum by (rewrite Hinfo; lia).
  rewrite calc_node_num_nempty by (rewrite Hinfo; lia).
  done.
Qed.

Section TrimmedOctree.

Variables (t : Octree) (D A : nat).

Hypothesis adaptive : is_adaptive_ (oct_info_ t) = true.
Hypothesis ready : trim_ready t D A.

Let cnt (e : nat) : nat := Z.to_nat (nnum (oct_info_ t) (Z.of_nat e)).

Hypothesis sizes :
  forall d, (d <= D)%nat ->
    length (keys_ t !!! d) = cnt d /\ length (children_ t !!! d) = cnt d.
Hypothesis linked_layers :
  forall d, (d < D)%nat ->
    block_linked (keys_ t !!! d) (children_ t !!! d) (keys_ t !!! S d).

Lemma trimmed_layer (d : nat) :
  (d <= D)%nat ->
  keys_ (trim_octree t) !!! d
  = trim_keys (drop_flags t !!! d) (keys_ t !!! d) (cnt d)
  /\ ((d < D)%nat ->
      children_ (trim_octree t) !!! d
      = trim_children (drop_flags t !!! d) (children_ t !!! d) (cnt d)).
Proof using All.
  pose proof ready as [(HD & HA & Hle) _ [Hk Hc] _ _ _ _ _]. intros Hd.
  destruct (sizes d Hd) as [Hkd Hcd].
  destruct (trim_octree_layer t d) as [[-> ->]|Hneg]; [|lia].
  destruct (decide (A <= d)%nat) as [Hge|Hlt].
  - rewrite !decide_True by (repeat split; (done || lia)). done.
  - rewrite !decide_False by lia.
    rewrite (drop_flags_upper t D A ready) by lia. fold (cnt d).
    split.
    + rewrite <- Hkd. by rewrite trim_keys_all.
    + intros HdD. rewrite <- Hcd. rewrite trim_children_all; [done|].
      intros s Hs Hint.
      destruct (linked_layers d HdD) as [_ Hlink].
      by destruct (Hlink s Hs Hint).
Qed.

Lemma trimmed_flags (e s k : nat) :
  (e < D)%nat -> (s < cnt e)%nat -> (children_ t !!! e) !!! s <> -1 ->
  (k < 8)%nat ->
  (drop_flags t !!! S e)
    !!! (8 * internal_before (children_ t !!! e) s + k)%nat = kDrop
  <-> (drop_flags t !!! e) !!! s <> kKeep.
Proof using All.
  pose proof ready as [(HD & HA & Hle) _ _ _ _ _ _ _].
  intros He Hs Hint Hk.
  destruct (sizes e ltac:(lia)) as [_ Hce].
  destruct (sizes (S e) ltac:(lia)) as [Hke _].
  destruct (linked_layers e He) as [Hsize Hlink].
  destruct (Hlink s ltac:(lia) Hint) as [Hrank _].
  destruct (decide (S e < A)%nat) as [Hlt|Hge].
  - rewrite !(drop_flags_upper t D A ready) by lia.
    fold (cnt e) (cnt (S e)).
    pose proof (internal_before_lt (children_ t !!! e) s
                  (length (children_ t !!! e)) ltac:(lia) Hint ltac:(lia)).
    rewrite !lookup_total_replicate_2 by lia. done.
  - pose proof (drop_flags_cell t D A ready (S e) s
                  (8 * internal_before (children_ t !!! e) s + k)) as Hcell.
    replace (S e - 1)%nat with e in Hcell by lia.
    apply Hcell; [lia | done |].
    apply block_cells_elem. split; [done|].
    exists k. split; [done|]. rewrite Hrank. lia.
Qed.

Lemma trimmed_block_linked (e : nat) :
  (e < D)%nat ->
  block_linked (keys_ (trim_octree t) !!! e)
    (children_ (trim_octree t) !!! e) (keys_ (trim_octree t) !!! S e).
Proof using All.
  intros He.
  destruct (sizes e ltac:(lia)) as [Hke Hce].
  destruct (sizes (S e) ltac:(lia)) as [HkE _].
  destruct (trimmed_layer e ltac:(lia)) as [-> Hchildren].
  rewrite Hchildren by done.
  destruct (trimmed_layer (S e) ltac:(lia)) as [-> _].
  rewrite <- Hce at 1 2. rewrite <- HkE.
  apply trim_block_linked; [by apply linked_layers|].
  intros s k Hs Hint Hk. apply trimmed_flags; (done || lia).
Qed.

End TrimmedOctree.

(** X17.  [trim_octree] turns an octree into an octree, in adaptive
    mode and on an octree that meets [trim_ready] (the header agrees with
    the builder state, the child links from layer [A - 1] on point to
    whole blocks and share none, some node of layer [A - 1] and every
    internal node of the layers [A .. D - 1] has an internal child, the
    normal errors of internal nodes are above [-1]) and whose layers have
    [nnum[d]] keys and child links.  When the child links of every layer
    of the input count the internal nodes before them and the blocks of
    the next layer hold the keys [8 * key + k], the same is true of the
    output: the kept internal nodes are renumbered in their order, the
    blocks of the next layer that stay are exactly the blocks of these
    nodes, in the same order, and the header holds
    [nnum[e + 1] = 8 * nnum_nempty[e]]. *)
Theorem trim_octree_block_linked (t : Octree) (D A e : nat) :
  is_adaptive_ (oct_info_ t) = true ->
  trim_ready t D A ->
  (S D <= length (nnum_ (oct_info_ t)))%nat ->
  (forall d, (d <= D)%nat ->
     length (keys_ t !!! d) = Z.to_nat (nnum (oct_info_ t) (Z.of_nat d))
     /\ length (children_ t !!! d)
        = Z.to_nat (nnum (oct_info_ t) (Z.of_nat d))) ->
  (forall d, (d < D)%nat ->
     block_linked (keys_ t !!! d) (children_ t !!! d) (keys_ t !!! S d)) ->
  (e < D)%nat ->
  block_linked (keys_ (trim_octree t) !!! e)
    (children_ (trim_octree t) !!! e) (keys_ (trim_octree t) !!! S e)
  /\ nnum (oct_info_ (trim_octree t)) (Z.of_nat (S e))
     = 8 * nnum_nempty (oct_info_ (trim_octree t)) (Z.of_nat e).
Proof.
  intros Hadaptive Hready Hnnum Hsizes Hlinked He.
  pose proof (trimmed_block_linked t D A Hadaptive Hready Hsizes Hlinked e He)
    as Hblock.
  split; [done|].
  pose proof Hready as [(HD & HA & Hle) Hnempty _ Hcounts _ _ _ _].
  destruct (trim_octree_counts t (S e) Hadaptive) as [-> _];
    [lia | lia | lia |].
  destruct (trim_octree_counts t e Hadaptive) as [_ ->];
    [lia | lia | lia |].
  destruct (trimmed_layer t D A Hadaptive Hready Hsizes Hlinked e
              ltac:(lia)) as [Hkeys Hchildren].
  destruct (trimmed_layer t D A Hadaptive Hready Hsizes Hlinked (S e)
              ltac:(lia)) as [HkeysE _].
  specialize (Hchildren He).
  destruct (Hsizes e ltac:(lia)) as [Hke Hce].
  destruct (Hsizes (S e) ltac:(lia)) as [HkE _].
  pose proof (Hcounts e ltac:(lia)) as Hsmall.
  pose proof (Hcounts (S e) ltac:(lia)) as HsmallE.
  assert (length (keys_ (trim_octree t) !!! e)
          = length (children_ (trim_octree t) !!! e)) as Hsame.
  { rewrite Hkeys, Hchildren.
    by destruct (trim_children_keys_spec (drop_flags t !!! e)
                   (children_ t !!! e) (keys_ t !!! e)
                   (Z.to_nat (nnum (oct_info_ t) (Z.of_nat e))))
      as (-> & _). }
  assert (length (keys_ (trim_octree t) !!! e)
          <= Z.to_nat (nnum (oct_info_ t) (Z.of_nat e)))%nat as Hshort.
  { rewrite Hkeys, trim_keys_kept, length_fmap. apply kept_nodes_length. }
  assert (length (keys_ (trim_octree t) !!! S e)
          <= Z.to_nat (nnum (oct_info_ t) (Z.of_nat (S e))))%nat as HshortE.
  { rewrite HkeysE, trim_keys_kept, length_fmap. apply kept_nodes_length. }
  destruct Hblock as [Hsize Hlink].
  rewrite !wrap_int_small by lia. rewrite Nat2Z.id, Hsame.
  rewrite ranked_last_nempty; [lia | | lia | lia].
  intros s Hs Hint. by destruct (Hlink s Hs Hint).
Qed.

(** ** The built octree is in block order *)

Section BuiltBlocks.

Variables (depth fl : nat) (nk : list Z) (t : Octree).

Hypothesis layers : (fl < depth <= 10)%nat.
Hypothesis header_depth : depth_ (oct_info_ t) = Z.of_nat depth.
Hypothesis header_full : full_layer_ (oct_info_ t) = Z.of_nat fl.
Hypothesis nodes : occupied (8 ^ Z.of_nat depth) nk.
Hypothesis some_node : (1 <= length nk)%nat.

Let built := (build_structure nk (clear (Z.of_nat depth) t)).1.

Lemma built_linked_layers (e : nat) :
  (e < depth)%nat ->
  block_linked (keys_ built !!! e) (children_ built !!! e)
    (keys_ built !!! S e)
  /\ length (children_ built !!! e) = length (keys_ built !!! e).
Proof using All.
  intros He.
  destruct (build_structure_numbered depth fl nk t layers header_depth
              header_full nodes some_node) as (N & _ & _ & Hnum & Hlen & _).
  destruct (build_structure_shape depth fl nk t ltac:(lia) header_depth
              header_full nodes some_node)
    as (_ & _ & Hkeys & Hchildren & _ & _ & _ & Hlinked).
  fold built in Hnum, Hlen, Hkeys, Hchildren, Hlinked.
  pose proof (Hnum e ltac:(lia)) as Hn.
  pose proof Hn as (Hsize & _).
  split; [|done]. split.
  - rewrite Hlen by done. by rewrite (numbered_count _ _ _ _ Hn).
  - intros s Hs Hint.
    pose proof (numbered_rank _ _ _ _ Hn s Hs Hint) as Hrank.
    split; [done|]. intros k Hk.
    destruct (decide (e < fl)%nat) as [Hfull|Hdeep].
    + destruct (Hkeys e ltac:(lia)) as [HsizeP HkeyP].
      destruct (Hkeys (S e) ltac:(lia)) as [HsizeE HkeyE].
      destruct (Hchildren e Hfull) as [HsizeC HchildP].
      rewrite HsizeC in Hs.
      rewrite (HchildP s Hs) in Hrank.
      replace (internal_before (children_ built !!! e) s) with s by lia.
      rewrite HkeyP by done. rewrite HkeyE; [lia|].
      cbn [Nat.pow]. lia.
    + pose proof (Hlinked (S e) ltac:(lia)) as [_ _ Hchild _ _].
      replace (S e - 1)%nat with e in Hchild by lia.
      destruct (Hchild s Hs Hint) as (b & Hb & _ & _ & Hblock & _).
      replace (internal_before (children_ built !!! e) s) with b by lia.
      by apply Hblock.
Qed.

End BuiltBlocks.

(** X18.  [build_structure] stores the child blocks in the order of
    their parents: on every layer [e < depth] the child link of an
    internal node is the number of internal nodes before it in the
    layer, the next layer has eight nodes for each internal node, and
    the block of node [s] holds the keys [8 * keys[e][s] + k]. *)
Theorem built_block_order (depth fl : nat) (nk : list Z) (t : Octree)
    (e s k : nat) :
  (fl < depth <= 10)%nat ->
  depth_ (oct_info_ t) = Z.of_nat depth ->
  full_layer_ (oct_info_ t) = Z.of_nat fl ->
  occupied (8 ^ Z.of_nat depth) nk -> (1 <= length nk)%nat ->
  let built := (build_structure nk (clear (Z.of_nat depth) t)).1 in
  let children_e := children_ built !!! e in
  (e < depth)%nat -> (s < length children_e)%nat ->
  children_e !!! s <> -1 -> (k < 8)%nat ->
  length (keys_ built !!! S e)
  = (8 * internal_before children_e (length children_e))%nat
  /\ children_e !!! s = Z.of_nat (internal_before children_e s)
  /\ (keys_ built !!! S e) !!! (8 * internal_before children_e s + k)%nat
     = 8 * (keys_ built !!! e) !!! s + Z.of_nat k.
Proof.
  intros Hlayers Hdepth Hfull Hocc Hone built children_e He Hs Hint Hk.
  destruct (built_linked_layers depth fl nk t Hlayers Hdepth Hfull Hocc Hone
              e He) as [[Hsize Hlink] _].
  fold built in Hsize, Hlink. fold children_e in Hsize, Hlink.
  destruct (Hlink s Hs Hint) as [Hrank Hkeys].
  split; [done|]. split; [done | by apply Hkeys].
Qed.

(** X18 on the sample: node 1 of layer 1 is the second internal node of
    its layer and owns the second block of layer 2. *)
Lemma built_block_order_sample :
  length (keys_ sample_built !!! 2%nat)
  = (8 * internal_before (children_ sample_built !!! 1%nat)
           (length (children_ sample_built !!! 1%nat)))%nat
  /\ (children_ sample_built !!! 1%nat) !!! 1%nat
     = Z.of_nat (internal_before (children_ sample_built !!! 1%nat) 1)
  /\ (keys_ sample_built !!! 2%nat)
       !!! (8 * internal_before (children_ sample_built !!! 1%nat) 1 + 5)%nat
     = 8 * (keys_ sample_built !!! 1%nat) !!! 1%nat + Z.of_nat 5.
Proof.
  apply (built_block_order 2 1 [3; 12; 13] sample_empty 1 1 5).
  - lia.
  - reflexivity.
  - reflexivity.
  - exact sample_nodes.
  - simpl. lia.
  - lia.
  - vm_compute. lia.
  - vm_compute. discriminate.
  - lia.
Defined.

(** ** The trimming on a sample of depth 3 *)

Lemma sample_deep_nodes : occupied (8 ^ Z.of_nat 3) [3; 12; 13; 70; 511].
Proof.
  split.
  - repeat (constructor; [|repeat constructor; lia]). constructor.
  - repeat constructor; lia.
Qed.

Lemma sample_deep_ready : trim_ready sample_deep 3 2.
Proof.
  apply (built_ready 3 1 2 [3; 12; 13; 70; 511] sample_deep_empty
           sample_deep).
  - lia.
  - reflexivity.
  - reflexivity.
  - reflexivity.
  - lia.
  - exact sample_deep_nodes.
  - simpl. lia.
  - vm_compute. lia.
  - vm_compute. lia.
  - by vm_compute.
  - by vm_compute.
  - by vm_compute.
  - intros e idx He Hidx _.
    assert (e = 2 \/ e = 3)%nat as [-> | ->] by lia.
    + vm_compute in Hidx.
      do 24 (destruct idx as [|idx]; [by vm_compute|]). lia.
    + vm_compute in Hidx.
      do 32 (destruct idx as [|idx]; [by vm_compute|]). lia.
Qed.

Lemma sample_deep_sizes (d : nat) :
  (d <= 3)%nat ->
  length (keys_ sample_deep !!! d)
  = Z.to_nat (nnum (oct_info_ sample_deep) (Z.of_nat d))
  /\ length (children_ sample_deep !!! d)
     = Z.to_nat (nnum (oct_info_ sample_deep) (Z.of_nat d)).
Proof.
  intros Hd. do 4 (destruct d as [|d]; [by vm_compute|]). lia.
Qed.

Lemma sample_deep_linked (d : nat) :
  (d < 3)%nat ->
  block_linked (keys_ sample_deep !!! d) (children_ sample_deep !!! d)
    (keys_ sample_deep !!! S d).
Proof.
  intros Hd.
  by destruct (built_linked_layers 3 1 [3; 12; 13; 70; 511]
                 sample_deep_empty ltac:(lia) eq_refl eq_refl
                 sample_deep_nodes ltac:(simpl; lia) d Hd).
Qed.

(** X14 on the sample: layer 3 keeps the two blocks whose parents stay
    internal; the node with key 13 is the sixth kept node and the second
    one that stays internal. *)
Lemma trim_octree_nodes_sample :
  length (keys_ (trim_octree sample_deep) !!! 3%nat) = 16%nat
  /\ length (children_ (trim_octree sample_deep) !!! 3%nat) = 16%nat
  /\ (keys_ (trim_octree sample_deep) !!! 3%nat) !!! 5%nat = 13
  /\ (children_ (trim_octree sample_deep) !!! 3%nat) !!! 5%nat = 1.
Proof.
  assert (0 <= adp_layer_ (oct_info_ sample_deep) <= Z.of_nat 3) as Hlo
    by (vm_compute; split; discriminate).
  assert (Z.of_nat 3 <= depth_ (oct_info_ sample_deep)) as Hhi
    by (vm_compute; discriminate).
  assert (3 < length (keys_ sample_deep))%nat as Hk by (vm_compute; lia).
  assert (3 < length (children_ sample_deep))%nat as Hc
    by (vm_compute; lia).
  assert (5 < 16)%nat as Hp by lia.
  exact (trim_octree_nodes sample_deep 3 5 eq_refl Hlo Hhi Hk Hc Hp).
Defined.

Lemma trim_octree_keeps_order_sample :
  keys_ (trim_octree sample_deep) !!! 3%nat
    `sublist_of` keys_ sample_deep !!! 3%nat
  /\ (length (keys_ (trim_octree sample_deep) !!! 3%nat)
      <= length (keys_ sample_deep !!! 3%nat))%nat
  /\ (StronglySorted Z.lt (keys_ sample_deep !!! 3%nat) ->
      StronglySorted Z.lt (keys_ (trim_octree sample_deep) !!! 3%nat)).
Proof.
  apply (trim_octree_keeps_order sample_deep 3).
  vm_compute. lia.
Defined.

(** X16 on the sample: node 0 of layer 2 loses its children, so node 3
    of layer 3, a cell of its block, is removed. *)
Lemma removed_with_parent_sample :
  ((drop_flags sample_deep !!! 3%nat) !!! 3%nat = kDrop
   <-> (drop_flags sample_deep !!! (3 - 1)%nat) !!! 0%nat <> kKeep)
  /\ (3%nat = 2%nat -> (drop_flags sample_deep !!! 3%nat) !!! 3%nat <> kDrop).
Proof.
  apply (removed_with_parent sample_deep 3 2 3 0 3).
  - exact sample_deep_ready.
  - lia.
  - vm_compute. lia.
  - apply block_cells_elem. split; [by vm_compute|].
    exists 3%nat. split; [lia | by vm_compute].
Defined.

(** X17 on the sample: layers 2 and 3 of the trimmed octree. *)
Lemma trim_octree_block_linked_sample :
  block_linked (keys_ (trim_octree sample_deep) !!! 2%nat)
    (children_ (trim_octree sample_deep) !!! 2%nat)
    (keys_ (trim_octree sample_deep) !!! 3%nat)
  /\ nnum (oct_info_ (trim_octree sample_deep)) (Z.of_nat 3)
     = 8 * nnum_nempty (oct_info_ (trim_octree sample_deep)) (Z.of_nat 2).
Proof.
  apply (trim_octree_block_linked sample_deep 3 2 2).
  - reflexivity.
  - exact sample_deep_ready.
  - vm_compute. lia.
  - exact sample_deep_sizes.
  - exact sample_deep_linked.
  - lia.
Defined.

(** * The covered nodes of the finest layer *)

Lemma finest_before_mono (children : list (list Z)) (e n p q : nat) :
  (p <= q)%nat ->
  (finest_before children e n p <= finest_before children e n q)%nat.
Proof.
  revert e p q. induction n as [|n IH]; intros e p q Hpq; cbn; [done|].
  apply IH. pose proof (internal_before_le (children !!! e) p q Hpq). lia.
Qed.

(** ** Loops that store into one layer of a table *)

Lemma table_fold (L : nat) (fa fb : list Z -> nat -> list Z)
    (body : list (list Z) * list (list Z) -> nat
            -> list (list Z) * list (list Z))
    (js : list nat) (dnum didx : list (list Z)) :
  (L < length dnum)%nat -> (L < length didx)%nat ->
  (forall dn di i, (L < length dn)%nat -> (L < length di)%nat ->
     body (dn, di) i
     = (<[L := fa (dn !!! L) i]> dn, <[L := fb (di !!! L) i]> di)) ->
  foldl body (dnum, didx) js
  = (<[L := foldl fa (dnum !!! L) js]> dnum,
     <[L := foldl fb (didx !!! L) js]> didx).
Proof.
  intros HL1 HL2 Hbody. induction js as [|j js IH] using rev_ind.
  - cbn. rewrite !list_insert_id; [done | by apply list_lookup_lookup_total_lt..].
  - rewrite !foldl_app, IH. cbn [foldl].
    rewrite Hbody by (by rewrite length_insert).
    rewrite !list_lookup_total_insert_eq by done.
    by rewrite !list_insert_insert_eq.
Qed.

Lemma fold_write (w : nat -> option Z) (f : list Z -> nat -> list Z)
    (l : list Z) (n : nat) :
  (forall l i, f l i = match w i with Some v => <[i := v]> l | None => l end) ->
  length (foldl f l (seq 0 n)) = length l
  /\ forall i, (i < length l)%nat ->
       foldl f l (seq 0 n) !!! i
       = if decide (i < n)%nat then default (l !!! i) (w i) else l !!! i.
Proof.
  intros Hf. induction n as [|n [IHlen IH]].
  - split; [done|]. intros i Hi. by rewrite decide_False by lia.
  - rewrite seq_S, foldl_app. cbn [foldl Nat.add]. rewrite Hf.
    split.
    + destruct (w n); by rewrite ?length_insert.
    + intros i Hi. destruct (decide (i = n)) as [->|Hne].
      * rewrite decide_True by lia. destruct (w n) as [v|]; cbn [default].
        -- by rewrite list_lookup_total_insert_eq by lia.
        -- rewrite IH by done. by rewrite decide_False by lia.
      * assert (foldl f l (seq 0 n) !!! i
                = if decide (i < n)%nat then default (l !!! i) (w i)
                  else l !!! i) as Hprev by (by apply IH).
        destruct (w n) as [v|].
        -- rewrite list_lookup_total_insert_ne by done. rewrite Hprev.
           destruct (decide (i < n)%nat);
             [by rewrite decide_True by lia | by rewrite decide_False by lia].
        -- rewrite Hprev.
           destruct (decide (i < n)%nat);
             [by rewrite decide_True by lia | by rewrite decide_False by lia].
Qed.

(** ** One layer of the bottom-up loop *)

Section CoverLayer.

Variables (children_d dnum_n didx_n : list Z).

Let block (i : nat) : Z := wrap_int (children_d !!! i * 8).
Let sum8 (a : Z) (i : nat) : Z :=
  foldl (fun acc j => wrap_int (acc + dnum_n !!! Z.to_nat (block i + Z.of_nat j)))
        a (seq 0 8).
Let first8 (a : Z) (i : nat) : Z :=
  match list_find (fun j => didx_n !!! Z.to_nat (block i + Z.of_nat j) <> -1)
          (seq 0 8) with
  | Some (_, j) => didx_n !!! Z.to_nat (block i + Z.of_nat j)
  | None => a
  end.

Lemma fold_add_at (g : nat -> Z) (l : list Z) (i : nat) (js : list nat) :
  (i < length l)%nat ->
  foldl (fun l j => <[i := wrap_int (l !!! i + g j)]> l) l js
  = <[i := foldl (fun acc j => wrap_int (acc + g j)) (l !!! i) js]> l.
Proof.
  intros Hi. induction js as [|j js IH] using rev_ind.
  - cbn. symmetry. by apply list_insert_id, list_lookup_lookup_total_lt.
  - rewrite !foldl_app, IH. cbn [foldl].
    rewrite list_lookup_total_insert_eq by done.
    by rewrite list_insert_insert_eq.
Qed.

Lemma cover_layer (n : nat) (dn0 di0 : list Z) :
  length dn0 = length di0 ->
  let st := foldl (cover_node children_d dnum_n didx_n) (dn0, di0)
              (seq 0 n) in
  length st.1 = length dn0 /\ length st.2 = length di0
  /\ forall i, (i < length dn0)%nat ->
       st.1 !!! i
       = (if decide ((i < n)%nat /\ children_d !!! i <> -1)
          then sum8 (dn0 !!! i) i else dn0 !!! i)
       /\ st.2 !!! i
          = (if decide ((i < n)%nat /\ children_d !!! i <> -1)
             then first8 (di0 !!! i) i else di0 !!! i).
Proof using Type.
  intros Hsame. induction n as [|n IH]; cbn zeta.
  - cbn. split; [done|]. split; [done|]. intros i Hi.
    by rewrite !decide_False by lia.
  - rewrite seq_S, foldl_app. cbn [foldl Nat.add]. cbn zeta in IH.
    destruct (foldl _ (dn0, di0) (seq 0 n)) as [dn di]. cbn [fst snd] in IH.
    destruct IH as (Hdn & Hdi & Hall).
    unfold cover_node.
    destruct (decide (node_type (children_d !!! n) = kLeaf)) as [Hleaf|Hleaf].
    + apply node_type_leaf in Hleaf. cbn [fst snd].
      split; [done|]. split; [done|]. intros i Hi.
      destruct (Hall i Hi) as [-> ->].
      destruct (decide (i = n)) as [->|Hne].
      * by rewrite !decide_False by (intros [_ ?]; done).
      * destruct (decide ((i < n)%nat /\ children_d !!! i <> -1));
          [by rewrite !decide_True by (split; [lia | tauto])
          |by rewrite !decide_False by lia].
    + assert (children_d !!! n <> -1) as Hint
        by (intros Hc; by apply Hleaf, node_type_leaf).
      cbn [fst snd].
      destruct (decide (n < length dn0)%nat) as [Hn|Hn].
      * rewrite (fold_add_at
                   (fun j => dnum_n !!!
                      Z.to_nat (wrap_int (children_d !!! n * 8) + Z.of_nat j)))
          by lia.
        destruct (Hall n Hn) as [Hdn_n Hdi_n].
        rewrite decide_False in Hdn_n, Hdi_n by lia.
        split.
        { by rewrite length_insert. }
        split.
        { destruct (list_find _ _) as [[? ?]|]; by rewrite ?length_insert. }
        intros i Hi. destruct (decide (i = n)) as [->|Hne].
        -- rewrite !decide_True by (split; [lia | done]).
           rewrite list_lookup_total_insert_eq by lia. rewrite Hdn_n.
           split; [done|]. unfold first8, block.
           destruct (list_find _ _) as [[? j]|].
           ++ by rewrite list_lookup_total_insert_eq by lia.
           ++ done.
        -- rewrite list_lookup_total_insert_ne by done.
           destruct (Hall i Hi) as [-> Hdi_i].
           assert ((match list_find
                      (fun j => didx_n !!!
                         Z.to_nat (wrap_int (children_d !!! n * 8)
                                   + Z.of_nat j) <> -1) (seq 0 8) with
                    | Some (_, j) =>
                        <[n := didx_n !!!
                                 Z.to_nat (wrap_int (children_d !!! n * 8)
                                           + Z.of_nat j)]> di
                    | None => di
                    end) !!! i = di !!! i) as ->.
           { destruct (list_find _ _) as [[? j]|]; [|done].
             by rewrite list_lookup_total_insert_ne by done. }
           rewrite Hdi_i.
           destruct (decide ((i < n)%nat /\ children_d !!! i <> -1));
             [by rewrite !decide_True by (split; [lia | tauto])
             |by rewrite !decide_False by lia].
      * (* the position lies outside the vectors *)
        assert (forall (g : nat -> Z) (js : list nat) (l : list Z),
                  length l = length dn0 ->
                  foldl (fun l j => <[n := wrap_int (l !!! n + g j)]> l) l js
                  = l) as Hout.
        { intros g js. induction js as [|j js IHjs]; intros l Hl; [done|].
          cbn [foldl]. rewrite list_insert_ge by lia. by apply IHjs. }
        rewrite Hout by done.
        assert ((match list_find
                   (fun j => didx_n !!!
                      Z.to_nat (wrap_int (children_d !!! n * 8)
                                + Z.of_nat j) <> -1) (seq 0 8) with
                 | Some (_, j) =>
                     <[n := didx_n !!!
                              Z.to_nat (wrap_int (children_d !!! n * 8)
                                        + Z.of_nat j)]> di
                 | None => di
                 end) = di) as ->.
        { destruct (list_find _ _) as [[? j]|]; [|done].
          by rewrite list_insert_ge by lia. }
        split; [done|]. split; [done|]. intros i Hi.
        destruct (Hall i Hi) as [-> ->].
        destruct (decide ((i < n)%nat /\ children_d !!! i <> -1));
          [by rewrite !decide_True by (split; [lia | tauto])
          |by rewrite !decide_False by lia].
Qed.

End CoverLayer.

(** ** The ranges of a well linked octree *)

Lemma steps_equal (G : nat -> nat) (x m : nat) :
  (forall j, (j < m)%nat -> G (x + S j)%nat = G (x + j)%nat) ->
  G (x + m)%nat = G x.
Proof.
  induction m as [|m IH]; intros Hall; [by rewrite Nat.add_0_r|].
  rewrite Hall by lia. apply IH. intros j Hj. apply Hall. lia.
Qed.

Lemma steps_sum (G : nat -> nat) (x m : nat) :
  (forall p q, (p <= q)%nat -> (G p <= G q)%nat) ->
  Z.of_nat (G (x + m)%nat) < 2 ^ 31 ->
  foldl (fun acc j =>
           wrap_int (acc + Z.of_nat (G (x + S j)%nat - G (x + j)%nat)))
        0 (seq 0 m)
  = Z.of_nat (G (x + m)%nat - G x).
Proof.
  intros Hmono. induction m as [|m IH]; intros Hsmall.
  - cbn. rewrite Nat.add_0_r. lia.
  - rewrite seq_S, foldl_app. cbn [foldl Nat.add].
    pose proof (Hmono x (x + m)%nat ltac:(lia)).
    pose proof (Hmono (x + m)%nat (x + S m)%nat ltac:(lia)).
    rewrite IH by lia. rewrite wrap_int_small by lia. lia.
Qed.

Section Covered.

Variables (t : Octree) (D : nat).

Hypothesis header_depth : depth_ (oct_info_ t) = Z.of_nat D.
Hypothesis deep : (1 <= D)%nat.

Let cnt (e : nat) : nat := Z.to_nat (nnum (oct_info_ t) (Z.of_nat e)).
Let ch (e : nat) : list Z := children_ t !!! e.

Hypothesis sized : forall e, (e < D)%nat -> length (ch e) = cnt e.
Hypothesis next_layer :
  forall e, (e < D)%nat ->
    cnt (S e) = (8 * internal_before (ch e) (cnt e))%nat.
Hypothesis ranked :
  forall e s, (e < D)%nat -> (s < cnt e)%nat -> ch e !!! s <> -1 ->
    ch e !!! s = Z.of_nat (internal_before (ch e) s).
Hypothesis small : forall e, (e <= D)%nat -> Z.of_nat (cnt e) < 2 ^ 31.

Let F (e p : nat) : nat := finest_before (children_ t) e (D - e) p.
Let spec_num (e i : nat) : Z := Z.of_nat (F e (S i) - F e i).
Let spec_idx (e i : nat) : Z :=
  if decide (F e (S i) = F e i) then -1 else Z.of_nat (F e i).

Lemma F_last (p : nat) : F D p = p.
Proof using All. unfold F. by rewrite Nat.sub_diag. Qed.

Lemma F_step (e p : nat) :
  (e < D)%nat -> F e p = F (S e) (8 * internal_before (ch e) p).
Proof using All.
  intros He. unfold F. by replace (D - e)%nat with (S (D - S e)) by lia.
Qed.

Lemma F_mono (e p q : nat) : (p <= q)%nat -> (F e p <= F e q)%nat.
Proof using All. apply finest_before_mono. Qed.

Lemma F_all (e : nat) : (e <= D)%nat -> F e (cnt e) = cnt D.
Proof using All.
  intros He. remember (D - e)%nat as n eqn:Hn. revert e Hn He.
  induction n as [|n IH]; intros e Hn He.
  - assert (e = D) as -> by lia. apply F_last.
  - rewrite F_step by lia. rewrite <- next_layer by lia. apply IH; lia.
Qed.

Lemma F_bound (e p : nat) :
  (e <= D)%nat -> (p <= cnt e)%nat -> Z.of_nat (F e p) < 2 ^ 31.
Proof using All.
  intros He Hp. pose proof (F_mono e p (cnt e) Hp) as Hle.
  rewrite F_all in Hle by done. pose proof (small D ltac:(lia)). lia.
Qed.

Lemma leaf_spec (e i : nat) :
  (e < D)%nat -> (i < cnt e)%nat -> ch e !!! i = -1 ->
  spec_num e i = 0 /\ spec_idx e i = -1.
Proof using All.
  intros He Hi Hleaf. unfold spec_num, spec_idx.
  rewrite !(F_step e) by done.
  rewrite internal_before_S by (rewrite sized by done; lia).
  rewrite decide_True by done. rewrite Nat.add_0_r.
  rewrite decide_True by done. split; [lia | done].
Qed.

Lemma internal_block (e i : nat) :
  (e < D)%nat -> (i < cnt e)%nat -> ch e !!! i <> -1 ->
  let c := internal_before (ch e) i in
  ch e !!! i = Z.of_nat c
  /\ (8 * c + 8 <= cnt (S e))%nat
  /\ F e i = F (S e) (8 * c)
  /\ F e (S i) = F (S e) (8 * c + 8).
Proof using All.
  intros He Hi Hint c.
  assert (internal_before (ch e) (S i) = S c) as Hnext.
  { rewrite internal_before_S by (rewrite sized by done; lia).
    rewrite decide_False by done. unfold c. lia. }
  pose proof (internal_before_le (ch e) (S i) (cnt e) ltac:(lia)) as Hle.
  split; [by apply ranked|]. split.
  - rewrite next_layer by done. lia.
  - rewrite !(F_step e) by done. rewrite Hnext. split; [done|].
    f_equal. lia.
Qed.

(** The sum and the first index that the loop takes from the block of an
    internal node, when the next layer holds its final values. *)
Lemma block_sum (e i : nat) (dnum_n : list Z) :
  (S e < D)%nat -> (i < cnt e)%nat -> ch e !!! i <> -1 ->
  (forall x, (x < cnt (S e))%nat -> dnum_n !!! x = spec_num (S e) x) ->
  foldl (fun acc j =>
           wrap_int (acc + dnum_n !!!
                             Z.to_nat (wrap_int (ch e !!! i * 8) + Z.of_nat j)))
        0 (seq 0 8)
  = spec_num e i.
Proof using All.
  intros He Hi Hint Hnext.
  destruct (internal_block e i ltac:(lia) Hi Hint) as (Hc & Hfit & HF & HFS).
  set (c := internal_before (ch e) i) in *.
  pose proof (small (S e) ltac:(lia)) as Hsmall.
  rewrite Hc. rewrite wrap_int_small by lia.
  erewrite foldl_ext_in.
  - rewrite (steps_sum (F (S e)) (8 * c) 8).
    + unfold spec_num. by rewrite HF, HFS.
    + apply F_mono.
    + apply F_bound; lia.
  - intros acc j Hj. apply elem_of_seq in Hj. cbn beta.
    replace (Z.to_nat (Z.of_nat c * 8 + Z.of_nat j)) with (8 * c + j)%nat
      by lia.
    rewrite Hnext by lia. unfold spec_num.
    by replace (S (8 * c + j)) with (8 * c + S j)%nat by lia.
Qed.

Lemma block_first (e i : nat) (didx_n : list Z) :
  (S e < D)%nat -> (i < cnt e)%nat -> ch e !!! i <> -1 ->
  (forall x, (x < cnt (S e))%nat -> didx_n !!! x = spec_idx (S e) x) ->
  match list_find
          (fun j => didx_n !!!
                      Z.to_nat (wrap_int (ch e !!! i * 8) + Z.of_nat j) <> -1)
          (seq 0 8) with
  | Some (_, j) =>
      didx_n !!! Z.to_nat (wrap_int (ch e !!! i * 8) + Z.of_nat j)
  | None => -1
  end = spec_idx e i.
Proof using All.
  intros He Hi Hint Hnext.
  destruct (internal_block e i ltac:(lia) Hi Hint) as (Hc & Hfit & HF & HFS).
  set (c := internal_before (ch e) i) in *.
  pose proof (small (S e) ltac:(lia)) as Hsmall.
  rewrite Hc. rewrite wrap_int_small by lia.
  assert (forall j, (j < 8)%nat ->
            didx_n !!! Z.to_nat (Z.of_nat c * 8 + Z.of_nat j)
            = spec_idx (S e) (8 * c + j)) as Hread.
  { intros j Hj.
    replace (Z.to_nat (Z.of_nat c * 8 + Z.of_nat j)) with (8 * c + j)%nat
      by lia.
    apply Hnext. lia. }
  assert (forall j, spec_idx (S e) (8 * c + j) = -1
                    <-> F (S e) (8 * c + S j) = F (S e) (8 * c + j)) as Hnone.
  { intros j. unfold spec_idx.
    replace (S (8 * c + j)) with (8 * c + S j)%nat by lia.
    case_decide; [done|]. split; [lia | done]. }
  unfold spec_idx. rewrite HF, HFS.
  destruct (list_find _ _) as [[pos j]|] eqn:Hfind.
  - apply list_find_Some in Hfind as (Hpos & HP & Hbefore).
    apply lookup_seq in Hpos as [-> Hpos]. cbn [Nat.add] in *.
    rewrite Hread in HP |- * by done.
    assert (F (S e) (8 * c + pos) = F (S e) (8 * c)) as Hsame.
    { apply steps_equal. intros j Hj. apply Hnone.
      rewrite <- Hread by lia.
      destruct (decide (didx_n !!! Z.to_nat (Z.of_nat c * 8 + Z.of_nat j)
                        = -1)) as [|Hne]; [done|].
      exfalso. apply (Hbefore j j); [|lia|done].
      apply lookup_seq. split; [done | lia]. }
    assert (F (S e) (8 * c + S pos) <> F (S e) (8 * c + pos)) as Hstep
      by (intros Heq; by apply HP, Hnone).
    pose proof (F_mono (S e) (8 * c + pos) (8 * c + S pos) ltac:(lia)).
    pose proof (F_mono (S e) (8 * c + S pos) (8 * c + 8) ltac:(lia)).
    rewrite decide_False by lia.
    unfold spec_idx. replace (S (8 * c + pos)) with (8 * c + S pos)%nat by lia.
    rewrite decide_False by done. by rewrite Hsame.
  - apply list_find_None in Hfind. rewrite Forall_forall in Hfind.
    rewrite decide_True; [done|].
    apply steps_equal. intros j Hj. apply Hnone.
    rewrite <- Hread by lia.
    destruct (decide (didx_n !!! Z.to_nat (Z.of_nat c * 8 + Z.of_nat j)
                      = -1)) as [|Hne]; [done|].
    exfalso. apply (Hfind j); [apply elem_of_seq; lia | done].
Qed.

(** The tables after the first two loops, and one round of the third. *)
Let table (v : Z) : list (list Z) :=
  map (fun d => replicate (cnt d) v) (seq 0 (S D)).
Let A1 : list Z :=
  foldl (fun l i => <[i := 1]> l) (replicate (cnt D) 0) (seq 0 (cnt D)).
Let B1 : list Z :=
  foldl (fun l i => <[i := Z.of_nat i]> l) (replicate (cnt D) (-1))
        (seq 0 (cnt D)).
Let fa2 (l : list Z) (i : nat) : list Z :=
  if decide (node_type (ch (D - 1) !!! i) = kLeaf) then l
  else <[i := 8]> l.
Let fb2 (l : list Z) (i : nat) : list Z :=
  if decide (node_type (ch (D - 1) !!! i) = kLeaf) then l
  else <[i := wrap_int (ch (D - 1) !!! i * 8)]> l.
Let A2 : list Z :=
  foldl fa2 (replicate (cnt (D - 1)) 0) (seq 0 (cnt (D - 1))).
Let B2 : list Z :=
  foldl fb2 (replicate (cnt (D - 1)) (-1)) (seq 0 (cnt (D - 1))).
Let stage2 : list (list Z) * list (list Z) :=
  (<[(D - 1)%nat := A2]> (<[D := A1]> (table 0)),
   <[(D - 1)%nat := B2]> (<[D := B1]> (table (-1)))).
Let step : list (list Z) * list (list Z) -> nat
           -> list (list Z) * list (list Z) :=
  fun '(dnum, didx) d =>
  let '(dnum_d, didx_d) :=
    foldl (cover_node (children_ t !!! d) (dnum !!! S d) (didx !!! S d))
          (dnum !!! d, didx !!! d) (seq 0 (cnt d)) in
  (<[d := dnum_d]> dnum, <[d := didx_d]> didx).

Lemma table_size (v : Z) : length (table v) = S D.
Proof using All. unfold table. by rewrite length_map, length_seq. Qed.

Lemma table_lookup (v : Z) (e : nat) :
  (e <= D)%nat -> table v !!! e = replicate (cnt e) v.
Proof using All.
  intros He. unfold table.
  rewrite lookup_total_map by (rewrite length_seq; lia).
  by rewrite lookup_total_seq_lt by lia.
Qed.

Lemma covered_unfold :
  covered_depth_nodes t = foldl step stage2 (rev (seq 0 (D - 1))).
Proof using All.
  assert (foldl (fun '(dnum, didx) i =>
                   (<[D := <[i := 1]> (dnum !!! D)]> dnum,
                    <[D := <[i := Z.of_nat i]> (didx !!! D)]> didx))
                (table 0, table (-1)) (seq 0 (cnt D))
          = (<[D := A1]> (table 0), <[D := B1]> (table (-1)))) as Hfirst.
  { rewrite (table_fold D (fun l i => <[i := 1]> l)
               (fun l i => <[i := Z.of_nat i]> l))
      by (rewrite ?table_size; (lia || done)).
    by rewrite !table_lookup by lia. }
  assert (foldl (fun '(dnum, didx) i =>
                   let t := (children_ t !!! (D - 1)%nat) !!! i in
                   if decide (node_type t = kLeaf) then (dnum, didx)
                   else (<[(D - 1)%nat := <[i := 8]> (dnum !!! (D - 1)%nat)]>
                           dnum,
                         <[(D - 1)%nat := <[i := wrap_int (t * 8)]>
                                            (didx !!! (D - 1)%nat)]> didx))
                (<[D := A1]> (table 0), <[D := B1]> (table (-1)))
                (seq 0 (cnt (D - 1)))
          = stage2) as Hsecond.
  { rewrite (table_fold (D - 1) fa2 fb2); cycle 1.
    { rewrite length_insert, table_size. lia. }
    { rewrite length_insert, table_size. lia. }
    { intros dn di i Hdn Hdi. unfold fa2, fb2, ch. cbn zeta.
      case_decide; [|done].
      by rewrite !list_insert_id by (by apply list_lookup_lookup_total_lt). }
    rewrite !list_lookup_total_insert_ne by lia.
    by rewrite !table_lookup by lia. }
  unfold covered_depth_nodes. rewrite header_depth.
  rewrite Nat2Z.id.
  replace (Z.to_nat (Z.of_nat D + 1)) with (S D) by lia.
  replace (Z.to_nat (Z.of_nat D - 1)) with (D - 1)%nat by lia.
  replace (Z.of_nat D - 1) with (Z.of_nat (D - 1)) by lia.
  cbn zeta in Hfirst, Hsecond |- *.
  change (map (fun d : nat =>
                 replicate (Z.to_nat (nnum (oct_info_ t) (Z.of_nat d))) 0)
            (seq 0 (S D))) with (table 0).
  change (map (fun d : nat =>
                 replicate (Z.to_nat (nnum (oct_info_ t) (Z.of_nat d))) (-1))
            (seq 0 (S D))) with (table (-1)).
  change (Z.to_nat (nnum (oct_info_ t) (Z.of_nat D))) with (cnt D).
  change (Z.to_nat (nnum (oct_info_ t) (Z.of_nat (D - 1))))
    with (cnt (D - 1)).
  rewrite Hfirst. lazy beta iota. rewrite Hsecond.
  unfold stage2. reflexivity.
Qed.

Lemma A1_spec :
  length A1 = cnt D /\ forall i, (i < cnt D)%nat -> A1 !!! i = 1.
Proof using All.
  destruct (fold_write (fun _ => Some 1) (fun l i => <[i := 1]> l)
              (replicate (cnt D) 0) (cnt D)) as [Hlen Hall]; [done|].
  rewrite length_replicate in Hlen, Hall. split; [done|].
  intros i Hi. unfold A1. rewrite Hall by done.
  by rewrite decide_True by done.
Qed.

Lemma B1_spec :
  length B1 = cnt D /\ forall i, (i < cnt D)%nat -> B1 !!! i = Z.of_nat i.
Proof using All.
  destruct (fold_write (fun i => Some (Z.of_nat i))
              (fun l i => <[i := Z.of_nat i]> l)
              (replicate (cnt D) (-1)) (cnt D)) as [Hlen Hall]; [done|].
  rewrite length_replicate in Hlen, Hall. split; [done|].
  intros i Hi. unfold B1. rewrite Hall by done.
  by rewrite decide_True by done.
Qed.

Lemma A2_spec :
  length A2 = cnt (D - 1)
  /\ forall i, (i < cnt (D - 1))%nat ->
       A2 !!! i = if decide (ch (D - 1) !!! i = -1) then 0 else 8.
Proof using All.
  destruct (fold_write
              (fun i => if decide (node_type (ch (D - 1) !!! i) = kLeaf)
                        then None else Some 8)
              fa2 (replicate (cnt (D - 1)) 0) (cnt (D - 1)))
    as [Hlen Hall].
  { intros l i. unfold fa2. by case_decide. }
  rewrite length_replicate in Hlen, Hall. split; [done|].
  intros i Hi. unfold A2. rewrite Hall by done.
  rewrite decide_True by done.
  rewrite lookup_total_replicate_2 by done.
  destruct (decide (node_type (ch (D - 1) !!! i) = kLeaf)) as [Hleaf|Hint].
  - apply node_type_leaf in Hleaf. by rewrite decide_True.
  - rewrite decide_False; [done|]. intros Hc. by apply Hint, node_type_leaf.
Qed.

Lemma B2_spec :
  length B2 = cnt (D - 1)
  /\ forall i, (i < cnt (D - 1))%nat ->
       B2 !!! i = if decide (ch (D - 1) !!! i = -1) then -1
                  else wrap_int (ch (D - 1) !!! i * 8).
Proof using All.
  destruct (fold_write
              (fun i => if decide (node_type (ch (D - 1) !!! i) = kLeaf)
                        then None
                        else Some (wrap_int (ch (D - 1) !!! i * 8)))
              fb2 (replicate (cnt (D - 1)) (-1)) (cnt (D - 1)))
    as [Hlen Hall].
  { intros l i. unfold fb2. by case_decide. }
  rewrite length_replicate in Hlen, Hall. split; [done|].
  intros i Hi. unfold B2. rewrite Hall by done.
  rewrite decide_True by done.
  rewrite lookup_total_replicate_2 by done.
  destruct (decide (node_type (ch (D - 1) !!! i) = kLeaf)) as [Hleaf|Hint].
  - apply node_type_leaf in Hleaf. by rewrite decide_True.
  - rewrite decide_False; [done|]. intros Hc. by apply Hint, node_type_leaf.
Qed.

(** The layers from [lo] on hold their final values, the layers above
    are as the first loop set them. *)
Let Inv (lo : nat) (st : list (list Z) * list (list Z)) : Prop :=
  length st.1 = S D /\ length st.2 = S D
  /\ (forall e, (lo <= e <= D)%nat ->
        length (st.1 !!! e) = cnt e /\ length (st.2 !!! e) = cnt e
        /\ forall i, (i < cnt e)%nat ->
             (st.1 !!! e) !!! i = spec_num e i
             /\ (st.2 !!! e) !!! i = spec_idx e i)
  /\ (forall e, (e < lo)%nat ->
        st.1 !!! e = replicate (cnt e) 0
        /\ st.2 !!! e = replicate (cnt e) (-1)).

Lemma stage2_inv : Inv (D - 1) stage2.
Proof using All.
  destruct A1_spec as [HA1 HA1v]. destruct B1_spec as [HB1 HB1v].
  destruct A2_spec as [HA2 HA2v]. destruct B2_spec as [HB2 HB2v].
  unfold Inv, stage2. cbn [fst snd].
  rewrite !length_insert, !table_size.
  split; [done|]. split; [done|]. split.
  - intros e He. destruct (decide (e = D)) as [->|Hne].
    + rewrite !(list_lookup_total_insert_ne _ (D - 1)%nat D) by lia.
      rewrite !(list_lookup_total_insert_eq _ D)
        by (rewrite table_size; lia).
      split; [done|]. split; [done|]. intros i Hi.
      rewrite HA1v, HB1v by done. unfold spec_num, spec_idx.
      rewrite !F_last. rewrite decide_False by lia. split; [lia | done].
    + assert (e = D - 1)%nat as -> by lia.
      rewrite !(list_lookup_total_insert_eq _ (D - 1)%nat)
        by (rewrite length_insert, table_size; lia).
      split; [done|]. split; [done|]. intros i Hi.
      rewrite HA2v, HB2v by done.
      destruct (decide (ch (D - 1) !!! i = -1)) as [Hleaf|Hint].
      * destruct (leaf_spec (D - 1) i ltac:(lia) Hi Hleaf) as [-> ->]. done.
      * destruct (internal_block (D - 1) i ltac:(lia) Hi Hint)
          as (Hc & Hfit & HF & HFS).
        replace (S (D - 1)) with D in Hfit, HF, HFS by lia.
        rewrite F_last in HF, HFS.
        pose proof (small D ltac:(lia)) as Hsmall.
        unfold spec_num, spec_idx. rewrite HF, HFS.
        rewrite decide_False by lia. rewrite Hc.
        rewrite wrap_int_small by lia. split; lia.
  - intros e He.
    rewrite !(list_lookup_total_insert_ne _ (D - 1)%nat e) by lia.
    rewrite !(list_lookup_total_insert_ne _ D e) by lia.
    by rewrite !table_lookup by lia.
Qed.

Lemma step_inv (lo : nat) (st : list (list Z) * list (list Z)) :
  (1 <= lo <= D - 1)%nat -> Inv lo st -> Inv (lo - 1) (step st (lo - 1)).
Proof using All.
  intros Hlo (Hlen1 & Hlen2 & Hdone & Hfresh).
  destruct st as [dnum didx]. cbn [fst snd] in *.
  destruct lo as [|d]; [lia|]. replace (S d - 1)%nat with d by lia.
  destruct (Hdone (S d) ltac:(lia)) as (HlenA & HlenB & Hnext).
  destruct (Hfresh d ltac:(lia)) as [HdA HdB].
  unfold step. rewrite HdA, HdB.
  pose proof (cover_layer (children_ t !!! d) (dnum !!! S d) (didx !!! S d)
                (cnt d) (replicate (cnt d) 0) (replicate (cnt d) (-1))) as Hc.
  cbn zeta beta in Hc. rewrite !length_replicate in Hc.
  specialize (Hc eq_refl).
  destruct (foldl _ _ (seq 0 (cnt d))) as [dn di]. cbn [fst snd] in Hc.
  destruct Hc as (Hdn & Hdi & Hall).
  unfold Inv. cbn [fst snd]. rewrite !length_insert.
  split; [done|]. split; [done|]. split.
  - intros e He. destruct (decide (e = d)) as [->|Hne].
    + rewrite !list_lookup_total_insert_eq by lia.
      split; [done|]. split; [done|]. intros i Hi.
      destruct (Hall i Hi) as [-> ->].
      rewrite !lookup_total_replicate_2 by done.
      fold (ch d).
      destruct (decide (ch d !!! i = -1)) as [Hleaf|Hint].
      * rewrite !decide_False by (intros [_ ?]; done).
        by destruct (leaf_spec d i ltac:(lia) Hi Hleaf) as [-> ->].
      * rewrite !decide_True by done. split.
        -- apply block_sum; [lia | done | done |].
           intros x Hx. by apply Hnext.
        -- apply block_first; [lia | done | done |].
           intros x Hx. by apply Hnext.
    + rewrite !list_lookup_total_insert_ne by done.
      apply Hdone. lia.
  - intros e He.
    rewrite !list_lookup_total_insert_ne by lia.
    apply Hfresh. lia.
Qed.

Lemma cover_rounds (k : nat) :
  (k <= D - 1)%nat ->
  Inv (D - 1 - k) (foldl step stage2 (rev (seq (D - 1 - k) k))).
Proof using All.
  induction k as [|k IH]; intros Hk.
  - cbn [seq rev foldl]. rewrite Nat.sub_0_r. apply stage2_inv.
  - replace (D - 1 - k)%nat with (S (D - 1 - S k)) in IH by lia.
    cbn [seq rev]. rewrite foldl_app. cbn [foldl].
    pose proof (step_inv (S (D - 1 - S k)) _ ltac:(lia) (IH ltac:(lia)))
      as Hstep.
    by replace (S (D - 1 - S k) - 1)%nat with (D - 1 - S k)%nat in Hstep
      by lia.
Qed.

Lemma covered_spec (e i : nat) :
  (e <= D)%nat -> (i < cnt e)%nat ->
  ((covered_depth_nodes t).1 !!! e) !!! i = spec_num e i
  /\ ((covered_depth_nodes t).2 !!! e) !!! i = spec_idx e i.
Proof using All.
  intros He Hi. rewrite covered_unfold.
  pose proof (cover_rounds (D - 1) ltac:(lia)) as (_ & _ & Hdone & _).
  rewrite Nat.sub_diag in Hdone.
  destruct (Hdone e ltac:(lia)) as (_ & _ & Hall). by apply Hall.
Qed.

End Covered.

Lemma finest_before_0 (children : list (list Z)) (e n : nat) :
  finest_before children e n 0 = 0%nat.
Proof.
  revert e. induction n as [|n IH]; intros e; [done|].
  cbn [finest_before]. rewrite internal_before_0. apply IH.
Qed.

(** X19.  [covered_depth_nodes] on an octree in block order, built or
    trimmed.  Let [before p] be the number of nodes of the finest layer
    that descend from the nodes before node [p] of layer [e].  Then
    [dnum_[e][i]] is the number of finest nodes below node [i], that is
    [before (i + 1) - before i], and [didx_[e][i]] is the index
    [before i] of the first of them, or [-1] when there is none, also
    for an internal node whose descendants were all trimmed away.  The
    ranges of the nodes of a layer follow each other and cover the
    finest layer. *)
Theorem covered_depth_nodes_ranges (t : Octree) (D e i : nat) :
  depth_ (oct_info_ t) = Z.of_nat D -> (1 <= D)%nat ->
  (forall d, (d <= D)%nat ->
     length (keys_ t !!! d) = Z.to_nat (nnum (oct_info_ t) (Z.of_nat d))
     /\ length (children_ t !!! d)
        = Z.to_nat (nnum (oct_info_ t) (Z.of_nat d))
     /\ nnum (oct_info_ t) (Z.of_nat d) < 2 ^ 31) ->
  (forall d, (d < D)%nat ->
     block_linked (keys_ t !!! d) (children_ t !!! d) (keys_ t !!! S d)) ->
  (e <= D)%nat ->
  (i < Z.to_nat (nnum (oct_info_ t) (Z.of_nat e)))%nat ->
  let before := finest_before (children_ t) e (D - e) in
  let cover := covered_depth_nodes t in
  (cover.1 !!! e) !!! i = Z.of_nat (before (S i) - before i)
  /\ (cover.2 !!! e) !!! i
     = (if decide (before (S i) = before i) then -1
        else Z.of_nat (before i))
  /\ (before i <= before (S i))%nat
  /\ before 0%nat = 0%nat
  /\ before (Z.to_nat (nnum (oct_info_ t) (Z.of_nat e)))
     = Z.to_nat (nnum (oct_info_ t) (Z.of_nat D)).
Proof.
  intros Hdepth Hdeep Hsizes Hlinked He Hi before cover.
  assert (forall d, (d < D)%nat ->
            length (children_ t !!! d)
            = Z.to_nat (nnum (oct_info_ t) (Z.of_nat d))) as Hsized.
  { intros d Hd. by destruct (Hsizes d ltac:(lia)) as (_ & -> & _). }
  assert (forall d, (d < D)%nat ->
            Z.to_nat (nnum (oct_info_ t) (Z.of_nat (S d)))
            = (8 * internal_before (children_ t !!! d)
                     (Z.to_nat (nnum (oct_info_ t) (Z.of_nat d))))%nat)
    as Hnext.
  { intros d Hd. destruct (Hlinked d Hd) as [Hsize _].
    destruct (Hsizes (S d) ltac:(lia)) as (<- & _).
    by rewrite Hsize, Hsized. }
  assert (forall d s, (d < D)%nat ->
            (s < Z.to_nat (nnum (oct_info_ t) (Z.of_nat d)))%nat ->
            (children_ t !!! d) !!! s <> -1 ->
            (children_ t !!! d) !!! s
            = Z.of_nat (internal_before (children_ t !!! d) s)) as Hranked.
  { intros d s Hd Hs Hint. destruct (Hlinked d Hd) as [_ Hlink].
    rewrite <- Hsized in Hs by done.
    by destruct (Hlink s Hs Hint). }
  assert (forall d, (d <= D)%nat ->
            Z.of_nat (Z.to_nat (nnum (oct_info_ t) (Z.of_nat d))) < 2 ^ 31)
    as Hsmall.
  { intros d Hd. destruct (Hsizes d Hd) as (_ & _ & Hlt). lia. }
  destruct (covered_spec t D Hdepth Hdeep Hsized Hnext Hranked Hsmall e i
              He Hi) as [Hnum Hidx].
  split; [exact Hnum|]. split; [exact Hidx|]. split.
  - by apply finest_before_mono; lia.
  - split; [apply finest_before_0|].
    by apply (F_all t D Hdepth Hdeep Hsized Hnext Hranked Hsmall).
Qed.

Lemma sample_deep_trimmed_sizes (d : nat) :
  (d <= 3)%nat ->
  length (keys_ (trim_octree sample_deep) !!! d)
  = Z.to_nat (nnum (oct_info_ (trim_octree sample_deep)) (Z.of_nat d))
  /\ length (children_ (trim_octree sample_deep) !!! d)
     = Z.to_nat (nnum (oct_info_ (trim_octree sample_deep)) (Z.of_nat d))
  /\ nnum (oct_info_ (trim_octree sample_deep)) (Z.of_nat d) < 2 ^ 31.
Proof.
  intros Hd. do 4 (destruct d as [|d]; [by vm_compute|]). lia.
Qed.

(** X19 on the trimmed sample: the last node of layer 1 covers the
    second half of the finest layer. *)
Lemma covered_depth_nodes_ranges_sample :
  let t := trim_octree sample_deep in
  let before := finest_before (children_ t) 1 (3 - 1) in
  let cover := covered_depth_nodes t in
  (cover.1 !!! 1%nat) !!! 7%nat = Z.of_nat (before 8%nat - before 7%nat)
  /\ (cover.2 !!! 1%nat) !!! 7%nat
     = (if decide (before 8%nat = before 7%nat) then -1
        else Z.of_nat (before 7%nat))
  /\ (before 7%nat <= before 8%nat)%nat
  /\ before 0%nat = 0%nat
  /\ before (Z.to_nat (nnum (oct_info_ t) (Z.of_nat 1)))
     = Z.to_nat (nnum (oct_info_ t) (Z.of_nat 3)).
Proof.
  apply (covered_depth_nodes_ranges (trim_octree sample_deep) 3 1 7).
  - by vm_compute.
  - lia.
  - exact sample_deep_trimmed_sizes.
  - intros d Hd.
    exact (trimmed_block_linked sample_deep 3 2 eq_refl sample_deep_ready
             sample_deep_sizes sample_deep_linked d Hd).
  - lia.
  - vm_compute. lia.
Defined.

(** * The payload of a trimmed layer *)

Lemma fold_push {A} (g : nat -> A) (data : list A) (cs : list nat) :
  foldl (fun data c => data ++ [g c]) data cs = data ++ (g <$> cs).
Proof.
  revert data. induction cs as [|c cs IH]; intros data; cbn [foldl].
  - by rewrite app_nil_r.
  - rewrite IH. by rewrite <- app_assoc.
Qed.

Lemma bind_uniform_length {A} (m : nat) (f : nat -> list A) (l : list nat) :
  (forall x, length (f x) = m) -> length (l ≫= f) = (length l * m)%nat.
Proof.
  intros Hf. induction l as [|x l IH]; [done|].
  rewrite bind_cons, length_app, Hf, IH. simpl. lia.
Qed.

Lemma bind_uniform_lookup {A} `{Inhabited A} (m : nat) (f : nat -> list A)
    (l : list nat) (r k : nat) :
  (forall x, length (f x) = m) -> (r < length l)%nat -> (k < m)%nat ->
  (l ≫= f) !!! (r * m + k)%nat = f (l !!! r) !!! k.
Proof.
  intros Hf. revert r. induction l as [|x l IH]; intros r Hr Hk;
    [simpl in Hr; lia|].
  rewrite bind_cons. destruct r as [|r].
  - rewrite lookup_total_app_l by (rewrite Hf; lia). done.
  - rewrite lookup_total_app_r by (rewrite Hf; lia). rewrite Hf.
    replace (S r * m + k - m)%nat with (r * m + k)%nat by lia.
    simpl in Hr. rewrite IH by lia. done.
Qed.

(** The first loop of [trim_data]: the columns of the kept nodes, one
    after the other. *)
Lemma gather_kept (drop_d : list TrimType) (signal : list float)
    (stride channel n : nat) :
  foldl (fun data i =>
           if decide (drop_d !!! i = kDrop) then data
           else foldl (fun data c =>
                         data ++ [signal !!! (c * stride + i)%nat])
                      data (seq 0 channel))
        [] (seq 0 n)
  = kept_nodes drop_d n ≫= fun i =>
      (fun c => signal !!! (c * stride + i)%nat) <$> seq 0 channel.
Proof.
  induction n as [|n IH]; [done|].
  rewrite seq_S, foldl_app, kept_nodes_S, bind_app. cbn [foldl Nat.add].
  rewrite IH. case_decide.
  - by rewrite app_nil_r.
  - rewrite (fold_push (fun c => signal !!! (c * stride + n)%nat)).
    by rewrite bind_cons, app_nil_r.
Qed.

(** X20.  The lambda [trim_data] of [trim_octree] on a channel-major
    vector with [channel = size / nnum_d] channels.  A vector with fewer
    than [nnum_d] entries is left as it is.  Otherwise the result has
    one column for each kept node, in channel-major order again: entry
    [p] of channel [c] is the entry of channel [c] of the [p]-th node
    whose flag is not [kDrop], and entries past the last complete
    channel are dropped. *)
Theorem trim_data_layout (drop_d : list TrimType) (nnum_d : nat)
    (signal : list float) :
  (0 < nnum_d)%nat ->
  let channel := (length signal / nnum_d)%nat in
  let kept := kept_nodes drop_d nnum_d in
  if decide (length signal < nnum_d)%nat
  then trim_data drop_d nnum_d signal = signal
  else
    length (trim_data drop_d nnum_d signal) = (channel * length kept)%nat
    /\ forall c p, (c < channel)%nat -> (p < length kept)%nat ->
         trim_data drop_d nnum_d signal !!! (c * length kept + p)%nat
         = signal !!! (c * nnum_d + kept !!! p)%nat.
Proof.
  intros Hpos channel kept. unfold trim_data. fold channel.
  case_decide as Hshort.
  - assert (channel = 0)%nat as -> by (by apply Nat.div_small).
    done.
  - assert (1 <= channel)%nat as Hch.
    { unfold channel. apply Nat.div_le_lower_bound; lia. }
    destruct (Nat.eqb_spec channel 0) as [|_]; [lia|].
    rewrite gather_kept. fold kept.
    set (column := fun i : nat =>
                     (fun c : nat => signal !!! (c * nnum_d + i)%nat)
                       <$> seq 0 channel).
    assert (forall i, length (column i) = channel) as Hcol.
    { intros i. unfold column. by rewrite length_fmap, length_seq. }
    set (data := kept ≫= column).
    assert (length data = (length kept * channel)%nat) as Hdata
      by (by apply bind_uniform_length).
    rewrite Hdata, Nat.div_mul by lia.
    set (K := length kept) in *.
    set (init := resize (K * channel) (FFin 0) signal).
    set (cells := seq 0 K ≫= fun i => pair i <$> seq 0 channel).
    assert (foldl (fun signal i =>
                     foldl (fun signal c =>
                              <[(c * K + i)%nat :=
                                  data !!! (i * channel + c)%nat]> signal)
                           signal (seq 0 channel))
                  init (seq 0 K)
            = foldl (fun signal (ic : nat * nat) =>
                       <[(ic.2 * K + ic.1)%nat :=
                           data !!! (ic.1 * channel + ic.2)%nat]> signal)
                    init cells) as ->.
    { unfold cells. rewrite foldl_bind. apply foldl_ext_in.
      intros s i _. by rewrite foldl_fmap. }
    split.
    + rewrite (scatter_length (fun ic : nat * nat => (ic.2 * K + ic.1)%nat)
                 (fun ic => data !!! (ic.1 * channel + ic.2)%nat)).
      unfold init. rewrite length_resize. lia.
    + intros c p Hc Hp.
      assert (NoDup (map (fun ic : nat * nat => (ic.2 * K + ic.1)%nat)
                       cells)) as Hnd.
      { change (NoDup ((fun ic : nat * nat => (ic.2 * K + ic.1)%nat)
                         <$> cells)).
        apply NoDup_fmap_2_strong.
        - intros [i1 c1] [i2 c2] H1 H2 Heq. cbn [fst snd] in Heq.
          apply list_elem_of_bind in H1 as (? & H1 & Hi1).
          apply list_elem_of_fmap in H1 as (? & [= <- <-] & _).
          apply list_elem_of_bind in H2 as (? & H2 & Hi2).
          apply list_elem_of_fmap in H2 as (? & [= <- <-] & _).
          apply elem_of_seq in Hi1, Hi2.
          assert (c1 = c2) as -> by nia.
          f_equal. lia.
        - apply NoDup_bind; [| |apply NoDup_seq].
          + intros i1 i2 [i c'] _ _ H1 H2.
            apply list_elem_of_fmap in H1 as (? & [= -> ->] & _).
            by apply list_elem_of_fmap in H2 as (? & [= -> _] & _).
          + intros i _. apply NoDup_fmap_2; [|apply NoDup_seq].
            by intros ? ? [= ->]. }
      pose proof (scatter_stored
                    (fun ic : nat * nat => (ic.2 * K + ic.1)%nat)
                    (fun ic => data !!! (ic.1 * channel + ic.2)%nat)
                    init cells (p, c) Hnd) as Hstore.
      cbn [fst snd] in Hstore. rewrite Hstore.
      * unfold data. rewrite bind_uniform_lookup by done.
        unfold column.
        rewrite (list_lookup_total_fmap _ (seq 0 channel) c)
          by (rewrite length_seq; lia).
        by rewrite lookup_total_seq_lt by lia.
      * unfold cells. apply list_elem_of_bind. exists p.
        split; [|apply elem_of_seq; lia].
        apply list_elem_of_fmap. exists c.
        split; [done | apply elem_of_seq; lia].
      * unfold init. rewrite length_resize. nia.
Qed.

(** X20 on a layer of three nodes with two channels: the middle node is
    removed, its two entries go. *)
Lemma trim_data_layout_sample :
  let drop_d := [kKeep; kDrop; kDropChildren] in
  let signal := [FFin 1; FFin 2; FFin 3; FFin 4; FFin 5; FFin 6] in
  let channel := (length signal / 3)%nat in
  let kept := kept_nodes drop_d 3 in
  if decide (length signal < 3)%nat
  then trim_data drop_d 3 signal = signal
  else
    length (trim_data drop_d 3 signal) = (channel * length kept)%nat
    /\ forall c p, (c < channel)%nat -> (p < length kept)%nat ->
         trim_data drop_d 3 signal !!! (c * length kept + p)%nat
         = signal !!! (c * 3 + kept !!! p)%nat.
Proof.
  apply (trim_data_layout [kKeep; kDrop; kDropChildren] 3
           [FFin 1; FFin 2; FFin 3; FFin 4; FFin 5; FFin 6]).
  lia.
Defined.

(** * The serialized layers *)

Lemma concat_layers_length {A} (f : nat -> list A) (d : nat) :
  Z.of_nat (length (concat (map f (seq 0 d))))
  = prefix_sum (fun e => Z.of_nat (length (f e))) d.
Proof.
  induction d as [|d IH]; [done|].
  rewrite seq_S, map_app, concat_app, length_app. cbn [map concat Nat.add].
  rewrite app_nil_r, prefix_sum_S. lia.
Qed.

Lemma concat_layers_lookup {A} `{Inhabited A} (f : nat -> list A)
    (n d i : nat) :
  (d < n)%nat -> (i < length (f d))%nat ->
  concat (map f (seq 0 n)) !!! (length (concat (map f (seq 0 d))) + i)%nat
  = f d !!! i.
Proof.
  intros Hd Hi.
  replace n with (d + S (n - S d))%nat by lia.
  rewrite seq_app, map_app, concat_app. cbn [seq map concat Nat.add].
  rewrite lookup_total_app_r by lia.
  replace (length (concat (map f (seq 0 d))) + i
           - length (concat (map f (seq 0 d))))%nat with i by lia.
  by rewrite lookup_total_app_l by done.
Qed.

Lemma copy_prefix_nonneg (n : nat) (src dst : list Z) :
  Forall (fun x => 0 <= x) dst ->
  (forall e, (e < n)%nat -> 0 <= src !!! e) ->
  Forall (fun x => 0 <= x) (copy_prefix n src dst).
Proof.
  intros Hdst Hsrc.
  apply (Forall_lookup_total_2 (fun x : Z => 0 <= x)). intros e He.
  unfold copy_prefix.
  destruct (scatter_origin (fun i : nat => i) (fun i => src !!! i) dst
              (seq 0 n) e) as [->|(j & Hj & _ & ->)].
  - by apply lookup_total_nonneg.
  - apply elem_of_seq in Hj. apply Hsrc. lia.
Qed.

(** The cumulative counts that [calc_node_num] stores. *)
Lemma calc_node_num_cum (T : Octree) (D d : nat) :
  depth_ (oct_info_ T) = Z.of_nat D -> (D <= 13)%nat ->
  length (nnum_ (oct_info_ T)) = 16%nat ->
  length (nnum_cum_ (oct_info_ T)) = 16%nat ->
  Forall (fun x => 0 <= x) (nnum_ (oct_info_ T)) ->
  prefix_sum (fun e => Z.of_nat (length (keys_ T !!! e))) (S D) < 2 ^ 31 ->
  (d <= S D)%nat ->
  nnum_cum_ (oct_info_ (calc_node_num T)) !!! d
  = prefix_sum (fun e => Z.of_nat (length (keys_ T !!! e))) d.
Proof.
  intros Hdepth HD Hnnum Hcum Hpos Hfit Hd.
  unfold calc_node_num. cbn [oct_info_ put_oct_info].
  unfold set_ptr_dis. cbn [nnum_cum_ with_ptr_dis].
  set (node_num :=
         map (fun d => wrap_int (Z.of_nat (length (keys_ T !!! d))))
             (seq 0 (Z.to_nat (depth_ (oct_info_ T) + 1)))).
  set (o1 := set_nempty _ (set_nnum node_num (oct_info_ T))).
  assert (depth_ o1 = Z.of_nat D) as Hd1 by done.
  assert (nnum_cum_ o1 = nnum_cum_ (oct_info_ T)) as Hc1 by done.
  assert (nnum_ o1
          = copy_prefix (S D) node_num (nnum_ (oct_info_ T))) as Hn1.
  { unfold o1, set_nempty, set_nnum. cbn [nnum_ with_nnum_nempty with_nnum].
    rewrite Hdepth. f_equal. lia. }
  assert (forall e, (e <= D)%nat -> 0 <= Z.of_nat (length (keys_ T !!! e))
                                    < 2 ^ 31) as Hlayer.
  { intros e He.
    set (g := fun e : nat => Z.of_nat (length (keys_ T !!! e))) in *.
    assert (forall e, 0 <= g e) as Hg by (intros; unfold g; lia).
    pose proof (prefix_sum_mono g (S e) (S D) Hg ltac:(lia)) as Hle.
    pose proof (prefix_sum_nonneg g e Hg).
    rewrite (prefix_sum_S g e) in Hle. change (0 <= g e < 2 ^ 31).
    specialize (Hg e). lia. }
  assert (forall e, (e <= D)%nat ->
            nnum_ o1 !!! e = Z.of_nat (length (keys_ T !!! e))) as Hval.
  { intros e He. rewrite Hn1, copy_prefix_lookup by lia.
    unfold node_num. rewrite Hdepth.
    rewrite lookup_total_map by (rewrite length_seq; lia).
    rewrite lookup_total_seq_lt by lia. cbn [Nat.add].
    apply wrap_int_small. specialize (Hlayer e He). lia. }
  assert (total_nodes o1
          = prefix_sum (fun e => Z.of_nat (length (keys_ T !!! e))) (S D))
    as Htotal.
  { unfold total_nodes. rewrite Hd1.
    replace (Z.to_nat (Z.of_nat D + 1)) with (S D) by lia.
    apply prefix_sum_ext. intros e He. apply Hval. lia. }
  destruct (set_nnum_cum_lookup o1 default_capacity) as (_ & Hlookup & _).
  - lia.
  - by rewrite Hc1.
  - rewrite Hn1. apply copy_prefix_nonneg; [done|].
    intros e He. unfold node_num. rewrite Hdepth.
    rewrite lookup_total_map by (rewrite length_seq; lia).
    rewrite lookup_total_seq_lt by lia. cbn [Nat.add].
    rewrite wrap_int_small; specialize (Hlayer e ltac:(lia)); lia.
  - by rewrite Htotal.
  - rewrite Hlookup by (rewrite Hd1; lia).
    apply prefix_sum_ext. intros e He. apply Hval. lia.
Qed.

(** X21.  Where [serialize] puts a layer.  After [calc_node_num], a
    property that is stored on every layer (location [-1]) and has one
    entry per node, such as the keys or the child links, is written layer
    after layer: entry [i] of layer [d] is element [nnum_cum[d] + i] of
    the block, and the block has [nnum_cum[depth + 1]] elements. *)
Theorem serialize_layer_offsets (T : Octree) (src : list (list Z))
    (D d i : nat) :
  depth_ (oct_info_ T) = Z.of_nat D -> (D <= 13)%nat ->
  length (nnum_ (oct_info_ T)) = 16%nat ->
  length (nnum_cum_ (oct_info_ T)) = 16%nat ->
  Forall (fun x => 0 <= x) (nnum_ (oct_info_ T)) ->
  prefix_sum (fun e => Z.of_nat (length (keys_ T !!! e))) (S D) < 2 ^ 31 ->
  (forall e, (e <= D)%nat -> length (src !!! e) = length (keys_ T !!! e)) ->
  (d <= D)%nat -> (i < length (src !!! d))%nat ->
  let info := oct_info_ (calc_node_num T) in
  let out := serialize_property (depth_ info) src (-1) in
  Z.of_nat (length out) = nnum_cum_ info !!! S D
  /\ out !!! Z.to_nat (nnum_cum_ info !!! d + Z.of_nat i) = (src !!! d) !!! i.
Proof.
  intros Hdepth HD Hnnum Hcum Hpos Hfit Hsrc Hd Hi info out.
  assert (depth_ info = Z.of_nat D) as Hinfo.
  { unfold info. by destruct (calc_node_num_fields T) as (_ & _ & -> & _). }
  unfold out. rewrite serialize_property_all, Hinfo.
  replace (Z.to_nat (Z.of_nat D + 1)) with (S D) by lia.
  unfold info.
  rewrite !(calc_node_num_cum T D) by (done || lia).
  assert (forall k, (k <= S D)%nat ->
            prefix_sum (fun e => Z.of_nat (length (keys_ T !!! e))) k
            = Z.of_nat (length (concat (map (fun e => src !!! e)
                                          (seq 0 k))))) as Hsum.
  { intros k Hk. rewrite concat_layers_length.
    apply prefix_sum_ext. intros e He. by rewrite Hsrc by lia. }
  rewrite !Hsum by lia. split; [done|].
  replace (Z.to_nat (Z.of_nat (length (concat (map (fun e => src !!! e)
                                                (seq 0 d)))) + Z.of_nat i))
    with (length (concat (map (fun e => src !!! e) (seq 0 d))) + i)%nat
    by lia.
  by apply (concat_layers_lookup (fun e => src !!! e)); [lia|].
Qed.

(** X21 on the sample of depth 3: the key of node 23 of layer 2 is
    element 32 of the key block. *)
Lemma serialize_layer_offsets_sample :
  let T := (build_structure [3; 12; 13; 70; 511]
              (clear 3 sample_deep_empty)).1 in
  let info := oct_info_ (calc_node_num T) in
  let out := serialize_property (depth_ info) (keys_ T) (-1) in
  Z.of_nat (length out) = nnum_cum_ info !!! 4%nat
  /\ out !!! Z.to_nat (nnum_cum_ info !!! 2%nat + Z.of_nat 23)
     = (keys_ T !!! 2%nat) !!! 23%nat.
Proof.
  apply (serialize_layer_offsets
           (build_structure [3; 12; 13; 70; 511]
              (clear 3 sample_deep_empty)).1
           (keys_ (build_structure [3; 12; 13; 70; 511]
                     (clear 3 sample_deep_empty)).1) 3 2 23).
  - by vm_compute.
  - lia.
  - by vm_compute.
  - by vm_compute.
  - vm_compute. repeat constructor; discriminate.
  - by vm_compute.
  - done.
  - lia.
  - vm_compute. lia.
Defined.

(** * The adaptive layer keeps its nodes *)

Lemma kept_nodes_none (drop_d : list TrimType) (n : nat) :
  (forall i, (i < n)%nat -> drop_d !!! i <> kDrop) ->
  kept_nodes drop_d n = seq 0 n.
Proof.
  induction n as [|n IH]; intros Hall; [done|].
  rewrite kept_nodes_S, IH by (intros i Hi; apply Hall; lia).
  rewrite decide_False by (apply Hall; lia). by rewrite seq_S.
Qed.

Section KeptLayer.

Variables (has_dis : bool) (th_dist th_norm : float).
Variables (children_d : list Z) (normal_err_d distance_err_d : list float).
Variables (children_dp : list Z) (drop_dp : list TrimType).
Variables (nnum_dp nnum_d : nat).

Hypothesis linked_blocks : blocks_ok nnum_dp nnum_d children_dp.
Hypothesis parents_kept :
  forall i, (i < nnum_dp)%nat -> drop_dp !!! i = kKeep.

(** Below a layer whose flags are all [kKeep] no cell is flagged
    [kDrop]. *)
Lemma flag_layer_no_drop (idx : nat) :
  flag_layer has_dis th_dist th_norm children_d normal_err_d
    distance_err_d nnum_dp children_dp drop_dp (replicate nnum_d kKeep)
    !!! idx <> kDrop.
Proof using All.
  destruct (generate_flags_spec has_dis th_dist th_norm children_d
              normal_err_d distance_err_d children_dp drop_dp nnum_dp
              nnum_d linked_blocks) as (Hlen & Hspec & Hfree & _).
  unfold flag_layer.
  destruct (generate_flags _ _ _ _ _ _ _ _ _ _) as [drop_d all_drop].
  cbn [fst snd] in *.
  assert (drop_d !!! idx <> kDrop) as Hfirst.
  { destruct (decide (idx ∈ seq 0 nnum_dp ≫= block_cells children_dp))
      as [Hin|Hout].
    - apply list_elem_of_bind in Hin as (i & Hin & Hi).
      apply elem_of_seq in Hi.
      rewrite (Hspec i idx ltac:(lia) Hin). unfold flag_spec.
      rewrite decide_True by (apply parents_kept; lia).
      by destruct (small_error _ _ _ _ _ _).
    - rewrite Hfree; [done|]. intros i Hi Hin. apply Hout.
      apply list_elem_of_bind. exists i.
      split; [done | apply elem_of_seq; lia]. }
  destruct all_drop; [|done].
  set (restored := (find_max children_d normal_err_d nnum_dp children_dp
                      drop_dp).1).
  destruct (decide (idx = restored)) as [->|Hne].
  - destruct (decide (restored < length drop_d)%nat).
    + by rewrite list_lookup_total_insert_eq by done.
    + by rewrite list_insert_ge by lia.
  - by rewrite list_lookup_total_insert_ne by done.
Qed.

End KeptLayer.

(** X22.  [trim_octree] removes no node of the adaptive layer or of a
    layer above it: the keys of these layers are the keys before the
    call, and above the adaptive layer the child links are unchanged as
    well.  On the adaptive layer itself only child links change, where a
    node loses its children. *)
Theorem adaptive_layer_kept (t : Octree) (D A d : nat) :
  trim_ready t D A -> (d <= A)%nat ->
  length (keys_ t !!! d) = Z.to_nat (nnum (oct_info_ t) (Z.of_nat d)) ->
  keys_ (trim_octree t) !!! d = keys_ t !!! d
  /\ ((d < A)%nat -> children_ (trim_octree t) !!! d = children_ t !!! d).
Proof.
  intros Hready Hd Hsize.
  pose proof Hready as [(HD & HA & Hle) _ [Hk Hc] _ Hblocks _ _ _].
  assert (forall i, (drop_flags t !!! d) !!! i <> kDrop) as Hkept.
  { intros i. destruct (decide (d = A)) as [->|Hne].
    - rewrite (drop_flags_own_round t D A Hready) by lia.
      rewrite (flag_rounds_round t D A Hready) by lia.
      apply flag_layer_no_drop; [apply Hblocks; lia|].
      intros j Hj. rewrite Nat.sub_diag.
      rewrite (flag_rounds_earlier t D A Hready) by lia.
      by apply lookup_total_replicate_2.
    - rewrite (drop_flags_upper t D A Hready) by lia.
      destruct (decide (i < Z.to_nat (nnum (oct_info_ t) (Z.of_nat d)))%nat).
      + by rewrite lookup_total_replicate_2.
      + rewrite list_lookup_total_alt, lookup_ge_None_2; [done|].
        rewrite length_replicate. lia. }
  destruct (trim_octree_layer t d) as [[-> ->]|Hneg]; [|lia].
  split.
  - case_decide; [|done].
    rewrite trim_keys_kept, kept_nodes_none by (intros; apply Hkept).
    rewrite fmap_seq_lookup by lia. apply take_ge. lia.
  - intros Hlt. by rewrite decide_False by lia.
Qed.

(** X22 on the sample of depth 3: layer 1, above the adaptive layer, is
    left as it is. *)
Lemma adaptive_layer_kept_sample :
  keys_ (trim_octree sample_deep) !!! 1%nat = keys_ sample_deep !!! 1%nat
  /\ ((1 < 2)%nat ->
      children_ (trim_octree sample_deep) !!! 1%nat
      = children_ sample_deep !!! 1%nat).
Proof.
  apply (adaptive_layer_kept sample_deep 3 2 1).
  - exact sample_deep_ready.
  - lia.
  - by vm_compute.
Defined.
(** ** From the points to the runs *)

(** A position lies in one run only. *)
Lemma position_one_run (idx : list Z) (q : Z) (b b' : nat) :
  StronglySorted Z.lt idx ->
  (S b < length idx)%nat -> (S b' < length idx)%nat ->
  idx !!! b <= q < idx !!! S b -> idx !!! b' <= q < idx !!! S b' -> b = b'.
Proof.
  intros Hs Hb Hb' Hq Hq'.
  destruct (Nat.lt_trichotomy b b') as [Hlt|[Heq|Hgt]]; [|done|].
  - pose proof (StronglySorted_lt_le_lookup idx (S b) b' Hs ltac:(lia)
                  ltac:(lia)). lia.
  - pose proof (StronglySorted_lt_le_lookup idx (S b') b Hs ltac:(lia)
                  ltac:(lia)). lia.
Qed.

(** C6.  For a point cloud of [N >= 1] points, and at most [2^32] of
    them, the range of the index word of the sort codes: the keys that
    [sort_keys] returns are non-decreasing, and the boundary vector that
    [unique_key] returns on them is strictly increasing, starts at 0 and
    ends at [N], so its run lengths sum to [N].  The runs assign every
    point to exactly one occupied node of the finest layer.
    [sorted_idx] is a rearrangement of the point indices and
    [sorted_keys[r]] is the key of the point [sorted_idx[r]]; the keys
    that [unique_key] returns, one per run, are strictly increasing, and
    every position of run [b] holds the key of run [b]; each point [h]
    stands at exactly one position [r] of the sorted order, [r] lies in
    exactly one run [b], the key of run [b] is the key of the point, and
    no other run has that key. *)
Theorem sorted_keys_and_runs (depth : Z) (pts_scaled : list float) :
  let N := (length pts_scaled / 3)%nat in
  let key_of i :=
    compute_key
      (map (fun j => float_to_uint32 (pts_scaled !!! (3 * i + j)%nat))
           (seq 0 3))
      (Z.to_nat depth) in
  let sorted_keys := (sort_keys depth pts_scaled).1 in
  let sorted_idx := (sort_keys depth pts_scaled).2 in
  let unique_keys := (unique_key sorted_keys).1 in
  let unique_idx := (unique_key sorted_keys).2 in
  (1 <= N)%nat -> Z.of_nat N <= 2 ^ 32 ->
  length sorted_keys = N /\ StronglySorted Z.le sorted_keys
  /\ StronglySorted Z.lt unique_idx /\ head unique_idx = Some 0
  /\ last unique_idx = Some (Z.of_nat N)
  /\ sum_list_Z (run_lengths unique_idx) = Z.of_nat N
  /\ sorted_idx ≡ₚ Z.of_nat <$> seq 0 N
  /\ (forall r, (r < N)%nat ->
        sorted_keys !!! r = key_of (Z.to_nat (sorted_idx !!! r)))
  /\ length unique_idx = S (length unique_keys)
  /\ StronglySorted Z.lt unique_keys
  /\ (forall q b, (b < length unique_keys)%nat ->
        unique_idx !!! b <= Z.of_nat q < unique_idx !!! S b ->
        sorted_keys !!! q = unique_keys !!! b)
  /\ forall h, (h < N)%nat ->
       exists r b,
         (r < N)%nat /\ sorted_idx !!! r = Z.of_nat h
         /\ (b < length unique_keys)%nat
         /\ unique_idx !!! b <= Z.of_nat r < unique_idx !!! S b
         /\ unique_keys !!! b = key_of h
         /\ (forall r', (r' < N)%nat -> sorted_idx !!! r' = Z.of_nat h ->
               r' = r)
         /\ (forall b', (b' < length unique_keys)%nat ->
               unique_idx !!! b' <= Z.of_nat r < unique_idx !!! S b' ->
               b' = b)
         /\ (forall b', (b' < length unique_keys)%nat ->
               unique_keys !!! b' = key_of h -> b' = b).
Proof.
  intros N key_of sorted_keys sorted_idx unique_keys unique_idx Hone HN.
  destruct (sort_keys_runs_shape depth pts_scaled Hone)
    as (Hlen & Hsorted & Hidx & Hhead & Hlast & Hsum).
  fold N sorted_keys unique_idx in Hlen, Hsorted, Hidx, Hhead, Hlast, Hsum.
  set (keys := map key_of (seq 0 N)).
  assert (length keys = N) as Hkeys
    by (unfold keys; by rewrite length_map, length_seq).
  assert (sorted_keys = unpack_keys (sort_codes keys)) as Hsk by done.
  assert (sorted_idx = unpack_idx (sort_codes keys)) as Hsi by done.
  assert (Z.of_nat (length keys) <= 2 ^ 32) as Hfew by (by rewrite Hkeys).
  assert (sorted_idx ≡ₚ Z.of_nat <$> seq 0 N) as Hperm.
  { rewrite Hsi, <- Hkeys. by apply sort_codes_idx_perm. }
  assert (length sorted_idx = N) as Hlen2.
  { by rewrite Hperm, length_fmap, length_seq. }
  assert (NoDup sorted_idx) as Hnodup.
  { rewrite Hperm. apply NoDup_fmap_2; [apply _ | apply NoDup_seq]. }
  assert (forall r, (r < N)%nat ->
            0 <= sorted_idx !!! r < Z.of_nat N
            /\ sorted_keys !!! r = key_of (Z.to_nat (sorted_idx !!! r)))
    as Hpair.
  { intros r Hr.
    destruct (sort_codes_pair keys Hfew r ltac:(lia)) as [Hi Hk].
    rewrite <- Hsk, <- Hsi in Hk. rewrite <- Hsi, Hkeys in Hi.
    split; [done|]. rewrite Hk. unfold keys.
    rewrite lookup_total_map by (rewrite length_seq; lia).
    rewrite lookup_total_seq_lt by lia. cbn [Nat.add].
    apply wrap_uint32_small, compute_key_uint32. }
  assert (Forall (fun k => 0 <= k < 2 ^ 32) sorted_keys) as Hrange.
  { apply Forall_lookup_2. intros q x Hqx.
    pose proof (lookup_lt_Some _ _ _ Hqx) as Hq. rewrite Hlen in Hq.
    apply list_lookup_total_correct in Hqx as <-.
    destruct (Hpair q Hq) as [_ ->]. apply compute_key_uint32. }
  destruct (unique_sorted_occupied sorted_keys (2 ^ 32) ltac:(lia) Hsorted
              Hrange) as [Hocc _].
  fold unique_keys in Hocc.
  destruct (unique_key_post sorted_keys ltac:(lia))
    as [[Hcount _] _ _ _ _ _ Hruns _].
  fold unique_keys unique_idx in Hcount, Hruns.
  assert (forall q b, (b < length unique_keys)%nat ->
            unique_idx !!! b <= Z.of_nat q < unique_idx !!! S b ->
            (q < N)%nat) as Hin.
  { intros q b Hb Hq.
    assert (unique_idx !!! S b <= Z.of_nat N); [|lia].
    rewrite last_lookup, Hcount in Hlast. cbn [Init.Nat.pred] in Hlast.
    apply list_lookup_total_correct in Hlast. rewrite <- Hlast.
    apply StronglySorted_lt_le_lookup; [done | lia | lia]. }
  assert (forall q b, (b < length unique_keys)%nat ->
            unique_idx !!! b <= Z.of_nat q < unique_idx !!! S b ->
            sorted_keys !!! q = unique_keys !!! b) as Hrun.
  { intros q b Hb Hq.
    destruct (Hruns q) as (b0 & Hb0 & Hq0 & Hk0).
    { rewrite Hlen. by apply (Hin q b). }
    rewrite Hk0. f_equal.
    apply (position_one_run unique_idx (Z.of_nat q)); (done || lia). }
  split; [done|]. split; [done|]. split; [done|]. split; [done|].
  split; [done|]. split; [done|]. split; [done|].
  split; [intros r Hr; by apply Hpair|].
  split; [done|]. split; [by destruct Hocc|]. split; [done|].
  intros h Hh.
  assert (Z.of_nat h ∈ sorted_idx) as Hel.
  { rewrite Hperm. apply list_elem_of_fmap. exists h. split; [done|].
    apply elem_of_seq. lia. }
  apply list_elem_of_lookup_total_1 in Hel as (r & Hr & Hrh).
  rewrite Hlen2 in Hr.
  destruct (Hpair r Hr) as [_ Hkr]. rewrite Hrh, Nat2Z.id in Hkr.
  destruct (Hruns r ltac:(lia)) as (b & Hb & Hq & Hk).
  exists r, b.
  split; [done|]. split; [done|]. split; [done|]. split; [done|].
  split; [by rewrite <- Hk|].
  split; [|split].
  - intros r' Hr' Hrh'.
    apply (NoDup_lookup sorted_idx r' r (Z.of_nat h) Hnodup).
    + rewrite <- Hrh'. apply list_lookup_lookup_total_lt. lia.
    + rewrite <- Hrh. apply list_lookup_lookup_total_lt. lia.
  - intros b' Hb' Hq'.
    apply (position_one_run unique_idx (Z.of_nat r)); (done || lia).
  - intros b' Hb' Hk'.
    apply (occupied_inj _ _ b' b Hocc); [done | done |].
    by rewrite Hk', <- Hk.
Qed.

(** C6 on nine coordinates: three points, the first and the last in the
    same cell of layer 1. *)
Lemma sorted_keys_and_runs_sample :
  let pts :=
    [FFin 0; FFin 0; FFin 0; FFin (2 ^ 149); FFin 0; FFin 0;
     FFin 0; FFin 0; FFin 0] in
  let key_of i :=
    compute_key
      (map (fun j => float_to_uint32 (pts !!! (3 * i + j)%nat)) (seq 0 3))
      (Z.to_nat 1) in
  let sorted_keys := (sort_keys 1 pts).1 in
  let sorted_idx := (sort_keys 1 pts).2 in
  let unique_keys := (unique_key sorted_keys).1 in
  let unique_idx := (unique_key sorted_keys).2 in
  length sorted_keys = 3%nat /\ StronglySorted Z.le sorted_keys
  /\ StronglySorted Z.lt unique_idx /\ head unique_idx = Some 0
  /\ last unique_idx = Some 3
  /\ sum_list_Z (run_lengths unique_idx) = 3
  /\ sorted_idx ≡ₚ Z.of_nat <$> seq 0 3
  /\ (forall r, (r < 3)%nat ->
        sorted_keys !!! r = key_of (Z.to_nat (sorted_idx !!! r)))
  /\ length unique_idx = S (length unique_keys)
  /\ StronglySorted Z.lt unique_keys
  /\ (forall q b, (b < length unique_keys)%nat ->
        unique_idx !!! b <= Z.of_nat q < unique_idx !!! S b ->
        sorted_keys !!! q = unique_keys !!! b)
  /\ forall h, (h < 3)%nat ->
       exists r b,
         (r < 3)%nat /\ sorted_idx !!! r = Z.of_nat h
         /\ (b < length unique_keys)%nat
         /\ unique_idx !!! b <= Z.of_nat r < unique_idx !!! S b
         /\ unique_keys !!! b = key_of h
         /\ (forall r', (r' < 3)%nat -> sorted_idx !!! r' = Z.of_nat h ->
               r' = r)
         /\ (forall b', (b' < length unique_keys)%nat ->
               unique_idx !!! b' <= Z.of_nat r < unique_idx !!! S b' ->
               b' = b)
         /\ (forall b', (b' < length unique_keys)%nat ->
               unique_keys !!! b' = key_of h -> b' = b).
Proof.
  apply (sorted_keys_and_runs 1
           [FFin 0; FFin 0; FFin 0; FFin (2 ^ 149); FFin 0; FFin 0;
            FFin 0; FFin 0; FFin 0]).
  - simpl. lia.
  - simpl. lia.
Defined.
